(** * umeshu: the half-edge triangulation of [Triangulation.h]

    A shallow embedding of [umeshu::Triangulation] and the properties of its
    topological mutators and of its point-location walk.

    Handles are natural numbers; the entity store keeps one finite map per
    entity kind.  A null handle is [None]; dereferencing a null or deleted
    handle, or failing a [BOOST_ASSERT], is the outcome [Fault].  The C++
    exceptions [bad_topology_error] and [add_face_error] are outcomes of the
    same names; an exception leaves the store as it was when it was thrown. *)

From stdpp Require Import gmap list.
From Stdlib Require Import ZArith Lia.

(** ** The geometric kernel *)

Inductive Oriented_side := ON_NEGATIVE_SIDE | ON_ORIENTED_BOUNDARY | ON_POSITIVE_SIDE.

Inductive Point_location := IN_FACE | ON_EDGE | ON_NODE | OUTSIDE_MESH.

(** The template parameter [Kernel_] together with the point type: the
    coordinates, their comparison [<], equality of points and the
    orientation predicate.  None of them is defined in [Triangulation.h]. *)
Class Kernel := {
  coord : Type;
  coord_lt : coord -> coord -> bool;
  Point2 : Type;
  pt_x : Point2 -> coord;
  pt_y : Point2 -> coord;
  pt_eq : Point2 -> Point2 -> bool;
  oriented_side : Point2 -> Point2 -> Point2 -> Oriented_side
}.

(** An exact kernel on the integer grid, used to run the examples. *)
Definition Z_side (a b p : Z * Z) : Oriented_side :=
  let d := ((b.1 - a.1) * (p.2 - a.2) - (b.2 - a.2) * (p.1 - a.1))%Z in
  if (0 <? d)%Z then ON_POSITIVE_SIDE
  else if (d <? 0)%Z then ON_NEGATIVE_SIDE else ON_ORIENTED_BOUNDARY.

Definition Z_kernel : Kernel := {|
  coord := Z;
  coord_lt := Z.ltb;
  Point2 := Z * Z;
  pt_x := fst;
  pt_y := snd;
  pt_eq := fun p q => (p.1 =? q.1)%Z && (p.2 =? q.2)%Z;
  oriented_side := Z_side
|}.

(** ** Outcomes *)

Inductive face_error := NOT_FREE | NOT_A_CHAIN | NON_MANIFOLD.

Inductive error :=
  | bad_topology_error
  | add_face_error (d : face_error)
  | Fault
  | Diverges.

Inductive result (A : Type) :=
  | Ok (a : A)
  | Err (e : error).
Arguments Ok {A} a.
Arguments Err {A} e.

Section Model.
Context {K : Kernel}.

(** ** The entities *)

Record Node := mkNode {
  n_position : option Point2;
  n_halfedge : option nat
}.

Record Halfedge := mkHalfedge {
  h_origin : option nat;
  h_pair : nat;
  h_next : nat;
  h_prev : nat;
  h_face : option nat;
  h_edge : nat
}.

Record Edge := mkEdge {
  e_he1 : nat;
  e_he2 : nat
}.

Record Face := mkFace {
  f_halfedge : option nat
}.

Record HDS := mkHDS {
  nodes : gmap nat Node;
  halfedges : gmap nat Halfedge;
  edges : gmap nat Edge;
  faces : gmap nat Face
}.

Definition empty_HDS : HDS := mkHDS ∅ ∅ ∅ ∅.

(** ** Reading the store *)

Definition live (s : HDS) (h : nat) : Prop := is_Some (halfedges s !! h).

Definition origin_of (s : HDS) (h : nat) : option nat :=
  match halfedges s !! h with Some r => h_origin r | None => None end.
Definition pair_of (s : HDS) (h : nat) : nat :=
  match halfedges s !! h with Some r => h_pair r | None => 0 end.
Definition next_of (s : HDS) (h : nat) : nat :=
  match halfedges s !! h with Some r => h_next r | None => 0 end.
Definition prev_of (s : HDS) (h : nat) : nat :=
  match halfedges s !! h with Some r => h_prev r | None => 0 end.
Definition face_of (s : HDS) (h : nat) : option nat :=
  match halfedges s !! h with Some r => h_face r | None => None end.
Definition edge_of (s : HDS) (h : nat) : nat :=
  match halfedges s !! h with Some r => h_edge r | None => 0 end.
Definition halfedge_of (s : HDS) (n : nat) : option nat :=
  match nodes s !! n with Some r => n_halfedge r | None => None end.

Definition position_of (s : HDS) (n : nat) : option Point2 :=
  match nodes s !! n with Some r => n_position r | None => None end.

(** ** Writing the store *)

Definition with_halfedges (s : HDS) (m : gmap nat Halfedge) : HDS :=
  mkHDS (nodes s) m (edges s) (faces s).
Definition with_nodes (s : HDS) (m : gmap nat Node) : HDS :=
  mkHDS m (halfedges s) (edges s) (faces s).
Definition with_edges (s : HDS) (m : gmap nat Edge) : HDS :=
  mkHDS (nodes s) (halfedges s) m (faces s).
Definition with_faces (s : HDS) (m : gmap nat Face) : HDS :=
  mkHDS (nodes s) (halfedges s) (edges s) m.

Definition upd_origin (h : nat) (n : option nat) (s : HDS) : HDS :=
  with_halfedges s
    (alter (fun r => mkHalfedge n (h_pair r) (h_next r) (h_prev r) (h_face r) (h_edge r))
       h (halfedges s)).
Definition upd_next (h x : nat) (s : HDS) : HDS :=
  with_halfedges s
    (alter (fun r => mkHalfedge (h_origin r) (h_pair r) x (h_prev r) (h_face r) (h_edge r))
       h (halfedges s)).
Definition upd_prev (h x : nat) (s : HDS) : HDS :=
  with_halfedges s
    (alter (fun r => mkHalfedge (h_origin r) (h_pair r) (h_next r) x (h_face r) (h_edge r))
       h (halfedges s)).
Definition upd_face (h : nat) (f : option nat) (s : HDS) : HDS :=
  with_halfedges s
    (alter (fun r => mkHalfedge (h_origin r) (h_pair r) (h_next r) (h_prev r) f (h_edge r))
       h (halfedges s)).
Definition upd_halfedge (n : nat) (h : option nat) (s : HDS) : HDS :=
  with_nodes s (alter (fun r => mkNode (n_position r) h) n (nodes s)).
Definition upd_position (n : nat) (p : Point2) (s : HDS) : HDS :=
  with_nodes s (alter (fun r => mkNode (Some p) (n_halfedge r)) n (nodes s)).
Definition upd_f_halfedge (f : nat) (h : nat) (s : HDS) : HDS :=
  with_faces s (alter (fun _ => mkFace (Some h)) f (faces s)).

(** ** The monad of the mutators: state, with exceptions that keep the state *)

Definition M (A : Type) : Type := HDS -> result A * HDS.

Definition throw {A} (e : error) : M A := fun s => (Err e, s).

Definition ret {A} (a : A) : M A := fun s => (Ok a, s).
Definition bind {A B} (m : M A) (f : A -> M B) : M B :=
  fun s => match m s with
           | (Ok a, s') => f a s'
           | (Err e, s') => (Err e, s')
           end.

Notation "'let*' x := m 'in' k" := (bind m (fun x => k))
  (at level 10, x binder, k at level 200,
   format "'[v' 'let*'  x  :=  m  'in'  '/' k ']'").

(** [BOOST_ASSERT] *)
Definition boost_assert (b : bool) : M unit :=
  if b then ret tt else throw Fault.

(** Dereferencing a halfedge, node, edge or face handle. *)
Definition deref_he {A} (h : nat) (f : Halfedge -> A) : M A :=
  fun s => match halfedges s !! h with
           | Some r => (Ok (f r), s)
           | None => (Err Fault, s)
           end.
Definition deref_node {A} (n : option nat) (f : Node -> A) : M A :=
  fun s => match n with
           | Some n' => match nodes s !! n' with
                        | Some r => (Ok (f r), s)
                        | None => (Err Fault, s)
                        end
           | None => (Err Fault, s)
           end.
Definition deref_edge {A} (e : nat) (f : Edge -> A) : M A :=
  fun s => match edges s !! e with
           | Some r => (Ok (f r), s)
           | None => (Err Fault, s)
           end.
Definition deref_face {A} (f : option nat) (g : Face -> A) : M A :=
  fun s => match f with
           | Some f' => match faces s !! f' with
                        | Some r => (Ok (g r), s)
                        | None => (Err Fault, s)
                        end
           | None => (Err Fault, s)
           end.

Definition modify (f : HDS -> HDS) : M unit := fun s => (Ok tt, f s).

(** [he->origin()], [he->pair()], ... and the setters of a halfedge. *)
Definition he_origin (h : nat) : M (option nat) := deref_he h h_origin.
Definition he_pair (h : nat) : M nat := deref_he h h_pair.
Definition he_next (h : nat) : M nat := deref_he h h_next.
Definition he_prev (h : nat) : M nat := deref_he h h_prev.
Definition he_face (h : nat) : M (option nat) := deref_he h h_face.
Definition he_edge (h : nat) : M nat := deref_he h h_edge.
Definition is_boundary (h : nat) : M bool :=
  deref_he h (fun r => bool_decide (h_face r = None)).

Definition set_origin (h : nat) (n : option nat) : M unit :=
  let* _ := deref_he h (fun _ => tt) in modify (upd_origin h n).
Definition set_next (h x : nat) : M unit :=
  let* _ := deref_he h (fun _ => tt) in modify (upd_next h x).
Definition set_prev (h x : nat) : M unit :=
  let* _ := deref_he h (fun _ => tt) in modify (upd_prev h x).
Definition set_face (h : nat) (f : option nat) : M unit :=
  let* _ := deref_he h (fun _ => tt) in modify (upd_face h f).

(** [n->halfedge()], [n->is_isolated()], ... of a node. *)
Definition node_halfedge (n : option nat) : M (option nat) := deref_node n n_halfedge.
Definition is_isolated (n : option nat) : M bool :=
  deref_node n (fun r => bool_decide (n_halfedge r = None)).
Definition position (n : option nat) : M Point2 :=
  let* p := deref_node n n_position in
  match p with Some p' => ret p' | None => throw Fault end.
Definition set_halfedge (n : option nat) (h : option nat) : M unit :=
  let* _ := deref_node n (fun _ => tt) in
  modify (fun s => match n with Some n' => upd_halfedge n' h s | None => s end).
Definition set_position (n : nat) (p : Point2) : M unit :=
  let* _ := deref_node (Some n) (fun _ => tt) in modify (upd_position n p).

Definition he1 (e : nat) : M nat := deref_edge e e_he1.
Definition he2 (e : nat) : M nat := deref_edge e e_he2.

Definition face_halfedge (f : option nat) : M nat :=
  let* h := deref_face f f_halfedge in
  match h with Some h' => ret h' | None => throw Fault end.
Definition face_set_halfedge (f : nat) (h : nat) : M unit :=
  let* _ := deref_face (Some f) (fun _ => tt) in modify (upd_f_halfedge f h).

(** C++ [a && b] on conditions that dereference handles. *)
Definition and_then (a b : M bool) : M bool :=
  let* x := a in if x then b else ret false.

(** ** The entity store *)

(** Modelled from the spec: [get_new_node] of the absent [HDS.h]
    ([allocate_node]): a new handle whose node is isolated. *)
Definition get_new_node : M (option nat) := fun s =>
  let n := fresh (dom (nodes s) : gset nat) in
  (Ok (Some n), with_nodes s (<[n := mkNode None None]> (nodes s))).

(** Modelled from the spec: [get_new_edge] of the absent [HDS.h]
    ([allocate_edge]): a new edge whose two halfedges are linked as a stub,
    [he1.pair = he2], [he2.pair = he1], [he1.next = he2], [he2.next = he1],
    [he1.prev = he2], [he2.prev = he1], with a null face and a null origin. *)
Definition get_new_edge : M nat := fun s =>
  let a := fresh (dom (halfedges s) : gset nat) in
  let b := fresh ({[a]} ∪ dom (halfedges s) : gset nat) in
  let e := fresh (dom (edges s) : gset nat) in
  (Ok e,
   mkHDS (nodes s)
     (<[b := mkHalfedge None a a a None e]>
        (<[a := mkHalfedge None b b b None e]> (halfedges s)))
     (<[e := mkEdge a b]> (edges s))
     (faces s)).

(** Modelled from the spec: [get_new_face] of the absent [HDS.h]
    ([allocate_face]). *)
Definition get_new_face : M nat := fun s =>
  let f := fresh (dom (faces s) : gset nat) in
  (Ok f, with_faces s (<[f := mkFace None]> (faces s))).

(** Modelled from the spec: [delete_node], [delete_edge] (which destroys the
    two halfedges of the edge) and [delete_face] of the absent [HDS.h]. *)
Definition delete_node (n : option nat) : M unit :=
  let* _ := deref_node n (fun _ => tt) in
  modify (fun s => match n with
                   | Some n' => with_nodes s (delete n' (nodes s))
                   | None => s
                   end).
Definition delete_edge (e : nat) : M unit :=
  let* a := he1 e in
  let* b := he2 e in
  modify (fun s => mkHDS (nodes s) (delete b (delete a (halfedges s)))
                     (delete e (edges s)) (faces s)).
Definition delete_face (f : option nat) : M unit :=
  let* _ := deref_face f (fun _ => tt) in
  modify (fun s => match f with
                   | Some f' => with_faces s (delete f' (faces s))
                   | None => s
                   end).

(** Modelled from the spec: [faces_begin] of the absent [HDS.h], the first
    face of the forward enumeration. *)
Definition faces_begin : M (option nat) := fun s =>
  match map_to_list (faces s) with
  | (f, _) :: _ => (Ok (Some f), s)
  | [] => (Err Fault, s)
  end.

(** ** The connectivity core (the private members) *)

(** The loop shared by the two [find_free_incident_halfedge]:
    [do { if (it->is_boundary()) return it; it = it->next()->pair(); }
     while (it != stop); throw bad_topology_error]. *)
Fixpoint free_walk (fuel : nat) (stop it : nat) : M nat :=
  match fuel with
  | 0 => throw Diverges
  | S fuel' =>
      let* b := is_boundary it in
      if b then ret it
      else
        let* nx := he_next it in
        let* it' := he_pair nx in
        if decide (it' = stop) then throw bad_topology_error
        else free_walk fuel' stop it'
  end.

(** A walk that has not come back after as many steps as there are
    halfedges never will: the bound is the size of the store. *)
Definition walk_fuel (s : HDS) : nat := S (size (halfedges s)).

Definition find_free_incident_halfedge (n : option nat) : M nat :=
  let* iso := is_isolated n in
  let* _ := boost_assert (negb iso) in
  let* h := node_halfedge n in
  match h with
  | None => throw Fault
  | Some h' =>
      let* he_start := he_pair h' in
      fun s => free_walk (walk_fuel s) he_start he_start s
  end.

Definition find_free_incident_halfedge2 (h1 h2 : nat) : M nat :=
  let* p1 := he_pair h1 in
  let* o1 := he_origin p1 in
  let* p2 := he_pair h2 in
  let* o2 := he_origin p2 in
  let* _ := boost_assert (bool_decide (o1 = o2)) in
  fun s => free_walk (walk_fuel s) h2 h1 s.

Definition attach_halfedge_to_node (he : nat) (n : option nat) : M unit :=
  let* _ := set_origin he n in
  let* iso := is_isolated n in
  if iso then
    let* _ := set_halfedge n (Some he) in
    let* p := he_pair he in
    let* _ := set_prev he p in
    let* p' := he_pair he in
    set_next p' he
  else
    let* free_in_he := find_free_incident_halfedge n in
    let* free_out_he := he_next free_in_he in
    let* _ := set_next free_in_he he in
    let* _ := set_prev he free_in_he in
    let* p := he_pair he in
    let* _ := set_next p free_out_he in
    let* p' := he_pair he in
    set_prev free_out_he p'.

Definition make_adjacent (in_ out : nat) : M bool :=
  let* nx := he_next in_ in
  if decide (nx = out) then ret true
  else
    let* b := he_next in_ in
    let* d := he_prev out in
    let* n := he_origin out in
    let* op := he_pair out in
    let* g := find_free_incident_halfedge2 op in_ in
    let* h := he_next g in
    let* _ := set_next in_ out in
    let* _ := set_prev out in_ in
    let* _ := set_next g b in
    let* _ := set_prev b g in
    let* _ := set_next d h in
    let* _ := set_prev h d in
    ret true.

Definition detach_edge (he : nat) : M unit :=
  let* n := he_origin he in
  let* nh := node_halfedge n in
  let* _ :=
    (if decide (nh = Some he) then
       let* p := he_pair he in
       let* pn := he_next p in
       if decide (pn ≠ he) then
         let* p' := he_pair he in
         let* pn' := he_next p' in
         set_halfedge n (Some pn')
       else set_halfedge n None
     else ret tt) in
  let* pv := he_prev he in
  let* p := he_pair he in
  let* pn := he_next p in
  let* _ := set_next pv pn in
  let* p' := he_pair he in
  let* pn' := he_next p' in
  let* pv' := he_prev he in
  set_prev pn' pv'.

(** ** The public mutators *)

Definition add_node (p : Point2) : M (option nat) :=
  let* n := get_new_node in
  match n with
  | Some n' => let* _ := set_position n' p in ret n
  | None => throw Fault
  end.

(** The handler of [add_edge] only adds a description to the exception and
    rethrows it. *)
Definition add_edge (n1 n2 : option nat) : M nat :=
  let* _ := boost_assert (bool_decide (n1 ≠ n2)) in
  let* e := get_new_edge in
  let* a := he1 e in
  let* b := he2 e in
  let* _ := attach_halfedge_to_node a n1 in
  let* _ := attach_halfedge_to_node b n2 in
  ret a.

Definition remove_face (f : option nat) : M unit :=
  let* h := face_halfedge f in
  let* _ := set_face h None in
  let* h' := face_halfedge f in
  let* hn := he_next h' in
  let* _ := set_face hn None in
  let* h'' := face_halfedge f in
  let* hp := he_prev h'' in
  let* _ := set_face hp None in
  delete_face f.

Definition remove_edge (e : nat) : M unit :=
  let* a := he1 e in
  let* ba := is_boundary a in
  let* _ := (if negb ba then let* f := he_face a in remove_face f else ret tt) in
  let* b := he2 e in
  let* bb := is_boundary b in
  let* _ := (if negb bb then let* f := he_face b in remove_face f else ret tt) in
  let* a' := he1 e in
  let* _ := detach_edge a' in
  let* b' := he2 e in
  let* _ := detach_edge b' in
  delete_edge e.

Fixpoint remove_node_loop (fuel : nat) (n : option nat) (next : option nat) : M unit :=
  match fuel with
  | 0 => throw Diverges
  | S fuel' =>
      let* iso := is_isolated n in
      if iso then ret tt
      else
        match next with
        | None => throw Fault
        | Some cur =>
            let* p := he_pair cur in
            let* next' := he_next p in
            let* e := he_edge cur in
            let* _ := remove_edge e in
            remove_node_loop fuel' n (Some next')
        end
  end.

(** Every turn of the loop deletes an edge, so the number of edges, plus
    one for the last test, bounds the number of turns. *)
Definition remove_node (n : option nat) : M unit :=
  let* next := node_halfedge n in
  let* _ := (fun s => remove_node_loop (S (size (edges s))) n next s) in
  delete_node n.

Definition chained (h h' : nat) : M bool :=
  let* p := he_pair h in
  let* o := he_origin p in
  let* o' := he_origin h' in
  ret (bool_decide (o = o')).

Definition add_face (h1 h2 h3 : nat) : M (option nat) :=
  let* free := and_then (is_boundary h1) (and_then (is_boundary h2) (is_boundary h3)) in
  if negb free then throw (add_face_error NOT_FREE)
  else
    let* chain := and_then (chained h1 h2) (and_then (chained h2 h3) (chained h3 h1)) in
    if negb chain then throw (add_face_error NOT_A_CHAIN)
    else
      let* adj := and_then (make_adjacent h1 h2)
                    (and_then (make_adjacent h2 h3) (make_adjacent h3 h1)) in
      if negb adj then throw (add_face_error NON_MANIFOLD)
      else
        let* f := get_new_face in
        let* _ := face_set_halfedge f h1 in
        let* _ := set_face h1 (Some f) in
        let* _ := set_face h2 (Some f) in
        let* _ := set_face h3 (Some f) in
        ret (Some f).

(** The side of [split_edge] that has a face: [h5 = h->next()],
    [h6 = h->prev()], [n3 = h6->origin()]. *)
Definition record_side (there : bool) (h : nat) : M (nat * nat * option nat) :=
  if there then
    let* h5 := he_next h in
    let* h6 := he_prev h in
    let* n3 := he_origin h6 in
    ret (h5, h6, n3)
  else ret (0, 0, None).

Definition split_edge (e : nat) (p : Point2) : M (option nat) :=
  let* h1 := he1 e in
  let* h2 := he2 e in
  let* n1 := he_origin h1 in
  let* n2 := he_origin h2 in
  let* b1 := is_boundary h1 in
  let* b2 := is_boundary h2 in
  let is_there_f1 := negb b1 in
  let is_there_f2 := negb b2 in
  let* side1 := record_side is_there_f1 h1 in
  let* side2 := record_side is_there_f2 h2 in
  let* _ := remove_edge e in
  let* n_new := add_node p in
  let* h1' := add_edge n_new n1 in
  let* h2' := add_edge n_new n2 in
  let* _ :=
    (if is_there_f1 then
       let '(h5, h6, n3) := side1 in
       let* h3 := add_edge n_new n3 in
       let* h3p := he_pair h3 in
       let* _ := add_face h2' h5 h3p in
       let* h1p := he_pair h1' in
       let* _ := add_face h3 h6 h1p in
       ret tt
     else ret tt) in
  let* _ :=
    (if is_there_f2 then
       let '(h7, h8, n4) := side2 in
       let* h4 := add_edge n_new n4 in
       let* h4p := he_pair h4 in
       let* _ := add_face h1' h7 h4p in
       let* h2p := he_pair h2' in
       let* _ := add_face h4 h8 h2p in
       ret tt
     else ret tt) in
  ret n_new.

Definition split_face (f : option nat) (p : Point2) : M (option nat) :=
  let* h1 := face_halfedge f in
  let* h2 := he_next h1 in
  let* h3 := he_prev h1 in
  let* _ := remove_face f in
  let* n_new := add_node p in
  let* o1 := he_origin h1 in
  let* h4 := add_edge n_new o1 in
  let* o2 := he_origin h2 in
  let* h5 := add_edge n_new o2 in
  let* o3 := he_origin h3 in
  let* h6 := add_edge n_new o3 in
  let* h5p := he_pair h5 in
  let* _ := add_face h4 h1 h5p in
  let* h6p := he_pair h6 in
  let* _ := add_face h5 h2 h6p in
  let* h4p := he_pair h4 in
  let* _ := add_face h6 h3 h4p in
  ret n_new.

(** ** [boundary_halfedge] *)

(** Modelled from the spec: [edges_begin] to [edges_end] of the absent
    [HDS.h], the forward enumeration of the edges of the store. *)
Definition edges_list (s : HDS) : list nat := (map_to_list (edges s)).*1.

(** The loop of [boundary_halfedge] over the enumeration of the edges. *)
Fixpoint boundary_scan (es : list nat) : M (option nat) :=
  match es with
  | [] => ret None
  | e :: es' =>
      let* a := he1 e in
      let* ba := is_boundary a in
      if ba then let* a' := he1 e in ret (Some a')
      else
        let* b := he2 e in
        let* bb := is_boundary b in
        if bb then let* b' := he2 e in ret (Some b')
        else boundary_scan es'
  end.

(** [boundary_halfedge]: the first halfedge without a face that the loop
    meets, [he1] of an edge before its [he2], or the null handle. *)
Definition boundary_halfedge : M (option nat) :=
  fun s => boundary_scan (edges_list s) s.

(** ** Point location *)

(** What [locate] hands back: the returned face handle and the three
    reference parameters [loc], [on_node] and [on_edge], which keep the
    caller's values unless the walk assigns them. *)
Record Located := mkLocated {
  l_face : option nat;
  l_loc : Point_location;
  l_on_node : option nat;
  l_on_edge : option nat
}.

Inductive walk_state :=
  | Return (r : Located)
  | Continue (he_start he_iter : nat).

(** [std::min] and [std::max] in terms of [<]. *)
Definition std_min (a b : coord) : coord := if coord_lt b a then b else a.
Definition std_max (a b : coord) : coord := if coord_lt a b then b else a.

Definition strictly_between (p1 p2 p : Point2) : bool :=
  (coord_lt (std_min (pt_x p1) (pt_x p2)) (pt_x p)
   && coord_lt (pt_x p) (std_max (pt_x p1) (pt_x p2)))
  || (coord_lt (std_min (pt_y p1) (pt_y p2)) (pt_y p)
      && coord_lt (pt_y p) (std_max (pt_y p1) (pt_y p2))).

(** [case ON_NEGATIVE_SIDE], also reached by falling through from
    [case ON_ORIENTED_BOUNDARY]. *)
Definition negative_side (out0 : Located) (he_iter : nat) : M walk_state :=
  let* pr := he_pair he_iter in
  let* b := is_boundary pr in
  if b then
    let* e := he_edge he_iter in
    ret (Return (mkLocated None OUTSIDE_MESH (l_on_node out0) (Some e)))
  else
    let* he_iter' := he_pair he_iter in
    let he_start' := he_iter' in
    let* he_iter'' := he_next he_iter' in
    ret (Continue he_start' he_iter'').

(** One turn of the [while (true)] of [locate]. *)
Definition locate_step (p : Point2) (out0 : Located) (he_start he_iter : nat) : M walk_state :=
  let* o1 := he_origin he_iter in
  let* p1 := position o1 in
  let* pr := he_pair he_iter in
  let* o2 := he_origin pr in
  let* p2 := position o2 in
  match oriented_side p1 p2 p with
  | ON_POSITIVE_SIDE =>
      let* he_iter' := he_next he_iter in
      if decide (he_iter' = he_start) then
        let* f := he_face he_iter' in
        ret (Return (mkLocated f IN_FACE (l_on_node out0) (l_on_edge out0)))
      else ret (Continue he_start he_iter')
  | ON_ORIENTED_BOUNDARY =>
      if strictly_between p1 p2 p then
        let* e := he_edge he_iter in
        ret (Return (mkLocated None ON_EDGE (l_on_node out0) (Some e)))
      else if pt_eq p p1 then
        let* n := he_origin he_iter in
        ret (Return (mkLocated None ON_NODE n (l_on_edge out0)))
      else if pt_eq p p2 then
        let* pr' := he_pair he_iter in
        let* n := he_origin pr' in
        ret (Return (mkLocated None ON_NODE n (l_on_edge out0)))
      else negative_side out0 he_iter
  | ON_NEGATIVE_SIDE => negative_side out0 he_iter
  end.

Fixpoint locate_loop (fuel : nat) (p : Point2) (out0 : Located) (he_start he_iter : nat)
  : M Located :=
  match fuel with
  | 0 => throw Diverges
  | S fuel' =>
      let* w := locate_step p out0 he_start he_iter in
      match w with
      | Return r => ret r
      | Continue he_start' he_iter' => locate_loop fuel' p out0 he_start' he_iter'
      end
  end.

(** [locate]; [out0] holds the caller's [loc], [on_node] and [on_edge], and
    [fuel] bounds the number of turns of the walk, which the source does not
    bound. *)
Definition locate (fuel : nat) (p : Point2) (out0 : Located) (start_face : option nat)
  : M Located :=
  let* he_start :=
    (match start_face with
     | None => let* f := faces_begin in face_halfedge f
     | Some _ => face_halfedge start_face
     end) in
  locate_loop fuel p out0 he_start he_start.

(** The turns of the walk of [locate] from one pair of [he_start] and
    [he_iter] to another. *)
Inductive walks (s : HDS) (p : Point2) (out0 : Located) : nat -> nat -> nat -> nat -> Prop :=
  | walks_here hs hi : walks s p out0 hs hi hs hi
  | walks_turn hs hi hs1 hi1 hs2 hi2 :
      locate_step p out0 hs hi s = (Ok (Continue hs1 hi1), s) ->
      walks s p out0 hs1 hi1 hs2 hi2 ->
      walks s p out0 hs hi hs2 hi2.

(** ** Walking around a node *)

(** One step of the walks of [find_free_incident_halfedge]:
    [it->next()->pair()]. *)
Definition around (s : HDS) (h : nat) : nat := pair_of s (next_of s h).

(** The node a halfedge points to. *)
Definition target_of (s : HDS) (h : nat) : option nat := origin_of s (pair_of s h).

(** A free incident halfedge at [n]: a boundary halfedge whose pair
    originates at [n]. *)
Definition free_incident (s : HDS) (n : nat) (g : nat) : Prop :=
  live s g /\ face_of s g = None /\ target_of s g = Some n.

(** The handles of the store lead into the store. *)
Definition closed_links (s : HDS) : Prop :=
  forall h, live s h -> live s (next_of s h) /\ live s (pair_of s h).

(** ** Well-formed stores *)

(** The links of the halfedges: the four equations of the specification,
    with the handles they go through alive. *)
Record linked (s : HDS) : Prop := {
  lk_closed : forall h, live s h ->
    live s (pair_of s h) /\ live s (next_of s h) /\ live s (prev_of s h);
  lk_pair : forall h, live s h -> pair_of s (pair_of s h) = h;
  lk_next_prev : forall h, live s h -> prev_of s (next_of s h) = h;
  lk_prev_next : forall h, live s h -> next_of s (prev_of s h) = h;
  lk_origin : forall h, live s h ->
    origin_of s (next_of s h) = origin_of s (pair_of s h)
}.

(** What the mutators keep besides the links.  A halfedge whose origin is
    still null belongs to an edge that [add_edge] is attaching: it follows
    its pair.  Every other halfedge leaves a node that is not isolated, no
    edge is a loop, the halfedge of a node leaves that node, the halfedges
    into a node form one fan, and edges own their halfedges. *)
Record attaching (s : HDS) : Prop := {
  at_linked : linked s;
  at_stub : forall h, live s h -> origin_of s h = None ->
    prev_of s h = pair_of s h /\ next_of s (pair_of s h) = h;
  at_attached : forall h n, live s h -> origin_of s h = Some n ->
    is_Some (halfedge_of s n);
  at_no_loop : forall h n, live s h -> origin_of s h = Some n ->
    target_of s h <> Some n;
  at_node : forall n h, halfedge_of s n = Some h ->
    live s h /\ origin_of s h = Some n;
  at_fan : forall x y n, live s x -> live s y ->
    target_of s x = Some n -> target_of s y = Some n ->
    exists k, Nat.iter k (around s) x = y;
  at_edge : forall e r, edges s !! e = Some r ->
    live s (e_he1 r) /\ pair_of s (e_he1 r) = e_he2 r /\ e_he1 r <> e_he2 r /\
    edge_of s (e_he1 r) = e /\ edge_of s (e_he2 r) = e;
  at_he_edge : forall h, live s h ->
    exists r, edges s !! edge_of s h = Some r /\ (h = e_he1 r \/ h = e_he2 r)
}.

(** The stores between two calls: no halfedge is being attached. *)
Record well_formed (s : HDS) : Prop := {
  wf_attaching : attaching s;
  wf_origin : forall h, live s h -> is_Some (origin_of s h)
}.

(** The failures of the connectivity core: an exception of
    [find_free_incident_halfedge], or no outcome at all. *)
Definition core_failure (e : error) : Prop :=
  e = bad_topology_error \/ e = Fault \/ e = Diverges.

(** The first two tests of [add_face]. *)
Definition all_free (s : HDS) (h1 h2 h3 : nat) : Prop :=
  face_of s h1 = None /\ face_of s h2 = None /\ face_of s h3 = None.
Definition closed_chain (s : HDS) (h1 h2 h3 : nat) : Prop :=
  target_of s h1 = origin_of s h2 /\
  target_of s h2 = origin_of s h3 /\
  target_of s h3 = origin_of s h1.

(** The third test of [add_face]. *)
Definition all_adjacent (h1 h2 h3 : nat) : M bool :=
  and_then (make_adjacent h1 h2) (and_then (make_adjacent h2 h3) (make_adjacent h3 h1)).

(** Two stores with the same halfedges, node halfedges and edges; they may
    differ in faces and positions. *)
Record same_links (s s' : HDS) : Prop := {
  sl_live : forall h, live s' h <-> live s h;
  sl_origin : forall h, origin_of s' h = origin_of s h;
  sl_pair : forall h, pair_of s' h = pair_of s h;
  sl_next : forall h, next_of s' h = next_of s h;
  sl_prev : forall h, prev_of s' h = prev_of s h;
  sl_edge : forall h, edge_of s' h = edge_of s h;
  sl_node : forall n, halfedge_of s' n = halfedge_of s n;
  sl_edges : edges s' = edges s
}.

(** Two stores that differ in the [next] and [prev] of their halfedges
    only. *)
Record relinked (s s' : HDS) : Prop := {
  rl_live : forall h, live s' h <-> live s h;
  rl_origin : forall h, origin_of s' h = origin_of s h;
  rl_pair : forall h, pair_of s' h = pair_of s h;
  rl_face : forall h, face_of s' h = face_of s h;
  rl_edge : forall h, edge_of s' h = edge_of s h;
  rl_nodes : nodes s' = nodes s;
  rl_edges : edges s' = edges s;
  rl_faces : faces s' = faces s
}.

(** The store after the six assignments of [make_adjacent]. *)
Definition spliced (s : HDS) (i o g : nat) : HDS :=
  let b := next_of s i in
  let d := prev_of s o in
  let h := next_of s g in
  upd_prev h d (upd_next d h (upd_prev b g (upd_next g b (upd_prev o i (upd_next i o s))))).

(** The store after [detach_edge]. *)
Definition detached (s : HDS) (he : nat) : HDS :=
  let p := prev_of s he in
  let q := next_of s (pair_of s he) in
  let s0 :=
    match origin_of s he with
    | Some n =>
        if decide (halfedge_of s n = Some he) then
          upd_halfedge n (if decide (q <> he) then Some q else None) s
        else s
    | None => s
    end in
  upd_prev q p (upd_next p q s0).

(** The store after [delete_edge] of the edge [e] with the halfedges [a]
    and [b]. *)
Definition without_edge (s : HDS) (e a b : nat) : HDS :=
  mkHDS (nodes s) (delete b (delete a (halfedges s))) (delete e (edges s)) (faces s).

(** Removing the face on one side of an edge, when there is one. *)
Definition face_removed (s : HDS) (h : nat) (s' : HDS) : Prop :=
  face_of s h = None /\ s' = s \/
  exists f, face_of s h = Some f /\ remove_face (Some f) s = (Ok tt, s').

(** The store after [attach_halfedge_to_node], at an isolated node and
    after the free halfedge [g]. *)
Definition attached_isolated (s : HDS) (h n : nat) : HDS :=
  upd_next (pair_of s h) h
    (upd_prev h (pair_of s h) (upd_halfedge n (Some h) (upd_origin h (Some n) s))).

Definition attached_after (s : HDS) (h n g : nat) : HDS :=
  let free_out := next_of s g in
  upd_prev free_out (pair_of s h)
    (upd_next (pair_of s h) free_out
       (upd_prev h g (upd_next g h (upd_origin h (Some n) s)))).

(** What [attach_halfedge_to_node] leaves alone. *)
Definition attach_frame (s : HDS) (h n : nat) (s' : HDS) : Prop :=
  (forall x, live s' x <-> live s x) /\
  (forall x, origin_of s' x = if decide (x = h) then Some n else origin_of s x) /\
  (forall x, pair_of s' x = pair_of s x) /\
  (forall x, edge_of s' x = edge_of s x) /\
  (forall x, face_of s' x = face_of s x) /\
  edges s' = edges s /\ faces s' = faces s /\
  (forall m, is_Some (nodes s' !! m) <-> is_Some (nodes s !! m)).

(** The three halfedges that [remove_face] takes out of the face [f], and
    the number of sides of the edge [e] that have a face. *)
Definition face_cycle (s : HDS) (f : nat) : list nat :=
  match faces s !! f with
  | Some r =>
      match f_halfedge r with
      | Some hf => [hf; next_of s hf; prev_of s hf]
      | None => []
      end
  | None => []
  end.

Definition sides_with_face (s : HDS) (e : nat) : nat :=
  match edges s !! e with
  | Some r =>
      (if face_of s (e_he1 r) is Some _ then 1 else 0) +
      (if face_of s (e_he2 r) is Some _ then 1 else 0)
  | None => 0
  end.

(** The two halfedges of the edge [e] do not run around the same face. *)
Definition two_sided (s : HDS) (e : nat) : Prop :=
  forall r f, edges s !! e = Some r -> face_of s (e_he1 r) = Some f ->
    e_he2 r ∉ face_cycle s f.

(** A computation that keeps the store well formed when it returns. *)
Definition keeps {A} (m : M A) : Prop :=
  forall s a s', well_formed s -> m s = (Ok a, s') -> well_formed s'.

(** ** The faces of the stores between two calls *)

(** What the mutators keep of the faces: the halfedges around a face go
    around it in three steps of [next], the halfedge of a face of the store
    is one of them, and every face that a halfedge names is a face of the
    store. *)
Record coherent (s : HDS) : Prop := {
  co_next : forall h, live s h -> face_of s (next_of s h) = face_of s h;
  co_tri : forall h, live s h -> face_of s h <> None ->
    next_of s (next_of s (next_of s h)) = h;
  co_face : forall h f, live s h -> face_of s h = Some f ->
    exists hf, faces s !! f = Some (mkFace (Some hf)) /\ live s hf /\
      face_of s hf = Some f /\
      (h = hf \/ h = next_of s hf \/ h = prev_of s hf);
  co_record : forall f r, faces s !! f = Some r ->
    exists hf, f_halfedge r = Some hf /\ live s hf /\ face_of s hf = Some f
}.

(** A computation that keeps the faces coherent when it returns on a
    well-formed store. *)
Definition keeps_coherent {A} (m : M A) : Prop :=
  forall s a s', well_formed s -> coherent s -> m s = (Ok a, s') -> coherent s'.

(** The store after the last five statements of [add_face]. *)
Definition with_face (s : HDS) (f h1 h2 h3 : nat) : HDS :=
  upd_face h3 (Some f) (upd_face h2 (Some f) (upd_face h1 (Some f)
    (upd_f_halfedge f h1 (with_faces s (<[f := mkFace None]> (faces s)))))).

(** A computation that only reads the store: whatever its outcome, the
    store is the one it started from. *)
Definition reads {A} (m : M A) : Prop :=
  forall s r s', m s = (r, s') -> s' = s.

(** The orientation test of [locate] at the halfedge [h]: the point is on
    the positive side of the line from the origin of [h] to the origin of
    its pair. *)
Definition on_positive_side (s : HDS) (p : Point2) (h : nat) : Prop :=
  exists n1 n2 p1 p2,
    origin_of s h = Some n1 /\ position_of s n1 = Some p1 /\
    target_of s h = Some n2 /\ position_of s n2 = Some p2 /\
    oriented_side p1 p2 p = ON_POSITIVE_SIDE.

(** ** The public interface as a transition system *)

Inductive call :=
  | Add_node (p : Point2)
  | Remove_node (n : option nat)
  | Add_edge (n1 n2 : option nat)
  | Remove_edge (e : nat)
  | Add_face (h1 h2 h3 : nat)
  | Remove_face (f : option nat)
  | Split_edge (e : nat) (p : Point2)
  | Split_face (f : option nat) (p : Point2).

Definition forget {A} (m : M A) : M unit := let* _ := m in ret tt.

Definition perform (c : call) : M unit :=
  match c with
  | Add_node p => forget (add_node p)
  | Remove_node n => remove_node n
  | Add_edge n1 n2 => forget (add_edge n1 n2)
  | Remove_edge e => remove_edge e
  | Add_face h1 h2 h3 => forget (add_face h1 h2 h3)
  | Remove_face f => remove_face f
  | Split_edge e p => forget (split_edge e p)
  | Split_face f p => forget (split_face f p)
  end.

(** The stores reached from the empty one by calls that all return. *)
Inductive reachable : HDS -> Prop :=
  | reachable_empty : reachable empty_HDS
  | reachable_call s c s' :
      reachable s -> perform c s = (Ok tt, s') -> reachable s'.






(** A history of calls: the store after it, whether every call returned,
    and whether every call returned or threw an exception. *)
Definition after (cs : list call) (s : HDS) : HDS :=
  foldl (fun s c => (perform c s).2) s cs.

Fixpoint all_return (cs : list call) (s : HDS) : bool :=
  match cs with
  | [] => true
  | c :: cs' =>
      match perform c s with
      | (Ok _, s') => all_return cs' s'
      | (Err _, _) => false
      end
  end.



End Model.

Notation "'let*' x := m 'in' k" := (bind m (fun x => k))
  (at level 10, x binder, k at level 200,
   format "'[v' 'let*'  x  :=  m  'in'  '/' k ']'").

(** * Sample meshes on the integer grid *)

Section Samples.
#[local] Existing Instance Z_kernel.

(** One triangle [0 1 2]: the halfedges [0], [2], [4] run around its face
    [0], their pairs [1], [3], [5] around the outside. *)
Definition triangle_calls : list call :=
  [Add_node (0, 0)%Z; Add_node (4, 0)%Z; Add_node (0, 4)%Z;
   Add_edge (Some 0) (Some 1); Add_edge (Some 1) (Some 2); Add_edge (Some 2) (Some 0);
   Add_face 0 2 4].
Definition triangle : HDS := after triangle_calls empty_HDS.

(** The triangle with a fourth node [3] hanging at the node [1] by the
    edge of the halfedges [6] and [7]. *)
Definition pinned : HDS :=
  after [Add_node (3, 3)%Z; Add_edge (Some 1) (Some 3)] triangle.

(** The path [0 - 1 - 2]: halfedges [0], [1] between the nodes [0] and [1],
    halfedges [2], [3] between [1] and [2]. *)
Definition path_calls : list call :=
  [Add_node (0, 0)%Z; Add_node (4, 0)%Z; Add_node (8, 0)%Z;
   Add_edge (Some 0) (Some 1); Add_edge (Some 1) (Some 2)].
Definition path : HDS := after path_calls empty_HDS.

(** Two edges between the nodes [1] and [0] closed by two faces over the
    node [2]; both nodes [1] and [2] are then full, and two calls of
    [add_edge] throw before a call of [add_face] returns. *)
Definition full_calls : list call :=
  [Add_node (0, 0)%Z; Add_node (4, 0)%Z;
   Add_edge (Some 1) (Some 0); Add_edge (Some 1) (Some 0);
   Add_node (2, 2)%Z;
   Add_edge (Some 2) (Some 1); Add_edge (Some 2) (Some 0);
   Add_face 1 5 6; Add_face 2 7 4].

(** The triangle, a fourth node [3], and a new edge whose halfedges [6] and
    [7] are not attached yet. *)
Definition unattached : HDS :=
  (get_new_edge (after [Add_node (3, 3)%Z] triangle)).2.

(** The node [0] with an edge to each of the nodes [1], [2] and [3]: the
    halfedges [1], [3] and [5] run into the node [0]. *)
Definition star : HDS :=
  after [Add_node (0, 0)%Z; Add_node (4, 0)%Z; Add_node (0, 4)%Z; Add_node (4, 4)%Z;
         Add_edge (Some 0) (Some 1); Add_edge (Some 0) (Some 2); Add_edge (Some 0) (Some 3)]
    empty_HDS.

(** The result of [locate] before the call. *)
Definition nowhere : Located := mkLocated None IN_FACE None None.

(** The three edges of the triangle before its face is added: the
    halfedges [0], [2] and [4] follow each other, and so do [5], [3]
    and [1]. *)
Definition wire : HDS := after (take 6 triangle_calls) empty_HDS.

(** The two faces over the two edges between the nodes [1] and [0]: every
    halfedge into the node [2] has a face. *)
Definition full : HDS := after full_calls empty_HDS.

(** The store in the second call of [add_edge] that throws in
    [thrown_calls], [add_edge(0, 2)], when its halfedge [10] is attached at
    the node [0] and its halfedge [11] is about to be attached at the node
    [2]: the call [add_edge(1, 2)] before it threw and left its halfedge
    [8], from the node [1], and the pair [9] of it, whose origin is the node
    [2] but which is not in the fan of that node. *)
Definition half_attached : HDS :=
  (attach_halfedge_to_node 10 (Some 0)
     (get_new_edge (after (full_calls ++ [Add_edge (Some 1) (Some 2)]) empty_HDS)).2).2.

End Samples.

(** * Proofs *)

Section Proofs.
Context {K : Kernel}.

Implicit Types (s : HDS) (h x y g : nat).

(** ** Running the monad *)

Lemma bind_Ok {A B} (m : M A) (f : A -> M B) s b s' :
  bind m f s = (Ok b, s') <->
  exists a s1, m s = (Ok a, s1) /\ f a s1 = (Ok b, s').
Proof.
  unfold bind. destruct (m s) as [[a|e] s1]; split.
  - eauto.
  - intros (a' & s1' & [= -> ->] & Hf); done.
  - done.
  - intros (a' & s1' & [=] & _).
Qed.

Lemma bind_run {A B} (m : M A) (f : A -> M B) s a s1 :
  m s = (Ok a, s1) -> bind m f s = f a s1.
Proof. unfold bind. by intros ->. Qed.

Lemma bind_fail {A B} (m : M A) (f : A -> M B) s e s1 :
  m s = (Err e, s1) -> bind m f s = (Err e, s1).
Proof. unfold bind. by intros ->. Qed.

Lemma bind_Err {A B} (m : M A) (f : A -> M B) s e s' :
  bind m f s = (Err e, s') <->
  m s = (Err e, s') \/ exists a s1, m s = (Ok a, s1) /\ f a s1 = (Err e, s').
Proof.
  unfold bind. destruct (m s) as [[a|e'] s1]; split.
  - eauto.
  - intros [[=]|(a' & s1' & [= -> ->] & Hf)]; done.
  - intros [= -> ->]. by left.
  - intros [[= -> ->]|(a' & s1' & ? & _)]; [done|discriminate].
Qed.

Lemma live_lookup s h : live s h <-> exists r, halfedges s !! h = Some r.
Proof. done. Qed.

Lemma deref_he_Ok {A} h (f : Halfedge -> A) s a s' :
  deref_he h f s = (Ok a, s') <->
  s' = s /\ exists r, halfedges s !! h = Some r /\ a = f r.
Proof.
  unfold deref_he. destruct (halfedges s !! h) as [r|]; split.
  - intros [= <- <-]. eauto.
  - intros (-> & r' & [= <-] & ->). done.
  - done.
  - intros (_ & r' & [=] & _).
Qed.

Lemma deref_he_run {A} h (f : Halfedge -> A) s r :
  halfedges s !! h = Some r -> deref_he h f s = (Ok (f r), s).
Proof. unfold deref_he. by intros ->. Qed.

Lemma deref_he_dead {A} h (f : Halfedge -> A) s :
  ~ live s h -> deref_he h f s = (Err Fault, s).
Proof.
  unfold deref_he, live. destruct (halfedges s !! h); [|done].
  intros []. eauto.
Qed.

Lemma he_origin_Ok h s v s' :
  he_origin h s = (Ok v, s') <-> s' = s /\ live s h /\ v = origin_of s h.
Proof.
  unfold he_origin, origin_of, live. rewrite deref_he_Ok.
  destruct (halfedges s !! h) as [r|]; split.
  - intros (-> & r' & [= <-] & ->). eauto.
  - intros (-> & _ & ->). eauto.
  - intros (_ & r' & [=] & _).
  - intros (_ & [r' [=]] & _).
Qed.

Lemma he_origin_run h s : live s h -> he_origin h s = (Ok (origin_of s h), s).
Proof. intros ?. by apply he_origin_Ok. Qed.

Lemma he_pair_Ok h s v s' :
  he_pair h s = (Ok v, s') <-> s' = s /\ live s h /\ v = pair_of s h.
Proof.
  unfold he_pair, pair_of, live. rewrite deref_he_Ok.
  destruct (halfedges s !! h) as [r|]; split.
  - intros (-> & r' & [= <-] & ->). eauto.
  - intros (-> & _ & ->). eauto.
  - intros (_ & r' & [=] & _).
  - intros (_ & [r' [=]] & _).
Qed.

Lemma he_pair_run h s : live s h -> he_pair h s = (Ok (pair_of s h), s).
Proof. intros ?. by apply he_pair_Ok. Qed.

Lemma he_next_Ok h s v s' :
  he_next h s = (Ok v, s') <-> s' = s /\ live s h /\ v = next_of s h.
Proof.
  unfold he_next, next_of, live. rewrite deref_he_Ok.
  destruct (halfedges s !! h) as [r|]; split.
  - intros (-> & r' & [= <-] & ->). eauto.
  - intros (-> & _ & ->). eauto.
  - intros (_ & r' & [=] & _).
  - intros (_ & [r' [=]] & _).
Qed.

Lemma he_next_run h s : live s h -> he_next h s = (Ok (next_of s h), s).
Proof. intros ?. by apply he_next_Ok. Qed.

Lemma he_prev_Ok h s v s' :
  he_prev h s = (Ok v, s') <-> s' = s /\ live s h /\ v = prev_of s h.
Proof.
  unfold he_prev, prev_of, live. rewrite deref_he_Ok.
  destruct (halfedges s !! h) as [r|]; split.
  - intros (-> & r' & [= <-] & ->). eauto.
  - intros (-> & _ & ->). eauto.
  - intros (_ & r' & [=] & _).
  - intros (_ & [r' [=]] & _).
Qed.

Lemma he_prev_run h s : live s h -> he_prev h s = (Ok (prev_of s h), s).
Proof. intros ?. by apply he_prev_Ok. Qed.

Lemma he_face_Ok h s v s' :
  he_face h s = (Ok v, s') <-> s' = s /\ live s h /\ v = face_of s h.
Proof.
  unfold he_face, face_of, live. rewrite deref_he_Ok.
  destruct (halfedges s !! h) as [r|]; split.
  - intros (-> & r' & [= <-] & ->). eauto.
  - intros (-> & _ & ->). eauto.
  - intros (_ & r' & [=] & _).
  - intros (_ & [r' [=]] & _).
Qed.

Lemma he_face_run h s : live s h -> he_face h s = (Ok (face_of s h), s).
Proof. intros ?. by apply he_face_Ok. Qed.

Lemma he_edge_Ok h s v s' :
  he_edge h s = (Ok v, s') <-> s' = s /\ live s h /\ v = edge_of s h.
Proof.
  unfold he_edge, edge_of, live. rewrite deref_he_Ok.
  destruct (halfedges s !! h) as [r|]; split.
  - intros (-> & r' & [= <-] & ->). eauto.
  - intros (-> & _ & ->). eauto.
  - intros (_ & r' & [=] & _).
  - intros (_ & [r' [=]] & _).
Qed.

Lemma he_edge_run h s : live s h -> he_edge h s = (Ok (edge_of s h), s).
Proof. intros ?. by apply he_edge_Ok. Qed.

Lemma is_boundary_Ok h s v s' :
  is_boundary h s = (Ok v, s') <->
  s' = s /\ live s h /\ v = bool_decide (face_of s h = None).
Proof.
  unfold is_boundary, face_of, live. rewrite deref_he_Ok.
  destruct (halfedges s !! h) as [r|]; split.
  - intros (-> & r' & [= <-] & ->). eauto.
  - intros (-> & _ & ->). eauto.
  - intros (_ & r' & [=] & _).
  - intros (_ & [r' [=]] & _).
Qed.

Lemma is_boundary_run h s :
  live s h -> is_boundary h s = (Ok (bool_decide (face_of s h = None)), s).
Proof. intros ?. by apply is_boundary_Ok. Qed.

Lemma set_origin_Ok h n s u s' :
  set_origin h n s = (Ok u, s') <-> live s h /\ s' = upd_origin h n s.
Proof.
  unfold set_origin. rewrite bind_Ok. setoid_rewrite deref_he_Ok.
  unfold modify, live. destruct u. split.
  - intros (a & s1 & (-> & r & Hr & _) & [= <-]). eauto.
  - intros ([r Hr] & ->). eauto 10.
Qed.

Lemma set_origin_run h n s :
  live s h -> set_origin h n s = (Ok tt, upd_origin h n s).
Proof. intros ?. by apply set_origin_Ok. Qed.

Lemma set_next_Ok h x s u s' :
  set_next h x s = (Ok u, s') <-> live s h /\ s' = upd_next h x s.
Proof.
  unfold set_next. rewrite bind_Ok. setoid_rewrite deref_he_Ok.
  unfold modify, live. destruct u. split.
  - intros (a & s1 & (-> & r & Hr & _) & [= <-]). eauto.
  - intros ([r Hr] & ->). eauto 10.
Qed.

Lemma set_next_run h x s :
  live s h -> set_next h x s = (Ok tt, upd_next h x s).
Proof. intros ?. by apply set_next_Ok. Qed.

Lemma set_prev_Ok h x s u s' :
  set_prev h x s = (Ok u, s') <-> live s h /\ s' = upd_prev h x s.
Proof.
  unfold set_prev. rewrite bind_Ok. setoid_rewrite deref_he_Ok.
  unfold modify, live. destruct u. split.
  - intros (a & s1 & (-> & r & Hr & _) & [= <-]). eauto.
  - intros ([r Hr] & ->). eauto 10.
Qed.

Lemma set_prev_run h x s :
  live s h -> set_prev h x s = (Ok tt, upd_prev h x s).
Proof. intros ?. by apply set_prev_Ok. Qed.

Lemma set_face_Ok h f s u s' :
  set_face h f s = (Ok u, s') <-> live s h /\ s' = upd_face h f s.
Proof.
  unfold set_face. rewrite bind_Ok. setoid_rewrite deref_he_Ok.
  unfold modify, live. destruct u. split.
  - intros (a & s1 & (-> & r & Hr & _) & [= <-]). eauto.
  - intros ([r Hr] & ->). eauto 10.
Qed.

Lemma set_face_run h f s :
  live s h -> set_face h f s = (Ok tt, upd_face h f s).
Proof. intros ?. by apply set_face_Ok. Qed.

Lemma deref_node_Ok {A} n (f : Node -> A) s a s' :
  deref_node n f s = (Ok a, s') <->
  s' = s /\ exists n' r, n = Some n' /\ nodes s !! n' = Some r /\ a = f r.
Proof.
  unfold deref_node. destruct n as [n'|]; [destruct (nodes s !! n') as [r|] eqn:E|]; split.
  - intros [= <- <-]. eauto 10.
  - intros (-> & n'' & r' & [= <-] & Hr & ->). rewrite E in Hr. by injection Hr as <-.
  - done.
  - intros (_ & n'' & r' & [= <-] & Hr & _). by rewrite E in Hr.
  - done.
  - intros (_ & n'' & r' & [=] & _).
Qed.

Lemma node_halfedge_Ok n s v s' :
  node_halfedge n s = (Ok v, s') <->
  s' = s /\ exists n', n = Some n' /\ is_Some (nodes s !! n') /\ v = halfedge_of s n'.
Proof.
  unfold node_halfedge, halfedge_of. rewrite deref_node_Ok. split.
  - intros (-> & n' & r & -> & Hr & ->). split; [done|]. exists n'. rewrite Hr. eauto.
  - intros (-> & n' & -> & [r Hr] & ->). rewrite Hr. eauto 10.
Qed.

Lemma is_isolated_Ok n s v s' :
  is_isolated n s = (Ok v, s') <->
  s' = s /\ exists n', n = Some n' /\ is_Some (nodes s !! n') /\
                       v = bool_decide (halfedge_of s n' = None).
Proof.
  unfold is_isolated, halfedge_of. rewrite deref_node_Ok. split.
  - intros (-> & n' & r & -> & Hr & ->). split; [done|]. exists n'. rewrite Hr. eauto.
  - intros (-> & n' & -> & [r Hr] & ->). rewrite Hr. eauto 10.
Qed.

Lemma set_halfedge_Ok n v s u s' :
  set_halfedge n v s = (Ok u, s') <->
  exists n', n = Some n' /\ is_Some (nodes s !! n') /\ s' = upd_halfedge n' v s.
Proof.
  unfold set_halfedge. rewrite bind_Ok. setoid_rewrite deref_node_Ok.
  unfold modify. destruct u. split.
  - intros (a & s1 & (-> & n' & r & -> & Hr & _) & [= <-]). eauto 10.
  - intros (n' & -> & [r Hr] & ->). eauto 12.
Qed.

Lemma set_position_Ok n p s u s' :
  set_position n p s = (Ok u, s') <->
  is_Some (nodes s !! n) /\ s' = upd_position n p s.
Proof.
  unfold set_position. rewrite bind_Ok. setoid_rewrite deref_node_Ok.
  unfold modify. destruct u. split.
  - intros (a & s1 & (-> & n' & r & [= <-] & Hr & _) & [= <-]). eauto.
  - intros ([r Hr] & ->). eauto 12.
Qed.

Lemma deref_edge_Ok {A} e (f : Edge -> A) s a s' :
  deref_edge e f s = (Ok a, s') <->
  s' = s /\ exists r, edges s !! e = Some r /\ a = f r.
Proof.
  unfold deref_edge. destruct (edges s !! e) as [r|]; split.
  - intros [= <- <-]. eauto.
  - intros (-> & r' & [= <-] & ->). done.
  - done.
  - intros (_ & r' & [=] & _).
Qed.

Lemma he1_Ok e s a s' :
  he1 e s = (Ok a, s') <-> s' = s /\ exists r, edges s !! e = Some r /\ a = e_he1 r.
Proof. apply deref_edge_Ok. Qed.

Lemma he2_Ok e s a s' :
  he2 e s = (Ok a, s') <-> s' = s /\ exists r, edges s !! e = Some r /\ a = e_he2 r.
Proof. apply deref_edge_Ok. Qed.

Lemma deref_face_Ok {A} f (g : Face -> A) s a s' :
  deref_face f g s = (Ok a, s') <->
  s' = s /\ exists f' r, f = Some f' /\ faces s !! f' = Some r /\ a = g r.
Proof.
  unfold deref_face. destruct f as [f'|]; [destruct (faces s !! f') as [r|] eqn:E|]; split.
  - intros [= <- <-]. eauto 10.
  - intros (-> & n'' & r' & [= <-] & Hr & ->). rewrite E in Hr. by injection Hr as <-.
  - done.
  - intros (_ & n'' & r' & [= <-] & Hr & _). by rewrite E in Hr.
  - done.
  - intros (_ & n'' & r' & [=] & _).
Qed.

Lemma face_halfedge_Ok f s h s' :
  face_halfedge f s = (Ok h, s') <->
  s' = s /\ exists f' r, f = Some f' /\ faces s !! f' = Some r /\ f_halfedge r = Some h.
Proof.
  unfold face_halfedge. rewrite bind_Ok. setoid_rewrite deref_face_Ok. split.
  - intros (a & s1 & (-> & f' & r & -> & Hr & ->) & H).
    destruct (f_halfedge r) eqn:E; [|done]. injection H as <- <-. eauto 10.
  - intros (-> & f' & r & -> & Hr & E). exists (Some h), s. split; [eauto 10|done].
Qed.

Lemma position_Ok n s p s' :
  position n s = (Ok p, s') <->
  s' = s /\ exists n', n = Some n' /\ position_of s n' = Some p.
Proof.
  unfold position, position_of. rewrite bind_Ok. setoid_rewrite deref_node_Ok. split.
  - intros (a & s1 & (-> & n' & r & -> & Hr & ->) & H).
    destruct (n_position r) eqn:E; [|done]. unfold ret in H. injection H as <- <-.
    split; [done|]. exists n'. by rewrite Hr.
  - intros (-> & n' & -> & H). destruct (nodes s !! n') as [r|] eqn:Hr; [|done].
    exists (Some p), s. split; [eauto 10|done].
Qed.


Lemma boost_assert_Ok b s u s' : boost_assert b s = (Ok u, s') <-> b = true /\ s' = s.
Proof.
  destruct b, u; unfold boost_assert, ret, throw; split;
    first [by intros [= ->] | by intros [_ ->] | by intros [? _] | done].
Qed.

Lemma ret_Ok {A} (a b : A) s s' : ret a s = (Ok b, s') <-> b = a /\ s' = s.
Proof. unfold ret. split; [by intros [= -> ->]|by intros [-> ->]]. Qed.

Lemma throw_Ok {A} e (b : A) s s' : throw e s = (Ok b, s') <-> False.
Proof. unfold throw. by split. Qed.

Lemma modify_Ok f s u s' : modify f s = (Ok u, s') <-> s' = f s.
Proof. unfold modify. destruct u. split; [by intros [= ->]|by intros ->]. Qed.

(** ** Reading after writing *)

Lemma live_upd_origin h0 v s h : live (upd_origin h0 v s) h <-> live s h.
Proof. unfold live, upd_origin; simpl. by rewrite lookup_alter_is_Some. Qed.

Lemma live_upd_next h0 v s h : live (upd_next h0 v s) h <-> live s h.
Proof. unfold live, upd_next; simpl. by rewrite lookup_alter_is_Some. Qed.

Lemma live_upd_prev h0 v s h : live (upd_prev h0 v s) h <-> live s h.
Proof. unfold live, upd_prev; simpl. by rewrite lookup_alter_is_Some. Qed.

Lemma live_upd_face h0 v s h : live (upd_face h0 v s) h <-> live s h.
Proof. unfold live, upd_face; simpl. by rewrite lookup_alter_is_Some. Qed.

Lemma origin_of_upd_origin h0 v s h :
  live s h0 -> origin_of (upd_origin h0 v s) h = if decide (h = h0) then v else origin_of s h.
Proof.
  intros [r Hr]. unfold origin_of, upd_origin; simpl.
  destruct (decide (h = h0)) as [->|Hne].
  - by rewrite lookup_alter_eq, Hr.
  - by rewrite lookup_alter_ne.
Qed.

Lemma pair_of_upd_origin h0 v s h : pair_of (upd_origin h0 v s) h = pair_of s h.
Proof.
  unfold pair_of, upd_origin; simpl.
  destruct (decide (h = h0)) as [->|Hne].
  - rewrite lookup_alter_eq. by destruct (halfedges s !! h0).
  - by rewrite lookup_alter_ne.
Qed.

Lemma next_of_upd_origin h0 v s h : next_of (upd_origin h0 v s) h = next_of s h.
Proof.
  unfold next_of, upd_origin; simpl.
  destruct (decide (h = h0)) as [->|Hne].
  - rewrite lookup_alter_eq. by destruct (halfedges s !! h0).
  - by rewrite lookup_alter_ne.
Qed.

Lemma prev_of_upd_origin h0 v s h : prev_of (upd_origin h0 v s) h = prev_of s h.
Proof.
  unfold prev_of, upd_origin; simpl.
  destruct (decide (h = h0)) as [->|Hne].
  - rewrite lookup_alter_eq. by destruct (halfedges s !! h0).
  - by rewrite lookup_alter_ne.
Qed.

Lemma face_of_upd_origin h0 v s h : face_of (upd_origin h0 v s) h = face_of s h.
Proof.
  unfold face_of, upd_origin; simpl.
  destruct (decide (h = h0)) as [->|Hne].
  - rewrite lookup_alter_eq. by destruct (halfedges s !! h0).
  - by rewrite lookup_alter_ne.
Qed.

Lemma edge_of_upd_origin h0 v s h : edge_of (upd_origin h0 v s) h = edge_of s h.
Proof.
  unfold edge_of, upd_origin; simpl.
  destruct (decide (h = h0)) as [->|Hne].
  - rewrite lookup_alter_eq. by destruct (halfedges s !! h0).
  - by rewrite lookup_alter_ne.
Qed.

Lemma origin_of_upd_next h0 v s h : origin_of (upd_next h0 v s) h = origin_of s h.
Proof.
  unfold origin_of, upd_next; simpl.
  destruct (decide (h = h0)) as [->|Hne].
  - rewrite lookup_alter_eq. by destruct (halfedges s !! h0).
  - by rewrite lookup_alter_ne.
Qed.

Lemma pair_of_upd_next h0 v s h : pair_of (upd_next h0 v s) h = pair_of s h.
Proof.
  unfold pair_of, upd_next; simpl.
  destruct (decide (h = h0)) as [->|Hne].
  - rewrite lookup_alter_eq. by destruct (halfedges s !! h0).
  - by rewrite lookup_alter_ne.
Qed.

Lemma next_of_upd_next h0 v s h :
  live s h0 -> next_of (upd_next h0 v s) h = if decide (h = h0) then v else next_of s h.
Proof.
  intros [r Hr]. unfold next_of, upd_next; simpl.
  destruct (decide (h = h0)) as [->|Hne].
  - by rewrite lookup_alter_eq, Hr.
  - by rewrite lookup_alter_ne.
Qed.

Lemma prev_of_upd_next h0 v s h : prev_of (upd_next h0 v s) h = prev_of s h.
Proof.
  unfold prev_of, upd_next; simpl.
  destruct (decide (h = h0)) as [->|Hne].
  - rewrite lookup_alter_eq. by destruct (halfedges s !! h0).
  - by rewrite lookup_alter_ne.
Qed.

Lemma face_of_upd_next h0 v s h : face_of (upd_next h0 v s) h = face_of s h.
Proof.
  unfold face_of, upd_next; simpl.
  destruct (decide (h = h0)) as [->|Hne].
  - rewrite lookup_alter_eq. by destruct (halfedges s !! h0).
  - by rewrite lookup_alter_ne.
Qed.

Lemma edge_of_upd_next h0 v s h : edge_of (upd_next h0 v s) h = edge_of s h.
Proof.
  unfold edge_of, upd_next; simpl.
  destruct (decide (h = h0)) as [->|Hne].
  - rewrite lookup_alter_eq. by destruct (halfedges s !! h0).
  - by rewrite lookup_alter_ne.
Qed.

Lemma origin_of_upd_prev h0 v s h : origin_of (upd_prev h0 v s) h = origin_of s h.
Proof.
  unfold origin_of, upd_prev; simpl.
  destruct (decide (h = h0)) as [->|Hne].
  - rewrite lookup_alter_eq. by destruct (halfedges s !! h0).
  - by rewrite lookup_alter_ne.
Qed.

Lemma pair_of_upd_prev h0 v s h : pair_of (upd_prev h0 v s) h = pair_of s h.
Proof.
  unfold pair_of, upd_prev; simpl.
  destruct (decide (h = h0)) as [->|Hne].
  - rewrite lookup_alter_eq. by destruct (halfedges s !! h0).
  - by rewrite lookup_alter_ne.
Qed.

Lemma next_of_upd_prev h0 v s h : next_of (upd_prev h0 v s) h = next_of s h.
Proof.
  unfold next_of, upd_prev; simpl.
  destruct (decide (h = h0)) as [->|Hne].
  - rewrite lookup_alter_eq. by destruct (halfedges s !! h0).
  - by rewrite lookup_alter_ne.
Qed.

Lemma prev_of_upd_prev h0 v s h :
  live s h0 -> prev_of (upd_prev h0 v s) h = if decide (h = h0) then v else prev_of s h.
Proof.
  intros [r Hr]. unfold prev_of, upd_prev; simpl.
  destruct (decide (h = h0)) as [->|Hne].
  - by rewrite lookup_alter_eq, Hr.
  - by rewrite lookup_alter_ne.
Qed.

Lemma face_of_upd_prev h0 v s h : face_of (upd_prev h0 v s) h = face_of s h.
Proof.
  unfold face_of, upd_prev; simpl.
  destruct (decide (h = h0)) as [->|Hne].
  - rewrite lookup_alter_eq. by destruct (halfedges s !! h0).
  - by rewrite lookup_alter_ne.
Qed.

Lemma edge_of_upd_prev h0 v s h : edge_of (upd_prev h0 v s) h = edge_of s h.
Proof.
  unfold edge_of, upd_prev; simpl.
  destruct (decide (h = h0)) as [->|Hne].
  - rewrite lookup_alter_eq. by destruct (halfedges s !! h0).
  - by rewrite lookup_alter_ne.
Qed.

Lemma origin_of_upd_face h0 v s h : origin_of (upd_face h0 v s) h = origin_of s h.
Proof.
  unfold origin_of, upd_face; simpl.
  destruct (decide (h = h0)) as [->|Hne].
  - rewrite lookup_alter_eq. by destruct (halfedges s !! h0).
  - by rewrite lookup_alter_ne.
Qed.

Lemma pair_of_upd_face h0 v s h : pair_of (upd_face h0 v s) h = pair_of s h.
Proof.
  unfold pair_of, upd_face; simpl.
  destruct (decide (h = h0)) as [->|Hne].
  - rewrite lookup_alter_eq. by destruct (halfedges s !! h0).
  - by rewrite lookup_alter_ne.
Qed.

Lemma next_of_upd_face h0 v s h : next_of (upd_face h0 v s) h = next_of s h.
Proof.
  unfold next_of, upd_face; simpl.
  destruct (decide (h = h0)) as [->|Hne].
  - rewrite lookup_alter_eq. by destruct (halfedges s !! h0).
  - by rewrite lookup_alter_ne.
Qed.

Lemma prev_of_upd_face h0 v s h : prev_of (upd_face h0 v s) h = prev_of s h.
Proof.
  unfold prev_of, upd_face; simpl.
  destruct (decide (h = h0)) as [->|Hne].
  - rewrite lookup_alter_eq. by destruct (halfedges s !! h0).
  - by rewrite lookup_alter_ne.
Qed.

Lemma face_of_upd_face h0 v s h :
  live s h0 -> face_of (upd_face h0 v s) h = if decide (h = h0) then v else face_of s h.
Proof.
  intros [r Hr]. unfold face_of, upd_face; simpl.
  destruct (decide (h = h0)) as [->|Hne].
  - by rewrite lookup_alter_eq, Hr.
  - by rewrite lookup_alter_ne.
Qed.

Lemma edge_of_upd_face h0 v s h : edge_of (upd_face h0 v s) h = edge_of s h.
Proof.
  unfold edge_of, upd_face; simpl.
  destruct (decide (h = h0)) as [->|Hne].
  - rewrite lookup_alter_eq. by destruct (halfedges s !! h0).
  - by rewrite lookup_alter_ne.
Qed.

Lemma live_upd_origin_2 h0 v s h : live s h -> live (upd_origin h0 v s) h.
Proof. by rewrite live_upd_origin. Qed.
Lemma live_upd_next_2 h0 v s h : live s h -> live (upd_next h0 v s) h.
Proof. by rewrite live_upd_next. Qed.
Lemma live_upd_prev_2 h0 v s h : live s h -> live (upd_prev h0 v s) h.
Proof. by rewrite live_upd_prev. Qed.
Lemma live_upd_face_2 h0 v s h : live s h -> live (upd_face h0 v s) h.
Proof. by rewrite live_upd_face. Qed.

Lemma live_upd_halfedge n v s h : live (upd_halfedge n v s) h <-> live s h.
Proof. done. Qed.
Lemma live_upd_position n v s h : live (upd_position n v s) h <-> live s h.
Proof. done. Qed.
Lemma live_upd_f_halfedge f v s h : live (upd_f_halfedge f v s) h <-> live s h.
Proof. done. Qed.

Ltac solve_live :=
  solve [ repeat first [ apply live_upd_origin_2 | apply live_upd_next_2
                       | apply live_upd_prev_2 | apply live_upd_face_2 ];
          eauto ].

Create HintDb live discriminated.
Create Rewrite HintDb hds.
#[local] Hint Resolve live_upd_origin_2 live_upd_next_2 live_upd_prev_2 live_upd_face_2 : live.

#[local] Hint Rewrite live_upd_origin live_upd_next live_upd_prev live_upd_face
  live_upd_halfedge live_upd_position live_upd_f_halfedge : hds.
#[local] Hint Rewrite pair_of_upd_origin next_of_upd_origin prev_of_upd_origin face_of_upd_origin edge_of_upd_origin origin_of_upd_next pair_of_upd_next prev_of_upd_next face_of_upd_next edge_of_upd_next origin_of_upd_prev pair_of_upd_prev next_of_upd_prev face_of_upd_prev edge_of_upd_prev origin_of_upd_face pair_of_upd_face next_of_upd_face prev_of_upd_face edge_of_upd_face : hds.
#[local] Hint Rewrite origin_of_upd_origin next_of_upd_next prev_of_upd_prev face_of_upd_face using solve_live : hds.

Lemma origin_of_upd_halfedge n v s h : origin_of (upd_halfedge n v s) h = origin_of s h.
Proof. done. Qed.

Lemma pair_of_upd_halfedge n v s h : pair_of (upd_halfedge n v s) h = pair_of s h.
Proof. done. Qed.

Lemma next_of_upd_halfedge n v s h : next_of (upd_halfedge n v s) h = next_of s h.
Proof. done. Qed.

Lemma prev_of_upd_halfedge n v s h : prev_of (upd_halfedge n v s) h = prev_of s h.
Proof. done. Qed.

Lemma face_of_upd_halfedge n v s h : face_of (upd_halfedge n v s) h = face_of s h.
Proof. done. Qed.

Lemma edge_of_upd_halfedge n v s h : edge_of (upd_halfedge n v s) h = edge_of s h.
Proof. done. Qed.

Lemma origin_of_upd_position n v s h : origin_of (upd_position n v s) h = origin_of s h.
Proof. done. Qed.

Lemma pair_of_upd_position n v s h : pair_of (upd_position n v s) h = pair_of s h.
Proof. done. Qed.

Lemma next_of_upd_position n v s h : next_of (upd_position n v s) h = next_of s h.
Proof. done. Qed.

Lemma prev_of_upd_position n v s h : prev_of (upd_position n v s) h = prev_of s h.
Proof. done. Qed.

Lemma face_of_upd_position n v s h : face_of (upd_position n v s) h = face_of s h.
Proof. done. Qed.

Lemma edge_of_upd_position n v s h : edge_of (upd_position n v s) h = edge_of s h.
Proof. done. Qed.

Lemma origin_of_upd_f_halfedge n v s h : origin_of (upd_f_halfedge n v s) h = origin_of s h.
Proof. done. Qed.

Lemma pair_of_upd_f_halfedge n v s h : pair_of (upd_f_halfedge n v s) h = pair_of s h.
Proof. done. Qed.

Lemma next_of_upd_f_halfedge n v s h : next_of (upd_f_halfedge n v s) h = next_of s h.
Proof. done. Qed.

Lemma prev_of_upd_f_halfedge n v s h : prev_of (upd_f_halfedge n v s) h = prev_of s h.
Proof. done. Qed.

Lemma face_of_upd_f_halfedge n v s h : face_of (upd_f_halfedge n v s) h = face_of s h.
Proof. done. Qed.

Lemma edge_of_upd_f_halfedge n v s h : edge_of (upd_f_halfedge n v s) h = edge_of s h.
Proof. done. Qed.

Lemma halfedge_of_upd_origin h0 v s n : halfedge_of (upd_origin h0 v s) n = halfedge_of s n.
Proof. done. Qed.

Lemma halfedge_of_upd_next h0 v s n : halfedge_of (upd_next h0 v s) n = halfedge_of s n.
Proof. done. Qed.

Lemma halfedge_of_upd_prev h0 v s n : halfedge_of (upd_prev h0 v s) n = halfedge_of s n.
Proof. done. Qed.

Lemma halfedge_of_upd_face h0 v s n : halfedge_of (upd_face h0 v s) n = halfedge_of s n.
Proof. done. Qed.

Lemma halfedge_of_upd_f_halfedge h0 v s n : halfedge_of (upd_f_halfedge h0 v s) n = halfedge_of s n.
Proof. done. Qed.

Lemma halfedge_of_upd_halfedge n0 v s n :
  is_Some (nodes s !! n0) ->
  halfedge_of (upd_halfedge n0 v s) n = if decide (n = n0) then v else halfedge_of s n.
Proof.
  intros [r Hr]. unfold halfedge_of, upd_halfedge; simpl.
  destruct (decide (n = n0)) as [->|Hne].
  - by rewrite lookup_alter_eq, Hr.
  - by rewrite lookup_alter_ne.
Qed.

Lemma nodes_upd_halfedge_is_Some n0 v s n :
  is_Some (nodes (upd_halfedge n0 v s) !! n) <-> is_Some (nodes s !! n).
Proof. unfold upd_halfedge; simpl. by rewrite lookup_alter_is_Some. Qed.

#[local] Hint Rewrite origin_of_upd_halfedge pair_of_upd_halfedge next_of_upd_halfedge prev_of_upd_halfedge face_of_upd_halfedge edge_of_upd_halfedge origin_of_upd_position pair_of_upd_position next_of_upd_position prev_of_upd_position face_of_upd_position edge_of_upd_position origin_of_upd_f_halfedge pair_of_upd_f_halfedge next_of_upd_f_halfedge prev_of_upd_f_halfedge face_of_upd_f_halfedge edge_of_upd_f_halfedge : hds.
#[local] Hint Rewrite halfedge_of_upd_origin halfedge_of_upd_next halfedge_of_upd_prev halfedge_of_upd_face halfedge_of_upd_f_halfedge : hds.
#[local] Hint Rewrite halfedge_of_upd_halfedge using (solve [eauto]) : hds.

(** Taking a run that returned apart, one statement at a time. *)
Ltac minv1 :=
  match goal with
  | H : bind _ _ _ = (Ok _, _) |- _ => apply bind_Ok in H; destruct H as (? & ? & ? & H)
  | H : position _ _ = (Ok _, _) |- _ => apply position_Ok in H; destruct H as (? & ? & ? & ?)
  | H : ret _ _ = (Ok _, _) |- _ => apply ret_Ok in H; destruct H as [? ?]
  | H : throw _ _ = (Ok _, _) |- _ => by apply throw_Ok in H
  | H : boost_assert _ _ = (Ok _, _) |- _ => apply boost_assert_Ok in H; destruct H as [? ?]
  | H : modify _ _ = (Ok _, _) |- _ => apply modify_Ok in H
  | H : he_origin _ _ = (Ok _, _) |- _ => apply he_origin_Ok in H; destruct H as (? & ? & ?)
  | H : he_pair _ _ = (Ok _, _) |- _ => apply he_pair_Ok in H; destruct H as (? & ? & ?)
  | H : he_next _ _ = (Ok _, _) |- _ => apply he_next_Ok in H; destruct H as (? & ? & ?)
  | H : he_prev _ _ = (Ok _, _) |- _ => apply he_prev_Ok in H; destruct H as (? & ? & ?)
  | H : he_face _ _ = (Ok _, _) |- _ => apply he_face_Ok in H; destruct H as (? & ? & ?)
  | H : he_edge _ _ = (Ok _, _) |- _ => apply he_edge_Ok in H; destruct H as (? & ? & ?)
  | H : is_boundary _ _ = (Ok _, _) |- _ => apply is_boundary_Ok in H; destruct H as (? & ? & ?)
  | H : set_origin _ _ _ = (Ok _, _) |- _ => apply set_origin_Ok in H; destruct H as (? & ?)
  | H : set_next _ _ _ = (Ok _, _) |- _ => apply set_next_Ok in H; destruct H as (? & ?)
  | H : set_prev _ _ _ = (Ok _, _) |- _ => apply set_prev_Ok in H; destruct H as (? & ?)
  | H : set_face _ _ _ = (Ok _, _) |- _ => apply set_face_Ok in H; destruct H as (? & ?)
  | H : node_halfedge _ _ = (Ok _, _) |- _ =>
      apply node_halfedge_Ok in H; destruct H as (? & ? & ? & ? & ?)
  | H : is_isolated _ _ = (Ok _, _) |- _ =>
      apply is_isolated_Ok in H; destruct H as (? & ? & ? & ? & ?)
  | H : set_halfedge _ _ _ = (Ok _, _) |- _ =>
      apply set_halfedge_Ok in H; destruct H as (? & ? & ? & ?)
  | H : set_position _ _ _ = (Ok _, _) |- _ =>
      apply set_position_Ok in H; destruct H as (? & ?)
  | H : he1 _ _ = (Ok _, _) |- _ => apply he1_Ok in H; destruct H as (? & ? & ? & ?)
  | H : he2 _ _ = (Ok _, _) |- _ => apply he2_Ok in H; destruct H as (? & ? & ? & ?)
  | H : face_halfedge _ _ = (Ok _, _) |- _ =>
      apply face_halfedge_Ok in H; destruct H as (? & ? & ? & ? & ? & ?)
  end.
Ltac minv := repeat (minv1; simplify_eq).

(** ** Failing runs *)

Lemma deref_he_Err {A} h (f : Halfedge -> A) s e s' :
  deref_he h f s = (Err e, s') <-> e = Fault /\ s' = s /\ ~ live s h.
Proof.
  unfold deref_he, live. destruct (halfedges s !! h) as [r|]; split.
  - done.
  - intros (_ & _ & []). eauto.
  - intros [= <- <-]. split_and!; [done..|]. by intros [? [=]].
  - by intros (-> & -> & _).
Qed.

Lemma deref_node_Err {A} n (f : Node -> A) s e s' :
  deref_node n f s = (Err e, s') -> e = Fault /\ s' = s.
Proof.
  unfold deref_node. destruct n as [n'|]; [destruct (nodes s !! n')|]; by intros [= <- <-].
Qed.

Lemma deref_edge_Err {A} n (f : Edge -> A) s e s' :
  deref_edge n f s = (Err e, s') -> e = Fault /\ s' = s.
Proof. unfold deref_edge. destruct (edges s !! n); by intros [= <- <-]. Qed.

Lemma deref_face_Err {A} n (f : Face -> A) s e s' :
  deref_face n f s = (Err e, s') -> e = Fault /\ s' = s.
Proof.
  unfold deref_face. destruct n as [n'|]; [destruct (faces s !! n')|]; by intros [= <- <-].
Qed.

Lemma he_origin_Err h s e s' : he_origin h s = (Err e, s') <-> e = Fault /\ s' = s /\ ~ live s h.
Proof. apply deref_he_Err. Qed.

Lemma he_pair_Err h s e s' : he_pair h s = (Err e, s') <-> e = Fault /\ s' = s /\ ~ live s h.
Proof. apply deref_he_Err. Qed.

Lemma he_next_Err h s e s' : he_next h s = (Err e, s') <-> e = Fault /\ s' = s /\ ~ live s h.
Proof. apply deref_he_Err. Qed.

Lemma he_prev_Err h s e s' : he_prev h s = (Err e, s') <-> e = Fault /\ s' = s /\ ~ live s h.
Proof. apply deref_he_Err. Qed.

Lemma he_face_Err h s e s' : he_face h s = (Err e, s') <-> e = Fault /\ s' = s /\ ~ live s h.
Proof. apply deref_he_Err. Qed.

Lemma he_edge_Err h s e s' : he_edge h s = (Err e, s') <-> e = Fault /\ s' = s /\ ~ live s h.
Proof. apply deref_he_Err. Qed.

Lemma is_boundary_Err h s e s' :
  is_boundary h s = (Err e, s') <-> e = Fault /\ s' = s /\ ~ live s h.
Proof. apply deref_he_Err. Qed.

Lemma set_origin_Err h v s e s' :
  set_origin h v s = (Err e, s') <-> e = Fault /\ s' = s /\ ~ live s h.
Proof.
  unfold set_origin. rewrite bind_Err, deref_he_Err. split; [|by left].
  by intros [?|(a & s1 & _ & [=])].
Qed.

Lemma set_next_Err h v s e s' :
  set_next h v s = (Err e, s') <-> e = Fault /\ s' = s /\ ~ live s h.
Proof.
  unfold set_next. rewrite bind_Err, deref_he_Err. split; [|by left].
  by intros [?|(a & s1 & _ & [=])].
Qed.

Lemma set_prev_Err h v s e s' :
  set_prev h v s = (Err e, s') <-> e = Fault /\ s' = s /\ ~ live s h.
Proof.
  unfold set_prev. rewrite bind_Err, deref_he_Err. split; [|by left].
  by intros [?|(a & s1 & _ & [=])].
Qed.

Lemma set_face_Err h v s e s' :
  set_face h v s = (Err e, s') <-> e = Fault /\ s' = s /\ ~ live s h.
Proof.
  unfold set_face. rewrite bind_Err, deref_he_Err. split; [|by left].
  by intros [?|(a & s1 & _ & [=])].
Qed.

Lemma node_halfedge_Err n s e s' : node_halfedge n s = (Err e, s') -> e = Fault /\ s' = s.
Proof. apply deref_node_Err. Qed.

Lemma is_isolated_Err n s e s' : is_isolated n s = (Err e, s') -> e = Fault /\ s' = s.
Proof. apply deref_node_Err. Qed.

Lemma set_halfedge_Err n v s e s' : set_halfedge n v s = (Err e, s') -> e = Fault /\ s' = s.
Proof.
  unfold set_halfedge. rewrite bind_Err.
  intros [H|(a & s1 & _ & [=])]. by apply deref_node_Err in H.
Qed.

Lemma he1_Err n s e s' : he1 n s = (Err e, s') -> e = Fault /\ s' = s.
Proof. apply deref_edge_Err. Qed.

Lemma he2_Err n s e s' : he2 n s = (Err e, s') -> e = Fault /\ s' = s.
Proof. apply deref_edge_Err. Qed.

Lemma boost_assert_Err b s e s' :
  boost_assert b s = (Err e, s') <-> b = false /\ e = Fault /\ s' = s.
Proof.
  destruct b; unfold boost_assert, ret, throw; split;
    first [by intros [= <- <-] | by intros (? & -> & ->) | done].
Qed.

Lemma ret_Err {A} (a : A) s e s' : ret a s = (Err e, s') <-> False.
Proof. unfold ret. by split. Qed.

Lemma throw_Err {A} e0 s e s' : @throw _ A e0 s = (Err e, s') <-> e = e0 /\ s' = s.
Proof. unfold throw. split; [by intros [= <- <-]|by intros [-> ->]]. Qed.

(** Taking a run that failed apart: one goal for each statement that can
    have failed. *)
Ltac merr1 :=
  match goal with
  | H : bind _ _ _ = (Err _, _) |- _ =>
      apply bind_Err in H; destruct H as [H|(? & ? & ? & H)]
  | H : ret _ _ = (Err _, _) |- _ => by apply ret_Err in H
  | H : throw _ _ = (Err _, _) |- _ => apply throw_Err in H; destruct H as [? ?]
  | H : boost_assert _ _ = (Err _, _) |- _ =>
      apply boost_assert_Err in H; destruct H as (? & ? & ?)
  | H : he_origin _ _ = (Err _, _) |- _ => apply he_origin_Err in H; destruct H as (? & ? & ?)
  | H : he_pair _ _ = (Err _, _) |- _ => apply he_pair_Err in H; destruct H as (? & ? & ?)
  | H : he_next _ _ = (Err _, _) |- _ => apply he_next_Err in H; destruct H as (? & ? & ?)
  | H : he_prev _ _ = (Err _, _) |- _ => apply he_prev_Err in H; destruct H as (? & ? & ?)
  | H : he_face _ _ = (Err _, _) |- _ => apply he_face_Err in H; destruct H as (? & ? & ?)
  | H : he_edge _ _ = (Err _, _) |- _ => apply he_edge_Err in H; destruct H as (? & ? & ?)
  | H : is_boundary _ _ = (Err _, _) |- _ =>
      apply is_boundary_Err in H; destruct H as (? & ? & ?)
  | H : set_origin _ _ _ = (Err _, _) |- _ => apply set_origin_Err in H; destruct H as (? & ? & ?)
  | H : set_next _ _ _ = (Err _, _) |- _ => apply set_next_Err in H; destruct H as (? & ? & ?)
  | H : set_prev _ _ _ = (Err _, _) |- _ => apply set_prev_Err in H; destruct H as (? & ? & ?)
  | H : set_face _ _ _ = (Err _, _) |- _ => apply set_face_Err in H; destruct H as (? & ? & ?)
  | H : node_halfedge _ _ = (Err _, _) |- _ => apply node_halfedge_Err in H; destruct H as [? ?]
  | H : is_isolated _ _ = (Err _, _) |- _ => apply is_isolated_Err in H; destruct H as [? ?]
  | H : set_halfedge _ _ _ = (Err _, _) |- _ => apply set_halfedge_Err in H; destruct H as [? ?]
  | H : he1 _ _ = (Err _, _) |- _ => apply he1_Err in H; destruct H as [? ?]
  | H : he2 _ _ = (Err _, _) |- _ => apply he2_Err in H; destruct H as [? ?]
  end.
Ltac merr := repeat (first [merr1 | minv1]; simplify_eq).

(** ** Iterating a function *)

Lemma iter_add (f : nat -> nat) a b x :
  Nat.iter (a + b) f x = Nat.iter a f (Nat.iter b f x).
Proof. induction a; simpl; congruence. Qed.

Lemma iter_S_r (f : nat -> nat) k x : Nat.iter (S k) f x = Nat.iter k f (f x).
Proof. by rewrite Nat.iter_succ_r. Qed.

Section Iterating.
Context (f : nat -> nat).

Lemma iter_period m x q r :
  Nat.iter m f x = x -> Nat.iter (q * m + r) f x = Nat.iter r f x.
Proof.
  intros Hm. induction q as [|q IH]; simpl; [done|].
  replace (m + q * m + r) with ((q * m + r) + m) by lia.
  by rewrite iter_add, Hm.
Qed.

Lemma iter_frame (f' : nat -> nat) k x :
  (forall j, j < k -> f' (Nat.iter j f x) = f (Nat.iter j f x)) ->
  Nat.iter k f' x = Nat.iter k f x.
Proof.
  induction k as [|k IH]; simpl; [done|]. intros H.
  rewrite IH by (intros; apply H; lia). apply H. lia.
Qed.

Lemma iter_mod m x k :
  0 < m -> Nat.iter m f x = x -> Nat.iter k f x = Nat.iter (k mod m) f x.
Proof.
  intros Hpos Hm.
  replace (Nat.iter k f x) with (Nat.iter (k / m * m + k mod m) f x).
  - by apply iter_period.
  - f_equal. pose proof (Nat.div_mod_eq k m). lia.
Qed.

(** The iterates up to the first one that satisfies [P] are distinct. *)
Lemma iter_first_distinct (P : nat -> Prop) x k i j :
  P (Nat.iter k f x) -> (forall l, l < k -> ~ P (Nat.iter l f x)) ->
  i < j -> j <= k -> Nat.iter i f x <> Nat.iter j f x.
Proof.
  intros Hk Hfirst Hij Hjk Heq.
  apply (Hfirst (k - j + i)); [lia|].
  rewrite iter_add, Heq, <- iter_add. by replace (k - j + j) with k by lia.
Qed.

(** Splicing [w] into the orbit after [g]. *)
Lemma iter_splice (f' : nat -> nat) g w k x :
  f' g = w -> f' w = f g ->
  (forall y, y <> g -> y <> w -> f' y = f y) ->
  (forall j, j <= k -> Nat.iter j f x <> w) ->
  exists k', Nat.iter k' f' x = Nat.iter k f x.
Proof.
  intros Hg Hw Hother. revert x. induction k as [|k IH]; intros x Hx.
  { by exists 0. }
  assert (forall j, j <= k -> Nat.iter j f (f x) <> w) as Hx'.
  { intros j ?. rewrite <- iter_S_r. apply Hx. lia. }
  destruct (IH (f x) Hx') as [k' Hk'].
  destruct (decide (x = g)) as [->|Hne].
  - exists (S (S k')).
    by rewrite (iter_S_r f' (S k')), Hg, (iter_S_r f' k'), Hw, Hk', <- iter_S_r.
  - exists (S k'). rewrite (iter_S_r f' k'), Hother, Hk', <- iter_S_r; [done..|].
    apply (Hx 0). lia.
Qed.

(** Taking [w] out of the orbit: its predecessor [p] skips it. *)
Lemma iter_bypass (L : nat -> Prop) (f' : nat -> nat) p w k x :
  (forall y, L y -> L (f y)) ->
  f p = w -> f' p = f w ->
  (forall y, L y -> y <> p -> y <> w -> f' y = f y) ->
  (forall y, L y -> f y = w -> y = p) ->
  L x -> x <> w -> Nat.iter k f x <> w ->
  exists k', Nat.iter k' f' x = Nat.iter k f x.
Proof.
  intros Hclosed Hp Hp' Hother Hinj. revert x.
  induction (lt_wf k) as [k _ IH]. intros x Lx Hx Hy.
  destruct k as [|k]; [by exists 0|].
  destruct (decide (x = p)) as [->|Hne].
  - destruct k as [|k]; [by rewrite iter_S_r, Hp in Hy|].
    rewrite !iter_S_r, Hp in Hy.
    assert (L w) as Lw by (rewrite <- Hp; by apply Hclosed).
    assert (f w <> w) as Hfw.
    { intros Hw. apply Hinj in Hw; [congruence|done]. }
    destruct (IH k ltac:(lia) (f w) ltac:(by apply Hclosed) Hfw Hy) as [k' Hk'].
    exists (S k'). by rewrite (iter_S_r f' k'), Hp', Hk', !(iter_S_r f), Hp.
  - rewrite iter_S_r in Hy.
    assert (f x <> w) as Hfx.
    { intros Hw. by apply Hinj in Hw. }
    destruct (IH k ltac:(lia) (f x) ltac:(by apply Hclosed) Hfx Hy) as [k' Hk'].
    exists (S k'). by rewrite (iter_S_r f' k'), Hother, Hk', (iter_S_r f).
Qed.

Lemma iter_frame_on (L : nat -> Prop) (f' : nat -> nat) k x :
  (forall y, L y -> L (f y) /\ f' y = f y) -> L x ->
  L (Nat.iter k f x) /\ Nat.iter k f' x = Nat.iter k f x.
Proof.
  intros H Lx. induction k as [|k [IHL IH]]; simpl; [done|].
  rewrite IH. by apply H.
Qed.

(** Exchanging two stretches of a cycle.  The cycle of [x] under [f] has
    length [N]; [g], [i] and [d] sit at the indices [a < b < N - 1]; [f']
    sends [i] to [x], [g] to where [i] went and [d] to where [g] went.
    Then [f'] runs through the same cycle, in another order. *)
Lemma iter_exchange (f' : nat -> nat) x N a b :
  a < b -> b < N - 1 ->
  (forall t t', t < N -> t' < N -> Nat.iter t f x = Nat.iter t' f x -> t = t') ->
  f' (Nat.iter b f x) = x ->
  f' (Nat.iter a f x) = f (Nat.iter b f x) ->
  f' (Nat.iter (N - 1) f x) = f (Nat.iter a f x) ->
  (forall y, y <> Nat.iter a f x -> y <> Nat.iter b f x -> y <> Nat.iter (N - 1) f x ->
     f' y = f y) ->
  Nat.iter N f' x = x /\
  forall t, t < N -> exists t', Nat.iter t' f' x = Nat.iter t f x.
Proof.
  intros Hab HbN Huniq Hi Hg Hd Hother.
  assert (forall t, t < N -> t <> a -> t <> b -> t <> N - 1 ->
            f' (Nat.iter t f x) = f (Nat.iter t f x)) as Hsame.
  { intros t ? ? ? ?. apply Hother; intros Heq; apply Huniq in Heq; lia. }
  assert (forall t, t <= a -> Nat.iter t f' x = Nat.iter t f x) as H1.
  { intros t ?. apply iter_frame. intros j ?. apply Hsame; lia. }
  assert (forall t, t <= N - 2 - b ->
            Nat.iter (a + 1 + t) f' x = Nat.iter (b + 1 + t) f x) as H2.
  { induction t as [|t IH]; intros ?.
    - rewrite !Nat.add_0_r, !Nat.add_1_r. simpl. by rewrite H1, Hg.
    - replace (a + 1 + S t) with (S (a + 1 + t)) by lia.
      replace (b + 1 + S t) with (S (b + 1 + t)) by lia.
      simpl. rewrite IH by lia. apply Hsame; lia. }
  assert (forall t, t <= b - a - 1 ->
            Nat.iter (a + N - b + t) f' x = Nat.iter (a + 1 + t) f x) as H3.
  { induction t as [|t IH]; intros ?.
    - rewrite !Nat.add_0_r, !Nat.add_1_r.
      replace (a + N - b) with (S (a + 1 + (N - 2 - b))) by lia.
      simpl. rewrite H2 by lia.
      replace (b + 1 + (N - 2 - b)) with (N - 1) by lia. done.
    - replace (a + N - b + S t) with (S (a + N - b + t)) by lia.
      replace (a + 1 + S t) with (S (a + 1 + t)) by lia.
      simpl. rewrite IH by lia. apply Hsame; lia. }
  split.
  - replace N with (S (a + N - b + (b - a - 1))) by lia.
    simpl. rewrite H3 by lia.
    replace (a + 1 + (b - a - 1)) with b by lia. done.
  - intros t ?. destruct (decide (t <= a)); [|destruct (decide (t <= b))].
    + exists t. by apply H1.
    + exists (a + N - b + (t - a - 1)). rewrite H3 by lia. f_equal. lia.
    + exists (a + 1 + (t - b - 1)). rewrite H2 by lia. f_equal. lia.
Qed.
Lemma iter_fixed k x : f x = x -> Nat.iter k f x = x.
Proof. intros E. induction k as [|k IH]; simpl; congruence. Qed.

(** Two points of a cycle are connected. *)
Lemma cycle_connects x N y z ty tz :
  0 < N -> Nat.iter N f x = x ->
  Nat.iter ty f x = y -> Nat.iter tz f x = z ->
  exists k, Nat.iter k f y = z.
Proof.
  intros HN Hper <- <-. exists (tz + (ty * N - ty)).
  rewrite iter_add, <- (iter_add f (ty * N - ty) ty).
  replace (ty * N - ty + ty) with (ty * N + 0) by nia.
  by rewrite iter_period.
Qed.

End Iterating.

Lemma first_index (P : nat -> Prop) `{forall n, Decision (P n)} k :
  (exists m, m <= k /\ P m /\ forall j, j < m -> ~ P j) \/ (forall j, j <= k -> ~ P j).
Proof.
  induction k as [|k [(m & ? & ? & ?)|IH]].
  - destruct (decide (P 0)); [left; exists 0; split_and!; [lia|done|intros; lia]|].
    right. intros j ?. by replace j with 0 by lia.
  - left. exists m. split_and!; [lia|done..].
  - destruct (decide (P (S k))).
    + left. exists (S k). split_and!; [lia|done|]. intros j ?. apply IH. lia.
    + right. intros j ?. destruct (decide (j = S k)) as [->|]; [done|]. apply IH. lia.
Qed.

Lemma iterates_bounded (m : gmap nat Halfedge) (l : list nat) :
  NoDup l -> (forall x, x ∈ l -> is_Some (m !! x)) -> length l <= size m.
Proof.
  intros Hnd Hin.
  rewrite <- (size_dom (D:=gset nat)).
  rewrite <- (size_list_to_set (C:=gset nat) l) by done.
  apply subseteq_size. intros x. rewrite elem_of_list_to_set, elem_of_dom. auto.
Qed.

(** Running a statement whose handles are alive. *)
Ltac mrun1 :=
  first
    [ erewrite bind_run by (apply is_boundary_run; eauto with live)
    | erewrite bind_run by (apply he_origin_run; eauto with live)
    | erewrite bind_run by (apply he_pair_run; eauto with live)
    | erewrite bind_run by (apply he_next_run; eauto with live)
    | erewrite bind_run by (apply he_prev_run; eauto with live)
    | erewrite bind_run by (apply he_face_run; eauto with live)
    | erewrite bind_run by (apply he_edge_run; eauto with live)
    | erewrite bind_run by (apply set_origin_run; eauto with live)
    | erewrite bind_run by (apply set_next_run; eauto with live)
    | erewrite bind_run by (apply set_prev_run; eauto with live)
    | erewrite bind_run by (apply set_face_run; eauto with live)
    | erewrite bind_run by (unfold ret; reflexivity) ].
Ltac mrun := repeat mrun1.

(** ** The walk of [find_free_incident_halfedge] *)

Lemma free_walk_Ok fuel stop it s g s' :
  free_walk fuel stop it s = (Ok g, s') ->
  s' = s /\ exists k, k < fuel /\ g = Nat.iter k (around s) it /\
    face_of s g = None /\ live s g /\
    forall j, j < k ->
      live s (Nat.iter j (around s) it) /\
      live s (next_of s (Nat.iter j (around s) it)) /\
      face_of s (Nat.iter j (around s) it) <> None /\
      Nat.iter (S j) (around s) it <> stop.
Proof.
  revert it. induction fuel as [|fuel IH]; intros it H; simpl in H; [by minv|].
  minv. destruct (bool_decide (face_of s it = None)) eqn:Hb.
  - minv. apply bool_decide_eq_true in Hb.
    split; [done|]. exists 0. split_and!; [lia|done..|]. intros; lia.
  - apply bool_decide_eq_false in Hb. minv.
    change (pair_of s (next_of s it)) with (around s it) in *.
    case_decide; [by minv|].
    apply IH in H as (-> & k & Hk & -> & Hf & Hl & Hj).
    split; [done|]. exists (S k). rewrite iter_S_r. split_and!; [lia|done..|].
    intros [|j] Hlt.
    + done.
    + rewrite (iter_S_r (around s) (S j) it), !(iter_S_r (around s) j it).
      apply Hj. lia.
Qed.

Lemma free_walk_found k fuel stop it s :
  k < fuel ->
  (forall j, j <= k -> live s (Nat.iter j (around s) it)) ->
  (forall j, j < k ->
     live s (next_of s (Nat.iter j (around s) it)) /\
     face_of s (Nat.iter j (around s) it) <> None /\
     Nat.iter (S j) (around s) it <> stop) ->
  face_of s (Nat.iter k (around s) it) = None ->
  free_walk fuel stop it s = (Ok (Nat.iter k (around s) it), s).
Proof.
  revert fuel it. induction k as [|k IH]; intros [|fuel] it Hlt Hl Hj Hf; try lia.
  - pose proof (Hl 0 ltac:(lia)) as H0. simpl in *. mrun.
    by rewrite bool_decide_eq_true_2.
  - pose proof (Hl 0 ltac:(lia)) as H0. pose proof (Hj 0 ltac:(lia)) as (Hn & Hb & Hs).
    simpl in H0, Hn, Hb, Hs. cbn [free_walk]. mrun.
    rewrite bool_decide_eq_false_2 by done. mrun.
    fold (around s it). rewrite decide_False by done.
    rewrite iter_S_r in Hf |- *. apply IH; [lia|..|done].
    + intros j ?. rewrite <- iter_S_r. apply Hl. lia.
    + intros j ?. rewrite <- (iter_S_r (around s) (S j)), <- (iter_S_r (around s) j).
      apply Hj. lia.
Qed.

Lemma free_walk_turn k fuel stop it s :
  k < fuel ->
  (forall j, j <= k ->
     live s (Nat.iter j (around s) it) /\
     live s (next_of s (Nat.iter j (around s) it)) /\
     face_of s (Nat.iter j (around s) it) <> None) ->
  (forall j, j < k -> Nat.iter (S j) (around s) it <> stop) ->
  Nat.iter (S k) (around s) it = stop ->
  free_walk fuel stop it s = (Err bad_topology_error, s).
Proof.
  revert fuel it. induction k as [|k IH]; intros [|fuel] it Hlt Hl Hj Hf; try lia.
  - pose proof (Hl 0 ltac:(lia)) as (H0 & Hn & Hb). simpl in *. mrun.
    rewrite bool_decide_eq_false_2 by done. mrun.
    fold (around s it). by rewrite decide_True.
  - pose proof (Hl 0 ltac:(lia)) as (H0 & Hn & Hb). pose proof (Hj 0 ltac:(lia)) as Hs.
    simpl in Hb, Hs, H0, Hn. cbn [free_walk]. mrun.
    rewrite bool_decide_eq_false_2 by done. mrun.
    fold (around s it). rewrite decide_False by done.
    apply IH; [lia|..].
    + intros j ?. rewrite <- !(iter_S_r (around s) j). apply Hl. lia.
    + intros j ?. rewrite <- (iter_S_r (around s) (S j)). apply Hj. lia.
    + by rewrite <- (iter_S_r (around s) (S k)).
Qed.

Lemma free_walk_Err fuel stop it s e s' :
  free_walk fuel stop it s = (Err e, s') ->
  s' = s /\ (e = Fault \/ e = Diverges \/
    e = bad_topology_error /\ exists k, k < fuel /\
      Nat.iter (S k) (around s) it = stop /\
      forall j, j <= k ->
        live s (Nat.iter j (around s) it) /\
        face_of s (Nat.iter j (around s) it) <> None).
Proof.
  revert it. induction fuel as [|fuel IH]; intros it H; simpl in H.
  { merr. auto. }
  merr; auto.
  destruct (bool_decide (face_of s it = None)) eqn:Hb; [by merr|].
  apply bool_decide_eq_false in Hb. merr; auto.
  case_decide.
  - merr. split; [done|]. right; right. split; [done|]. exists 0.
    split_and!; [lia|done|]. intros j ?. replace j with 0 by lia. done.
  - apply IH in H as (-> & H). split; [done|].
    destruct H as [?|[?|(-> & k & Hk & Hs & Hj)]]; auto.
    right; right. split; [done|]. exists (S k). rewrite iter_S_r.
    split_and!; [lia|done|].
    intros [|j] ?; [done|]. rewrite iter_S_r. apply Hj. lia.
Qed.

(** ** [C5]: the walk around a node *)

Lemma distinct_bounded s (f : nat -> nat) x k :
  (forall i j, i < j -> j <= k -> Nat.iter i f x <> Nat.iter j f x) ->
  (forall j, j <= k -> live s (Nat.iter j f x)) ->
  k < size (halfedges s).
Proof.
  intros Hd Hl.
  pose proof (iterates_bounded (halfedges s) ((fun j => Nat.iter j f x) <$> seq 0 (S k))) as H.
  rewrite length_fmap, length_seq in H. apply H.
  - apply NoDup_fmap_2_strong; [|apply NoDup_seq].
    intros i j Hi Hj Heq. apply elem_of_seq in Hi, Hj.
    destruct (decide (i = j)) as [|Hne]; [done|]. exfalso.
    destruct (decide (i < j)).
    + apply (Hd i j); [lia..|done].
    + apply (Hd j i); [lia..|done].
  - intros y Hy. apply list_elem_of_fmap in Hy as (j & -> & Hj).
    apply elem_of_seq in Hj. apply Hl. lia.
Qed.

Lemma is_isolated_run n s :
  is_Some (nodes s !! n) ->
  is_isolated (Some n) s = (Ok (bool_decide (halfedge_of s n = None)), s).
Proof. intros. apply is_isolated_Ok. eauto 10. Qed.

Lemma node_halfedge_run n s :
  is_Some (nodes s !! n) -> node_halfedge (Some n) s = (Ok (halfedge_of s n), s).
Proof. intros. apply node_halfedge_Ok. eauto 10. Qed.

Lemma halfedge_of_Some s n h : halfedge_of s n = Some h -> is_Some (nodes s !! n).
Proof. unfold halfedge_of. by destruct (nodes s !! n). Qed.

Lemma find_free_incident_halfedge_run s n h0 :
  halfedge_of s n = Some h0 -> live s h0 ->
  find_free_incident_halfedge (Some n) s
  = free_walk (walk_fuel s) (pair_of s h0) (pair_of s h0) s.
Proof.
  intros Hn L. pose proof (halfedge_of_Some _ _ _ Hn).
  unfold find_free_incident_halfedge.
  rewrite (bind_run _ _ _ _ _ (is_isolated_run _ _ ltac:(done))).
  rewrite Hn. rewrite bool_decide_eq_false_2 by done.
  change (boost_assert (negb false)) with (@ret K unit tt). mrun.
  rewrite (bind_run _ _ _ _ _ (node_halfedge_run _ _ ltac:(done))).
  rewrite Hn. by mrun.
Qed.

Lemma closed_links_iter s x k :
  closed_links s -> live s x -> live s (Nat.iter k (around s) x).
Proof.
  intros Hc L. induction k as [|k IH]; simpl; [done|].
  unfold around at 1. apply Hc, Hc, IH.
Qed.

(** The walk from [start] back to [start] with the fuel of the store. *)
Lemma free_walk_outcome s start :
  closed_links s -> live s start ->
  (forall k,
     face_of s (Nat.iter k (around s) start) = None ->
     (forall j, j < k -> face_of s (Nat.iter j (around s) start) <> None) ->
     free_walk (walk_fuel s) start start s = (Ok (Nat.iter k (around s) start), s)) /\
  (forall k,
     0 < k -> Nat.iter k (around s) start = start ->
     (forall j, j < k -> face_of s (Nat.iter j (around s) start) <> None) ->
     free_walk (walk_fuel s) start start s = (Err bad_topology_error, s)).
Proof.
  intros Hc Ls.
  pose proof (fun k => closed_links_iter s start k Hc Ls) as Hl.
  split.
  - intros k Hf Hfirst.
    assert (forall j, 0 < j -> j <= k -> Nat.iter j (around s) start <> start) as Hback.
    { intros j ? ? Hj. apply (Hfirst (k mod j)).
      - pose proof (Nat.mod_upper_bound k j). lia.
      - rewrite <- (iter_mod (around s) j) by (done || lia). done. }
    apply free_walk_found; [|by auto| |done].
    + unfold walk_fuel. apply Nat.lt_lt_succ_r.
      apply (distinct_bounded s (around s) start k); [|by auto].
      intros i j ? ?.
      by apply (iter_first_distinct (around s) (fun h => face_of s h = None) _ k).
    + intros j ?. split_and!; [apply Hc, Hl|by apply Hfirst|apply Hback; lia].
  - intros k Hk Hret Hnone.
    destruct (first_index (fun m => Nat.iter (S m) (around s) start = start) (k - 1))
      as [(m & Hm & Hmret & Hmfirst)|Hno].
    2:{ destruct (Hno (k - 1)); [lia|]. by replace (S (k - 1)) with k by lia. }
    apply (free_walk_turn m); [| | |done].
    + unfold walk_fuel.
      apply Nat.lt_lt_succ_r, (distinct_bounded s (around s) (around s start) m).
      * intros i j ? ?.
        apply (iter_first_distinct (around s) (fun h => h = start) _ m); [| |done..].
        -- by rewrite <- iter_S_r.
        -- intros l ?. rewrite <- iter_S_r. by apply Hmfirst.
      * intros j ?. rewrite <- iter_S_r. apply Hl.
    + intros j ?. split_and!; [apply Hl|apply Hc, Hl|apply Hnone; lia].
    + intros j ?. apply Hmfirst. lia.
Qed.

(** [C5] At a node [n] that is not isolated, [find_free_incident_halfedge]
    walks from [n.halfedge.pair] by [next.pair]: it returns the first
    halfedge of that sequence whose face is null, and throws
    [bad_topology_error] when the sequence comes back to its start without
    one. *)
Theorem find_free_incident_halfedge_walk s n h0 :
  closed_links s ->
  halfedge_of s n = Some h0 -> live s h0 ->
  let start := pair_of s h0 in
  (forall k,
     face_of s (Nat.iter k (around s) start) = None ->
     (forall j, j < k -> face_of s (Nat.iter j (around s) start) <> None) ->
     find_free_incident_halfedge (Some n) s = (Ok (Nat.iter k (around s) start), s)) /\
  (forall k,
     0 < k -> Nat.iter k (around s) start = start ->
     (forall j, j < k -> face_of s (Nat.iter j (around s) start) <> None) ->
     find_free_incident_halfedge (Some n) s = (Err bad_topology_error, s)).
Proof.
  intros Hc Hn L start. rewrite (find_free_incident_halfedge_run _ _ _ Hn L).
  apply free_walk_outcome; [done|]. by apply Hc.
Qed.

(** ** [C10] and [C2]: [make_adjacent] and the third test of [add_face] *)

Lemma make_adjacent_true i o s r s' :
  make_adjacent i o s = (Ok r, s') -> r = true.
Proof.
  unfold make_adjacent. intros H. minv.
  case_decide; minv; done.
Qed.

Lemma and_then_run (a b : M bool) s (c : bool) s1 :
  a s = (Ok c, s1) -> and_then a b s = if c then b s1 else (Ok false, s1).
Proof. intros H. unfold and_then. rewrite (bind_run _ _ _ _ _ H). by destruct c. Qed.

Lemma and_then_Ok (a b : M bool) s r s' :
  and_then a b s = (Ok r, s') <->
  (exists s1, a s = (Ok true, s1) /\ b s1 = (Ok r, s')) \/
  (a s = (Ok false, s') /\ r = false).
Proof.
  unfold and_then. rewrite bind_Ok. split.
  - intros ([] & s1 & Ha & Hb); [eauto|]. apply ret_Ok in Hb as [-> ->]. eauto.
  - intros [(s1 & Ha & Hb)|[Ha ->]]; [eauto|]. exists false, s'. by rewrite ret_Ok.
Qed.

Lemma and_then_Err (a b : M bool) s e s' :
  and_then a b s = (Err e, s') <->
  a s = (Err e, s') \/ exists s1, a s = (Ok true, s1) /\ b s1 = (Err e, s').
Proof.
  unfold and_then. rewrite bind_Err. split.
  - intros [?|([] & s1 & Ha & Hb)]; [eauto..|]. by apply ret_Err in Hb.
  - intros [?|(s1 & Ha & Hb)]; eauto.
Qed.

Lemma find_free_incident_halfedge2_Err h1 h2 s e s' :
  find_free_incident_halfedge2 h1 h2 s = (Err e, s') -> s' = s /\ core_failure e.
Proof.
  unfold find_free_incident_halfedge2, core_failure. intros H. merr; auto.
  apply free_walk_Err in H as (-> & [?|[?|[? _]]]); auto.
Qed.

Lemma make_adjacent_Err i o s e s' :
  make_adjacent i o s = (Err e, s') -> core_failure e.
Proof.
  unfold make_adjacent. intros H. merr; try (unfold core_failure; by auto).
  case_decide; merr; try (unfold core_failure; by auto).
  by apply find_free_incident_halfedge2_Err in H as [_ ?].
Qed.

Lemma all_adjacent_true h1 h2 h3 s r s' :
  all_adjacent h1 h2 h3 s = (Ok r, s') -> r = true.
Proof.
  unfold all_adjacent. intros H.
  apply and_then_Ok in H as [(s1 & H1 & H)|[H1 ->]];
    [apply and_then_Ok in H as [(s2 & H2 & H3)|[H2 ->]]|].
  - by apply make_adjacent_true in H3.
  - by apply make_adjacent_true in H2.
  - by apply make_adjacent_true in H1.
Qed.

Lemma all_adjacent_Err h1 h2 h3 s e s' :
  all_adjacent h1 h2 h3 s = (Err e, s') -> core_failure e.
Proof.
  unfold all_adjacent. intros H.
  apply and_then_Err in H as [H|(s1 & _ & H)];
    [|apply and_then_Err in H as [H|(s2 & _ & H)]];
    by apply make_adjacent_Err in H.
Qed.

Lemma all_free_run h1 h2 h3 s :
  live s h1 -> live s h2 -> live s h3 ->
  and_then (is_boundary h1) (and_then (is_boundary h2) (is_boundary h3)) s
  = (Ok (bool_decide (all_free s h1 h2 h3)), s).
Proof.
  intros L1 L2 L3. unfold all_free.
  rewrite (and_then_run _ _ _ _ _ (is_boundary_run _ _ L1)).
  destruct (decide (face_of s h1 = None)) as [E1|E1].
  2:{ rewrite bool_decide_eq_false_2 by done. by rewrite bool_decide_eq_false_2 by tauto. }
  rewrite bool_decide_eq_true_2 by done.
  rewrite (and_then_run _ _ _ _ _ (is_boundary_run _ _ L2)).
  destruct (decide (face_of s h2 = None)) as [E2|E2].
  2:{ rewrite bool_decide_eq_false_2 by done. by rewrite bool_decide_eq_false_2 by tauto. }
  rewrite bool_decide_eq_true_2 by done.
  rewrite (is_boundary_run _ _ L3). do 2 f_equal. apply bool_decide_ext. tauto.
Qed.

Lemma chained_run h h' s :
  live s h -> live s (pair_of s h) -> live s h' ->
  chained h h' s = (Ok (bool_decide (target_of s h = origin_of s h')), s).
Proof. intros. unfold chained. mrun. done. Qed.

Lemma closed_chain_run h1 h2 h3 s :
  live s h1 -> live s h2 -> live s h3 ->
  live s (pair_of s h1) -> live s (pair_of s h2) -> live s (pair_of s h3) ->
  and_then (chained h1 h2) (and_then (chained h2 h3) (chained h3 h1)) s
  = (Ok (bool_decide (closed_chain s h1 h2 h3)), s).
Proof.
  intros L1 L2 L3 P1 P2 P3. unfold closed_chain.
  rewrite (and_then_run _ _ _ _ _ (chained_run _ _ _ L1 P1 L2)).
  destruct (decide (target_of s h1 = origin_of s h2)) as [E1|E1].
  2:{ rewrite bool_decide_eq_false_2 by done. by rewrite bool_decide_eq_false_2 by tauto. }
  rewrite bool_decide_eq_true_2 by done.
  rewrite (and_then_run _ _ _ _ _ (chained_run _ _ _ L2 P2 L3)).
  destruct (decide (target_of s h2 = origin_of s h3)) as [E2|E2].
  2:{ rewrite bool_decide_eq_false_2 by done. by rewrite bool_decide_eq_false_2 by tauto. }
  rewrite bool_decide_eq_true_2 by done.
  rewrite (chained_run _ _ _ L3 P3 L1). do 2 f_equal. apply bool_decide_ext. tauto.
Qed.

(** The tests of [add_face] only read the store. *)
Lemma add_face_tests h1 h2 h3 s :
  live s h1 -> live s h2 -> live s h3 ->
  live s (pair_of s h1) -> live s (pair_of s h2) -> live s (pair_of s h3) ->
  add_face h1 h2 h3 s =
    if bool_decide (all_free s h1 h2 h3) then
      if bool_decide (closed_chain s h1 h2 h3) then
        (let* adj := all_adjacent h1 h2 h3 in
         if negb adj then throw (add_face_error NON_MANIFOLD)
         else
           let* f := get_new_face in
           let* _ := face_set_halfedge f h1 in
           let* _ := set_face h1 (Some f) in
           let* _ := set_face h2 (Some f) in
           let* _ := set_face h3 (Some f) in
           ret (Some f)) s
      else (Err (add_face_error NOT_A_CHAIN), s)
    else (Err (add_face_error NOT_FREE), s).
Proof.
  intros L1 L2 L3 P1 P2 P3. unfold add_face.
  rewrite (bind_run _ _ _ _ _ (all_free_run _ _ _ _ L1 L2 L3)).
  destruct (bool_decide (all_free s h1 h2 h3)); [|done]. simpl.
  rewrite (bind_run _ _ _ _ _ (closed_chain_run _ _ _ _ L1 L2 L3 P1 P2 P3)).
  by destruct (bool_decide (closed_chain s h1 h2 h3)).
Qed.

(** [C3] When one of the three halfedges is not free, [add_face] throws
    [add_face_error] "not free"; when they are free and do not form a closed
    chain, it throws [add_face_error] "not a chain"; either way the store,
    and with it every face and every field of every halfedge, is as before
    the call. *)
Theorem add_face_rejects s h1 h2 h3 :
  live s h1 -> live s h2 -> live s h3 ->
  live s (pair_of s h1) -> live s (pair_of s h2) -> live s (pair_of s h3) ->
  (~ all_free s h1 h2 h3 ->
     add_face h1 h2 h3 s = (Err (add_face_error NOT_FREE), s)) /\
  (all_free s h1 h2 h3 -> ~ closed_chain s h1 h2 h3 ->
     add_face h1 h2 h3 s = (Err (add_face_error NOT_A_CHAIN), s)).
Proof.
  intros L1 L2 L3 P1 P2 P3. rewrite add_face_tests by done. split.
  - intros ?. by rewrite bool_decide_eq_false_2.
  - intros ? ?. rewrite bool_decide_eq_true_2 by done. by rewrite bool_decide_eq_false_2.
Qed.

(** An [add_face_error] of [add_face] comes from one of its three [throw]s;
    the calls it makes fail in other ways. *)
Lemma add_face_Err h1 h2 h3 s e s' :
  add_face h1 h2 h3 s = (Err e, s') ->
  core_failure e \/ e = add_face_error NOT_FREE \/ e = add_face_error NOT_A_CHAIN.
Proof.
  unfold add_face. fold (all_adjacent h1 h2 h3). unfold core_failure.
  intros H. apply bind_Err in H as [H|(free & s1 & Hfree & H)].
  { apply and_then_Err in H as [H|(? & _ & H)];
      [|apply and_then_Err in H as [H|(? & _ & H)]]; merr; auto. }
  destruct free; simpl in H; [|merr; auto].
  apply bind_Err in H as [H|(chain & s2 & Hchain & H)].
  { unfold chained in H.
    apply and_then_Err in H as [H|(? & _ & H)];
      [|apply and_then_Err in H as [H|(? & _ & H)]]; merr; auto. }
  destruct chain; simpl in H; [|merr; auto].
  apply bind_Err in H as [H|(adj & s3 & Hadj & H)].
  { apply all_adjacent_Err in H. auto. }
  apply all_adjacent_true in Hadj as ->. simpl in H.
  unfold get_new_face, face_set_halfedge in H. merr; auto.
  - by apply deref_face_Err in H as [-> _]; auto.
Qed.

(** [C10] [make_adjacent] returns [true] whenever it returns, so [add_face]
    never throws [add_face_error] "non-manifold"; when the three halfedges
    are free and form a closed chain and a [make_adjacent] fails, [add_face]
    fails the way that [make_adjacent] did, which is with
    [bad_topology_error] when no free halfedge was found. *)
Theorem make_adjacent_never_false :
  (forall i o s r s', make_adjacent i o s = (Ok r, s') -> r = true) /\
  (forall h1 h2 h3 s s',
     add_face h1 h2 h3 s <> (Err (add_face_error NON_MANIFOLD), s')) /\
  (forall h1 h2 h3 s e s',
     live s h1 -> live s h2 -> live s h3 ->
     live s (pair_of s h1) -> live s (pair_of s h2) -> live s (pair_of s h3) ->
     all_free s h1 h2 h3 -> closed_chain s h1 h2 h3 ->
     all_adjacent h1 h2 h3 s = (Err e, s') ->
     add_face h1 h2 h3 s = (Err e, s') /\ core_failure e).
Proof.
  split_and!.
  - apply make_adjacent_true.
  - intros h1 h2 h3 s s' H. apply add_face_Err in H.
    unfold core_failure in H. destruct H as [[?|[?|?]]|[?|?]]; congruence.
  - intros h1 h2 h3 s e s' L1 L2 L3 P1 P2 P3 Hfree Hchain H.
    rewrite add_face_tests by done. rewrite !bool_decide_eq_true_2 by done.
    split; [by apply bind_fail|by apply all_adjacent_Err in H].
Qed.

(** ** Consequences of the links *)

Section Linked.
Context (s : HDS) (Hl : linked s).

Lemma linked_closed_links : closed_links s.
Proof. intros h L. destruct (lk_closed s Hl h L) as (? & ? & ?). done. Qed.

Lemma live_pair h : live s h -> live s (pair_of s h).
Proof. intros L. by destruct (lk_closed s Hl h L) as (? & ? & ?). Qed.
Lemma live_next h : live s h -> live s (next_of s h).
Proof. intros L. by destruct (lk_closed s Hl h L) as (? & ? & ?). Qed.
Lemma live_prev h : live s h -> live s (prev_of s h).
Proof. intros L. by destruct (lk_closed s Hl h L) as (? & ? & ?). Qed.

Lemma live_around h : live s h -> live s (around s h).
Proof. intros L. by apply live_pair, live_next. Qed.

Lemma live_iter k h : live s h -> live s (Nat.iter k (around s) h).
Proof. intros L. induction k; simpl; [done|]. by apply live_around. Qed.

Lemma next_inj h h' : live s h -> live s h' -> next_of s h = next_of s h' -> h = h'.
Proof.
  intros L L' E. rewrite <- (lk_next_prev s Hl h L), <- (lk_next_prev s Hl h' L'). by rewrite E.
Qed.

Lemma prev_inj h h' : live s h -> live s h' -> prev_of s h = prev_of s h' -> h = h'.
Proof.
  intros L L' E. rewrite <- (lk_prev_next s Hl h L), <- (lk_prev_next s Hl h' L'). by rewrite E.
Qed.

Lemma pair_inj h h' : live s h -> live s h' -> pair_of s h = pair_of s h' -> h = h'.
Proof.
  intros L L' E. rewrite <- (lk_pair s Hl h L), <- (lk_pair s Hl h' L'). by rewrite E.
Qed.

Lemma around_inj h h' : live s h -> live s h' -> around s h = around s h' -> h = h'.
Proof.
  intros L L' E. apply next_inj; [done..|]. apply pair_inj; [by apply live_next..|done].
Qed.

(** The step back: [prev] of the pair. *)
Lemma around_back h : live s h -> around s (prev_of s (pair_of s h)) = h.
Proof.
  intros L. unfold around. rewrite (lk_prev_next s Hl) by by apply live_pair.
  by apply lk_pair.
Qed.

Lemma around_eq h h' :
  live s h -> live s h' -> around s h = h' -> h = prev_of s (pair_of s h').
Proof.
  intros L L' E. apply around_inj; [done|by apply live_prev, live_pair|].
  by rewrite around_back.
Qed.

Lemma target_around h : live s h -> target_of s (around s h) = target_of s h.
Proof.
  intros L. unfold target_of, around.
  rewrite (lk_pair s Hl) by by apply live_next. by apply lk_origin.
Qed.

Lemma target_iter k h : live s h -> target_of s (Nat.iter k (around s) h) = target_of s h.
Proof.
  intros L. induction k as [|k IH]; simpl; [done|].
  rewrite target_around; [done|]. by apply live_iter.
Qed.

Lemma target_back h :
  live s h -> target_of s (prev_of s (pair_of s h)) = target_of s h.
Proof.
  intros L. rewrite <- (target_around (prev_of s (pair_of s h))) by by apply live_prev, live_pair.
  by rewrite around_back.
Qed.

Lemma target_prev h : live s h -> target_of s (prev_of s h) = origin_of s h.
Proof.
  intros L. unfold target_of.
  rewrite <- (lk_origin s Hl) by by apply live_prev. by rewrite (lk_prev_next s Hl).
Qed.

Lemma origin_next h : live s h -> origin_of s (next_of s h) = target_of s h.
Proof. intros L. by apply lk_origin. Qed.

Lemma target_pair h : live s h -> target_of s (pair_of s h) = origin_of s h.
Proof. intros L. unfold target_of. by rewrite (lk_pair s Hl). Qed.

Lemma iter_cancel t u h :
  live s h ->
  Nat.iter (t + u) (around s) h = Nat.iter t (around s) h ->
  Nat.iter u (around s) h = h.
Proof.
  intros L. induction t as [|t IH]; simpl; [done|]. intros E. apply IH.
  apply around_inj in E; [done|by apply live_iter..].
Qed.

(** The least period of a halfedge that comes back to itself. *)
Lemma least_period h k :
  live s h -> Nat.iter (S k) (around s) h = h ->
  exists N, 0 < N /\ Nat.iter N (around s) h = h /\
    forall t t', t < N -> t' < N ->
      Nat.iter t (around s) h = Nat.iter t' (around s) h -> t = t'.
Proof.
  intros L Hk.
  destruct (first_index (fun m => Nat.iter (S m) (around s) h = h) k)
    as [(m & Hm & Hmret & Hmfirst)|Hno]; [|by destruct (Hno k)].
  exists (S m). split_and!; [lia|done|].
  assert (forall t t', t < t' -> t' < S m ->
            Nat.iter t (around s) h <> Nat.iter t' (around s) h) as Hlt.
  { intros t t' ? ? E. destruct t' as [|t']; [lia|].
    apply (Hmfirst (t' - t)); [lia|]. apply (iter_cancel t); [done|].
    rewrite E. f_equal. lia. }
  intros t t' ? ? E. destruct (decide (t = t')) as [|Hne]; [done|]. exfalso.
  destruct (decide (t < t')).
  - by apply (Hlt t t').
  - apply (Hlt t' t); [lia|done|done].
Qed.

End Linked.

(** ** Stores with the same links *)

Lemma same_links_refl s : same_links s s.
Proof. by split. Qed.

Lemma same_links_trans s1 s2 s3 : same_links s1 s2 -> same_links s2 s3 -> same_links s1 s3.
Proof.
  intros [] []. split; intros; try congruence.
  - etrans; eauto.
Qed.

Lemma same_links_around s s' h : same_links s s' -> around s' h = around s h.
Proof. intros []. unfold around. congruence. Qed.

Lemma same_links_target s s' h : same_links s s' -> target_of s' h = target_of s h.
Proof. intros []. unfold target_of. congruence. Qed.

Lemma same_links_iter s s' k h :
  same_links s s' -> Nat.iter k (around s') h = Nat.iter k (around s) h.
Proof.
  intros H. apply iter_frame. intros. by apply same_links_around.
Qed.

Lemma linked_same_links s s' : same_links s s' -> linked s -> linked s'.
Proof.
  intros E [Hc Hp Hnp Hpn Ho]. pose proof E as [El Eo Ep En Ev Ee Eh Ees].
  split; intros h L; apply El in L.
  - rewrite Ep, En, Ev, !El. auto.
  - rewrite !Ep. auto.
  - rewrite En, Ev. auto.
  - rewrite Ev, En. auto.
  - rewrite Ep, En, !Eo. auto.
Qed.

Lemma attaching_same_links s s' : same_links s s' -> attaching s -> attaching s'.
Proof.
  intros E [Hl Hs Ha Hn Hnode Hf He Hhe]. pose proof E as [El Eo Ep En Ev Ee Eh Ees].
  split.
  - by eapply linked_same_links.
  - intros h L. apply El in L. rewrite Eo, Ev, !Ep, En. auto.
  - intros h n L. apply El in L. rewrite Eo, Eh. eauto.
  - intros h n L. apply El in L. rewrite Eo, (same_links_target _ _ _ E). eauto.
  - intros n h. rewrite Eh, El, Eo. auto.
  - intros x y n Lx Ly. apply El in Lx, Ly. rewrite !(same_links_target _ _ _ E).
    intros Tx Ty. destruct (Hf x y n Lx Ly Tx Ty) as [k Hk]. exists k.
    by rewrite (same_links_iter _ _ _ _ E).
  - intros e r. rewrite Ees, El, Ep, !Ee. auto.
  - intros h L. apply El in L. rewrite Ees, Ee. auto.
Qed.

Lemma well_formed_same_links s s' : same_links s s' -> well_formed s -> well_formed s'.
Proof.
  intros E [Ha Ho]. split; [by eapply attaching_same_links|].
  intros h L. apply E in L. rewrite (sl_origin _ _ E). auto.
Qed.

Lemma same_links_upd_face h f s : same_links s (upd_face h f s).
Proof. split; intros; autorewrite with hds; done. Qed.

Lemma same_links_with_faces s m : same_links s (with_faces s m).
Proof. by split. Qed.

Lemma same_links_upd_f_halfedge f h s : same_links s (upd_f_halfedge f h s).
Proof. by split. Qed.

Lemma same_links_upd_position n p s : same_links s (upd_position n p s).
Proof.
  split; try done. intros n'. unfold halfedge_of, upd_position; simpl.
  rewrite lookup_alter. case_decide; subst; [|done]. by destruct (nodes s !! n').
Qed.

Lemma delete_face_Ok f s u s' :
  delete_face f s = (Ok u, s') -> same_links s s' /\
  exists f', f = Some f' /\ is_Some (faces s !! f') /\ faces s' = delete f' (faces s).
Proof.
  unfold delete_face. intros H. apply bind_Ok in H as (? & ? & H1 & H2).
  apply deref_face_Ok in H1 as (-> & f' & r & -> & Hr & _). apply modify_Ok in H2 as ->.
  split; [apply same_links_with_faces|]. eauto.
Qed.

Lemma remove_face_Ok f s u s' :
  remove_face f s = (Ok u, s') -> same_links s s' /\
  exists f', f = Some f' /\ is_Some (faces s !! f') /\ faces s' = delete f' (faces s).
Proof.
  unfold remove_face. intros H. minv.
  apply delete_face_Ok in H as (E & f' & Ef & Hf & Hd). injection Ef as ->. split.
  - eapply same_links_trans; [|exact E].
    repeat (eapply same_links_trans; [|apply same_links_upd_face]). apply same_links_refl.
  - exists f'. split_and!; [done|by eauto|done].
Qed.

Lemma get_new_node_Ok s n s' :
  get_new_node s = (Ok n, s') ->
  exists n', n = Some n' /\ nodes s !! n' = None /\
    s' = with_nodes s (<[n' := mkNode None None]> (nodes s)).
Proof.
  unfold get_new_node. intros [= <- <-]. eexists. split_and!; [done| |done].
  apply not_elem_of_dom, is_fresh.
Qed.

Lemma add_node_Ok p s n s' :
  add_node p s = (Ok n, s') ->
  same_links s s' /\ faces s' = faces s /\
  exists n', n = Some n' /\ nodes s !! n' = None /\ is_Some (nodes s' !! n').
Proof.
  unfold add_node. intros H. apply bind_Ok in H as (n0 & s1 & H1 & H).
  apply get_new_node_Ok in H1 as (n' & -> & Hfresh & ->). minv.
  split_and!; [|done|].
  - eapply same_links_trans; [|apply same_links_upd_position].
    split; try done. intros m. unfold halfedge_of; simpl.
    destruct (decide (m = n')) as [->|]; [by rewrite lookup_insert_eq, Hfresh|].
    by rewrite lookup_insert_ne.
  - exists n'. split_and!; [done..|]. unfold upd_position; simpl.
    rewrite lookup_alter_eq, lookup_insert_eq. eauto.
Qed.

(** ** [make_adjacent] *)

Lemma relinked_refl s : relinked s s.
Proof. by split. Qed.

Lemma relinked_trans s1 s2 s3 : relinked s1 s2 -> relinked s2 s3 -> relinked s1 s3.
Proof. intros [] []. split; intros; try congruence. etrans; eauto. Qed.

Lemma relinked_upd_next h v s : relinked s (upd_next h v s).
Proof. split; intros; autorewrite with hds; done. Qed.

Lemma relinked_upd_prev h v s : relinked s (upd_prev h v s).
Proof. split; intros; autorewrite with hds; done. Qed.

Lemma relinked_target s s' h : relinked s s' -> target_of s' h = target_of s h.
Proof. intros []. unfold target_of. congruence. Qed.

Lemma relinked_halfedge_of s s' n : relinked s s' -> halfedge_of s' n = halfedge_of s n.
Proof. intros E. unfold halfedge_of. by rewrite (rl_nodes _ _ E). Qed.

Lemma relinked_spliced s i o g : relinked s (spliced s i o g).
Proof.
  unfold spliced.
  repeat (eapply relinked_trans; [|first [apply relinked_upd_next|apply relinked_upd_prev]]).
  apply relinked_refl.
Qed.

Lemma attaching_relinked s s' :
  relinked s s' -> well_formed s -> linked s' ->
  (forall x y n, live s' x -> live s' y ->
     target_of s' x = Some n -> target_of s' y = Some n ->
     exists k, Nat.iter k (around s') x = y) ->
  well_formed s'.
Proof.
  intros E [[Hl Hs Ha Hn Hnode Hf He Hhe] Ho] Hl' Hf'.
  pose proof E as [El Eo Ep Efc Ee En Ees Efs].
  split; [split|].
  - done.
  - intros h L Hnone. apply El in L. rewrite Eo in Hnone.
    destruct (Ho h L) as [? ?]. congruence.
  - intros h n L. apply El in L. rewrite Eo, (relinked_halfedge_of _ _ _ E). eauto.
  - intros h n L. apply El in L. rewrite Eo, (relinked_target _ _ _ E). eauto.
  - intros n h. rewrite (relinked_halfedge_of _ _ _ E), El, Eo. auto.
  - done.
  - intros e r. rewrite Ees, El, Ep, !Ee. auto.
  - intros h L. apply El in L. rewrite Ees, Ee. auto.
  - intros h L. apply El in L. rewrite Eo. auto.
Qed.

Lemma find_free_incident_halfedge2_Ok h1 h2 s g s' :
  find_free_incident_halfedge2 h1 h2 s = (Ok g, s') ->
  s' = s /\ live s h1 /\ live s h2 /\ target_of s h1 = target_of s h2 /\
  exists k, g = Nat.iter k (around s) h1 /\ face_of s g = None /\ live s g /\
    forall j, j < k ->
      face_of s (Nat.iter j (around s) h1) <> None /\
      Nat.iter (S j) (around s) h1 <> h2.
Proof.
  unfold find_free_incident_halfedge2. intros H. minv.
  apply free_walk_Ok in H as (-> & k & _ & -> & Hf & Hl & Hj).
  match goal with H : bool_decide _ = true |- _ => apply bool_decide_eq_true in H end.
  split_and!; [done..|]. exists k. split_and!; [done..|].
  intros j Hlt. by destruct (Hj j Hlt) as (_ & _ & ? & ?).
Qed.

Lemma make_adjacent_Ok i o s r s' :
  make_adjacent i o s = (Ok r, s') ->
  live s i /\
  (next_of s i = o /\ s' = s \/
   next_of s i <> o /\ live s o /\
   exists g,
     find_free_incident_halfedge2 (pair_of s o) i s = (Ok g, s) /\
     live s (next_of s i) /\ live s (prev_of s o) /\ live s (next_of s g) /\
     s' = spliced s i o g).
Proof.
  unfold make_adjacent. intros H. apply bind_Ok in H as (nx & s1 & Hnx & H).
  apply he_next_Ok in Hnx as (-> & L & ->). split; [done|].
  case_decide; [apply ret_Ok in H as [_ ->]; by left|]. right.
  apply bind_Ok in H as (b & s1 & Hb & H). apply he_next_Ok in Hb as (-> & _ & ->).
  apply bind_Ok in H as (d & s1 & Hd & H). apply he_prev_Ok in Hd as (-> & Lo & ->).
  apply bind_Ok in H as (n & s1 & Hn & H). apply he_origin_Ok in Hn as (-> & _ & ->).
  apply bind_Ok in H as (op & s1 & Hop & H). apply he_pair_Ok in Hop as (-> & _ & ->).
  apply bind_Ok in H as (g & s1 & Hg & H).
  pose proof (find_free_incident_halfedge2_Ok _ _ _ _ _ Hg) as (-> & _ & _ & _ & k & _ & _ & Lg & _).
  apply bind_Ok in H as (h & s1 & Hh & H). apply he_next_Ok in Hh as (-> & _ & ->).
  split_and!; [done..|]. exists g. split; [done|].
  minv. autorewrite with hds in *. split_and!; done.
Qed.

(** The halfedges into a node form one cycle of [around]. *)
Lemma fan_cycle s x n :
  attaching s -> live s x -> target_of s x = Some n ->
  exists N, 0 < N /\ Nat.iter N (around s) x = x /\
    (forall t t', t < N -> t' < N ->
       Nat.iter t (around s) x = Nat.iter t' (around s) x -> t = t') /\
    Nat.iter (N - 1) (around s) x = prev_of s (pair_of s x) /\
    (forall y, live s y -> target_of s y = Some n ->
       exists t, t < N /\ Nat.iter t (around s) x = y).
Proof.
  intros Ha L T. pose proof (at_linked s Ha) as Hl.
  assert (live s (prev_of s (pair_of s x))) as Lb by by apply live_prev, live_pair.
  assert (target_of s (prev_of s (pair_of s x)) = Some n) as Tb by by rewrite target_back.
  destruct (at_fan s Ha x _ n L Lb T Tb) as [k Hk].
  destruct (least_period s Hl x k L) as (N & HN & Hper & Huniq).
  { simpl. rewrite Hk. by apply around_back. }
  assert (forall y, live s y -> target_of s y = Some n ->
            exists t, t < N /\ Nat.iter t (around s) x = y) as Hcover.
  { intros y Ly Ty. destruct (at_fan s Ha x y n L Ly T Ty) as [k' Hk'].
    exists (k' mod N). split; [apply Nat.mod_upper_bound; lia|].
    by rewrite <- (iter_mod (around s) N). }
  exists N. split_and!; [done..| |done].
  destruct (Hcover _ Lb Tb) as (t & Ht & Hback).
  destruct (decide (S t = N)) as [<-|Hne].
  { by replace (S t - 1) with t by lia. }
  exfalso. assert (S t = 0); [|lia]. apply Huniq; [lia..|].
  simpl. rewrite Hback. by apply around_back.
Qed.

(** The links after the six assignments, when they concern three different
    halfedges into one node. *)
Lemma spliced_linked s i o g :
  linked s -> live s i -> live s o -> live s g ->
  i <> g -> g <> prev_of s o -> i <> prev_of s o ->
  target_of s g = target_of s i -> target_of s i = origin_of s o ->
  linked (spliced s i o g).
Proof.
  intros Hl Li Lo Lg Hig Hgd Hid Tg Ti.
  pose proof (live_next s Hl i Li) as Lb. pose proof (live_prev s Hl o Lo) as Ld.
  pose proof (live_next s Hl g Lg) as Lh.
  pose proof (lk_next_prev s Hl i Li) as Pi. pose proof (lk_next_prev s Hl g Lg) as Pg.
  pose proof (lk_next_prev s Hl _ Ld) as Pd. pose proof (lk_prev_next s Hl o Lo) as No.
  pose proof (lk_origin s Hl i Li) as Oi. pose proof (lk_origin s Hl g Lg) as Og.
  pose proof (lk_origin s Hl _ Ld) as Od.
  unfold target_of in Tg, Ti. rewrite No in Od. clear Pd. unfold spliced.
  remember (next_of s i) as b eqn:Eb. remember (prev_of s o) as d eqn:Ed.
  remember (next_of s g) as hh eqn:Eh.
  assert (b <> hh) by congruence. assert (b <> o) by congruence. assert (hh <> o) by congruence.
  split; intros h L; autorewrite with hds in L |- *.
  - destruct (lk_closed s Hl h L) as (? & ? & ?). split_and!; [done|..];
      repeat case_decide; done.
  - by apply lk_pair.
  - pose proof (lk_next_prev s Hl h L). repeat case_decide; congruence.
  - pose proof (lk_prev_next s Hl h L). repeat case_decide; congruence.
  - pose proof (lk_origin s Hl h L). repeat case_decide; congruence.
Qed.

(** Where the halfedges of [make_adjacent] sit on the cycle around the
    node: the free halfedge [g] comes before [in], which comes before
    [out.prev], the last of the cycle that starts at [out.pair]. *)
Lemma make_adjacent_positions s i o g k n :
  attaching s -> live s i -> live s o ->
  origin_of s o = Some n -> target_of s i = Some n ->
  pair_of s o <> i -> next_of s i <> o ->
  g = Nat.iter k (around s) (pair_of s o) -> face_of s g = None ->
  (forall j, j < k ->
     face_of s (Nat.iter j (around s) (pair_of s o)) <> None /\
     Nat.iter (S j) (around s) (pair_of s o) <> i) ->
  exists N b,
    k < b /\ b < N - 1 /\
    Nat.iter N (around s) (pair_of s o) = pair_of s o /\
    (forall t t', t < N -> t' < N ->
       Nat.iter t (around s) (pair_of s o) = Nat.iter t' (around s) (pair_of s o) -> t = t') /\
    i = Nat.iter b (around s) (pair_of s o) /\
    prev_of s o = Nat.iter (N - 1) (around s) (pair_of s o) /\
    (forall y, live s y -> target_of s y = Some n ->
       exists t, t < N /\ Nat.iter t (around s) (pair_of s o) = y).
Proof.
  intros Ha Li Lo Oo Ti Hpo Hnx -> Hf Hwalk. pose proof (at_linked s Ha) as Hl.
  assert (live s (pair_of s o)) as LA by by apply live_pair.
  assert (target_of s (pair_of s o) = Some n) as TA by by rewrite target_pair.
  destruct (fan_cycle s _ n Ha LA TA) as (N & HN & Hper & Huniq & Hlast & Hcover).
  rewrite (lk_pair s Hl o Lo) in Hlast.
  destruct (Hcover i Li Ti) as (b & Hb & Hi).
  assert (k < N) as HkN.
  { destruct (decide (k < N)) as [|Hge]; [done|]. exfalso.
    destruct (Hwalk (k mod N)) as [Hne _].
    - pose proof (Nat.mod_upper_bound k N). lia.
    - apply Hne. by rewrite <- (iter_mod (around s) N). }
  assert (k < b) as Hkb.
  { destruct (decide (k < b)) as [|Hge]; [done|]. exfalso.
    destruct b as [|b]; [by simpl in Hi|]. by destruct (Hwalk b ltac:(lia)) as [_ Hne]. }
  assert (b <> N - 1) as HbN.
  { intros ->. rewrite Hlast in Hi. subst i. by rewrite (lk_prev_next s Hl) in Hnx. }
  exists N, b. split_and!; [done|lia|done..].
Qed.

Lemma around_spliced s i o g y :
  live s i -> live s o -> live s g ->
  live s (next_of s i) -> live s (prev_of s o) -> live s (next_of s g) ->
  around (spliced s i o g) y = pair_of s
    (if decide (y = prev_of s o) then next_of s g
     else if decide (y = g) then next_of s i
     else if decide (y = i) then o else next_of s y).
Proof. intros. unfold around, spliced. by autorewrite with hds. Qed.

(** The store that [make_adjacent] leaves is well formed. *)
Lemma spliced_well_formed s i o g k :
  well_formed s -> live s i -> live s o ->
  target_of s i = origin_of s o ->
  pair_of s o <> i -> next_of s i <> o ->
  g = Nat.iter k (around s) (pair_of s o) -> face_of s g = None ->
  (forall j, j < k ->
     face_of s (Nat.iter j (around s) (pair_of s o)) <> None /\
     Nat.iter (S j) (around s) (pair_of s o) <> i) ->
  well_formed (spliced s i o g) /\
  g <> i /\ next_of s g <> o.
Proof.
  intros Hwf Li Lo Ti Hpo Hnx Hg Hf Hwalk.
  pose proof (wf_attaching s Hwf) as Ha. pose proof (at_linked s Ha) as Hl.
  destruct (wf_origin s Hwf o Lo) as [n Oo]. rewrite Oo in Ti.
  destruct (make_adjacent_positions s i o g k n Ha Li Lo Oo Ti Hpo Hnx Hg Hf Hwalk)
    as (N & b & Hkb & HbN & Hper & Huniq & Hi & Hd & Hcover).
  set (A := pair_of s o) in *.
  assert (live s A) as LA by by apply live_pair.
  assert (target_of s A = Some n) as TA by by (unfold A; rewrite target_pair).
  assert (live s g) as Lg by (subst g; by apply live_iter).
  assert (target_of s g = Some n) as Tg by (subst g; by rewrite target_iter).
  assert (live s (prev_of s o)) as Ld by by apply live_prev.
  assert (target_of s (prev_of s o) = Some n) as Td by by rewrite target_prev.
  assert (i <> g) as Hig by (intros E; rewrite Hi, Hg in E; apply Huniq in E; lia).
  assert (g <> prev_of s o) as Hgd by (intros E; rewrite Hd, Hg in E; apply Huniq in E; lia).
  assert (i <> prev_of s o) as Hid by (intros E; rewrite Hd, Hi in E; apply Huniq in E; lia).
  assert (linked (spliced s i o g)) as Hl'.
  { apply spliced_linked; try done; congruence. }
  pose proof (relinked_spliced s i o g) as E.
  pose proof (live_next s Hl i Li) as Lb. pose proof (live_next s Hl g Lg) as Lh.
  split_and!; [|done|].
  2:{ intros E'. apply Hgd. rewrite <- E'. by rewrite (lk_next_prev s Hl). }
  apply (attaching_relinked s); [done..|].
  intros x y m Lx Ly. rewrite !(relinked_target _ _ _ E). apply E in Lx, Ly. intros Tx Ty.
  destruct (decide (m = n)) as [->|Hmn].
  - destruct (iter_exchange (around s) (around (spliced s i o g)) A N k b)
      as [Hper' Hcover']; [done..| | | | |].
    + rewrite <- Hi, around_spliced by done.
      rewrite decide_False, decide_False, decide_True by done. done.
    + rewrite <- Hg, <- Hi, around_spliced by done.
      rewrite decide_False, decide_True by done. done.
    + rewrite <- Hg, <- Hd, around_spliced by done.
      rewrite decide_True by done. done.
    + rewrite <- Hg, <- Hd, <- Hi. intros z ? ? ?. rewrite around_spliced by done.
      rewrite !decide_False by done. done.
    + destruct (Hcover x Lx Tx) as (tx & ? & Hx). destruct (Hcover y Ly Ty) as (ty & ? & Hy).
      destruct (Hcover' tx ltac:(done)) as [tx' Hx']. destruct (Hcover' ty ltac:(done)) as [ty' Hy'].
      apply (cycle_connects _ A N x y tx' ty'); [lia|done|congruence..].
  - destruct (at_fan s Ha x y m Lx Ly Tx Ty) as [k' Hk']. exists k'.
    rewrite <- Hk'. apply iter_frame. intros j _.
    assert (target_of s (Nat.iter j (around s) x) = Some m) as Tj by by rewrite target_iter.
    rewrite around_spliced by done. rewrite !decide_False; [done|congruence..].
Qed.

Lemma make_adjacent_well_formed s i o r s' :
  well_formed s -> target_of s i = origin_of s o -> pair_of s o <> i ->
  make_adjacent i o s = (Ok r, s') ->
  well_formed s' /\ relinked s s'.
Proof.
  intros Hwf Ti Hpo H.
  apply make_adjacent_Ok in H as (Li & [[_ ->]|(Hnx & Lo & g & Hg & _ & _ & _ & ->)]).
  { split; [done|apply relinked_refl]. }
  apply find_free_incident_halfedge2_Ok in Hg as (_ & _ & _ & _ & k & Hg & Hf & _ & Hwalk).
  split; [|apply relinked_spliced].
  by destruct (spliced_well_formed s i o g k Hwf Li Lo Ti Hpo Hnx Hg Hf Hwalk) as [? _].
Qed.

(** ** [add_face] *)

Lemma all_free_Ok h1 h2 h3 s s' :
  and_then (is_boundary h1) (and_then (is_boundary h2) (is_boundary h3)) s = (Ok true, s') ->
  s' = s /\ live s h1 /\ live s h2 /\ live s h3 /\ all_free s h1 h2 h3.
Proof.
  intros H. apply and_then_Ok in H as [(s1 & H1 & H)|[_ [=]]].
  apply and_then_Ok in H as [(s2 & H2 & H3)|[_ [=]]].
  apply is_boundary_Ok in H1 as (-> & L1 & E1). apply is_boundary_Ok in H2 as (-> & L2 & E2).
  apply is_boundary_Ok in H3 as (-> & L3 & E3).
  symmetry in E1, E2, E3. apply bool_decide_eq_true in E1, E2, E3. by repeat split.
Qed.

Lemma chained_Ok h h' s c s' :
  chained h h' s = (Ok c, s') ->
  s' = s /\ live s (pair_of s h) /\ c = bool_decide (target_of s h = origin_of s h').
Proof. unfold chained, target_of. intros H. by minv. Qed.

Lemma closed_chain_Ok h1 h2 h3 s s' :
  and_then (chained h1 h2) (and_then (chained h2 h3) (chained h3 h1)) s = (Ok true, s') ->
  s' = s /\ live s (pair_of s h1) /\ live s (pair_of s h2) /\ live s (pair_of s h3) /\
  closed_chain s h1 h2 h3.
Proof.
  intros H. apply and_then_Ok in H as [(s1 & H1 & H)|[_ [=]]].
  apply and_then_Ok in H as [(s2 & H2 & H3)|[_ [=]]].
  apply chained_Ok in H1 as (-> & L1 & E1). apply chained_Ok in H2 as (-> & L2 & E2).
  apply chained_Ok in H3 as (-> & L3 & E3).
  symmetry in E1, E2, E3. apply bool_decide_eq_true in E1, E2, E3. by repeat split.
Qed.

Lemma get_new_face_Ok s f s' :
  get_new_face s = (Ok f, s') ->
  faces s !! f = None /\ s' = with_faces s (<[f := mkFace None]> (faces s)).
Proof.
  unfold get_new_face. intros [= <- <-]. split; [|done]. apply not_elem_of_dom, is_fresh.
Qed.

(** What a call of [add_face] that returns has done. *)
Lemma add_face_Ok h1 h2 h3 s f s' :
  add_face h1 h2 h3 s = (Ok f, s') ->
  live s h1 /\ live s h2 /\ live s h3 /\
  all_free s h1 h2 h3 /\ closed_chain s h1 h2 h3 /\
  exists s1 f',
    all_adjacent h1 h2 h3 s = (Ok true, s1) /\ same_links s1 s' /\
    f = Some f' /\ faces s1 !! f' = None /\
    faces s' = <[f' := mkFace (Some h1)]> (faces s1) /\ nodes s' = nodes s1.
Proof.
  unfold add_face. fold (all_adjacent h1 h2 h3). intros H.
  apply bind_Ok in H as (free & s0 & Hfree & H). destruct free; [|by minv]. simpl in H.
  apply all_free_Ok in Hfree as (-> & L1 & L2 & L3 & Hfree).
  apply bind_Ok in H as (chain & s0 & Hchain & H). destruct chain; [|by minv]. simpl in H.
  apply closed_chain_Ok in Hchain as (-> & _ & _ & _ & Hchain).
  apply bind_Ok in H as (adj & s1 & Hadj & H).
  pose proof (all_adjacent_true _ _ _ _ _ _ Hadj) as ->. simpl in H.
  apply bind_Ok in H as (f' & s2 & Hf & H). apply get_new_face_Ok in Hf as (Hfresh & ->).
  unfold face_set_halfedge in H. minv.
  match goal with H : deref_face _ _ _ = _ |- _ => apply deref_face_Ok in H as (-> & _) end.
  split_and!; [done..|]. exists s1, f'. split_and!; try done.
  - repeat (eapply same_links_trans; [|apply same_links_upd_face]).
    eapply same_links_trans; [|apply same_links_upd_f_halfedge]. apply same_links_with_faces.
  - simpl. apply map_eq. intros j. rewrite lookup_alter.
    case_decide; subst; [by rewrite !lookup_insert_eq|by rewrite !lookup_insert_ne].
Qed.

Lemma chain_not_pairs s h1 h2 h3 :
  well_formed s -> live s h1 -> live s h2 -> live s h3 -> closed_chain s h1 h2 h3 ->
  pair_of s h2 <> h1 /\ pair_of s h3 <> h2 /\ pair_of s h1 <> h3.
Proof.
  intros Hwf L1 L2 L3 (C1 & C2 & C3). pose proof (wf_attaching s Hwf) as Ha.
  destruct (wf_origin s Hwf h1 L1) as [n1 O1]. destruct (wf_origin s Hwf h2 L2) as [n2 O2].
  destruct (wf_origin s Hwf h3 L3) as [n3 O3].
  pose proof (at_no_loop s Ha h1 n1 L1 O1). pose proof (at_no_loop s Ha h2 n2 L2 O2).
  pose proof (at_no_loop s Ha h3 n3 L3 O3). unfold target_of in *.
  split_and!; intros E; congruence.
Qed.

Lemma all_adjacent_well_formed s h1 h2 h3 r s' :
  well_formed s -> live s h1 -> live s h2 -> live s h3 -> closed_chain s h1 h2 h3 ->
  all_adjacent h1 h2 h3 s = (Ok r, s') ->
  well_formed s' /\ relinked s s'.
Proof.
  intros Hwf L1 L2 L3 Hchain H.
  destruct (chain_not_pairs s h1 h2 h3 Hwf L1 L2 L3 Hchain) as (P1 & P2 & P3).
  destruct Hchain as (C1 & C2 & C3). unfold all_adjacent in H.
  apply and_then_Ok in H as [(s1 & H1 & H)|[H1 _]];
    [|by apply make_adjacent_true in H1].
  destruct (make_adjacent_well_formed _ _ _ _ _ Hwf C1 P1 H1) as [Hwf1 E1].
  apply and_then_Ok in H as [(s2 & H2 & H3)|[H2 _]];
    [|by apply make_adjacent_true in H2].
  assert (target_of s1 h2 = origin_of s1 h3) as C2'
    by by rewrite (relinked_target _ _ _ E1), (rl_origin _ _ E1).
  assert (pair_of s1 h3 <> h2) as P2' by by rewrite (rl_pair _ _ E1).
  destruct (make_adjacent_well_formed _ _ _ _ _ Hwf1 C2' P2' H2) as [Hwf2 E2].
  pose proof (relinked_trans _ _ _ E1 E2) as E12.
  assert (target_of s2 h3 = origin_of s2 h1) as C3'
    by by rewrite (relinked_target _ _ _ E12), (rl_origin _ _ E12).
  assert (pair_of s2 h1 <> h3) as P3' by by rewrite (rl_pair _ _ E12).
  destruct (make_adjacent_well_formed _ _ _ _ _ Hwf2 C3' P3' H3) as [Hwf3 E3].
  split; [done|]. by eapply relinked_trans.
Qed.

Lemma add_face_well_formed s h1 h2 h3 f s' :
  well_formed s -> add_face h1 h2 h3 s = (Ok f, s') -> well_formed s'.
Proof.
  intros Hwf H.
  apply add_face_Ok in H as (L1 & L2 & L3 & _ & Hchain & s1 & f' & Hadj & E & _).
  destruct (all_adjacent_well_formed _ _ _ _ _ _ Hwf L1 L2 L3 Hchain Hadj) as [Hwf1 _].
  by eapply well_formed_same_links.
Qed.

Lemma remove_face_well_formed s f u s' :
  well_formed s -> remove_face f s = (Ok u, s') -> well_formed s'.
Proof.
  intros Hwf H. apply remove_face_Ok in H as [E _]. by eapply well_formed_same_links.
Qed.

Lemma add_node_well_formed s p n s' :
  well_formed s -> add_node p s = (Ok n, s') -> well_formed s'.
Proof.
  intros Hwf H. apply add_node_Ok in H as [E _]. by eapply well_formed_same_links.
Qed.

(** ** [detach_edge] and [remove_edge] *)

Lemma detach_edge_Ok he s u s' :
  detach_edge he s = (Ok u, s') ->
  live s he /\ live s (pair_of s he) /\ live s (prev_of s he) /\
  live s (next_of s (pair_of s he)) /\
  (exists n, origin_of s he = Some n /\ is_Some (nodes s !! n)) /\
  s' = detached s he.
Proof.
  unfold detach_edge, detached. intros H.
  apply bind_Ok in H as (n & s1 & Hn & H). apply he_origin_Ok in Hn as (-> & L & ->).
  apply bind_Ok in H as (nh & s1 & Hnh & H).
  apply node_halfedge_Ok in Hnh as (-> & n & On & Ln & ->). rewrite On in H |- *.
  apply bind_Ok in H as ([] & s0 & H0 & H).
  assert (live s (pair_of s he) -> live s (next_of s (pair_of s he)) ->
          s0 = (if decide (halfedge_of s n = Some he) then
                  upd_halfedge n
                    (if decide (next_of s (pair_of s he) <> he)
                     then Some (next_of s (pair_of s he)) else None) s
                else s)) as Hs0.
  { intros Lp Lq. case_decide; [|by minv]. minv. case_decide; minv; done. }
  assert (forall h, live s0 h <-> live s h) as El.
  { intros h. case_decide; [|by minv]. minv. case_decide; minv; done. }
  assert (forall h, next_of s0 h = next_of s h) as En.
  { intros h. case_decide; [|by minv]. minv. case_decide; minv; done. }
  assert (forall h, prev_of s0 h = prev_of s h) as Ev.
  { intros h. case_decide; [|by minv]. minv. case_decide; minv; done. }
  assert (forall h, pair_of s0 h = pair_of s h) as Ep.
  { intros h. case_decide; [|by minv]. minv. case_decide; minv; done. }
  clear H0. minv. autorewrite with hds in *.
  assert (live s (pair_of s he)) as Lp by (rewrite <- El, <- Ep; done).
  assert (live s (prev_of s he)) as Lv by (rewrite <- El, <- Ev; done).
  assert (live s (next_of s (pair_of s he))) as Lq.
  { rewrite <- El, <- Ep, <- En.
    match goal with H : live _ (if _ then _ else _) |- _ => revert H end.
    by destruct (decide (pair_of s0 he = prev_of s0 he)). }
  split_and!; [done..|by eauto|].
  rewrite <- Hs0 by done. rewrite !En, !Ev, !Ep.
  by destruct (decide (pair_of s he = prev_of s he)).
Qed.

Lemma live_without_edge s e a b h :
  live (without_edge s e a b) h <-> live s h /\ h <> a /\ h <> b.
Proof.
  unfold live, without_edge; simpl. rewrite !lookup_delete_is_Some.
  intuition congruence.
Qed.

Lemma lookup_without_edge s e a b h :
  h <> a -> h <> b -> halfedges (without_edge s e a b) !! h = halfedges s !! h.
Proof. intros. unfold without_edge; simpl. by rewrite !lookup_delete_ne. Qed.

Lemma delete_edge_Ok e s u s' :
  delete_edge e s = (Ok u, s') ->
  exists r, edges s !! e = Some r /\ s' = without_edge s e (e_he1 r) (e_he2 r).
Proof.
  unfold delete_edge. intros H. minv. by eauto.
Qed.

(** The halfedges of a well-formed store around an edge. *)
Lemma edge_halfedges s e r :
  well_formed s -> edges s !! e = Some r ->
  let a := e_he1 r in
  let b := e_he2 r in
  live s a /\ live s b /\ pair_of s a = b /\ pair_of s b = a /\ a <> b /\
  prev_of s a <> a /\ next_of s a <> a /\ prev_of s b <> b /\ next_of s b <> b /\
  (exists na nb, origin_of s a = Some na /\ origin_of s b = Some nb /\ na <> nb).
Proof.
  intros Hwf Hr a b. pose proof (wf_attaching s Hwf) as Ha. pose proof (at_linked s Ha) as Hl.
  destruct (at_edge s Ha e r Hr) as (La & Hp & Hne & _). fold a b in La, Hp, Hne.
  assert (live s b) as Lb by (rewrite <- Hp; by apply live_pair).
  assert (pair_of s b = a) as Hp' by (rewrite <- Hp; by apply lk_pair).
  destruct (wf_origin s Hwf a La) as [na Oa]. destruct (wf_origin s Hwf b Lb) as [nb Ob].
  pose proof (at_no_loop s Ha a na La Oa) as Na. unfold target_of in Na. rewrite Hp, Ob in Na.
  pose proof (lk_origin s Hl a La) as O1. pose proof (lk_origin s Hl b Lb) as O2.
  pose proof (lk_prev_next s Hl a La) as P1. pose proof (lk_prev_next s Hl b Lb) as P2.
  rewrite Hp in O1. rewrite Hp' in O2.
  split_and!; try done; try congruence.
  exists na, nb. split_and!; congruence.
Qed.

Lemma detached_getters s he n :
  live s he -> live s (prev_of s he) -> live s (next_of s (pair_of s he)) ->
  origin_of s he = Some n -> is_Some (nodes s !! n) ->
  (forall h, live (detached s he) h <-> live s h) /\
  (forall h, origin_of (detached s he) h = origin_of s h) /\
  (forall h, pair_of (detached s he) h = pair_of s h) /\
  (forall h, edge_of (detached s he) h = edge_of s h) /\
  (forall h, next_of (detached s he) h =
     if decide (h = prev_of s he) then next_of s (pair_of s he) else next_of s h) /\
  (forall h, prev_of (detached s he) h =
     if decide (h = next_of s (pair_of s he)) then prev_of s he else prev_of s h) /\
  (forall m, halfedge_of (detached s he) m =
     if decide (m = n /\ halfedge_of s n = Some he) then
       if decide (next_of s (pair_of s he) <> he) then Some (next_of s (pair_of s he))
       else None
     else halfedge_of s m) /\
  edges (detached s he) = edges s.
Proof.
  intros L Lv Lq On Ln. unfold detached. rewrite On.
  destruct (decide (halfedge_of s n = Some he)) as [E|E].
  - split_and!; intros; autorewrite with hds; try done.
    repeat case_decide; try done; tauto.
  - split_and!; intros; autorewrite with hds; try done.
    repeat case_decide; try done; tauto.
Qed.

Lemma nodes_detached s he m :
  is_Some (nodes (detached s he) !! m) <-> is_Some (nodes s !! m).
Proof.
  unfold detached. destruct (origin_of s he) as [n|]; [|done].
  case_decide; [|done]. simpl. apply lookup_alter_is_Some.
Qed.

(** The store after [remove_edge], on the halfedges that remain. *)
Lemma remove_edge_shape s e r :
  well_formed s -> edges s !! e = Some r ->
  let a := e_he1 r in
  let b := e_he2 r in
  let s' := without_edge (detached (detached s a) b) e a b in
  (forall h, live s' h <-> live s h /\ h <> a /\ h <> b) /\
  (forall h, h <> a -> h <> b -> origin_of s' h = origin_of s h) /\
  (forall h, h <> a -> h <> b -> pair_of s' h = pair_of s h) /\
  (forall h, h <> a -> h <> b -> edge_of s' h = edge_of s h) /\
  (forall h, h <> a -> h <> b -> next_of s' h =
     if decide (h = prev_of s b) then next_of s a
     else if decide (h = prev_of s a) then next_of s b else next_of s h) /\
  (forall h, h <> a -> h <> b -> prev_of s' h =
     if decide (h = next_of s a) then prev_of s b
     else if decide (h = next_of s b) then prev_of s a else prev_of s h) /\
  (forall m, halfedge_of s' m =
     if decide (halfedge_of s m = Some a) then
       if decide (next_of s b <> a) then Some (next_of s b) else None
     else if decide (halfedge_of s m = Some b) then
       if decide (next_of s a <> b) then Some (next_of s a) else None
     else halfedge_of s m) /\
  edges s' = delete e (edges s).
Proof.
  intros Hwf Hr a b s'. pose proof (wf_attaching s Hwf) as Ha. pose proof (at_linked s Ha) as Hl.
  destruct (edge_halfedges s e r Hwf Hr)
    as (La & Lb & Hp & Hp' & Hab & Hpa & Hna & Hpb & Hnb & na & nb & Oa & Ob & Hn).
  fold a b in La, Lb, Hp, Hp', Hab, Hpa, Hna, Hpb, Hnb, Oa, Ob.
  assert (is_Some (nodes s !! na)) as Lna.
  { destruct (at_attached s Ha a na La Oa) as [? E]. by eapply halfedge_of_Some. }
  assert (is_Some (nodes s !! nb)) as Lnb.
  { destruct (at_attached s Ha b nb Lb Ob) as [? E]. by eapply halfedge_of_Some. }
  destruct (detached_getters s a na) as (El1 & Eo1 & Ep1 & Ee1 & En1 & Ev1 & Eh1 & Ees1);
    [done|by apply live_prev|rewrite Hp; by apply live_next|done..|].
  rewrite Hp in En1, Ev1, Eh1. set (s1 := detached s a) in *.
  assert (prev_of s1 b = prev_of s b) as Evb.
  { rewrite Ev1. by rewrite decide_False by congruence. }
  assert (next_of s1 a = next_of s a) as Ena.
  { rewrite En1. by rewrite decide_False by congruence. }
  destruct (detached_getters s1 b nb) as (El2 & Eo2 & Ep2 & Ee2 & En2 & Ev2 & Eh2 & Ees2).
  { by apply El1. }
  { rewrite Evb. by apply El1, live_prev. }
  { rewrite Ep1, Hp', Ena. by apply El1, live_next. }
  { by rewrite Eo1. }
  { by apply nodes_detached. }
  rewrite ?Ep1, ?Hp', ?Ena, ?Evb in En2, Ev2, Eh2. set (s2 := detached s1 b) in *.
  assert (forall h, h <> a -> h <> b -> halfedges s' !! h = halfedges s2 !! h) as Elook
    by (intros; by apply lookup_without_edge).
  split_and!.
  - intros h. unfold s'. rewrite live_without_edge, El2, El1. done.
  - intros h ? ?. unfold origin_of. rewrite Elook by done. fold (origin_of s2 h).
    by rewrite Eo2, Eo1.
  - intros h ? ?. unfold pair_of. rewrite Elook by done. fold (pair_of s2 h).
    by rewrite Ep2, Ep1.
  - intros h ? ?. unfold edge_of. rewrite Elook by done. fold (edge_of s2 h).
    by rewrite Ee2, Ee1.
  - intros h ? ?. unfold next_of at 1. rewrite Elook by done. fold (next_of s2 h).
    by rewrite En2, Evb, En1.
  - intros h ? ?. unfold prev_of at 1. rewrite Elook by done. fold (prev_of s2 h).
    by rewrite Ev2, Evb, Ev1.
  - intros m. change (halfedge_of s' m) with (halfedge_of s2 m). rewrite Eh2, !Eh1.
    rewrite (decide_False (P := nb = na /\ _)) by (intros [? _]; congruence).
    destruct (decide (halfedge_of s m = Some a)) as [E|E].
    + destruct (at_node s Ha m a E) as [_ Om].
      assert (m = na) as -> by congruence.
      rewrite (decide_False (P := na = nb /\ _)) by (intros [? _]; congruence).
      by rewrite decide_True.
    + destruct (decide (halfedge_of s m = Some b)) as [E'|E'].
      * destruct (at_node s Ha m b E') as [_ Om].
        assert (m = nb) as -> by congruence. by rewrite decide_True.
      * rewrite decide_False by (intros [-> ?]; done).
        by rewrite decide_False by (intros [-> ?]; done).
  - change (edges s') with (delete e (edges s2)). by rewrite Ees2, Ees1.
Qed.

(** The store that [remove_edge] leaves is well formed. *)
Lemma remove_edge_shape_well_formed s e r s' :
  well_formed s -> edges s !! e = Some r ->
  let a := e_he1 r in
  let b := e_he2 r in
  (forall h, live s' h <-> live s h /\ h <> a /\ h <> b) ->
  (forall h, h <> a -> h <> b -> origin_of s' h = origin_of s h) ->
  (forall h, h <> a -> h <> b -> pair_of s' h = pair_of s h) ->
  (forall h, h <> a -> h <> b -> edge_of s' h = edge_of s h) ->
  (forall h, h <> a -> h <> b -> next_of s' h =
     if decide (h = prev_of s b) then next_of s a
     else if decide (h = prev_of s a) then next_of s b else next_of s h) ->
  (forall h, h <> a -> h <> b -> prev_of s' h =
     if decide (h = next_of s a) then prev_of s b
     else if decide (h = next_of s b) then prev_of s a else prev_of s h) ->
  (forall m, halfedge_of s' m =
     if decide (halfedge_of s m = Some a) then
       if decide (next_of s b <> a) then Some (next_of s b) else None
     else if decide (halfedge_of s m = Some b) then
       if decide (next_of s a <> b) then Some (next_of s a) else None
     else halfedge_of s m) ->
  edges s' = delete e (edges s) ->
  well_formed s'.
Proof.
  intros Hwf Hr a b El Eo Ep Ee En Ev Eh Ees.
  pose proof (wf_attaching s Hwf) as Ha. pose proof (at_linked s Ha) as Hl.
  destruct (edge_halfedges s e r Hwf Hr)
    as (La & Lb & Hp & Hp' & Hab & Hpa & Hna & Hpb & Hnb & na & nb & Oa & Ob & Hn).
  fold a b in La, Lb, Hp, Hp', Hab, Hpa, Hna, Hpb, Hnb, Oa, Ob.
  destruct (at_edge s Ha e r Hr) as (_ & _ & _ & Eea & Eeb). fold a b in Eea, Eeb.
  pose proof (lk_prev_next s Hl a La) as Na1. pose proof (lk_next_prev s Hl b Lb) as Pb1.
  pose proof (lk_prev_next s Hl b Lb) as Nb2. pose proof (lk_next_prev s Hl a La) as Pa2.
  pose proof (live_prev s Hl a La) as Lp1. pose proof (live_next s Hl b Lb) as Lq1.
  pose proof (live_prev s Hl b Lb) as Lp2. pose proof (live_next s Hl a La) as Lq2.
  pose proof (lk_origin s Hl a La) as Oq2. pose proof (lk_origin s Hl b Lb) as Oq1.
  pose proof (lk_origin s Hl _ Lp1) as Op1. pose proof (lk_origin s Hl _ Lp2) as Op2.
  rewrite Hp in Oq2. rewrite Hp' in Oq1. rewrite Na1 in Op1. rewrite Nb2 in Op2.
  remember (prev_of s a) as p1 eqn:Ep1. remember (next_of s b) as q1 eqn:Eq1.
  remember (prev_of s b) as p2 eqn:Ep2. remember (next_of s a) as q2 eqn:Eq2.
  set (alive h := live s h /\ h <> a /\ h <> b).
  assert (forall h, alive h -> alive (pair_of s h)) as Hpair.
  { intros h (L & ? & ?). pose proof (lk_pair s Hl h L).
    split_and!; [by apply live_pair|congruence..]. }
  assert (forall h, alive h -> alive
            (if decide (h = p2) then q2 else if decide (h = p1) then q1 else next_of s h))
    as Hnext.
  { intros h (L & ? & ?). pose proof (lk_next_prev s Hl h L). pose proof (live_next s Hl h L).
    repeat case_decide; (split_and!; [done|congruence..]). }
  assert (forall h, alive h -> alive
            (if decide (h = q2) then p2 else if decide (h = q1) then p1 else prev_of s h))
    as Hprev.
  { intros h (L & ? & ?). pose proof (lk_prev_next s Hl h L). pose proof (live_prev s Hl h L).
    repeat case_decide; (split_and!; [done|congruence..]). }
  assert (forall h, alive h -> target_of s' h = target_of s h) as Et.
  { intros h Hh. destruct (Hpair h Hh) as (_ & ? & ?). destruct Hh as (_ & ? & ?).
    unfold target_of. rewrite Ep by done. by apply Eo. }
  assert (forall h, alive h -> around s' h = pair_of s
            (if decide (h = p2) then q2 else if decide (h = p1) then q1 else next_of s h))
    as Earound.
  { intros h Hh. destruct (Hnext h Hh) as (_ & ? & ?). destruct Hh as (_ & ? & ?).
    unfold around. rewrite En by done. by apply Ep. }
  split; [split; [split|idtac..]|].
  - (* closed *)
    intros h Hh. apply El in Hh. destruct (Hpair h Hh) as (? & ? & ?).
    pose proof (Hnext h Hh) as ?. pose proof (Hprev h Hh) as ?. destruct Hh as (? & ? & ?).
    rewrite Ep, En, Ev by done. rewrite !El. done.
  - intros h Hh. apply El in Hh. destruct (Hpair h Hh) as (? & ? & ?). destruct Hh as (L & ? & ?).
    rewrite (Ep h), Ep by done. by apply lk_pair.
  - intros h Hh. apply El in Hh. destruct (Hnext h Hh) as (_ & ? & ?). destruct Hh as (L & ? & ?).
    rewrite (En h), Ev by done. pose proof (lk_next_prev s Hl h L).
    repeat case_decide; congruence.
  - intros h Hh. apply El in Hh. destruct (Hprev h Hh) as (_ & ? & ?). destruct Hh as (L & ? & ?).
    rewrite (Ev h), En by done. pose proof (lk_prev_next s Hl h L).
    repeat case_decide; congruence.
  - intros h Hh. apply El in Hh. destruct (Hnext h Hh) as (_ & ? & ?).
    destruct (Hpair h Hh) as (_ & ? & ?). destruct Hh as (L & ? & ?).
    rewrite (En h), (Ep h), !Eo by done. pose proof (lk_origin s Hl h L).
    repeat case_decide; congruence.
  - (* stub *)
    intros h Hh Hnone. apply El in Hh as (L & ? & ?). rewrite Eo in Hnone by done.
    destruct (wf_origin s Hwf h L). congruence.
  - (* attached *)
    intros h n Hh Oh. apply El in Hh. pose proof Hh as (L & ? & ?). rewrite Eo in Oh by done.
    rewrite Eh. destruct (at_attached s Ha h n L Oh) as [h0 Hh0].
    assert (forall c, live s c -> origin_of s c = Some n ->
              around s (pair_of s c) = pair_of s c -> h = c) as Halone.
    { intros c Lc Oc Hfix.
      destruct (at_fan s Ha (pair_of s c) (pair_of s h) n) as [k Hk];
        [by apply live_pair|by apply live_pair|by rewrite target_pair|by rewrite target_pair|].
      rewrite iter_fixed in Hk by done. by apply (pair_inj s Hl). }
    destruct (decide (halfedge_of s n = Some a)) as [Ea|Ea];
      [destruct (decide (q1 <> a)) as [?|Hq]; [by eauto|]
      |destruct (decide (halfedge_of s n = Some b)) as [Eb|Eb];
         [destruct (decide (q2 <> b)) as [?|Hq]; [by eauto|]|by eauto]].
    + exfalso. apply dec_stable in Hq. destruct (at_node s Ha n a Ea) as [_ ?].
      assert (h = a); [|done]. apply Halone; [done..|]. unfold around. congruence.
    + exfalso. apply dec_stable in Hq. destruct (at_node s Ha n b Eb) as [_ ?].
      assert (h = b); [|done]. apply Halone; [done..|]. unfold around. congruence.
  - (* no loop *)
    intros h n Hh Oh. apply El in Hh. rewrite Et by done. destruct Hh as (L & ? & ?).
    rewrite Eo in Oh by done. by apply (at_no_loop s Ha).
  - (* node *)
    intros n h. rewrite Eh, El. intros Hnh.
    assert (alive h /\ origin_of s h = Some n) as [Hh ?].
    { destruct (decide (halfedge_of s n = Some a)) as [Ea|Ea];
        [destruct (decide (q1 <> a)) as [?|Hq]; [|done]
        |destruct (decide (halfedge_of s n = Some b)) as [Eb|Eb];
           [destruct (decide (q2 <> b)) as [?|Hq]; [|done]|]].
      - injection Hnh as <-. destruct (at_node s Ha n a Ea) as [_ ?].
        split; [split_and!; [done|congruence..]|congruence].
      - injection Hnh as <-. destruct (at_node s Ha n b Eb) as [_ ?].
        split; [split_and!; [done|congruence..]|congruence].
      - destruct (at_node s Ha n h Hnh) as [? ?]. split; [split_and!; congruence|done]. }
    split; [done|]. destruct Hh as (_ & ? & ?). by rewrite Eo.
  - (* fan *)
    intros x y n Hx Hy. apply El in Hx, Hy. rewrite !Et by done. intros Tx Ty.
    pose proof Hx as (Lx & ? & ?). pose proof Hy as (Ly & ? & ?).
    destruct (at_fan s Ha x y n Lx Ly Tx Ty) as [k Hk].
    set (f1 h := pair_of s (if decide (h = p1) then q1 else next_of s h)).
    set (f2 h := pair_of s
           (if decide (h = p2) then q2 else if decide (h = p1) then q1 else next_of s h)).
    destruct (iter_bypass (around s) (live s) f1 p1 b k x) as [k1 Hk1].
    { intros h L. by apply live_around. }
    { unfold around. congruence. }
    { unfold f1, around. rewrite decide_True by done. congruence. }
    { intros h L ? ?. unfold f1, around. by rewrite decide_False. }
    { intros h L E. unfold around in E. apply (next_inj s Hl); [done..|].
      apply (pair_inj s Hl); [by apply live_next|by apply live_next|]. congruence. }
    { done. } { done. } { congruence. }
    assert (forall h, live s h -> live s (f1 h)) as Hf1.
    { intros h L. unfold f1. apply live_pair; [done|].
      destruct (decide (h = p1)); [done|by apply live_next]. }
    destruct (iter_bypass f1 (live s) f2 p2 a k1 x) as [k2 Hk2].
    { done. }
    { unfold f1. rewrite decide_False by congruence. congruence. }
    { unfold f1, f2. rewrite decide_True by done. rewrite decide_False by congruence. congruence. }
    { intros h L ? ?. unfold f1, f2. by rewrite decide_False. }
    { intros h L E. unfold f1 in E.
      assert (live s (if decide (h = p1) then q1 else next_of s h)) as L'
        by (destruct (decide (h = p1)); [done|by apply live_next]).
      assert ((if decide (h = p1) then q1 else next_of s h) = b) as E'.
      { apply (pair_inj s Hl); [done..|]. congruence. }
      revert E'. destruct (decide (h = p1)); [congruence|]. intros E'.
      apply (next_inj s Hl); [done..|]. congruence. }
    { done. } { done. } { congruence. }
    exists k2. rewrite <- Hk, <- Hk1, <- Hk2.
    apply (iter_frame_on f2 alive (around s') k2 x); [|done].
    intros h Hh. split; [|by apply Earound]. by apply Hpair, Hnext.
  - (* edge *)
    intros e' r'. rewrite Ees. intros Hr'. apply lookup_delete_Some in Hr' as [Hne Hr'].
    destruct (at_edge s Ha e' r' Hr') as (L1 & P1 & N1 & E1 & E2).
    assert (alive (e_he1 r')) as H1 by (split_and!; [done|congruence..]).
    pose proof (Hpair _ H1) as H2. rewrite P1 in H2.
    destruct H1 as (_ & ? & ?). destruct H2 as (_ & ? & ?).
    rewrite El, Ep, !Ee by done. done.
  - (* halfedge to edge *)
    intros h Hh. apply El in Hh as (L & ? & ?).
    destruct (at_he_edge s Ha h L) as (r' & Hr' & Hor).
    exists r'. rewrite Ee, Ees by done. split; [|done].
    apply lookup_delete_Some. split; [|done]. intros E.
    rewrite <- E, Hr in Hr'. injection Hr' as <-. by destruct Hor.
  - (* origins *)
    intros h Hh. apply El in Hh as (L & ? & ?). rewrite Eo by done. by apply wf_origin.
Qed.

Lemma edges_detached s he : edges (detached s he) = edges s.
Proof.
  unfold detached. destruct (origin_of s he); [case_decide|]; done.
Qed.

Lemma faces_detached s he : faces (detached s he) = faces s.
Proof.
  unfold detached. destruct (origin_of s he); [case_decide|]; done.
Qed.

Lemma face_removed_same_links s h s' : face_removed s h s' -> same_links s s'.
Proof.
  intros [[_ ->]|(f & _ & H)]; [apply same_links_refl|]. by apply remove_face_Ok in H as [? _].
Qed.

(** What a call of [remove_edge] that returns has done. *)
Lemma remove_edge_Ok e s u s' :
  remove_edge e s = (Ok u, s') ->
  exists r s1 s2,
    edges s !! e = Some r /\
    face_removed s (e_he1 r) s1 /\ face_removed s1 (e_he2 r) s2 /\
    s' = without_edge (detached (detached s2 (e_he1 r)) (e_he2 r)) e (e_he1 r) (e_he2 r).
Proof.
  unfold remove_edge. intros H.
  apply bind_Ok in H as (a & s0 & Ha & H). apply he1_Ok in Ha as (-> & r & Hr & ->).
  apply bind_Ok in H as (ba & s0 & Hba & H). apply is_boundary_Ok in Hba as (-> & La & ->).
  apply bind_Ok in H as ([] & s1 & H1 & H).
  assert (face_removed s (e_he1 r) s1) as F1.
  { destruct (decide (face_of s (e_he1 r) = None)) as [E|E].
    - rewrite bool_decide_eq_true_2 in H1 by done. apply ret_Ok in H1 as [_ ->]. by left.
    - rewrite bool_decide_eq_false_2 in H1 by done. simpl in H1.
      apply bind_Ok in H1 as (f & s0 & Hf & H1). apply he_face_Ok in Hf as (-> & _ & ->).
      destruct (face_of s (e_he1 r)) as [f|] eqn:Ef; [|done]. right. eauto. }
  pose proof (face_removed_same_links _ _ _ F1) as E1.
  apply bind_Ok in H as (b & s0 & Hb & H). apply he2_Ok in Hb as (-> & r' & Hr' & ->).
  rewrite (sl_edges _ _ E1), Hr in Hr'. injection Hr' as <-.
  apply bind_Ok in H as (bb & s0 & Hbb & H). apply is_boundary_Ok in Hbb as (-> & Lb & ->).
  apply bind_Ok in H as ([] & s2 & H2 & H).
  assert (face_removed s1 (e_he2 r) s2) as F2.
  { destruct (decide (face_of s1 (e_he2 r) = None)) as [E|E].
    - rewrite bool_decide_eq_true_2 in H2 by done. apply ret_Ok in H2 as [_ ->]. by left.
    - rewrite bool_decide_eq_false_2 in H2 by done. simpl in H2.
      apply bind_Ok in H2 as (f & s0 & Hf & H2). apply he_face_Ok in Hf as (-> & _ & ->).
      destruct (face_of s1 (e_he2 r)) as [f|] eqn:Ef; [|done]. right. eauto. }
  pose proof (face_removed_same_links _ _ _ F2) as E2.
  apply bind_Ok in H as (a & s0 & Ha & H). apply he1_Ok in Ha as (-> & r' & Hr' & ->).
  rewrite (sl_edges _ _ E2), (sl_edges _ _ E1), Hr in Hr'. injection Hr' as <-.
  apply bind_Ok in H as ([] & s3 & H3 & H). apply detach_edge_Ok in H3 as (_ & _ & _ & _ & _ & ->).
  apply bind_Ok in H as (b & s0 & Hb & H). apply he2_Ok in Hb as (-> & r' & Hr' & ->).
  rewrite edges_detached, (sl_edges _ _ E2), (sl_edges _ _ E1), Hr in Hr'. injection Hr' as <-.
  apply bind_Ok in H as ([] & s4 & H4 & H). apply detach_edge_Ok in H4 as (_ & _ & _ & _ & _ & ->).
  apply delete_edge_Ok in H as (r' & Hr' & ->).
  rewrite !edges_detached, (sl_edges _ _ E2), (sl_edges _ _ E1), Hr in Hr'. injection Hr' as <-.
  exists r, s1, s2. done.
Qed.

Lemma remove_edge_well_formed s e u s' :
  well_formed s -> remove_edge e s = (Ok u, s') -> well_formed s'.
Proof.
  intros Hwf H. apply remove_edge_Ok in H as (r & s1 & s2 & Hr & F1 & F2 & ->).
  pose proof (same_links_trans _ _ _ (face_removed_same_links _ _ _ F1)
                (face_removed_same_links _ _ _ F2)) as E.
  pose proof (well_formed_same_links _ _ E Hwf) as Hwf2.
  assert (edges s2 !! e = Some r) as Hr2 by by rewrite (sl_edges _ _ E).
  destruct (remove_edge_shape s2 e r Hwf2 Hr2) as (? & ? & ? & ? & ? & ? & ? & ?).
  by apply (remove_edge_shape_well_formed s2 e r).
Qed.

(** ** [attach_halfedge_to_node] and [add_edge] *)

Lemma get_new_edge_Ok s e s' :
  get_new_edge s = (Ok e, s') ->
  exists a b,
    ~ live s a /\ ~ live s b /\ a <> b /\ edges s !! e = None /\
    halfedges s' = <[b := mkHalfedge None a a a None e]>
                     (<[a := mkHalfedge None b b b None e]> (halfedges s)) /\
    edges s' = <[e := mkEdge a b]> (edges s) /\
    nodes s' = nodes s /\ faces s' = faces s.
Proof.
  unfold get_new_edge. intros [= <- <-].
  set (a := fresh (dom (halfedges s))). set (b := fresh ({[a]} ∪ dom (halfedges s))).
  exists a, b.
  assert (a ∉ dom (halfedges s)) as Ha by apply is_fresh.
  assert (b ∉ {[a]} ∪ dom (halfedges s)) as Hb by apply is_fresh.
  unfold live. rewrite <- !elem_of_dom.
  split_and!; try done; [set_solver..|]. apply not_elem_of_dom, is_fresh.
Qed.

(** The store with a new edge is still one in which an edge is being
    attached: its two halfedges have no origin and follow each other. *)
Lemma get_new_edge_attaching s e s' :
  attaching s -> get_new_edge s = (Ok e, s') ->
  attaching s' /\
  exists a b,
    a <> b /\ ~ live s a /\ ~ live s b /\
    edges s' !! e = Some (mkEdge a b) /\
    (forall h, live s' h <-> h = a \/ h = b \/ live s h) /\
    origin_of s' a = None /\ origin_of s' b = None /\
    pair_of s' a = b /\ pair_of s' b = a /\
    (forall h, live s h -> origin_of s' h = origin_of s h) /\
    nodes s' = nodes s /\ faces s' = faces s.
Proof.
  intros Hat H. apply get_new_edge_Ok in H as (a & b & Da & Db & Hab & He & Eh & Ee & En & Ef).
  pose proof (at_linked s Hat) as Hl.
  assert (forall h, h <> a -> h <> b -> halfedges s' !! h = halfedges s !! h) as Eold.
  { intros h ? ?. rewrite Eh. by rewrite !lookup_insert_ne. }
  assert (halfedges s' !! a = Some (mkHalfedge None b b b None e)) as Ea.
  { rewrite Eh. by rewrite lookup_insert_ne, lookup_insert_eq. }
  assert (halfedges s' !! b = Some (mkHalfedge None a a a None e)) as Eb.
  { rewrite Eh. by rewrite lookup_insert_eq. }
  assert (forall h, live s h -> h <> a /\ h <> b) as Hold by (intros h L; split; congruence).
  assert (forall h, live s' h <-> h = a \/ h = b \/ live s h) as El.
  { intros h. unfold live.
    destruct (decide (h = a)) as [->|]; [rewrite Ea; split; by eauto|].
    destruct (decide (h = b)) as [->|]; [rewrite Eb; split; by eauto|].
    rewrite Eold by done. intuition congruence. }
  assert (forall h, live s h ->
            origin_of s' h = origin_of s h /\ pair_of s' h = pair_of s h /\
            next_of s' h = next_of s h /\ prev_of s' h = prev_of s h /\
            edge_of s' h = edge_of s h) as Eget.
  { intros h L. destruct (Hold h L). unfold origin_of, pair_of, next_of, prev_of, edge_of.
    by rewrite Eold. }
  assert (origin_of s' a = None /\ pair_of s' a = b /\ next_of s' a = b /\ prev_of s' a = b /\
          edge_of s' a = e) as (Oa & Pa & Na & Va & Eea).
  { unfold origin_of, pair_of, next_of, prev_of, edge_of. by rewrite Ea. }
  assert (origin_of s' b = None /\ pair_of s' b = a /\ next_of s' b = a /\ prev_of s' b = a /\
          edge_of s' b = e) as (Ob & Pb & Nb & Vb & Eeb).
  { unfold origin_of, pair_of, next_of, prev_of, edge_of. by rewrite Eb. }
  assert (forall n, halfedge_of s' n = halfedge_of s n) as Enode
    by (intros n; unfold halfedge_of; by rewrite En).
  assert (forall h, live s h -> target_of s' h = target_of s h) as Et.
  { intros h L. unfold target_of. destruct (Eget h L) as (_ & -> & _).
    by destruct (Eget _ (live_pair s Hl h L)) as (-> & _). }
  assert (forall h, live s h -> around s' h = around s h) as Ear.
  { intros h L. unfold around. destruct (Eget h L) as (_ & _ & -> & _).
    by destruct (Eget _ (live_next s Hl h L)) as (_ & -> & _). }
  split; [|exists a, b; split_and!; try done; [by rewrite Ee, lookup_insert_eq|apply Eget]].
  split; [split|..].
  - intros h Lh. apply El in Lh as [->|[->|L]].
    + rewrite Pa, Na, Va, !El. auto.
    + rewrite Pb, Nb, Vb, !El. auto.
    + destruct (Eget h L) as (_ & -> & -> & -> & _). rewrite !El.
      destruct (lk_closed s Hl h L) as (? & ? & ?). auto.
  - intros h Lh. apply El in Lh as [->|[->|L]]; [congruence..|].
    destruct (Eget h L) as (_ & -> & _).
    destruct (Eget _ (live_pair s Hl h L)) as (_ & -> & _). by apply lk_pair.
  - intros h Lh. apply El in Lh as [->|[->|L]]; [congruence..|].
    destruct (Eget h L) as (_ & _ & -> & _).
    destruct (Eget _ (live_next s Hl h L)) as (_ & _ & _ & -> & _). by apply lk_next_prev.
  - intros h Lh. apply El in Lh as [->|[->|L]]; [congruence..|].
    destruct (Eget h L) as (_ & _ & _ & -> & _).
    destruct (Eget _ (live_prev s Hl h L)) as (_ & _ & -> & _). by apply lk_prev_next.
  - intros h Lh. apply El in Lh as [->|[->|L]]; [congruence..|].
    destruct (Eget h L) as (_ & -> & -> & _).
    destruct (Eget _ (live_next s Hl h L)) as (-> & _).
    destruct (Eget _ (live_pair s Hl h L)) as (-> & _). by apply lk_origin.
  - intros h Lh. apply El in Lh as [->|[->|L]]; [intros _; split; congruence..|].
    destruct (Eget h L) as (-> & -> & _ & -> & _).
    destruct (Eget _ (live_pair s Hl h L)) as (_ & _ & -> & _). by apply at_stub.
  - intros h n Lh. apply El in Lh as [->|[->|L]]; [congruence..|].
    destruct (Eget h L) as (-> & _). rewrite Enode. by apply at_attached.
  - intros h n Lh. apply El in Lh as [->|[->|L]]; [congruence..|].
    rewrite Et by done. destruct (Eget h L) as (-> & _). by apply at_no_loop.
  - intros n h. rewrite Enode. intros Hn. destruct (at_node s Hat n h Hn) as [L ?].
    rewrite El. destruct (Eget h L) as (-> & _). auto.
  - intros x y n Lx Ly Tx Ty.
    assert (live s x) as Lx'.
    { apply El in Lx as [->|[->|L]]; [unfold target_of in Tx; congruence..|done]. }
    assert (live s y) as Ly'.
    { apply El in Ly as [->|[->|L]]; [unfold target_of in Ty; congruence..|done]. }
    rewrite Et in Tx, Ty by done.
    destruct (at_fan s Hat x y n Lx' Ly' Tx Ty) as [k Hk]. exists k. rewrite <- Hk.
    apply (iter_frame_on (around s) (live s)); [|done].
    intros h L. split; [by apply live_around|by apply Ear].
  - intros e' r'. rewrite Ee. destruct (decide (e' = e)) as [->|Hne].
    + rewrite lookup_insert_eq. intros [= <-]. simpl. rewrite El. auto 10.
    + rewrite lookup_insert_ne by done. intros Hr'.
      destruct (at_edge s Hat e' r' Hr') as (L1 & P1 & N1 & E1 & E2).
      assert (live s (e_he2 r')) as L2 by (rewrite <- P1; by apply live_pair).
      destruct (Eget _ L1) as (_ & -> & _ & _ & ->). destruct (Eget _ L2) as (_ & _ & _ & _ & ->).
      rewrite El. auto 10.
  - intros h Lh. rewrite Ee. apply El in Lh as [->|[->|L]].
    + rewrite Eea, lookup_insert_eq. eauto.
    + rewrite Eeb, lookup_insert_eq. eauto.
    + destruct (at_he_edge s Hat h L) as (r' & Hr' & Hor). exists r'.
      destruct (Eget h L) as (_ & _ & _ & _ & ->). split; [|done].
      rewrite lookup_insert_ne; [done|]. intros E'. by rewrite <- E', He in Hr'.
Qed.

Lemma find_free_incident_halfedge_Ok n s g s' :
  find_free_incident_halfedge n s = (Ok g, s') ->
  s' = s /\ exists n' h0 k,
    n = Some n' /\ halfedge_of s n' = Some h0 /\ live s h0 /\
    g = Nat.iter k (around s) (pair_of s h0) /\ face_of s g = None /\ live s g /\
    forall j, j < k -> face_of s (Nat.iter j (around s) (pair_of s h0)) <> None.
Proof.
  unfold find_free_incident_halfedge. intros H. minv.
  match goal with H : is_Some (nodes s !! ?x) |- _ => rename x into n' end.
  destruct (halfedge_of s n') as [h0|] eqn:E; [|by minv]. minv.
  apply free_walk_Ok in H as (-> & k & _ & -> & Hf & L & Hj).
  split; [done|]. exists n', h0, k. split_and!; try done.
  intros j Hlt. by destruct (Hj j Hlt) as (_ & _ & ? & _).
Qed.

Lemma around_upd_origin h v s x : around (upd_origin h v s) x = around s x.
Proof. unfold around. by autorewrite with hds. Qed.

Lemma iter_around_upd_origin h v s k x :
  Nat.iter k (around (upd_origin h v s)) x = Nat.iter k (around s) x.
Proof. apply iter_frame. intros. apply around_upd_origin. Qed.

(** What a call of [attach_halfedge_to_node] that returns has done. *)
Lemma attach_halfedge_to_node_Ok h n s u s' :
  attach_halfedge_to_node h n s = (Ok u, s') ->
  live s h /\ live s (pair_of s h) /\
  exists n', n = Some n' /\ is_Some (nodes s !! n') /\
    (halfedge_of s n' = None /\ s' = attached_isolated s h n' \/
     exists h0 g k,
       halfedge_of s n' = Some h0 /\ live s h0 /\
       g = Nat.iter k (around s) (pair_of s h0) /\ face_of s g = None /\
       (forall j, j < k -> face_of s (Nat.iter j (around s) (pair_of s h0)) <> None) /\
       live s g /\ live s (next_of s g) /\
       s' = attached_after s h n' g).
Proof.
  unfold attach_halfedge_to_node. intros H.
  apply bind_Ok in H as ([] & s0 & H0 & H). apply set_origin_Ok in H0 as (L & ->).
  apply bind_Ok in H as (iso & s0 & Hiso & H).
  apply is_isolated_Ok in Hiso as (-> & n' & -> & Ln & ->).
  autorewrite with hds in H. split; [done|].
  destruct (decide (halfedge_of s n' = None)) as [E|E].
  - rewrite bool_decide_eq_true_2 in H by done. minv. autorewrite with hds in *.
    split; [done|]. eexists. split_and!; [done..|]. left. done.
  - rewrite bool_decide_eq_false_2 in H by done.
    apply bind_Ok in H as (g & s0 & Hg & H).
    apply find_free_incident_halfedge_Ok in Hg
      as (-> & n'' & h0 & k & [= <-] & Hh0 & L0 & -> & Hf & Lg & Hj).
    autorewrite with hds in Hh0, L0, Hf, Lg. rewrite iter_around_upd_origin in Hf, Lg.
    assert (forall j, j < k ->
              face_of s (Nat.iter j (around s) (pair_of s h0)) <> None) as Hj'.
    { intros j Hlt. specialize (Hj j Hlt).
      by rewrite iter_around_upd_origin, face_of_upd_origin, pair_of_upd_origin in Hj. }
    clear Hj. rewrite !iter_around_upd_origin, !pair_of_upd_origin in H.
    minv. autorewrite with hds in *.
    split; [done|]. eexists. split_and!; [done..|]. right.
    exists h0, (Nat.iter k (around s) (pair_of s h0)), k. split_and!; done.
Qed.

(** A halfedge is not its own pair. *)
Lemma pair_neq s h : attaching s -> live s h -> pair_of s h <> h.
Proof.
  intros Hat L E. pose proof (at_linked s Hat) as Hl.
  destruct (at_he_edge s Hat h L) as (r & Hr & Hor).
  destruct (at_edge s Hat _ r Hr) as (L1 & P1 & N1 & _).
  destruct Hor as [->| ->]; [congruence|].
  apply N1. rewrite <- P1 in E |- *. rewrite (lk_pair s Hl) in E by done. congruence.
Qed.

Lemma attached_isolated_getters s h n :
  attaching s -> live s h -> origin_of s h = None -> is_Some (nodes s !! n) ->
  let s' := attached_isolated s h n in
  (forall x, live s' x <-> live s x) /\
  (forall x, origin_of s' x = if decide (x = h) then Some n else origin_of s x) /\
  (forall x, pair_of s' x = pair_of s x) /\
  (forall x, next_of s' x = next_of s x) /\
  (forall x, prev_of s' x = prev_of s x) /\
  (forall x, edge_of s' x = edge_of s x) /\
  (forall x, face_of s' x = face_of s x) /\
  (forall m, halfedge_of s' m = if decide (m = n) then Some h else halfedge_of s m) /\
  edges s' = edges s /\ faces s' = faces s.
Proof.
  intros Hat L Oh Ln s'. pose proof (at_linked s Hat) as Hl.
  destruct (at_stub s Hat h L Oh) as [Hv Hn].
  pose proof (live_pair s Hl h L) as Lp.
  unfold s', attached_isolated.
  split_and!; intros; autorewrite with hds; try done.
  - case_decide; congruence.
  - case_decide; congruence.
Qed.

(** Attaching a halfedge to an isolated node. *)
Lemma attached_isolated_attaching s h n :
  attaching s -> live s h -> origin_of s h = None -> target_of s h <> Some n ->
  is_Some (nodes s !! n) -> halfedge_of s n = None ->
  attaching (attached_isolated s h n).
Proof.
  intros Hat L Oh Th Ln Hiso. pose proof (at_linked s Hat) as Hl.
  destruct (attached_isolated_getters s h n Hat L Oh Ln)
    as (El & Eo & Ep & En & Ev & Ee & _ & Eh & Ees & _).
  set (s' := attached_isolated s h n) in *.
  destruct (at_stub s Hat h L Oh) as [Hv Hn].
  pose proof (live_pair s Hl h L) as Lp. pose proof (pair_neq s h Hat L) as Hne.
  pose proof (lk_pair s Hl h L) as Hpp.
  assert (forall x, live s x -> origin_of s x <> Some n) as Hnone.
  { intros x Lx Ox. destruct (at_attached s Hat x n Lx Ox). congruence. }
  assert (forall x, around s' x = around s x) as Ear.
  { intros x. unfold around. by rewrite En, Ep. }
  assert (forall x, live s x -> target_of s' x =
            if decide (x = pair_of s h) then Some n else target_of s x) as Et.
  { intros x Lx. unfold target_of. rewrite Ep, Eo.
    destruct (decide (x = pair_of s h)) as [->|Hx].
    - by rewrite decide_True.
    - destruct (decide (pair_of s x = h)) as [E|E]; [|done].
      exfalso. apply Hx. rewrite <- E. by rewrite (lk_pair s Hl). }
  split; [split|..].
  - intros x Lx. apply El in Lx. rewrite Ep, En, Ev, !El. by apply lk_closed.
  - intros x Lx. apply El in Lx. rewrite !Ep. by apply lk_pair.
  - intros x Lx. apply El in Lx. rewrite En, Ev. by apply lk_next_prev.
  - intros x Lx. apply El in Lx. rewrite En, Ev. by apply lk_prev_next.
  - intros x Lx. apply El in Lx. rewrite En, Ep, !Eo.
    pose proof (lk_origin s Hl x Lx). pose proof (lk_next_prev s Hl x Lx).
    pose proof (lk_pair s Hl x Lx). repeat case_decide; congruence.
  - intros x Lx. apply El in Lx. rewrite Eo, Ev, !Ep, En.
    case_decide; [done|]. by apply at_stub.
  - intros x m Lx. apply El in Lx. rewrite Eo, Eh. case_decide.
    + intros [= <-]. rewrite decide_True by done. eauto.
    + intros Ox. rewrite decide_False; [by eapply at_attached|].
      intros ->. by apply (Hnone x).
  - intros x m Lx. apply El in Lx. rewrite Eo, Et by done. case_decide; subst.
    + intros [= <-]. rewrite decide_False by done. done.
    + intros Ox. case_decide; [|by apply (at_no_loop s Hat)].
      intros [= <-]. by apply (Hnone x).
  - intros m x. rewrite Eh, El, Eo. case_decide; subst.
    + intros [= <-]. by rewrite decide_True.
    + intros Hm. destruct (at_node s Hat m x Hm) as [Lx Ox]. split; [done|].
      rewrite decide_False; [done|]. congruence.
  - intros x y m Lx Ly. apply El in Lx, Ly. rewrite !Et by done.
    destruct (decide (x = pair_of s h)) as [->|Hx].
    + intros [= <-]. destruct (decide (y = pair_of s h)) as [->|Hy]; [by exists 0|].
      intros Ty. exfalso. by apply (Hnone _ (live_pair s Hl y Ly)).
    + intros Tx. destruct (decide (y = pair_of s h)) as [->|Hy].
      * intros [= <-]. exfalso. by apply (Hnone _ (live_pair s Hl x Lx)).
      * intros Ty. destruct (at_fan s Hat x y m Lx Ly Tx Ty) as [k Hk]. exists k.
        rewrite <- Hk. apply iter_frame. intros. apply Ear.
  - intros e r. rewrite Ees, El, Ep, !Ee. by apply at_edge.
  - intros x Lx. apply El in Lx. rewrite Ees, Ee. by apply at_he_edge.
Qed.

Lemma attached_after_getters s h n g :
  live s h -> live s (pair_of s h) -> live s g -> live s (next_of s g) ->
  let s' := attached_after s h n g in
  (forall x, live s' x <-> live s x) /\
  (forall x, origin_of s' x = if decide (x = h) then Some n else origin_of s x) /\
  (forall x, pair_of s' x = pair_of s x) /\
  (forall x, next_of s' x =
     if decide (x = pair_of s h) then next_of s g
     else if decide (x = g) then h else next_of s x) /\
  (forall x, prev_of s' x =
     if decide (x = next_of s g) then pair_of s h
     else if decide (x = h) then g else prev_of s x) /\
  (forall x, edge_of s' x = edge_of s x) /\
  (forall x, face_of s' x = face_of s x) /\
  (forall m, halfedge_of s' m = halfedge_of s m) /\
  edges s' = edges s /\ faces s' = faces s /\
  (forall m, is_Some (nodes s' !! m) <-> is_Some (nodes s !! m)).
Proof.
  intros L Lp Lg Lf s'. unfold s', attached_after.
  split_and!; intros; autorewrite with hds; done.
Qed.

(** Attaching a halfedge after a free halfedge into the node. *)
Lemma attached_after_attaching s h n g :
  attaching s -> live s h -> origin_of s h = None -> target_of s h <> Some n ->
  live s g -> target_of s g = Some n ->
  attaching (attached_after s h n g).
Proof.
  intros Hat L Oh Th Lg Tg. pose proof (at_linked s Hat) as Hl.
  pose proof (live_pair s Hl h L) as Lp. pose proof (live_next s Hl g Lg) as Lf.
  destruct (attached_after_getters s h n g L Lp Lg Lf)
    as (El & Eo & Ep & En & Ev & Ee & _ & Eh & Ees & _).
  set (s' := attached_after s h n g) in *.
  destruct (at_stub s Hat h L Oh) as [Hv Hn].
  pose proof (pair_neq s h Hat L) as Hne.
  pose proof (lk_pair s Hl h L) as Hpp.
  remember (pair_of s h) as w eqn:Ew. remember (next_of s g) as fo eqn:Efo.
  assert (origin_of s fo = Some n) as Ofo.
  { subst fo. rewrite (lk_origin s Hl) by done. exact Tg. }
  assert (origin_of s w <> Some n) as Ow by (by subst w).
  assert (target_of s w = None) as Tw by (unfold target_of; congruence).
  assert (g <> h) as Hgh by congruence.
  assert (g <> w) as Hgw by congruence.
  assert (fo <> h) as Hfh by congruence.
  assert (fo <> w) as Hfw by congruence.
  assert (forall x, live s x -> next_of s x = fo -> x = g) as Ifo.
  { intros x Lx E. subst fo. by apply (next_inj s Hl). }
  assert (forall x, live s x -> next_of s x = h -> x = w) as Ih.
  { intros x Lx E. rewrite <- Hn in E. by apply (next_inj s Hl). }
  assert (forall x, live s x -> pair_of s x = h -> x = w) as Iph.
  { intros x Lx E. rewrite <- Hpp in E. by apply (pair_inj s Hl). }
  assert (forall x, live s x -> pair_of s x = w -> x = h) as Ipw.
  { intros x Lx E. subst w. by apply (pair_inj s Hl). }
  assert (forall x, live s x -> target_of s' x =
            if decide (x = w) then Some n else target_of s x) as Et.
  { intros x Lx. unfold target_of. rewrite Ep, Eo.
    destruct (decide (x = w)) as [->|Hx]; [by rewrite decide_True|].
    rewrite decide_False; [done|]. intros E. by apply Hx, Iph. }
  assert (forall x, around s' x =
            if decide (x = w) then around s g
            else if decide (x = g) then w else around s x) as Ear.
  { intros x. unfold around. rewrite Ep, En. repeat case_decide; congruence. }
  split; [split|..].
  - intros x Lx. apply El in Lx. rewrite Ep, En, Ev, !El.
    destruct (lk_closed s Hl x Lx) as (? & ? & ?).
    repeat case_decide; split_and!; congruence.
  - intros x Lx. apply El in Lx. rewrite !Ep. by apply lk_pair.
  - intros x Lx. apply El in Lx. rewrite En, Ev.
    pose proof (lk_next_prev s Hl x Lx) as E.
    destruct (decide (x = w)) as [->|Hxw]; [by rewrite decide_True|].
    destruct (decide (x = g)) as [->|Hxg].
    { rewrite decide_False by done. by rewrite decide_True. }
    rewrite !decide_False; [done|..].
    + intros E'. by apply Hxw, Ih.
    + intros E'. by apply Hxg, Ifo.
  - intros x Lx. apply El in Lx. rewrite En, Ev.
    pose proof (lk_prev_next s Hl x Lx) as E.
    destruct (lk_closed s Hl x Lx) as (_ & _ & Lv).
    destruct (decide (x = fo)) as [->|Hxf]; [by rewrite decide_True|].
    destruct (decide (x = h)) as [->|Hxh].
    { rewrite decide_False by done. by rewrite decide_True. }
    rewrite !decide_False; [done|..].
    + intros E'. apply Hxf. rewrite <- E, E'. by subst fo.
    + intros E'. apply Hxh. rewrite <- E, E'. done.
  - intros x Lx. apply El in Lx. rewrite En, Ep, !Eo.
    pose proof (lk_origin s Hl x Lx) as E.
    destruct (decide (x = w)) as [->|Hxw].
    { rewrite Hpp. rewrite decide_False by done. by rewrite decide_True. }
    destruct (decide (x = g)) as [->|Hxg].
    { rewrite decide_True by done. rewrite decide_False; [done|].
      intros E'. by apply Hgw, Iph. }
    rewrite !decide_False; [done|..].
    + intros E'. by apply Hxw, Iph.
    + intros E'. by apply Hxw, Ih.
  - intros x Lx. apply El in Lx. rewrite Eo, Ev, !Ep, En.
    case_decide; [done|]. intros Ox.
    destruct (at_stub s Hat x Lx Ox) as [Hvx Hnx].
    pose proof (live_pair s Hl x Lx) as Lpx.
    assert (x <> fo) as N1 by congruence.
    assert (pair_of s x <> w) as N2.
    { intros E. by apply H, Ipw. }
    assert (pair_of s x <> g) as N3.
    { intros E. unfold target_of in Tg. rewrite <- E, (lk_pair s Hl) in Tg by done.
      congruence. }
    by rewrite !decide_False by done.
  - intros x m Lx. apply El in Lx. rewrite Eo, Eh. case_decide.
    + intros [= <-]. by apply (at_attached s Hat (pair_of s g)); [apply live_pair|].
    + by eapply at_attached.
  - intros x m Lx. apply El in Lx. rewrite Eo, Et by done.
    destruct (decide (x = h)) as [->|Hxh].
    + intros [= <-]. rewrite decide_False by done. done.
    + intros Ox. case_decide; [|by apply (at_no_loop s Hat)]. congruence.
  - intros m x. rewrite Eh, El, Eo. intros Hm.
    destruct (at_node s Hat m x Hm) as [Lx Ox]. split; [done|].
    rewrite decide_False; [done|]. congruence.
  - intros x y m Lx Ly. apply El in Lx, Ly. rewrite !Et by done.
    destruct (decide (m = n)) as [->|Hm].
    + intros Tx Ty.
      destruct (fan_cycle s g n Hat Lg Tg) as (N & HN & Hper & Hinj & _ & Hall).
      assert (forall t, 1 <= t <= N ->
                Nat.iter t (around s') w = Nat.iter t (around s) g) as Hit.
      { intros t [H1 H2]. induction t as [|t IH]; [lia|].
        destruct (decide (t = 0)) as [->|Ht].
        - simpl. rewrite Ear. by rewrite decide_True.
        - simpl. rewrite IH by lia. rewrite Ear.
          rewrite !decide_False; [done|..].
          + intros E. apply Ht. symmetry. apply (Hinj 0 t); [lia..|]. by simpl.
          + intros E. pose proof (target_iter s Hl t g Lg) as E'.
            rewrite E in E'. congruence. }
      assert (forall z, live s z ->
                (if decide (z = w) then Some n else target_of s z) = Some n ->
                exists t, Nat.iter t (around s') w = z) as Hreach.
      { intros z Lz Tz. destruct (decide (z = w)) as [->|Hz]; [by exists 0|].
        destruct (Hall z Lz Tz) as (t & Ht & Et').
        destruct (decide (t = 0)) as [->|Ht0].
        - exists N. rewrite Hit by lia. simpl in Et'. congruence.
        - exists t. rewrite Hit by lia. done. }
      destruct (Hreach x Lx Tx) as [tx Hx]. destruct (Hreach y Ly Ty) as [ty Hy].
      apply (cycle_connects (around s') w (S N) x y tx ty); [lia| |done..].
      simpl. rewrite Hit by lia. rewrite Hper, Ear.
      rewrite decide_False by done. by rewrite decide_True.
    + intros Tx Ty.
      destruct (decide (x = w)) as [->|Hx]; [congruence|].
      destruct (decide (y = w)) as [->|Hy]; [congruence|].
      destruct (at_fan s Hat x y m Lx Ly Tx Ty) as [k Hk]. exists k.
      rewrite <- Hk.
      apply (iter_frame_on (around s) (fun z => live s z /\ target_of s z = Some m));
        [|done].
      intros z [Lz Tz]. split.
      * split; [by apply live_around|]. by rewrite target_around.
      * rewrite Ear. rewrite !decide_False; congruence.
  - intros e r. rewrite Ees, El, Ep, !Ee. by apply at_edge.
  - intros x Lx. apply El in Lx. rewrite Ees, Ee. by apply at_he_edge.
Qed.

Lemma attach_halfedge_to_node_attaching s h n u s' :
  attaching s -> origin_of s h = None -> (is_Some n -> target_of s h <> n) ->
  attach_halfedge_to_node h n s = (Ok u, s') ->
  exists n', n = Some n' /\ is_Some (nodes s !! n') /\
    attaching s' /\ attach_frame s h n' s'.
Proof.
  intros Hat Oh Th H. pose proof (at_linked s Hat) as Hl.
  apply attach_halfedge_to_node_Ok in H as (L & Lp & n' & -> & Ln & H).
  specialize (Th (mk_is_Some _ _ eq_refl)).
  exists n'. split_and!; [done..| |].
  - destruct H as [[Hiso ->]|(h0 & g & k & Hh0 & L0 & -> & Fg & _ & Lg & Lf & ->)].
    + by apply attached_isolated_attaching.
    + apply attached_after_attaching; [done..|].
      rewrite (target_iter s Hl) by by apply live_pair.
      unfold target_of. rewrite (lk_pair s Hl) by done.
      by destruct (at_node s Hat n' h0 Hh0).
  - destruct H as [[Hiso ->]|(h0 & g & k & Hh0 & L0 & -> & Fg & _ & Lg & Lf & ->)].
    + destruct (attached_isolated_getters s h n' Hat L Oh Ln)
        as (El & Eo & Ep & En & Ev & Ee & Ef & Eh & Ees & Efs).
      unfold attach_frame. split_and!; try done.
      intros m. unfold attached_isolated. simpl.
      unfold upd_halfedge, upd_origin, upd_prev, upd_next. simpl.
      rewrite lookup_alter. case_decide; subst; [|done].
      by rewrite fmap_is_Some.
    + destruct (attached_after_getters s h n' _ L Lp Lg Lf)
        as (El & Eo & Ep & En & Ev & Ee & Ef & Eh & Ees & Efs & End).
      unfold attach_frame. split_and!; done.
Qed.

Lemma get_new_edge_faces s e s' a b :
  get_new_edge s = (Ok e, s') -> edges s' !! e = Some (mkEdge a b) ->
  face_of s' a = None /\ face_of s' b = None /\
  forall h, live s h -> face_of s' h = face_of s h /\ pair_of s' h = pair_of s h.
Proof.
  intros H Hr.
  apply get_new_edge_Ok in H as (a' & b' & Da & Db & Hab & He & Eh & Ee & En & Ef).
  rewrite Ee, lookup_insert_eq in Hr. injection Hr as -> ->.
  unfold face_of, pair_of. rewrite Eh. split_and!.
  - by rewrite lookup_insert_ne, lookup_insert_eq.
  - by rewrite lookup_insert_eq.
  - intros h L. rewrite !lookup_insert_ne by congruence. done.
Qed.

(** What a call of [add_edge] that returns has done to a well-formed
    store. *)
Lemma add_edge_well_formed s n1 n2 a s' :
  well_formed s -> add_edge n1 n2 s = (Ok a, s') ->
  well_formed s' /\
  exists m1 m2 b, n1 = Some m1 /\ n2 = Some m2 /\ m1 <> m2 /\
    ~ live s a /\ ~ live s b /\ a <> b /\
    (forall h, live s' h <-> h = a \/ h = b \/ live s h) /\
    pair_of s' a = b /\ pair_of s' b = a /\
    origin_of s' a = Some m1 /\ origin_of s' b = Some m2 /\
    face_of s' a = None /\ face_of s' b = None /\
    (forall h, live s h ->
       origin_of s' h = origin_of s h /\ pair_of s' h = pair_of s h /\
       face_of s' h = face_of s h) /\
    faces s' = faces s /\
    (forall m, is_Some (nodes s' !! m) <-> is_Some (nodes s !! m)).
Proof.
  intros Hwf H. unfold add_edge in H.
  apply bind_Ok in H as ([] & s0 & Hne & H). apply boost_assert_Ok in Hne as [Hne ->].
  apply bool_decide_eq_true in Hne.
  apply bind_Ok in H as (e & s1 & He & H).
  destruct (get_new_edge_attaching s e s1 (wf_attaching s Hwf) He)
    as (Hat1 & a' & b & Hab & Da & Db & Hr & El1 & Oa & Ob & Pa & Pb & Eo1 & En1 & Ef1).
  destruct (get_new_edge_faces s e s1 a' b He Hr) as (Fa & Fb & Eold1).
  apply bind_Ok in H as (a0 & s0 & Ha & H). apply he1_Ok in Ha as (-> & r & Hr' & ->).
  rewrite Hr in Hr'. injection Hr' as <-. simpl in H.
  apply bind_Ok in H as (b0 & s0 & Hb & H). apply he2_Ok in Hb as (-> & r & Hr' & ->).
  rewrite Hr in Hr'. injection Hr' as <-. simpl in H.
  apply bind_Ok in H as ([] & s2 & H1 & H).
  apply attach_halfedge_to_node_attaching in H1
    as (m1 & -> & Ln1 & Hat2 & El2 & Eo2 & Ep2 & Ee2 & Ef2 & Ees2 & Efs2 & End2);
    [|done|done|unfold target_of; rewrite Pa, Ob; by intros [? ->]].
  apply bind_Ok in H as ([] & s3 & H2 & H).
  apply attach_halfedge_to_node_attaching in H2
    as (m2 & -> & Ln2 & Hat3 & El3 & Eo3 & Ep3 & Ee3 & Ef3 & Ees3 & Efs3 & End3);
    [|done| |].
  2: { rewrite Eo2. by rewrite decide_False by done. }
  2: { unfold target_of. rewrite Ep2, Pb, Eo2. rewrite decide_True by done. congruence. }
  apply ret_Ok in H as [Ea Es]. subst a s'.
  assert (forall h, live s h -> h <> a' /\ h <> b) as Hold by (intros h L; split; congruence).
  split; [split; [done|]|].
  - intros h Lh. apply El3, El2, El1 in Lh. rewrite Eo3, Eo2.
    repeat case_decide; [eauto..|].
    destruct Lh as [->|[->|L]]; [done..|]. rewrite Eo1 by done. by apply wf_origin.
  - exists m1, m2, b. split_and!; try done.
    + congruence.
    + intros h. by rewrite El3, El2, El1.
    + by rewrite Ep3, Ep2.
    + by rewrite Ep3, Ep2.
    + rewrite Eo3, Eo2. rewrite decide_False by done. by rewrite decide_True.
    + rewrite Eo3. by rewrite decide_True.
    + by rewrite Ef3, Ef2.
    + by rewrite Ef3, Ef2.
    + intros h L. destruct (Hold h L). destruct (Eold1 h L) as [E1 E2].
      rewrite Eo3, Eo2, Ep3, Ep2, Ef3, Ef2. rewrite !decide_False by done.
      rewrite Eo1 by done. done.
    + congruence.
    + intros m. rewrite End3, End2, En1. done.
Qed.

(** ** Every public mutator keeps the store well formed *)

Lemma keeps_bind {A B} (m : M A) (k : A -> M B) :
  keeps m -> (forall a, keeps (k a)) -> keeps (bind m k).
Proof.
  intros Hm Hk s b s' Hwf H. apply bind_Ok in H as (a & s1 & H1 & H2).
  eapply Hk; [|exact H2]. eapply Hm; [exact Hwf|exact H1].
Qed.

Lemma keeps_ret {A} (a : A) : keeps (ret a).
Proof. intros s b s' Hwf H. apply ret_Ok in H as [_ <-]. done. Qed.

Lemma keeps_throw {A} e : keeps (throw e : M A).
Proof. intros s b s' Hwf H. by apply throw_Ok in H. Qed.

Lemma keeps_deref_he {A} h (f : Halfedge -> A) : keeps (deref_he h f).
Proof. intros s b s' Hwf H. apply deref_he_Ok in H as (-> & _). done. Qed.

Lemma keeps_deref_node {A} n (f : Node -> A) : keeps (deref_node n f).
Proof. intros s b s' Hwf H. apply deref_node_Ok in H as (-> & _). done. Qed.

Lemma keeps_deref_edge {A} e (f : Edge -> A) : keeps (deref_edge e f).
Proof. intros s b s' Hwf H. apply deref_edge_Ok in H as (-> & _). done. Qed.

Lemma keeps_face_halfedge f : keeps (face_halfedge f).
Proof. intros s b s' Hwf H. apply face_halfedge_Ok in H as (-> & _). done. Qed.

Lemma keeps_add_node p : keeps (add_node p).
Proof. intros s b s' Hwf H. by eapply add_node_well_formed. Qed.

Lemma keeps_add_edge n1 n2 : keeps (add_edge n1 n2).
Proof. intros s b s' Hwf H. by destruct (add_edge_well_formed s n1 n2 b s' Hwf H). Qed.

Lemma keeps_add_face h1 h2 h3 : keeps (add_face h1 h2 h3).
Proof. intros s b s' Hwf H. by eapply add_face_well_formed. Qed.

Lemma keeps_remove_face f : keeps (remove_face f).
Proof. intros s b s' Hwf H. by eapply remove_face_well_formed. Qed.

Lemma keeps_remove_edge e : keeps (remove_edge e).
Proof. intros s b s' Hwf H. by eapply remove_edge_well_formed. Qed.

Create HintDb keeps.
#[local] Hint Resolve keeps_ret keeps_throw keeps_deref_he keeps_deref_node
  keeps_deref_edge keeps_face_halfedge keeps_add_node keeps_add_edge keeps_add_face
  keeps_remove_face keeps_remove_edge : keeps.

Ltac keeps_steps :=
  repeat first
    [ apply keeps_bind; [solve [unfold he_origin, he_pair, he_next, he_prev, he_face,
                                 he_edge, is_boundary, he1, he2, node_halfedge,
                                 is_isolated; auto with keeps]|intros ?]
    | solve [auto with keeps] ].

(** The loop of [remove_node] stops at a node that has become isolated. *)
Lemma remove_node_loop_well_formed fuel n next s u s' :
  well_formed s -> remove_node_loop fuel n next s = (Ok u, s') ->
  well_formed s' /\ exists n', n = Some n' /\ halfedge_of s' n' = None.
Proof.
  revert next s. induction fuel as [|fuel IH]; intros next s Hwf H; simpl in H.
  { by apply throw_Ok in H. }
  apply bind_Ok in H as (iso & s0 & Hiso & H).
  apply is_isolated_Ok in Hiso as (-> & n' & -> & Ln & ->).
  destruct (decide (halfedge_of s n' = None)) as [E|E].
  - rewrite bool_decide_eq_true_2 in H by done. apply ret_Ok in H as [_ <-]. eauto.
  - rewrite bool_decide_eq_false_2 in H by done.
    destruct next as [cur|]; [|by apply throw_Ok in H].
    apply bind_Ok in H as (p & s0 & Hp & H). apply he_pair_Ok in Hp as (-> & _ & ->).
    apply bind_Ok in H as (nx & s0 & Hn & H). apply he_next_Ok in Hn as (-> & _ & ->).
    apply bind_Ok in H as (e & s0 & He & H). apply he_edge_Ok in He as (-> & _ & ->).
    apply bind_Ok in H as ([] & s1 & Hr & H).
    eapply IH; [|exact H]. by eapply remove_edge_well_formed.
Qed.

(** Deleting an isolated node changes no link. *)
Lemma delete_node_same_links n s u s' :
  delete_node (Some n) s = (Ok u, s') -> halfedge_of s n = None -> same_links s s'.
Proof.
  unfold delete_node. intros H Hiso. apply bind_Ok in H as ([] & s0 & H1 & H).
  apply deref_node_Ok in H1 as (-> & _). apply modify_Ok in H as ->.
  split; try done. intros m. unfold halfedge_of in *. simpl.
  destruct (decide (m = n)) as [->|Hm].
  - rewrite lookup_delete_eq. by rewrite Hiso.
  - by rewrite lookup_delete_ne.
Qed.

Lemma keeps_remove_node n : keeps (remove_node n).
Proof.
  intros s u s' Hwf H. unfold remove_node in H.
  apply bind_Ok in H as (next & s0 & Hn & H). apply node_halfedge_Ok in Hn as (-> & _).
  apply bind_Ok in H as ([] & s1 & Hloop & H).
  apply remove_node_loop_well_formed in Hloop as (Hwf1 & n' & -> & Hiso); [|done].
  apply delete_node_same_links in H; [|done]. by eapply well_formed_same_links.
Qed.

Lemma keeps_record_side there h : keeps (record_side there h).
Proof. unfold record_side. destruct there; keeps_steps. Qed.

Lemma keeps_split_edge e p : keeps (split_edge e p).
Proof.
  unfold split_edge.
  do 6 (apply keeps_bind; [solve [unfold he_origin, is_boundary, he1, he2;
                                    auto with keeps]|intros ?]).
  apply keeps_bind; [apply keeps_record_side|intros [[h5 h6] n3]].
  apply keeps_bind; [apply keeps_record_side|intros [[h7 h8] n4]].
  do 4 (apply keeps_bind; [solve [auto with keeps]|intros ?]).
  apply keeps_bind; [destruct (negb _); keeps_steps|intros ?].
  apply keeps_bind; [destruct (negb _); keeps_steps|intros ?].
  apply keeps_ret.
Qed.

Lemma keeps_split_face f p : keeps (split_face f p).
Proof. unfold split_face. keeps_steps. Qed.

Lemma keeps_forget {A} (m : M A) : keeps m -> keeps (forget m).
Proof. intros Hm. apply keeps_bind; [done|intros; apply keeps_ret]. Qed.

Lemma keeps_perform c : keeps (perform c).
Proof.
  destruct c; simpl; try apply keeps_forget;
    auto using keeps_remove_node, keeps_split_edge, keeps_split_face with keeps.
Qed.

Lemma well_formed_empty : well_formed empty_HDS.
Proof.
  assert (forall h, ~ live empty_HDS h) as Hd.
  { intros h [r Hr]. simpl in Hr. by rewrite lookup_empty in Hr. }
  split; [split; [split|..]|]; try (intros h; intros; by destruct (Hd h)).
Qed.

Lemma reachable_well_formed s : reachable s -> well_formed s.
Proof.
  induction 1 as [|s c s' _ IH H]; [apply well_formed_empty|].
  by apply (keeps_perform c s tt s').
Qed.


(** ** The stores reached by histories of calls *)

Lemma all_return_reachable cs s :
  reachable s -> all_return cs s = true -> reachable (after cs s).
Proof.
  revert s. induction cs as [|c cs IH]; intros s Hs H; simpl in *; [done|].
  destruct (perform c s) as [[[]|e] s1] eqn:E; [|done].
  simpl. apply IH; [|done]. by apply (reachable_call s c s1).
Qed.



(** ** [C4]: what [attach_halfedge_to_node] does *)

Lemma attach_isolated_run s h n :
  live s h -> live s (pair_of s h) -> is_Some (nodes s !! n) ->
  halfedge_of s n = None ->
  attach_halfedge_to_node h (Some n) s = (Ok tt, attached_isolated s h n).
Proof.
  intros L Lp Ln Hiso. unfold attach_halfedge_to_node, attached_isolated.
  rewrite (bind_run _ _ _ _ _ (set_origin_run h (Some n) s L)).
  rewrite (bind_run _ _ _ _ _ (is_isolated_run n (upd_origin h (Some n) s) Ln)).
  rewrite bool_decide_eq_true_2 by done.
  erewrite bind_run;
    [|apply (set_halfedge_Ok _ _ _ tt); exists n; split_and!; [done|exact Ln|done]].
  erewrite bind_run by (apply he_pair_run; solve_live).
  erewrite bind_run by (apply set_prev_run; solve_live).
  erewrite bind_run by (apply he_pair_run; solve_live).
  autorewrite with hds. apply set_next_run. solve_live.
Qed.

Lemma closed_links_upd_origin h v s : closed_links s -> closed_links (upd_origin h v s).
Proof.
  intros Hc x L. apply live_upd_origin in L. autorewrite with hds.
  destruct (Hc x L). split; by solve_live.
Qed.

(** At a node that is not isolated the walk runs in the store in which
    [h] has its origin already. *)
Lemma attach_after_run s h n h0 g :
  live s h -> live s (pair_of s h) -> halfedge_of s n = Some h0 -> live s h0 ->
  live s g -> live s (next_of s g) ->
  (let s0 := upd_origin h (Some n) s in
   free_walk (walk_fuel s0) (pair_of s h0) (pair_of s h0) s0 = (Ok g, s0)) ->
  attach_halfedge_to_node h (Some n) s = (Ok tt, attached_after s h n g).
Proof.
  intros L Lp Hn L0 Lg Lf Hwalk. pose proof (halfedge_of_Some _ _ _ Hn) as Ln.
  unfold attach_halfedge_to_node, attached_after.
  rewrite (bind_run _ _ _ _ _ (set_origin_run h (Some n) s L)).
  rewrite (bind_run _ _ _ _ _ (is_isolated_run n (upd_origin h (Some n) s) Ln)).
  rewrite bool_decide_eq_false_2 by (autorewrite with hds; rewrite Hn; done).
  erewrite bind_run.
  2:{ rewrite (find_free_incident_halfedge_run _ n h0);
        [|by autorewrite with hds|solve_live].
      autorewrite with hds. exact Hwalk. }
  erewrite bind_run by (apply he_next_run; solve_live).
  erewrite bind_run by (apply set_next_run; solve_live).
  erewrite bind_run by (apply set_prev_run; solve_live).
  erewrite bind_run by (apply he_pair_run; solve_live).
  erewrite bind_run by (apply set_next_run; autorewrite with hds; solve_live).
  erewrite bind_run by (apply he_pair_run; solve_live).
  autorewrite with hds. apply set_prev_run. solve_live.
Qed.

Lemma attach_full_run s h n h0 e :
  live s h -> halfedge_of s n = Some h0 -> live s h0 ->
  (let s0 := upd_origin h (Some n) s in
   free_walk (walk_fuel s0) (pair_of s h0) (pair_of s h0) s0 = (Err e, s0)) ->
  attach_halfedge_to_node h (Some n) s = (Err e, upd_origin h (Some n) s).
Proof.
  intros L Hn L0 Hwalk. pose proof (halfedge_of_Some _ _ _ Hn) as Ln.
  unfold attach_halfedge_to_node.
  rewrite (bind_run _ _ _ _ _ (set_origin_run h (Some n) s L)).
  rewrite (bind_run _ _ _ _ _ (is_isolated_run n (upd_origin h (Some n) s) Ln)).
  rewrite bool_decide_eq_false_2 by (autorewrite with hds; rewrite Hn; done).
  apply bind_fail.
  rewrite (find_free_incident_halfedge_run _ n h0);
    [|by autorewrite with hds|solve_live].
  autorewrite with hds. exact Hwalk.
Qed.

Lemma closed_links_linked s : linked s -> closed_links s.
Proof. intros Hl h L. destruct (lk_closed s Hl h L) as (? & ? & ?). done. Qed.

(** The walk in the store in which [h] has its origin is the walk in the
    store of the call. *)
Lemma free_walk_outcome_attaching s h n start :
  linked s -> live s start ->
  let s0 := upd_origin h (Some n) s in
  (forall k,
     face_of s (Nat.iter k (around s) start) = None ->
     (forall j, j < k -> face_of s (Nat.iter j (around s) start) <> None) ->
     free_walk (walk_fuel s0) start start s0 = (Ok (Nat.iter k (around s) start), s0)) /\
  (forall k,
     0 < k -> Nat.iter k (around s) start = start ->
     (forall j, j < k -> face_of s (Nat.iter j (around s) start) <> None) ->
     free_walk (walk_fuel s0) start start s0 = (Err bad_topology_error, s0)).
Proof.
  intros Hl Ls s0.
  destruct (free_walk_outcome s0 start) as [Hfound Hturn].
  { by apply closed_links_upd_origin, closed_links_linked. }
  { unfold s0. solve_live. }
  split.
  - intros k Hf Hfirst. rewrite <- (iter_around_upd_origin h (Some n) s k start).
    apply Hfound.
    + unfold s0. rewrite iter_around_upd_origin. by autorewrite with hds.
    + intros j Hj. unfold s0. rewrite iter_around_upd_origin. autorewrite with hds. auto.
  - intros k Hk Hret Hnone. apply (Hturn k Hk).
    + unfold s0. by rewrite iter_around_upd_origin.
    + intros j Hj. unfold s0. rewrite iter_around_upd_origin. autorewrite with hds. auto.
Qed.

(** [C4] [attach_halfedge_to_node(h, n)] on a halfedge [h] whose origin is
    not [n] already (as [add_edge] calls it: the origin of a halfedge of a
    new edge is null), in a store whose links are consistent: at an
    isolated node [n] it sets [h.origin = n], [n.halfedge = h],
    [h.prev = h.pair] and [h.pair.next = h]; at a node with a free incident
    halfedge it finds one, [g], and sets [h.origin = n], [g.next = h],
    [h.prev = g], [h.pair.next] to the old [g.next] and the [prev] of the
    old [g.next] to [h.pair]; it throws [bad_topology_error] exactly when
    [n] is not isolated and has no free incident halfedge. *)
Theorem attach_halfedge_to_node_splices s h n :
  attaching s -> live s h -> origin_of s h <> Some n -> is_Some (nodes s !! n) ->
  (halfedge_of s n = None ->
     let s' := attached_isolated s h n in
     attach_halfedge_to_node h (Some n) s = (Ok tt, s') /\
     origin_of s' h = Some n /\ halfedge_of s' n = Some h /\
     prev_of s' h = pair_of s h /\ next_of s' (pair_of s h) = h) /\
  (halfedge_of s n <> None -> (exists g, free_incident s n g) ->
     exists g, free_incident s n g /\
       let s' := attached_after s h n g in
       attach_halfedge_to_node h (Some n) s = (Ok tt, s') /\
       origin_of s' h = Some n /\
       next_of s' g = h /\ prev_of s' h = g /\
       next_of s' (pair_of s h) = next_of s g /\
       prev_of s' (next_of s g) = pair_of s h) /\
  ((exists s', attach_halfedge_to_node h (Some n) s = (Err bad_topology_error, s')) <->
   halfedge_of s n <> None /\ ~ exists g, free_incident s n g).
Proof.
  intros Hat L Oh Ln. pose proof (at_linked s Hat) as Hl.
  pose proof (live_pair s Hl h L) as Lp.
  assert (halfedge_of s n = None ->
     let s' := attached_isolated s h n in
     attach_halfedge_to_node h (Some n) s = (Ok tt, s') /\
     origin_of s' h = Some n /\ halfedge_of s' n = Some h /\
     prev_of s' h = pair_of s h /\ next_of s' (pair_of s h) = h) as Part1.
  { intros Hiso s'. split; [by apply attach_isolated_run|].
    unfold s', attached_isolated. autorewrite with hds.
    rewrite !decide_True by done. done. }
  assert (forall h0, halfedge_of s n = Some h0 ->
            live s h0 /\ live s (pair_of s h0) /\ target_of s (pair_of s h0) = Some n) as Hstart.
  { intros h0 Hn. destruct (at_node s Hat n h0 Hn) as [L0 O0].
    split_and!; [done|by apply live_pair|]. unfold target_of. by rewrite (lk_pair s Hl). }
  assert (halfedge_of s n <> None -> (exists g, free_incident s n g) ->
     exists g, free_incident s n g /\
       let s' := attached_after s h n g in
       attach_halfedge_to_node h (Some n) s = (Ok tt, s') /\
       origin_of s' h = Some n /\
       next_of s' g = h /\ prev_of s' h = g /\
       next_of s' (pair_of s h) = next_of s g /\
       prev_of s' (next_of s g) = pair_of s h) as Part2.
  { intros Hn (g0 & Lg0 & Fg0 & Tg0).
    destruct (halfedge_of s n) as [h0|] eqn:Eh0; [|done].
    destruct (Hstart h0 eq_refl) as (L0 & Ls & Ts).
    destruct (fan_cycle s (pair_of s h0) n Hat Ls Ts) as (N & HN & Hper & _ & _ & Hall).
    destruct (Hall g0 Lg0 Tg0) as (t & Ht & Et).
    destruct (first_index (fun m => face_of s (Nat.iter m (around s) (pair_of s h0)) = None) t)
      as [(k & Hk & Hfree & Hfirst)|Hno]; [|destruct (Hno t); [lia|by rewrite Et]].
    set (g := Nat.iter k (around s) (pair_of s h0)).
    assert (live s g) as Lg by by apply live_iter.
    assert (target_of s g = Some n) as Tg by (unfold g; by rewrite (target_iter s Hl)).
    pose proof (live_next s Hl g Lg) as Lf.
    exists g. split; [done|]. intros s'. split.
    - apply (attach_after_run s h n h0 g); try done.
      destruct (free_walk_outcome_attaching s h n (pair_of s h0) Hl Ls) as [Hfound _].
      by apply Hfound.
    - destruct (attached_after_getters s h n g L Lp Lg Lf)
        as (_ & Eo & _ & En & Ev & _).
      fold s' in Eo, En, Ev. rewrite Eo, !En, !Ev.
      assert (g <> pair_of s h) as N1.
      { intros E. rewrite E in Tg. unfold target_of in Tg.
        rewrite (lk_pair s Hl) in Tg by done. congruence. }
      assert (h <> next_of s g) as N2.
      { intros E. apply Oh. rewrite E. rewrite (lk_origin s Hl) by done. exact Tg. }
      rewrite (decide_True (P:=h = h)) by done.
      rewrite (decide_False (P:=g = pair_of s h)) by done.
      rewrite (decide_False (P:=h = next_of s g)) by done.
      by rewrite !decide_True. }
  split_and!; [exact Part1|exact Part2|]. split.
  - intros [s' Herr].
    destruct (halfedge_of s n) as [h0|] eqn:Eh0.
    + split; [done|]. intros Hex.
      destruct (Part2 ltac:(done) Hex) as (g & _ & Hrun & _). congruence.
    + destruct (Part1 eq_refl) as [Hrun _]. congruence.
  - intros [Hn Hnone]. destruct (halfedge_of s n) as [h0|] eqn:Eh0; [|done].
    destruct (Hstart h0 eq_refl) as (L0 & Ls & Ts).
    destruct (fan_cycle s (pair_of s h0) n Hat Ls Ts) as (N & HN & Hper & _ & _ & Hall).
    exists (upd_origin h (Some n) s). apply (attach_full_run s h n h0); try done.
    destruct (free_walk_outcome_attaching s h n (pair_of s h0) Hl Ls) as [_ Hturn].
    apply (Hturn N HN Hper). intros j Hj Hf. apply Hnone.
    exists (Nat.iter j (around s) (pair_of s h0)). split_and!; [by apply live_iter|done|].
    by rewrite (target_iter s Hl).
Qed.

(** ** [C6]: what [make_adjacent] does *)

Lemma make_adjacent_run s i o g :
  live s i -> live s o -> next_of s i <> o ->
  live s (next_of s i) -> live s (prev_of s o) -> live s g -> live s (next_of s g) ->
  find_free_incident_halfedge2 (pair_of s o) i s = (Ok g, s) ->
  make_adjacent i o s = (Ok true, spliced s i o g).
Proof.
  intros Li Lo Hnx Lb Ld Lg Lh Hg. unfold make_adjacent, spliced.
  rewrite (bind_run _ _ _ _ _ (he_next_run i s Li)).
  rewrite decide_False by done.
  rewrite (bind_run _ _ _ _ _ (he_next_run i s Li)).
  rewrite (bind_run _ _ _ _ _ (he_prev_run o s Lo)).
  rewrite (bind_run _ _ _ _ _ (he_origin_run o s Lo)).
  rewrite (bind_run _ _ _ _ _ (he_pair_run o s Lo)).
  rewrite (bind_run _ _ _ _ _ Hg).
  rewrite (bind_run _ _ _ _ _ (he_next_run g s Lg)).
  erewrite bind_run by (apply set_next_run; solve_live).
  erewrite bind_run by (apply set_prev_run; solve_live).
  erewrite bind_run by (apply set_next_run; solve_live).
  erewrite bind_run by (apply set_prev_run; solve_live).
  erewrite bind_run by (apply set_next_run; solve_live).
  erewrite bind_run by (apply set_prev_run; solve_live).
  reflexivity.
Qed.

(** [C6] In a well-formed store, for halfedges [in] and [out] with
    [in.pair.origin = out.origin] and [out <> in.pair]: when [in.next = out]
    already, [make_adjacent(in, out)] returns [true] and the store is as
    before; otherwise, with [b] the old [in.next], [d] the old [out.prev],
    [g] the free halfedge found by the walk from [out.pair] bounded by [in]
    and [h] the old [g.next], it performs the six assignments
    [in.next = out], [out.prev = in], [g.next = b], [b.prev = g],
    [d.next = h], [h.prev = d] and returns [true], and afterwards
    [in.next = out] and [out.prev = in]. *)
Theorem make_adjacent_splices s i o :
  well_formed s -> live s i -> live s o ->
  target_of s i = origin_of s o -> pair_of s o <> i ->
  (next_of s i = o -> make_adjacent i o s = (Ok true, s)) /\
  (next_of s i <> o ->
   forall g, find_free_incident_halfedge2 (pair_of s o) i s = (Ok g, s) ->
     let b := next_of s i in let d := prev_of s o in let h := next_of s g in
     let s' := upd_prev h d (upd_next d h (upd_prev b g (upd_next g b
                 (upd_prev o i (upd_next i o s))))) in
     make_adjacent i o s = (Ok true, s') /\
     next_of s' i = o /\ prev_of s' o = i).
Proof.
  intros Hwf Li Lo Ti Hpo. pose proof (at_linked s (wf_attaching s Hwf)) as Hl. split.
  - intros Hnx. unfold make_adjacent.
    rewrite (bind_run _ _ _ _ _ (he_next_run i s Li)). by rewrite decide_True.
  - intros Hnx g Hg b d h s'.
    pose proof (live_next s Hl i Li) as Lb. pose proof (live_prev s Hl o Lo) as Ld.
    pose proof (find_free_incident_halfedge2_Ok _ _ _ _ _ Hg)
      as (_ & _ & _ & _ & k & Ek & Hf & Lg & Hwalk).
    pose proof (live_next s Hl g Lg) as Lh.
    destruct (spliced_well_formed s i o g k Hwf Li Lo Ti Hpo Hnx Ek Hf Hwalk)
      as (_ & Hgi & Hgo).
    split; [by apply make_adjacent_run|].
    assert (i <> d) as Hid.
    { intros E. apply Hnx. rewrite E. by apply lk_prev_next. }
    unfold s', b, d, h. autorewrite with hds.
    rewrite (decide_False (P:=i = prev_of s o)) by done.
    rewrite (decide_False (P:=i = g)) by done.
    rewrite (decide_True (P:=i = i)) by done.
    rewrite (decide_False (P:=o = next_of s g)) by done.
    rewrite (decide_False (P:=o = next_of s i)) by done.
    by rewrite (decide_True (P:=o = o)) by done.
Qed.

(** ** [C9]: the faces of [split_edge] *)

Lemma remove_face_shape f s u s' :
  remove_face (Some f) s = (Ok u, s') ->
  is_Some (faces s !! f) /\ faces s' = delete f (faces s) /\ nodes s' = nodes s /\
  forall x, face_of s' x = if decide (x ∈ face_cycle s f) then None else face_of s x.
Proof.
  unfold remove_face. intros H.
  apply bind_Ok in H as (hf & s0 & Hf & H).
  apply face_halfedge_Ok in Hf as (-> & f' & r & [= <-] & Hr & Hhf).
  apply bind_Ok in H as ([] & s1 & H1 & H). apply set_face_Ok in H1 as [L1 ->].
  apply bind_Ok in H as (hf' & s0 & Hf & H).
  apply face_halfedge_Ok in Hf as (-> & f' & r' & [= <-] & Hr' & Hhf').
  change (faces (upd_face hf None s)) with (faces s) in Hr'.
  rewrite Hr in Hr'. injection Hr' as <-. rewrite Hhf in Hhf'. injection Hhf' as <-.
  apply bind_Ok in H as (hn & s0 & Hn & H). apply he_next_Ok in Hn as (-> & _ & ->).
  apply bind_Ok in H as ([] & s2 & H2 & H). apply set_face_Ok in H2 as [L2 ->].
  apply bind_Ok in H as (hf' & s0 & Hf & H).
  apply face_halfedge_Ok in Hf as (-> & f' & r' & [= <-] & Hr' & Hhf').
  change (faces (upd_face _ None (upd_face hf None s))) with (faces s) in Hr'.
  rewrite Hr in Hr'. injection Hr' as <-. rewrite Hhf in Hhf'. injection Hhf' as <-.
  apply bind_Ok in H as (hp & s0 & Hp & H). apply he_prev_Ok in Hp as (-> & _ & ->).
  apply bind_Ok in H as ([] & s3 & H3 & H). apply set_face_Ok in H3 as [L3 ->].
  unfold delete_face in H. apply bind_Ok in H as ([] & s0 & Hd & H).
  apply deref_face_Ok in Hd as (-> & _). apply modify_Ok in H as ->.
  split_and!; [by eauto|done|done|]. intros x.
  unfold face_cycle. rewrite Hr, Hhf.
  change (face_of (with_faces ?t _) x) with (face_of t x).
  apply live_upd_face in L2. do 2 apply live_upd_face in L3.
  autorewrite with hds in L2, L3 |- *.
  assert (x ∈ [hf; next_of s hf; prev_of s hf] <->
          x = hf \/ x = next_of s hf \/ x = prev_of s hf) as E.
  { rewrite !elem_of_cons, elem_of_nil. tauto. }
  repeat case_decide; try done; tauto.
Qed.

Lemma face_removed_count s h s1 :
  face_removed s h s1 ->
  size (faces s1) + (if face_of s h is Some _ then 1 else 0) = size (faces s) /\
  nodes s1 = nodes s /\
  forall x, face_of s1 x =
    match face_of s h with
    | Some f => if decide (x ∈ face_cycle s f) then None else face_of s x
    | None => face_of s x
    end.
Proof.
  intros [[E ->]|(f & E & H)]; rewrite E; [split_and!; [lia|done..]|].
  apply remove_face_shape in H as (Hf & Hd & Hn & Hx). split_and!; [|done..].
  rewrite Hd. rewrite map_size_delete_Some by done.
  assert (size (faces s) <> 0); [|lia].
  destruct Hf as [r Hr]. intros E0. apply map_size_empty_inv in E0.
  rewrite E0 in Hr. by rewrite lookup_empty in Hr.
Qed.

Lemma remove_edge_count e s u s' :
  two_sided s e -> remove_edge e s = (Ok u, s') ->
  size (faces s') + sides_with_face s e = size (faces s) /\
  forall m, is_Some (nodes s' !! m) <-> is_Some (nodes s !! m).
Proof.
  intros Hside H. apply remove_edge_Ok in H as (r & s1 & s2 & Hr & F1 & F2 & ->).
  apply face_removed_count in F1 as (C1 & N1 & X1).
  apply face_removed_count in F2 as (C2 & N2 & X2).
  unfold sides_with_face. rewrite Hr.
  change (faces (without_edge ?t _ _ _)) with (faces t).
  change (nodes (without_edge ?t _ _ _)) with (nodes t).
  rewrite !faces_detached. split.
  - assert (face_of s1 (e_he2 r) = None <-> face_of s (e_he2 r) = None) as E.
    { rewrite X1. destruct (face_of s (e_he1 r)) as [f|] eqn:Ef; [|done].
      rewrite decide_False; [done|]. by apply (Hside r f). }
    destruct (face_of s1 (e_he2 r)), (face_of s (e_he2 r)); try lia.
    + by destruct E as [_ E]; specialize (E eq_refl).
    + by destruct E as [E _]; specialize (E eq_refl).
  - intros m. rewrite !nodes_detached. by rewrite N2, N1.
Qed.

Lemma add_face_count s h1 h2 h3 f s' :
  well_formed s -> add_face h1 h2 h3 s = (Ok f, s') ->
  well_formed s' /\ size (faces s') = S (size (faces s)) /\ nodes s' = nodes s.
Proof.
  intros Hwf H. split; [by eapply add_face_well_formed|].
  apply add_face_Ok in H as (L1 & L2 & L3 & _ & Hchain & s1 & f' & Hadj & E & _ & Hf & Hfs & Hn).
  destruct (all_adjacent_well_formed _ _ _ _ _ _ Hwf L1 L2 L3 Hchain Hadj) as [_ R].
  rewrite Hfs, Hn, (rl_nodes _ _ R). split; [|done].
  rewrite map_size_insert_None by done. by rewrite (rl_faces _ _ R).
Qed.

(** One side of [split_edge]: an edge to the third node and two faces. *)
Lemma split_side_count (there : bool) n_new n3 ha h5 hb h6 s u s' :
  well_formed s ->
  (if there then
     let* h3 := add_edge n_new n3 in
     let* h3p := he_pair h3 in
     let* _ := add_face ha h5 h3p in
     let* h1p := he_pair hb in
     let* _ := add_face h3 h6 h1p in
     ret tt
   else ret tt) s = (Ok u, s') ->
  well_formed s' /\
  size (faces s') = size (faces s) + (if there then 2 else 0) /\
  forall m, is_Some (nodes s' !! m) <-> is_Some (nodes s !! m).
Proof.
  intros Hwf H. destruct there.
  - apply bind_Ok in H as (h3 & s1 & H1 & H).
    apply add_edge_well_formed in H1 as (Hwf1 & m1 & m2 & b & _ & _ & _ & _ & _ & _ & _ &
      _ & _ & _ & _ & _ & _ & _ & Hf1 & Hn1); [|done].
    apply bind_Ok in H as (h3p & s0 & Hp & H). apply he_pair_Ok in Hp as (-> & _ & ->).
    apply bind_Ok in H as (f1 & s2 & H2 & H).
    apply add_face_count in H2 as (Hwf2 & Hf2 & Hn2); [|done].
    apply bind_Ok in H as (h1p & s0 & Hp & H). apply he_pair_Ok in Hp as (-> & _ & ->).
    apply bind_Ok in H as (f2 & s3 & H3 & H).
    apply add_face_count in H3 as (Hwf3 & Hf3 & Hn3); [|done].
    apply ret_Ok in H as [_ <-]. split_and!; [done| |].
    + rewrite Hf3, Hf2, Hf1. lia.
    + intros m. by rewrite Hn3, Hn2, Hn1.
  - apply ret_Ok in H as [_ <-]. split_and!; [done|lia|done].
Qed.


(** ** [C7] and [C8]: the walk of [locate] *)

Lemma negative_side_Ok out0 he_iter s w s' :
  negative_side out0 he_iter s = (Ok w, s') ->
  s' = s /\ live s he_iter /\ live s (pair_of s he_iter) /\
  (face_of s (pair_of s he_iter) = None /\
   w = Return (mkLocated None OUTSIDE_MESH (l_on_node out0) (Some (edge_of s he_iter)))
   \/
   face_of s (pair_of s he_iter) <> None /\
   w = Continue (pair_of s he_iter) (next_of s (pair_of s he_iter))).
Proof.
  unfold negative_side. intros H. minv.
  destruct (bool_decide (face_of s (pair_of s he_iter) = None)) eqn:Hb; minv.
  - apply bool_decide_eq_true in Hb. auto 10.
  - apply bool_decide_eq_false in Hb. auto 10.
Qed.

Lemma locate_step_Ok p out0 he_start he_iter s w s' :
  locate_step p out0 he_start he_iter s = (Ok w, s') -> s' = s.
Proof.
  unfold locate_step. intros H. minv.
  destruct (oriented_side _ _ _).
  - by apply negative_side_Ok in H as [-> _].
  - repeat (case_match; minv); try done. by apply negative_side_Ok in H as [-> _].
  - minv. case_decide; by minv.
Qed.





Lemma locate_step_OUTSIDE_MESH p out0 he_start he_iter s r s' :
  locate_step p out0 he_start he_iter s = (Ok (Return r), s') ->
  l_loc r = OUTSIDE_MESH ->
  live s (pair_of s he_iter) /\ face_of s (pair_of s he_iter) = None /\
  l_on_edge r = Some (edge_of s he_iter).
Proof.
  unfold locate_step. intros H Hloc. minv.
  assert (forall s0, negative_side out0 he_iter s = (Ok (Return r), s0) ->
    live s (pair_of s he_iter) /\ face_of s (pair_of s he_iter) = None /\
    l_on_edge r = Some (edge_of s he_iter)) as Hneg.
  { intros s0 Hn. apply negative_side_Ok in Hn as (_ & _ & ? & [[? [= ->]]|[_ [=]]]). done. }
  destruct (oriented_side _ _ _).
  - by eapply Hneg.
  - repeat (case_match; minv); try done. by eapply Hneg.
  - minv. case_decide; by minv.
Qed.

Lemma locate_loop_Ok fuel p out0 he_start he_iter s r s' :
  locate_loop fuel p out0 he_start he_iter s = (Ok r, s') ->
  s' = s /\ exists hs hi,
    walks s p out0 he_start he_iter hs hi /\
    locate_step p out0 hs hi s = (Ok (Return r), s).
Proof.
  revert he_start he_iter. induction fuel as [|fuel IH]; intros hs hi H; simpl in H.
  { by minv. }
  apply bind_Ok in H as (w & s1 & Hw & H).
  pose proof (locate_step_Ok _ _ _ _ _ _ _ Hw) as ->.
  destruct w as [r'|hs1 hi1].
  - apply ret_Ok in H as [-> ->]. split; [done|]. exists hs, hi. split; [constructor|done].
  - apply IH in H as (-> & hs2 & hi2 & Hwalk & Hstep). split; [done|].
    exists hs2, hi2. split; [|done]. by econstructor.
Qed.

(** [C8] When [locate] returns [OUTSIDE_MESH], it does so in a turn of its
    walk, started at the halfedge of the start face, in which the pair of
    the current halfedge is a boundary halfedge, and the edge it reports is
    the edge of the current halfedge. *)
Theorem locate_outside_mesh fuel p out0 start_face s r s' :
  locate fuel p out0 start_face s = (Ok r, s') ->
  l_loc r = OUTSIDE_MESH ->
  s' = s /\
  exists h0 hs hi,
    walks s p out0 h0 h0 hs hi /\
    locate_step p out0 hs hi s = (Ok (Return r), s) /\
    live s (pair_of s hi) /\ face_of s (pair_of s hi) = None /\
    l_on_edge r = Some (edge_of s hi).
Proof.
  unfold locate. intros H Hloc. apply bind_Ok in H as (h0 & s1 & H0 & H).
  assert (s1 = s) as ->.
  { destruct start_face; [by minv|]. apply bind_Ok in H0 as (f & s2 & Hf & H0).
    unfold faces_begin in Hf. destruct (map_to_list (faces s)) as [|[]]; [done|].
    injection Hf as <- <-. by minv. }
  apply locate_loop_Ok in H as (-> & hs & hi & Hwalk & Hstep).
  split; [done|]. exists h0, hs, hi. split_and!; [done..| | |];
    by eapply locate_step_OUTSIDE_MESH.
Qed.

(** * The faces, and what the calls do on the stores between them *)

(** ** Faces that are closed under [next] *)

Lemma co_prev s h :
  linked s -> coherent s -> live s h -> face_of s (prev_of s h) = face_of s h.
Proof.
  intros Hl Hc L. rewrite <- (co_next s Hc (prev_of s h)) by by apply live_prev.
  by rewrite (lk_prev_next s Hl).
Qed.

Lemma co_prev_next s h :
  linked s -> coherent s -> live s h -> face_of s h <> None ->
  prev_of s h = next_of s (next_of s h).
Proof.
  intros Hl Hc L Hf. rewrite <- (co_tri s Hc h L Hf) at 1.
  rewrite (lk_next_prev s Hl); [done|]. by apply live_next, live_next.
Qed.

(** The halfedges of a face are the three of its cycle. *)
Lemma co_cycle s h f :
  linked s -> coherent s -> live s h -> face_of s h = Some f ->
  forall x, x ∈ face_cycle s f <-> x = h \/ x = next_of s h \/ x = prev_of s h.
Proof.
  intros Hl Hc L Hf x.
  destruct (co_face s Hc h f L Hf) as (hf & Hr & Lf & Hff & Hor).
  unfold face_cycle. rewrite Hr. simpl. rewrite !elem_of_cons, elem_of_nil.
  assert (face_of s hf <> None) as Hne by congruence.
  pose proof (co_tri s Hc hf Lf Hne) as T.
  pose proof (co_prev_next s hf Hl Hc Lf Hne) as P.
  pose proof (live_next s Hl hf Lf) as Ln.
  pose proof (lk_next_prev s Hl hf Lf) as NP.
  pose proof (lk_next_prev s Hl _ Ln) as NP2.
  remember (next_of s hf) as b eqn:Eb. remember (prev_of s hf) as c eqn:Ec.
  rewrite <- P in NP2, T.
  destruct Hor as [->|[-> | ->]].
  - rewrite <- Eb, <- Ec. tauto.
  - rewrite <- P, NP. tauto.
  - rewrite T, NP2. tauto.
Qed.

Lemma co_cycle_face s h f x :
  linked s -> coherent s -> live s h -> face_of s h = Some f -> live s x ->
  (x ∈ face_cycle s f <-> face_of s x = Some f).
Proof.
  intros Hl Hc L Hf Lx. rewrite (co_cycle s h f Hl Hc L Hf). split.
  - intros [->|[-> | ->]]; [done| |].
    + by rewrite (co_next s Hc).
    + by rewrite (co_prev s h Hl Hc).
  - intros Hx. destruct (co_face s Hc h f L Hf) as (hf & Hr & Lf & Hff & Hor).
    destruct (co_face s Hc x f Lx Hx) as (hf' & Hr' & _ & _ & Hor').
    rewrite Hr in Hr'. injection Hr' as <-.
    apply (co_cycle s h f Hl Hc L Hf). unfold face_cycle. rewrite Hr. simpl.
    rewrite !elem_of_cons, elem_of_nil. tauto.
Qed.

Lemma coherent_ext s s' :
  (forall h, live s' h <-> live s h) ->
  (forall h, next_of s' h = next_of s h) ->
  (forall h, prev_of s' h = prev_of s h) ->
  (forall h, face_of s' h = face_of s h) ->
  faces s' = faces s ->
  coherent s -> coherent s'.
Proof.
  intros El En Ev Ef Efs [H1 H2 H3 H4]. split.
  - intros h L. apply El in L. rewrite En, !Ef. auto.
  - intros h L. apply El in L. rewrite Ef, !En. auto.
  - intros h f L. apply El in L. rewrite Ef, Efs. intros Hf.
    destruct (H3 h f L Hf) as (hf & ? & ? & ? & ?). exists hf.
    rewrite El, Ef, En, Ev. done.
  - intros f r. rewrite Efs. intros Hr. destruct (H4 f r Hr) as (hf & ? & ? & ?).
    exists hf. by rewrite El, Ef.
Qed.

(** ** The mutators keep the faces closed *)

Lemma spliced_getters s i o g :
  live s i -> live s o -> live s g ->
  live s (next_of s i) -> live s (prev_of s o) -> live s (next_of s g) ->
  let s' := spliced s i o g in
  (forall x, next_of s' x =
     if decide (x = prev_of s o) then next_of s g
     else if decide (x = g) then next_of s i
     else if decide (x = i) then o else next_of s x) /\
  (forall x, prev_of s' x =
     if decide (x = next_of s g) then prev_of s o
     else if decide (x = next_of s i) then g
     else if decide (x = o) then i else prev_of s x).
Proof.
  intros Li Lo Lg Lb Ld Lh s'. unfold s', spliced.
  split; intros x; by autorewrite with hds.
Qed.

Lemma coherent_spliced s i o g :
  linked s -> coherent s -> live s i -> live s o -> live s g ->
  face_of s i = None -> face_of s o = None -> face_of s g = None ->
  coherent (spliced s i o g).
Proof.
  intros Hl Hc Li Lo Lg Fi Fo Fg.
  pose proof (live_next s Hl i Li) as Lb. pose proof (live_prev s Hl o Lo) as Ld.
  pose proof (live_next s Hl g Lg) as Lh.
  destruct (spliced_getters s i o g Li Lo Lg Lb Ld Lh) as [En Ev].
  pose proof (relinked_spliced s i o g) as R.
  set (s' := spliced s i o g) in *.
  assert (face_of s (next_of s i) = None) as Fb by by rewrite (co_next s Hc).
  assert (face_of s (next_of s g) = None) as Fh by by rewrite (co_next s Hc).
  assert (face_of s (prev_of s o) = None) as Fd by by rewrite (co_prev s o Hl Hc).
  assert (forall x, face_of s x <> None -> next_of s' x = next_of s x) as En'.
  { intros x Hx. rewrite En. repeat case_decide; congruence. }
  assert (forall x, face_of s x <> None -> prev_of s' x = prev_of s x) as Ev'.
  { intros x Hx. rewrite Ev. repeat case_decide; congruence. }
  split.
  - intros x L. apply (rl_live _ _ R) in L. rewrite !(rl_face _ _ R), En.
    repeat case_decide; subst; try congruence. by apply co_next.
  - intros x L. apply (rl_live _ _ R) in L. rewrite (rl_face _ _ R). intros Hx.
    pose proof (co_next s Hc x L) as F1.
    pose proof (co_next s Hc _ (live_next s Hl x L)) as F2.
    rewrite (En' x) by done. rewrite (En' (next_of s x)) by congruence.
    rewrite En' by congruence. by apply co_tri.
  - intros x f L. apply (rl_live _ _ R) in L. rewrite (rl_face _ _ R), (rl_faces _ _ R).
    intros Hx. destruct (co_face s Hc x f L Hx) as (hf & Hr & Lf & Hff & Hor).
    exists hf. rewrite (rl_live _ _ R), (rl_face _ _ R).
    rewrite En', Ev' by congruence. done.
  - intros f r. rewrite (rl_faces _ _ R). intros Hr.
    destruct (co_record s Hc f r Hr) as (hf & ? & ? & ?). exists hf.
    by rewrite (rl_live _ _ R), (rl_face _ _ R).
Qed.

Lemma make_adjacent_coherent s i o r s' :
  linked s -> coherent s -> face_of s i = None -> face_of s o = None ->
  make_adjacent i o s = (Ok r, s') -> coherent s'.
Proof.
  intros Hl Hc Fi Fo H.
  apply make_adjacent_Ok in H as (Li & [[_ ->]|(Hnx & Lo & g & Hg & _ & _ & _ & ->)]); [done|].
  apply find_free_incident_halfedge2_Ok in Hg as (_ & _ & _ & _ & k & _ & Hf & Lg & _).
  by apply coherent_spliced.
Qed.

Lemma with_face_getters s f h1 h2 h3 :
  live s h1 -> live s h2 -> live s h3 ->
  let s' := with_face s f h1 h2 h3 in
  same_links s s' /\
  (forall x, face_of s' x =
     if decide (x = h3) then Some f else if decide (x = h2) then Some f
     else if decide (x = h1) then Some f else face_of s x) /\
  faces s' = <[f := mkFace (Some h1)]> (faces s) /\ nodes s' = nodes s.
Proof.
  intros L1 L2 L3 s'. unfold s', with_face. split_and!.
  - repeat (eapply same_links_trans; [|apply same_links_upd_face]).
    eapply same_links_trans; [|apply same_links_upd_f_halfedge]. apply same_links_with_faces.
  - intros x. rewrite !face_of_upd_face by solve_live. done.
  - simpl. apply map_eq. intros j. rewrite lookup_alter.
    case_decide; subst; [by rewrite !lookup_insert_eq|by rewrite !lookup_insert_ne].
  - done.
Qed.

Lemma add_face_run s h1 h2 h3 s3 :
  live s h1 -> live s h2 -> live s h3 ->
  live s (pair_of s h1) -> live s (pair_of s h2) -> live s (pair_of s h3) ->
  all_free s h1 h2 h3 -> closed_chain s h1 h2 h3 ->
  all_adjacent h1 h2 h3 s = (Ok true, s3) ->
  (forall x, live s3 x <-> live s x) ->
  let f := fresh (dom (faces s3) : gset nat) in
  add_face h1 h2 h3 s = (Ok (Some f), with_face s3 f h1 h2 h3).
Proof.
  intros L1 L2 L3 P1 P2 P3 Hfree Hchain Hadj El f.
  rewrite add_face_tests by done. rewrite !bool_decide_eq_true_2 by done.
  rewrite (bind_run _ _ _ _ _ Hadj). simpl.
  unfold get_new_face. unfold bind at 1. fold f.
  unfold face_set_halfedge.
  set (s4 := with_faces s3 (<[f:=mkFace None]> (faces s3))).
  assert (deref_face (Some f) (fun _ => tt) s4 = (Ok tt, s4)) as Hd.
  { unfold deref_face, s4. simpl. by rewrite lookup_insert_eq. }
  assert ((let* _ := deref_face (Some f) (fun _ => tt) in modify (upd_f_halfedge f h1)) s4
          = (Ok tt, upd_f_halfedge f h1 s4)) as Hm.
  { by rewrite (bind_run _ _ _ _ _ Hd). }
  rewrite (bind_run _ _ _ _ _ Hm).
  assert (forall x, live s x -> live (upd_f_halfedge f h1 s4) x) as El'.
  { intros x L. by apply El. }
  erewrite bind_run by (apply set_face_run; by apply El').
  erewrite bind_run by (apply set_face_run; apply live_upd_face_2; by apply El').
  erewrite bind_run by (apply set_face_run; do 2 apply live_upd_face_2; by apply El').
  reflexivity.
Qed.

(** What a call of [add_face] that returns has done, with the store. *)
Lemma add_face_shape h1 h2 h3 s fo s' :
  well_formed s -> add_face h1 h2 h3 s = (Ok fo, s') ->
  live s h1 /\ live s h2 /\ live s h3 /\
  all_free s h1 h2 h3 /\ closed_chain s h1 h2 h3 /\
  exists s3 f,
    all_adjacent h1 h2 h3 s = (Ok true, s3) /\ well_formed s3 /\ relinked s s3 /\
    faces s3 !! f = None /\ fo = Some f /\ s' = with_face s3 f h1 h2 h3.
Proof.
  intros Hwf H. pose proof (at_linked s (wf_attaching s Hwf)) as Hl.
  pose proof (add_face_Ok _ _ _ _ _ _ H)
    as (L1 & L2 & L3 & Hfree & Hchain & s1 & f' & Hadj & _ & _ & Hfresh & _).
  destruct (all_adjacent_well_formed _ _ _ _ _ _ Hwf L1 L2 L3 Hchain Hadj) as [Hwf1 R].
  rewrite (add_face_run s h1 h2 h3 s1) in H;
    [|done|done|done|by apply live_pair|by apply live_pair|by apply live_pair|done..
     |apply (rl_live _ _ R)].
  injection H as <- <-. split_and!; [done..|].
  eexists s1, _. split_and!; [done..| |done|done].
  apply not_elem_of_dom, is_fresh.
Qed.

(** [make_adjacent] changes [next] around the node of [in] only. *)
Lemma make_adjacent_next s i o r s' :
  well_formed s -> live s o -> target_of s i = origin_of s o -> pair_of s o <> i ->
  make_adjacent i o s = (Ok r, s') ->
  next_of s' i = o /\ prev_of s' o = i /\
  (forall x, target_of s x <> target_of s i -> next_of s' x = next_of s x).
Proof.
  intros Hwf Lo Ti Hpo H. pose proof (at_linked s (wf_attaching s Hwf)) as Hl.
  apply make_adjacent_Ok in H as (Li & [[Hnx ->]|(Hnx & _ & g & Hg & Lb & Ld & Lh & ->)]).
  { split_and!; [done| |done]. rewrite <- Hnx. by apply lk_next_prev. }
  pose proof (find_free_incident_halfedge2_Ok _ _ _ _ _ Hg)
    as (_ & _ & _ & _ & k & Ek & Hf & Lg & Hwalk).
  destruct (spliced_well_formed s i o g k Hwf Li Lo Ti Hpo Hnx Ek Hf Hwalk)
    as (_ & Hgi & Hgo).
  destruct (spliced_getters s i o g Li Lo Lg Lb Ld Lh) as [En Ev].
  assert (i <> prev_of s o) as Hid.
  { intros E. apply Hnx. rewrite E. by apply lk_prev_next. }
  assert (target_of s g = target_of s i) as Tg.
  { rewrite Ek, (target_iter s Hl) by (by apply live_pair).
    by rewrite (target_pair s Hl). }
  assert (target_of s (prev_of s o) = target_of s i) as Td.
  { by rewrite (target_prev s Hl). }
  split_and!.
  - rewrite En. rewrite !decide_False by done. by rewrite decide_True.
  - rewrite Ev. rewrite (decide_False (P:=o = next_of s g)) by done.
    rewrite (decide_False (P:=o = next_of s i)) by done. by rewrite decide_True.
  - intros x Hx. rewrite En. rewrite !decide_False; [done|congruence..].
Qed.

Lemma all_adjacent_Ok h1 h2 h3 s r s3 :
  all_adjacent h1 h2 h3 s = (Ok r, s3) ->
  r = true /\ exists s1 s2,
    make_adjacent h1 h2 s = (Ok true, s1) /\
    make_adjacent h2 h3 s1 = (Ok true, s2) /\
    make_adjacent h3 h1 s2 = (Ok true, s3).
Proof.
  intros H. pose proof (all_adjacent_true _ _ _ _ _ _ H) as ->. split; [done|].
  unfold all_adjacent in H.
  apply and_then_Ok in H as [(s1 & H1 & H)|[_ [=]]].
  apply and_then_Ok in H as [(s2 & H2 & H3)|[_ [=]]]. eauto.
Qed.

(** The nodes of a closed chain are three different nodes. *)
Lemma chain_nodes s h1 h2 h3 :
  well_formed s -> live s h1 -> live s h2 -> live s h3 -> closed_chain s h1 h2 h3 ->
  target_of s h1 <> target_of s h2 /\ target_of s h2 <> target_of s h3 /\
  target_of s h3 <> target_of s h1.
Proof.
  intros Hwf L1 L2 L3 (C1 & C2 & C3). pose proof (wf_attaching s Hwf) as Ha.
  destruct (wf_origin s Hwf h1 L1) as [n1 O1]. destruct (wf_origin s Hwf h2 L2) as [n2 O2].
  destruct (wf_origin s Hwf h3 L3) as [n3 O3].
  pose proof (at_no_loop s Ha h1 n1 L1 O1). pose proof (at_no_loop s Ha h2 n2 L2 O2).
  pose proof (at_no_loop s Ha h3 n3 L3 O3).
  split_and!; congruence.
Qed.

(** After the three calls of [make_adjacent] the three halfedges follow
    each other. *)
Lemma all_adjacent_cycle s h1 h2 h3 r s3 :
  well_formed s -> live s h1 -> live s h2 -> live s h3 -> closed_chain s h1 h2 h3 ->
  all_adjacent h1 h2 h3 s = (Ok r, s3) ->
  next_of s3 h1 = h2 /\ next_of s3 h2 = h3 /\ next_of s3 h3 = h1.
Proof.
  intros Hwf L1 L2 L3 Hchain H.
  destruct (chain_not_pairs s h1 h2 h3 Hwf L1 L2 L3 Hchain) as (P1 & P2 & P3).
  destruct (chain_nodes s h1 h2 h3 Hwf L1 L2 L3 Hchain) as (N1 & N2 & N3).
  destruct Hchain as (C1 & C2 & C3).
  apply all_adjacent_Ok in H as (_ & s1 & s2 & H1 & H2 & H3).
  destruct (make_adjacent_well_formed _ _ _ _ _ Hwf C1 P1 H1) as [Hwf1 E1].
  destruct (make_adjacent_next _ _ _ _ _ Hwf L2 C1 P1 H1) as (A1 & _ & F1).
  assert (target_of s1 h2 = origin_of s1 h3) as C2'
    by by rewrite (relinked_target _ _ _ E1), (rl_origin _ _ E1).
  assert (pair_of s1 h3 <> h2) as P2' by by rewrite (rl_pair _ _ E1).
  destruct (make_adjacent_well_formed _ _ _ _ _ Hwf1 C2' P2' H2) as [Hwf2 E2].
  destruct (make_adjacent_next _ _ _ _ _ Hwf1 (proj2 (rl_live _ _ E1 h3) L3) C2' P2' H2)
    as (A2 & _ & F2).
  pose proof (relinked_trans _ _ _ E1 E2) as E12.
  assert (target_of s2 h3 = origin_of s2 h1) as C3'
    by by rewrite (relinked_target _ _ _ E12), (rl_origin _ _ E12).
  assert (pair_of s2 h1 <> h3) as P3' by by rewrite (rl_pair _ _ E12).
  destruct (make_adjacent_next _ _ _ _ _ Hwf2 (proj2 (rl_live _ _ E12 h1) L1) C3' P3' H3)
    as (A3 & _ & F3).
  split_and!.
  - rewrite F3, F2; [done|..].
    + rewrite !(relinked_target _ _ _ E1). done.
    + rewrite !(relinked_target _ _ _ E12). congruence.
  - rewrite F3; [done|]. rewrite !(relinked_target _ _ _ E12). congruence.
  - done.
Qed.

Lemma all_adjacent_coherent s h1 h2 h3 r s3 :
  well_formed s -> coherent s -> live s h1 -> live s h2 -> live s h3 ->
  all_free s h1 h2 h3 -> closed_chain s h1 h2 h3 ->
  all_adjacent h1 h2 h3 s = (Ok r, s3) -> coherent s3.
Proof.
  intros Hwf Hc L1 L2 L3 (F1 & F2 & F3) Hchain H.
  destruct (chain_not_pairs s h1 h2 h3 Hwf L1 L2 L3 Hchain) as (P1 & P2 & P3).
  destruct Hchain as (C1 & C2 & C3).
  apply all_adjacent_Ok in H as (_ & s1 & s2 & H1 & H2 & H3).
  destruct (make_adjacent_well_formed _ _ _ _ _ Hwf C1 P1 H1) as [Hwf1 E1].
  pose proof (make_adjacent_coherent _ _ _ _ _ (at_linked s (wf_attaching s Hwf)) Hc F1 F2 H1)
    as Hc1.
  assert (target_of s1 h2 = origin_of s1 h3) as C2'
    by by rewrite (relinked_target _ _ _ E1), (rl_origin _ _ E1).
  assert (pair_of s1 h3 <> h2) as P2' by by rewrite (rl_pair _ _ E1).
  destruct (make_adjacent_well_formed _ _ _ _ _ Hwf1 C2' P2' H2) as [Hwf2 E2].
  assert (coherent s2) as Hc2.
  { apply (make_adjacent_coherent _ _ _ _ _ (at_linked s1 (wf_attaching s1 Hwf1)) Hc1) in H2;
      [done|by rewrite (rl_face _ _ E1)..]. }
  pose proof (relinked_trans _ _ _ E1 E2) as E12.
  apply (make_adjacent_coherent _ _ _ _ _ (at_linked s2 (wf_attaching s2 Hwf2)) Hc2) in H3;
    [done|by rewrite (rl_face _ _ E12)..].
Qed.

Lemma coherent_with_face s f h1 h2 h3 :
  linked s -> coherent s -> live s h1 -> live s h2 -> live s h3 ->
  all_free s h1 h2 h3 -> faces s !! f = None ->
  next_of s h1 = h2 -> next_of s h2 = h3 -> next_of s h3 = h1 ->
  coherent (with_face s f h1 h2 h3).
Proof.
  intros Hl Hc L1 L2 L3 (F1 & F2 & F3) Hfresh N1 N2 N3.
  destruct (with_face_getters s f h1 h2 h3 L1 L2 L3) as (E & Ef & Efs & _).
  set (s' := with_face s f h1 h2 h3) in *.
  pose proof (sl_live _ _ E) as El. pose proof (sl_next _ _ E) as En.
  pose proof (sl_prev _ _ E) as Ev.
  assert (forall x, live s x -> x <> h1 -> x <> h2 -> x <> h3 ->
            next_of s x <> h1 /\ next_of s x <> h2 /\ next_of s x <> h3) as Hout.
  { intros x L ? ? ?. split_and!; intros E'.
    - rewrite <- N3 in E'. by apply (next_inj s Hl) in E'.
    - rewrite <- N1 in E'. by apply (next_inj s Hl) in E'.
    - rewrite <- N2 in E'. by apply (next_inj s Hl) in E'. }
  assert (forall x, face_of s x <> None -> x <> h1 /\ x <> h2 /\ x <> h3) as Hfaced.
  { intros x Hx. split_and!; congruence. }
  assert (forall x, face_of s x <> None -> face_of s' x = face_of s x) as Ef'.
  { intros x Hx. destruct (Hfaced x Hx) as (? & ? & ?). rewrite Ef.
    by rewrite !decide_False by done. }
  assert (prev_of s h1 = h3) as V1 by (rewrite <- N3; by apply lk_next_prev).
  split.
  - intros x L. apply El in L. rewrite En, !Ef.
    destruct (decide (x = h1)) as [->|X1].
    { rewrite N1. rewrite (decide_True (P:=h2 = h2)) by done. by repeat case_decide. }
    destruct (decide (x = h2)) as [->|X2].
    { rewrite N2. rewrite (decide_True (P:=h3 = h3)) by done. by repeat case_decide. }
    destruct (decide (x = h3)) as [->|X3].
    { rewrite N3. rewrite (decide_True (P:=h1 = h1)) by done. by repeat case_decide. }
    destruct (Hout x L X1 X2 X3) as (? & ? & ?).
    rewrite !decide_False by done. by apply co_next.
  - intros x L. apply El in L. rewrite Ef, !En.
    destruct (decide (x = h3)) as [->|X3]; [intros _; by rewrite N3, N1, N2|].
    destruct (decide (x = h2)) as [->|X2]; [intros _; by rewrite N2, N3, N1|].
    destruct (decide (x = h1)) as [->|X1]; [intros _; by rewrite N1, N2, N3|].
    by apply co_tri.
  - intros x f0 L. apply El in L. rewrite Ef, Efs.
    assert (Some f = Some f0 ->
      exists hf, <[f:=mkFace (Some h1)]> (faces s) !! f0 = Some (mkFace (Some hf)) /\
        live s' hf /\ face_of s' hf = Some f0 /\
        ((x = h1 \/ x = h2 \/ x = h3) -> x = hf \/ x = next_of s' hf \/ x = prev_of s' hf))
      as Hnew.
    { intros [= <-]. exists h1. rewrite lookup_insert_eq, El, Ef, En, Ev, N1, V1.
      split_and!; [done..| |tauto]. by repeat case_decide. }
    destruct (decide (x = h3)) as [->|X3].
    { intros Hf. destruct (Hnew Hf) as (hf & ? & ? & ? & Hor). exists hf. auto 10. }
    destruct (decide (x = h2)) as [->|X2].
    { intros Hf. destruct (Hnew Hf) as (hf & ? & ? & ? & Hor). exists hf. auto 10. }
    destruct (decide (x = h1)) as [->|X1].
    { intros Hf. destruct (Hnew Hf) as (hf & ? & ? & ? & Hor). exists hf. auto 10. }
    intros Hf. destruct (co_face s Hc x f0 L Hf) as (hf & Hr & Lf & Hff & Hor).
    exists hf. rewrite El, En, Ev, Ef'; [|congruence].
    split_and!; [|done..]. rewrite lookup_insert_ne; [done|]. congruence.
  - intros f0 r. rewrite Efs. destruct (decide (f0 = f)) as [->|Hne].
    + rewrite lookup_insert_eq. intros [= <-]. exists h1. rewrite El, Ef.
      split_and!; [done..|]. by repeat case_decide.
    + rewrite lookup_insert_ne by done. intros Hr.
      destruct (co_record s Hc f0 r Hr) as (hf & ? & ? & Hff). exists hf.
      rewrite El, Ef'; [done|congruence].
Qed.

Lemma add_face_coherent s h1 h2 h3 fo s' :
  well_formed s -> coherent s -> add_face h1 h2 h3 s = (Ok fo, s') -> coherent s'.
Proof.
  intros Hwf Hc H.
  apply add_face_shape in H
    as (L1 & L2 & L3 & Hfree & Hchain & s3 & f & Hadj & Hwf3 & R & Hfresh & -> & ->); [|done].
  destruct (all_adjacent_cycle _ _ _ _ _ _ Hwf L1 L2 L3 Hchain Hadj) as (N1 & N2 & N3).
  pose proof (all_adjacent_coherent _ _ _ _ _ _ Hwf Hc L1 L2 L3 Hfree Hchain Hadj) as Hc3.
  apply (rl_live _ _ R) in L1, L2, L3.
  destruct Hfree as (? & ? & ?).
  apply coherent_with_face; try done.
  - apply at_linked, wf_attaching, Hwf3.
  - unfold all_free. by rewrite !(rl_face _ _ R).
Qed.

(** ** [remove_face] and [remove_edge] on coherent stores *)

Lemma remove_face_runs s f :
  linked s -> coherent s -> is_Some (faces s !! f) ->
  exists s', remove_face (Some f) s = (Ok tt, s').
Proof.
  intros Hl Hc [r Hr]. destruct (co_record s Hc f r Hr) as (hf & Hhf & L & _).
  assert (forall t, faces t = faces s -> face_halfedge (Some f) t = (Ok hf, t)) as Hrun.
  { intros t Et. apply face_halfedge_Ok. split; [done|]. exists f, r. by rewrite Et. }
  eexists. unfold remove_face.
  rewrite (bind_run _ _ _ _ _ (Hrun s eq_refl)).
  rewrite (bind_run _ _ _ _ _ (set_face_run hf None s L)).
  erewrite bind_run by (apply Hrun; reflexivity).
  pose proof (live_next s Hl hf L) as Ln. pose proof (live_prev s Hl hf L) as Lv.
  erewrite bind_run by (apply he_next_run; solve_live).
  autorewrite with hds.
  erewrite bind_run by (apply set_face_run; solve_live).
  erewrite bind_run by (apply Hrun; reflexivity).
  erewrite bind_run by (apply he_prev_run; solve_live).
  autorewrite with hds.
  erewrite bind_run by (apply set_face_run; solve_live).
  unfold delete_face.
  erewrite bind_run; [reflexivity|].
  unfold deref_face. simpl. by rewrite Hr.
Qed.

Lemma remove_face_coherent s f u s' :
  linked s -> coherent s -> remove_face (Some f) s = (Ok u, s') -> coherent s'.
Proof.
  intros Hl Hc H. pose proof (remove_face_Ok _ _ _ _ H) as [E _].
  apply remove_face_shape in H as ([r Hr] & Hfs & _ & Hx).
  destruct (co_record s Hc f r Hr) as (hf & Hhf & Lf & Hff).
  pose proof (sl_live _ _ E) as El. pose proof (sl_next _ _ E) as En.
  pose proof (sl_prev _ _ E) as Ev.
  assert (forall x, live s x -> (x ∈ face_cycle s f <-> face_of s x = Some f)) as Hin.
  { intros x Lx. by apply (co_cycle_face s hf f x). }
  assert (forall x, live s x ->
            face_of s' x = if decide (face_of s x = Some f) then None else face_of s x) as Ef.
  { intros x Lx. rewrite Hx. specialize (Hin x Lx). repeat case_decide; tauto. }
  split.
  - intros x L. apply El in L. rewrite En, !Ef by (done || by apply live_next).
    by rewrite (co_next s Hc).
  - intros x L. apply El in L. rewrite Ef, !En by done.
    case_decide; [done|]. by apply co_tri.
  - intros x f0 L. apply El in L. rewrite Ef, Hfs by done.
    case_decide; [done|]. intros Hf0.
    destruct (co_face s Hc x f0 L Hf0) as (hf0 & Hr0 & L0 & Hff0 & Hor).
    exists hf0. rewrite El, En, Ev, Ef by done.
    rewrite decide_False by congruence.
    rewrite lookup_delete_ne by congruence. done.
  - intros f0 r0. rewrite Hfs. destruct (decide (f0 = f)) as [->|Hne].
    { by rewrite lookup_delete_eq. }
    rewrite lookup_delete_ne by done. intros Hr0.
    destruct (co_record s Hc f0 r0 Hr0) as (hf0 & ? & L0 & Hff0). exists hf0.
    rewrite El, Ef by done. rewrite decide_False by congruence. done.
Qed.

Lemma detach_edge_run s he n :
  live s he -> live s (pair_of s he) -> live s (prev_of s he) ->
  live s (next_of s (pair_of s he)) ->
  origin_of s he = Some n -> is_Some (nodes s !! n) ->
  detach_edge he s = (Ok tt, detached s he).
Proof.
  intros L Lp Lv Lq On Ln. unfold detach_edge, detached. rewrite On.
  rewrite (bind_run _ _ _ _ _ (he_origin_run he s L)). rewrite On.
  rewrite (bind_run _ _ _ _ _ (node_halfedge_run n s Ln)).
  set (q := next_of s (pair_of s he)) in *. set (p := prev_of s he) in *.
  assert (forall t, (forall x, live t x <-> live s x) ->
            (forall x, next_of t x = next_of s x) -> (forall x, prev_of t x = prev_of s x) ->
            (forall x, pair_of t x = pair_of s x) ->
            (let* pv := he_prev he in
             let* p0 := he_pair he in
             let* pn := he_next p0 in
             let* _ := set_next pv pn in
             let* p' := he_pair he in
             let* pn' := he_next p' in
             let* pv' := he_prev he in
             set_prev pn' pv') t = (Ok tt, upd_prev q p (upd_next p q t))) as Htail.
  { intros t El En Ev Ep.
    assert (forall x, live s x -> live (upd_next p q t) x) as El'.
    { intros x Lx. apply live_upd_next_2. by apply El. }
    erewrite bind_run by (apply he_prev_run; by apply El).
    erewrite bind_run by (apply he_pair_run; by apply El).
    erewrite bind_run by (apply he_next_run; rewrite Ep; by apply El).
    rewrite Ev, Ep, En. fold p q.
    erewrite bind_run by (apply set_next_run; by apply El).
    erewrite bind_run by (apply he_pair_run; by apply El').
    rewrite pair_of_upd_next, Ep.
    erewrite bind_run by (apply he_next_run; by apply El').
    erewrite bind_run by (apply he_prev_run; by apply El').
    rewrite prev_of_upd_next, Ev. fold p.
    assert (next_of (upd_next p q t) (pair_of s he) = q) as ->.
    { rewrite next_of_upd_next by by apply El. rewrite En. by case_decide. }
    apply set_prev_run. by apply El'. }
  assert (forall v, set_halfedge (Some n) v s = (Ok tt, upd_halfedge n v s)) as Hset.
  { intros v. apply set_halfedge_Ok. exists n. split_and!; [done|exact Ln|done]. }
  destruct (decide (halfedge_of s n = Some he)) as [E|E].
  - destruct (decide (q <> he)) as [Hq|Hq].
    + erewrite bind_run.
      2:{ erewrite bind_run by (apply he_pair_run; done).
          erewrite bind_run by (apply he_next_run; done). fold q.
          rewrite decide_True by done.
          erewrite bind_run by (apply he_pair_run; done).
          erewrite bind_run by (apply he_next_run; done). apply Hset. }
      apply Htail; intros; by autorewrite with hds.
    + erewrite bind_run.
      2:{ erewrite bind_run by (apply he_pair_run; done).
          erewrite bind_run by (apply he_next_run; done). fold q.
          rewrite decide_False by done. apply Hset. }
      apply Htail; intros; by autorewrite with hds.
  - erewrite bind_run by (unfold ret; reflexivity). by apply Htail.
Qed.

Lemma he1_run e s r : edges s !! e = Some r -> he1 e s = (Ok (e_he1 r), s).
Proof. intros Hr. apply he1_Ok. eauto. Qed.

Lemma he2_run e s r : edges s !! e = Some r -> he2 e s = (Ok (e_he2 r), s).
Proof. intros Hr. apply he2_Ok. eauto. Qed.

Lemma remove_side_runs s h :
  linked s -> coherent s -> live s h ->
  exists s1,
    (if negb (bool_decide (face_of s h = None))
     then let* f := he_face h in remove_face f else ret tt) s = (Ok tt, s1) /\
    face_removed s h s1.
Proof.
  intros Hl Hc L. destruct (face_of s h) as [f|] eqn:Ef.
  - rewrite bool_decide_eq_false_2 by done. simpl.
    destruct (co_face s Hc h f L Ef) as (hf & Hr & _).
    destruct (remove_face_runs s f Hl Hc ltac:(eauto)) as [s1 H1].
    exists s1. rewrite (bind_run _ _ _ _ _ (he_face_run h s L)). rewrite Ef.
    split; [done|]. right. eauto.
  - rewrite bool_decide_eq_true_2 by done. simpl. exists s. split; [done|]. by left.
Qed.

Lemma face_removed_coherent s h s1 :
  linked s -> coherent s -> face_removed s h s1 -> coherent s1.
Proof.
  intros Hl Hc [[_ ->]|(f & _ & H)]; [done|]. by eapply remove_face_coherent.
Qed.

Lemma face_removed_free s h s1 :
  linked s -> coherent s -> live s h -> face_removed s h s1 ->
  face_of s1 h = None /\ forall x, face_of s x = None -> face_of s1 x = None.
Proof.
  intros Hl Hc L [[E ->]|(f & Ef & H)]; [done|].
  apply remove_face_shape in H as (_ & _ & _ & Hx). split.
  - rewrite Hx. rewrite decide_True; [done|]. by apply (co_cycle_face s h f h).
  - intros x E. rewrite Hx. by case_decide.
Qed.

Lemma remove_edge_runs s e r :
  well_formed s -> coherent s -> edges s !! e = Some r ->
  exists s', remove_edge e s = (Ok tt, s').
Proof.
  intros Hwf Hc Hr. pose proof (wf_attaching s Hwf) as Ha. pose proof (at_linked s Ha) as Hl.
  destruct (edge_halfedges s e r Hwf Hr) as (La & Lb & _).
  destruct (remove_side_runs s (e_he1 r) Hl Hc La) as (s1 & H1 & F1).
  pose proof (face_removed_same_links _ _ _ F1) as E1.
  pose proof (well_formed_same_links _ _ E1 Hwf) as Hwf1.
  pose proof (at_linked s1 (wf_attaching s1 Hwf1)) as Hl1.
  pose proof (face_removed_coherent _ _ _ Hl Hc F1) as Hc1.
  assert (live s1 (e_he2 r)) as Lb1 by by apply (sl_live _ _ E1).
  destruct (remove_side_runs s1 (e_he2 r) Hl1 Hc1 Lb1) as (s2 & H2 & F2).
  pose proof (face_removed_same_links _ _ _ F2) as E2.
  pose proof (well_formed_same_links _ _ E2 Hwf1) as Hwf2.
  pose proof (at_linked s2 (wf_attaching s2 Hwf2)) as Hl2.
  assert (edges s1 !! e = Some r) as Hr1 by by rewrite (sl_edges _ _ E1).
  assert (edges s2 !! e = Some r) as Hr2 by by rewrite (sl_edges _ _ E2).
  destruct (edge_halfedges s2 e r Hwf2 Hr2)
    as (La2 & Lb2 & Hp & Hp' & Hab & Hpa & Hna & Hpb & Hnb & na & nb & Oa & Ob & Hn).
  assert (is_Some (nodes s2 !! na)) as Lna.
  { destruct (at_attached s2 (wf_attaching s2 Hwf2) _ na La2 Oa) as [? E].
    by eapply halfedge_of_Some. }
  assert (is_Some (nodes s2 !! nb)) as Lnb.
  { destruct (at_attached s2 (wf_attaching s2 Hwf2) _ nb Lb2 Ob) as [? E].
    by eapply halfedge_of_Some. }
  destruct (detached_getters s2 (e_he1 r) na) as (El3 & Eo3 & Ep3 & Ee3 & En3 & Ev3 & Eh3 & Ees3);
    [done|by apply live_prev|rewrite Hp; by apply live_next|done..|].
  eexists. unfold remove_edge.
  rewrite (bind_run _ _ _ _ _ (he1_run e s r Hr)).
  rewrite (bind_run _ _ _ _ _ (is_boundary_run _ s La)).
  rewrite (bind_run _ _ _ _ _ H1).
  rewrite (bind_run _ _ _ _ _ (he2_run e s1 r Hr1)).
  rewrite (bind_run _ _ _ _ _ (is_boundary_run _ s1 Lb1)).
  rewrite (bind_run _ _ _ _ _ H2).
  rewrite (bind_run _ _ _ _ _ (he1_run e s2 r Hr2)).
  erewrite bind_run.
  2:{ apply (detach_edge_run s2 _ na); [done|rewrite Hp; done|by apply live_prev
        |rewrite Hp; by apply live_next|done|done]. }
  erewrite bind_run by (apply he2_run; rewrite Ees3; exact Hr2).
  erewrite bind_run.
  2:{ apply (detach_edge_run _ _ nb).
      - by apply El3.
      - rewrite Ep3, Hp'. by apply El3.
      - rewrite Ev3, El3.
        destruct (decide (e_he2 r = next_of s2 (pair_of s2 (e_he1 r)))); by apply live_prev.
      - rewrite Ep3, Hp', En3, El3.
        destruct (decide (e_he1 r = prev_of s2 (e_he1 r))); [|by apply live_next].
        rewrite Hp. by apply live_next.
      - by rewrite Eo3.
      - by apply nodes_detached. }
  unfold delete_edge.
  erewrite bind_run by (apply he1_run; rewrite !edges_detached; exact Hr2).
  erewrite bind_run by (apply he2_run; rewrite !edges_detached; exact Hr2).
  reflexivity.
Qed.

Lemma face_of_detached s he h : face_of (detached s he) h = face_of s h.
Proof.
  unfold detached. destruct (origin_of s he); [case_decide|]; by autorewrite with hds.
Qed.

Lemma face_of_without_edge s e a b h :
  h <> a -> h <> b -> face_of (without_edge s e a b) h = face_of s h.
Proof. intros. unfold face_of. by rewrite lookup_without_edge. Qed.

(** The two halfedges of an edge do not run around the same face. *)
Lemma two_sided_coherent s e : well_formed s -> coherent s -> two_sided s e.
Proof.
  intros Hwf Hc r f Hr Hf. pose proof (wf_attaching s Hwf) as Ha.
  pose proof (at_linked s Ha) as Hl.
  destruct (edge_halfedges s e r Hwf Hr)
    as (La & Lb & Hp & Hp' & Hab & Hpa & Hna & Hpb & Hnb & na & nb & Oa & Ob & Hn).
  rewrite (co_cycle s (e_he1 r) f Hl Hc La Hf).
  assert (face_of s (e_he1 r) <> None) as Hne by congruence.
  pose proof (co_tri s Hc _ La Hne) as T.
  pose proof (co_prev_next s _ Hl Hc La Hne) as P.
  pose proof (live_next s Hl _ La) as Ln. pose proof (live_prev s Hl _ La) as Lv.
  pose proof (lk_origin s Hl _ La) as O1. rewrite Hp, Ob in O1.
  pose proof (lk_origin s Hl _ Ln) as O2. rewrite <- P in O2.
  pose proof (lk_origin s Hl _ Lv) as O3. rewrite (lk_prev_next s Hl) in O3 by done.
  intros [E|[E|E]].
  - congruence.
  - (* he2 = he1.next: then he1.prev is a loop *)
    rewrite <- E, Hp' in O2. rewrite Oa in O2.
    destruct (at_no_loop s Ha _ na Lv O2). unfold target_of. congruence.
  - (* he2 = he1.prev: then he1.next is a loop *)
    rewrite <- E, Ob in O2.
    destruct (at_no_loop s Ha _ nb Ln O1). unfold target_of. congruence.
Qed.

(** The faces after [remove_edge]. *)
Lemma remove_edge_coherent s e r u s' :
  well_formed s -> coherent s -> edges s !! e = Some r ->
  remove_edge e s = (Ok u, s') ->
  coherent s' /\
  forall x, live s' x ->
    face_of s' x =
      if decide (face_of s x = face_of s (e_he1 r) \/ face_of s x = face_of s (e_he2 r))
      then None else face_of s x.
Proof.
  intros Hwf Hc Hr H. pose proof (wf_attaching s Hwf) as Ha. pose proof (at_linked s Ha) as Hl.
  pose proof (two_sided_coherent s e Hwf Hc r) as Hside. specialize (fun f => Hside f Hr).
  apply remove_edge_Ok in H as (r' & s1 & s2 & Hr' & F1 & F2 & ->).
  rewrite Hr in Hr'. injection Hr' as <-.
  destruct (edge_halfedges s e r Hwf Hr) as (La & Lb & _).
  set (a := e_he1 r) in *. set (b := e_he2 r) in *.
  pose proof (face_removed_same_links _ _ _ F1) as E1.
  pose proof (well_formed_same_links _ _ E1 Hwf) as Hwf1.
  pose proof (at_linked s1 (wf_attaching s1 Hwf1)) as Hl1.
  pose proof (face_removed_coherent _ _ _ Hl Hc F1) as Hc1.
  assert (live s1 a) as La1 by by apply (sl_live _ _ E1).
  assert (live s1 b) as Lb1 by by apply (sl_live _ _ E1).
  pose proof (face_removed_same_links _ _ _ F2) as E2.
  pose proof (well_formed_same_links _ _ E2 Hwf1) as Hwf2.
  pose proof (at_linked s2 (wf_attaching s2 Hwf2)) as Hl2.
  pose proof (face_removed_coherent _ _ _ Hl1 Hc1 F2) as Hc2.
  assert (edges s2 !! e = Some r) as Hr2 by by rewrite (sl_edges _ _ E2), (sl_edges _ _ E1).
  (* the faces of s2 *)
  assert (forall x, live s x -> face_of s1 x =
            if decide (face_of s x = face_of s a) then None else face_of s x) as X1.
  { intros x Lx. destruct (face_removed_count _ _ _ F1) as (_ & _ & X). rewrite X.
    destruct (face_of s a) as [f|] eqn:Ef; [|by case_decide].
    pose proof (co_cycle_face s a f x Hl Hc La Ef Lx). repeat case_decide; tauto. }
  assert (forall x, live s x -> face_of s2 x =
            if decide (face_of s1 x = face_of s1 b) then None else face_of s1 x) as X2.
  { intros x Lx. apply (sl_live _ _ E1) in Lx.
    destruct (face_removed_count _ _ _ F2) as (_ & _ & X). rewrite X.
    destruct (face_of s1 b) as [f|] eqn:Ef; [|by case_decide].
    pose proof (co_cycle_face s1 b f x Hl1 Hc1 Lb1 Ef Lx). repeat case_decide; tauto. }
  assert (face_of s b <> None -> face_of s b <> face_of s a) as Hab.
  { intros Hb E. destruct (face_of s a) as [f|] eqn:Ef; [|done].
    apply (Hside f eq_refl). by apply (co_cycle_face s a f b). }
  assert (forall x, live s x -> face_of s2 x =
            if decide (face_of s x = face_of s a \/ face_of s x = face_of s b)
            then None else face_of s x) as X.
  { intros x Lx. rewrite X2, !X1 by done.
    destruct (face_of s x) as [fx|] eqn:Efx, (face_of s a) as [fa|] eqn:Efa,
      (face_of s b) as [fb|] eqn:Efb; repeat case_decide; try done;
      try (destruct Hab; [done|congruence]); try tauto; try congruence;
      exfalso; intuition congruence. }
  assert (face_of s2 a = None) as Fa.
  { rewrite X by done. rewrite decide_True; [done|by left]. }
  assert (face_of s2 b = None) as Fb.
  { rewrite X by done. rewrite decide_True; [done|by right]. }
  destruct (remove_edge_shape s2 e r Hwf2 Hr2) as (El & Eo & Ep & Ee & En & Ev & Eh & Ees).
  fold a b in El, Eo, Ep, Ee, En, Ev, Eh.
  set (s' := without_edge (detached (detached s2 a) b) e a b) in *.
  assert (forall x, x <> a -> x <> b -> face_of s' x = face_of s2 x) as Ef.
  { intros x ? ?. unfold s'. rewrite face_of_without_edge by done.
    by rewrite !face_of_detached. }
  assert (faces s' = faces s2) as Efs.
  { unfold s'. change (faces (without_edge ?t _ _ _)) with (faces t).
    by rewrite !faces_detached. }
  assert (forall x, live s2 x -> face_of s2 x <> None ->
            x <> a /\ x <> b /\ live s' x /\ next_of s' x = next_of s2 x /\
            prev_of s' x = prev_of s2 x /\ face_of s' x = face_of s2 x) as Hfaced.
  { intros x Lx Hx. assert (x <> a) by congruence. assert (x <> b) by congruence.
    pose proof (co_prev s2 a Hl2 Hc2 ltac:(by apply (sl_live _ _ E2))) as Va.
    pose proof (co_prev s2 b Hl2 Hc2 ltac:(by apply (sl_live _ _ E2))) as Vb.
    pose proof (co_next s2 Hc2 a ltac:(by apply (sl_live _ _ E2))) as Na.
    pose proof (co_next s2 Hc2 b ltac:(by apply (sl_live _ _ E2))) as Nb.
    split_and!; [done|done|by apply El| | |by apply Ef].
    - rewrite En by done. rewrite !decide_False; [done|congruence..].
    - rewrite Ev by done. rewrite !decide_False; [done|congruence..]. }
  split.
  - split.
    + intros x L. pose proof L as L'. apply El in L as (L & Xa & Xb).
      assert (live s' (next_of s' x)) as Ln'.
      { apply (live_next s'); [|done].
        apply at_linked, wf_attaching. by apply (remove_edge_shape_well_formed s2 e r). }
      apply El in Ln' as (_ & Ya & Yb). rewrite !Ef by done.
      rewrite En by done.
      pose proof (co_prev s2 a Hl2 Hc2 ltac:(by apply (sl_live _ _ E2))) as Va.
      pose proof (co_prev s2 b Hl2 Hc2 ltac:(by apply (sl_live _ _ E2))) as Vb.
      pose proof (co_next s2 Hc2 a ltac:(by apply (sl_live _ _ E2))) as Na.
      pose proof (co_next s2 Hc2 b ltac:(by apply (sl_live _ _ E2))) as Nb.
      repeat case_decide; subst; try congruence; by apply co_next.
    + intros x L. apply El in L as (L & Xa & Xb). rewrite Ef by done. intros Hx.
      destruct (Hfaced x L Hx) as (_ & _ & _ & -> & _).
      pose proof (co_next s2 Hc2 x L) as F1'. pose proof (live_next s2 Hl2 x L) as L1.
      destruct (Hfaced _ L1 ltac:(congruence)) as (_ & _ & _ & -> & _).
      pose proof (co_next s2 Hc2 _ L1) as F2'. pose proof (live_next s2 Hl2 _ L1) as L2.
      destruct (Hfaced _ L2 ltac:(congruence)) as (_ & _ & _ & -> & _).
      by apply co_tri.
    + intros x f0 L. apply El in L as (L & Xa & Xb). rewrite Ef, Efs by done. intros Hx.
      destruct (co_face s2 Hc2 x f0 L Hx) as (hf & Hr0 & L0 & Hff & Hor).
      destruct (Hfaced hf L0 ltac:(congruence)) as (_ & _ & ? & E3 & E4 & E5).
      exists hf. rewrite E3, E4, E5. done.
    + intros f0 r0. rewrite Efs. intros Hr0.
      destruct (co_record s2 Hc2 f0 r0 Hr0) as (hf & ? & L0 & Hff).
      destruct (Hfaced hf L0 ltac:(congruence)) as (_ & _ & ? & _ & _ & E5).
      exists hf. rewrite E5. done.
  - intros x L. apply El in L as (L & Xa & Xb). rewrite Ef by done.
    apply X. by apply (sl_live _ _ E1), (sl_live _ _ E2).
Qed.

(** ** [add_edge] on coherent stores *)

Lemma get_new_edge_getters s e s' a b :
  get_new_edge s = (Ok e, s') -> edges s' !! e = Some (mkEdge a b) ->
  a <> b /\ ~ live s a /\ ~ live s b /\
  (forall h, live s' h <-> h = a \/ h = b \/ live s h) /\
  next_of s' a = b /\ next_of s' b = a /\ prev_of s' a = b /\ prev_of s' b = a /\
  face_of s' a = None /\ face_of s' b = None /\
  (forall h, live s h ->
     next_of s' h = next_of s h /\ prev_of s' h = prev_of s h /\
     face_of s' h = face_of s h /\ pair_of s' h = pair_of s h /\
     origin_of s' h = origin_of s h) /\
  faces s' = faces s /\ nodes s' = nodes s.
Proof.
  intros H Hr.
  apply get_new_edge_Ok in H as (a' & b' & Da & Db & Hab & He & Eh & Ee & En & Ef).
  rewrite Ee, lookup_insert_eq in Hr. injection Hr as -> ->.
  assert (halfedges s' !! a = Some (mkHalfedge None b b b None e)) as Ea.
  { rewrite Eh. by rewrite lookup_insert_ne, lookup_insert_eq. }
  assert (halfedges s' !! b = Some (mkHalfedge None a a a None e)) as Eb.
  { rewrite Eh. by rewrite lookup_insert_eq. }
  assert (forall h, live s h -> halfedges s' !! h = halfedges s !! h) as Eold.
  { intros h L. rewrite Eh. rewrite !lookup_insert_ne; [done|congruence..]. }
  unfold next_of, prev_of, face_of, pair_of, origin_of. rewrite Ea, Eb. simpl.
  split_and!; try done.
  - intros h. unfold live.
    destruct (decide (h = a)) as [->|]; [rewrite Ea; split; by eauto|].
    destruct (decide (h = b)) as [->|]; [rewrite Eb; split; by eauto|].
    rewrite Eh, !lookup_insert_ne by done. intuition congruence.
  - intros h L. by rewrite Eold.
Qed.

Lemma get_new_edge_coherent s e s' :
  linked s -> coherent s -> get_new_edge s = (Ok e, s') -> coherent s'.
Proof.
  intros Hl Hc H.
  pose proof (get_new_edge_Ok _ _ _ H) as (a & b & _ & _ & _ & _ & _ & Ee & _).
  assert (edges s' !! e = Some (mkEdge a b)) as Hr by (rewrite Ee; by rewrite lookup_insert_eq).
  destruct (get_new_edge_getters s e s' a b H Hr)
    as (Hab & Da & Db & El & Na & Nb & Va & Vb & Fa & Fb & Eold & Efs & _).
  assert (forall x, live s x -> live s' x) as Lold by (intros x L; apply El; auto).
  split.
  - intros x L. apply El in L as [->|[->|L]]; [congruence..|].
    destruct (Eold x L) as (-> & _ & -> & _).
    destruct (Eold _ (live_next s Hl x L)) as (_ & _ & -> & _). by apply co_next.
  - intros x L. apply El in L as [->|[->|L]]; [congruence..|].
    destruct (Eold x L) as (-> & _ & -> & _).
    destruct (Eold _ (live_next s Hl x L)) as (-> & _ & _).
    destruct (Eold _ (live_next s Hl _ (live_next s Hl x L))) as (-> & _ & _).
    by apply co_tri.
  - intros x f L. apply El in L as [->|[->|L]]; [congruence..|].
    destruct (Eold x L) as (_ & _ & -> & _). rewrite Efs. intros Hf.
    destruct (co_face s Hc x f L Hf) as (hf & ? & Lf & ? & ?). exists hf.
    destruct (Eold hf Lf) as (-> & -> & -> & _). auto.
  - intros f r. rewrite Efs. intros Hf.
    destruct (co_record s Hc f r Hf) as (hf & ? & Lf & ?). exists hf.
    destruct (Eold hf Lf) as (_ & _ & -> & _). auto.
Qed.

Lemma coherent_attached_after s h n g :
  linked s -> coherent s ->
  live s h -> live s g ->
  face_of s h = None -> face_of s (pair_of s h) = None -> face_of s g = None ->
  coherent (attached_after s h n g).
Proof.
  intros Hl Hc L Lg Fh Fp Fg.
  pose proof (live_pair s Hl h L) as Lp. pose proof (live_next s Hl g Lg) as Lf.
  destruct (attached_after_getters s h n g L Lp Lg Lf)
    as (El & _ & _ & En & Ev & _ & Ef & _ & _ & Efs & _).
  set (s' := attached_after s h n g) in *.
  assert (face_of s (next_of s g) = None) as Ffo by by rewrite (co_next s Hc).
  assert (forall x, face_of s x <> None -> next_of s' x = next_of s x) as En'.
  { intros x Hx. rewrite En. repeat case_decide; congruence. }
  assert (forall x, face_of s x <> None -> prev_of s' x = prev_of s x) as Ev'.
  { intros x Hx. rewrite Ev. repeat case_decide; congruence. }
  split.
  - intros x Lx. apply El in Lx. rewrite !Ef, En.
    repeat case_decide; subst; try congruence. by apply co_next.
  - intros x Lx. apply El in Lx. rewrite Ef. intros Hx.
    pose proof (co_next s Hc x Lx) as F1.
    pose proof (co_next s Hc _ (live_next s Hl x Lx)) as F2.
    rewrite (En' x) by done. rewrite (En' (next_of s x)) by congruence.
    rewrite En' by congruence. by apply co_tri.
  - intros x f Lx. apply El in Lx. rewrite Ef, Efs. intros Hx.
    destruct (co_face s Hc x f Lx Hx) as (hf & Hr & L0 & Hff & Hor). exists hf.
    rewrite El, Ef, En', Ev' by congruence. done.
  - intros f r. rewrite Efs. intros Hr.
    destruct (co_record s Hc f r Hr) as (hf & ? & L0 & Hff). exists hf.
    by rewrite El, Ef.
Qed.

Lemma attach_halfedge_to_node_coherent s h n u s' :
  attaching s -> coherent s -> origin_of s h = None ->
  face_of s h = None -> face_of s (pair_of s h) = None ->
  attach_halfedge_to_node h n s = (Ok u, s') -> coherent s'.
Proof.
  intros Hat Hc Oh Fh Fp H. pose proof (at_linked s Hat) as Hl.
  apply attach_halfedge_to_node_Ok in H as (L & Lp & n' & -> & Ln & H).
  destruct H as [[Hiso ->]|(h0 & g & k & Hh0 & L0 & -> & Fg & _ & Lg & Lf & ->)].
  - destruct (attached_isolated_getters s h n' Hat L Oh Ln)
      as (El & _ & _ & En & Ev & _ & Ef & _ & _ & Efs).
    by apply (coherent_ext s).
  - by apply coherent_attached_after.
Qed.

Lemma add_edge_coherent s n1 n2 a s' :
  well_formed s -> coherent s -> add_edge n1 n2 s = (Ok a, s') -> coherent s'.
Proof.
  intros Hwf Hc H. unfold add_edge in H.
  pose proof (at_linked s (wf_attaching s Hwf)) as Hl.
  apply bind_Ok in H as ([] & s0 & Hne & H). apply boost_assert_Ok in Hne as [Hne ->].
  apply bool_decide_eq_true in Hne.
  apply bind_Ok in H as (e & s1 & He & H).
  pose proof (get_new_edge_coherent s e s1 Hl Hc He) as Hc1.
  destruct (get_new_edge_attaching s e s1 (wf_attaching s Hwf) He)
    as (Hat1 & a' & b & Hab & Da & Db & Hr & El1 & Oa & Ob & Pa & Pb & Eo1 & En1 & Ef1).
  destruct (get_new_edge_faces s e s1 a' b He Hr) as (Fa & Fb & Eold1).
  apply bind_Ok in H as (a0 & s0 & Ha & H). apply he1_Ok in Ha as (-> & r & Hr' & ->).
  rewrite Hr in Hr'. injection Hr' as <-. simpl in H.
  apply bind_Ok in H as (b0 & s0 & Hb & H). apply he2_Ok in Hb as (-> & r & Hr' & ->).
  rewrite Hr in Hr'. injection Hr' as <-. simpl in H.
  apply bind_Ok in H as ([] & s2 & H1 & H).
  pose proof (attach_halfedge_to_node_coherent s1 a' n1 _ s2 Hat1 Hc1 Oa Fa
                ltac:(by rewrite Pa) H1) as Hc2.
  apply attach_halfedge_to_node_attaching in H1
    as (m1 & -> & Ln1 & Hat2 & El2 & Eo2 & Ep2 & Ee2 & Ef2 & Ees2 & Efs2 & End2);
    [|done|done|unfold target_of; rewrite Pa, Ob; by intros [? ->]].
  apply bind_Ok in H as ([] & s3 & H2 & H).
  apply ret_Ok in H as [_ <-].
  apply (attach_halfedge_to_node_coherent s2 b n2 _ _ Hat2 Hc2) in H2; [done|..].
  - rewrite Eo2. by rewrite decide_False by done.
  - by rewrite Ef2.
  - by rewrite Ef2, Ep2, Pb.
Qed.

(** ** Every public mutator keeps the faces closed *)

Lemma add_node_coherent s p n s' :
  coherent s -> add_node p s = (Ok n, s') -> coherent s'.
Proof.
  intros Hc H. unfold add_node in H. apply bind_Ok in H as (n0 & s1 & H1 & H).
  apply get_new_node_Ok in H1 as (n' & -> & Hfresh & ->). minv.
  by apply (coherent_ext s).
Qed.

Lemma kc_bind {A B} (m : M A) (k : A -> M B) :
  keeps m -> keeps_coherent m -> (forall a, keeps_coherent (k a)) ->
  keeps_coherent (bind m k).
Proof.
  intros Hm Hcm Hk s b s' Hwf Hc H. apply bind_Ok in H as (a & s1 & H1 & H2).
  eapply Hk; [|exact (Hcm _ _ _ Hwf Hc H1)|exact H2]. eapply Hm; [exact Hwf|exact H1].
Qed.

Lemma kc_ret {A} (a : A) : keeps_coherent (ret a).
Proof. intros s b s' Hwf Hc H. apply ret_Ok in H as [_ <-]. done. Qed.

Lemma kc_throw {A} e : keeps_coherent (throw e : M A).
Proof. intros s b s' Hwf Hc H. by apply throw_Ok in H. Qed.

Lemma kc_deref_he {A} h (f : Halfedge -> A) : keeps_coherent (deref_he h f).
Proof. intros s b s' Hwf Hc H. apply deref_he_Ok in H as (-> & _). done. Qed.

Lemma kc_deref_node {A} n (f : Node -> A) : keeps_coherent (deref_node n f).
Proof. intros s b s' Hwf Hc H. apply deref_node_Ok in H as (-> & _). done. Qed.

Lemma kc_deref_edge {A} e (f : Edge -> A) : keeps_coherent (deref_edge e f).
Proof. intros s b s' Hwf Hc H. apply deref_edge_Ok in H as (-> & _). done. Qed.

Lemma kc_face_halfedge f : keeps_coherent (face_halfedge f).
Proof. intros s b s' Hwf Hc H. apply face_halfedge_Ok in H as (-> & _). done. Qed.

Lemma kc_add_node p : keeps_coherent (add_node p).
Proof. intros s b s' Hwf Hc H. by eapply add_node_coherent. Qed.

Lemma kc_add_edge n1 n2 : keeps_coherent (add_edge n1 n2).
Proof. intros s b s' Hwf Hc H. by eapply add_edge_coherent. Qed.

Lemma kc_add_face h1 h2 h3 : keeps_coherent (add_face h1 h2 h3).
Proof. intros s b s' Hwf Hc H. by eapply add_face_coherent. Qed.

Lemma kc_remove_face f : keeps_coherent (remove_face f).
Proof.
  intros s b s' Hwf Hc H.
  pose proof (remove_face_Ok _ _ _ _ H) as (_ & f' & -> & _).
  eapply remove_face_coherent; [|done|done]. by apply at_linked, wf_attaching.
Qed.

Lemma kc_remove_edge e : keeps_coherent (remove_edge e).
Proof.
  intros s b s' Hwf Hc H.
  pose proof (remove_edge_Ok _ _ _ _ H) as (r & _ & _ & Hr & _).
  by destruct (remove_edge_coherent s e r b s' Hwf Hc Hr H).
Qed.

#[local] Hint Resolve kc_ret kc_throw kc_deref_he kc_deref_node kc_deref_edge
  kc_face_halfedge kc_add_node kc_add_edge kc_add_face kc_remove_face kc_remove_edge
  : keeps.

Ltac kc_steps :=
  repeat first
    [ apply kc_bind;
        [solve [unfold he_origin, he_pair, he_next, he_prev, he_face, he_edge,
                  is_boundary, he1, he2, node_halfedge, is_isolated; auto with keeps]
        |solve [unfold he_origin, he_pair, he_next, he_prev, he_face, he_edge,
                  is_boundary, he1, he2, node_halfedge, is_isolated; auto with keeps]
        |intros ?]
    | solve [auto with keeps] ].

Lemma remove_node_loop_coherent fuel n next s u s' :
  well_formed s -> coherent s -> remove_node_loop fuel n next s = (Ok u, s') ->
  coherent s'.
Proof.
  revert next s. induction fuel as [|fuel IH]; intros next s Hwf Hc H; simpl in H.
  { by apply throw_Ok in H. }
  apply bind_Ok in H as (iso & s0 & Hiso & H).
  apply is_isolated_Ok in Hiso as (-> & n' & -> & Ln & ->).
  destruct (decide (halfedge_of s n' = None)) as [E|E].
  - rewrite bool_decide_eq_true_2 in H by done. apply ret_Ok in H as [_ <-]. done.
  - rewrite bool_decide_eq_false_2 in H by done.
    destruct next as [cur|]; [|by apply throw_Ok in H].
    apply bind_Ok in H as (p & s0 & Hp & H). apply he_pair_Ok in Hp as (-> & _ & ->).
    apply bind_Ok in H as (nx & s0 & Hn & H). apply he_next_Ok in Hn as (-> & _ & ->).
    apply bind_Ok in H as (e & s0 & He & H). apply he_edge_Ok in He as (-> & _ & ->).
    apply bind_Ok in H as ([] & s1 & Hr & H).
    eapply IH; [| |exact H].
    + by eapply remove_edge_well_formed.
    + by eapply kc_remove_edge.
Qed.

Lemma kc_remove_node n : keeps_coherent (remove_node n).
Proof.
  intros s u s' Hwf Hc H. unfold remove_node in H.
  apply bind_Ok in H as (next & s0 & Hn & H). apply node_halfedge_Ok in Hn as (-> & _).
  apply bind_Ok in H as ([] & s1 & Hloop & H).
  apply remove_node_loop_coherent in Hloop; [|done..].
  unfold delete_node in H. apply bind_Ok in H as ([] & s0 & H1 & H).
  apply deref_node_Ok in H1 as (-> & n' & r & -> & _). apply modify_Ok in H as ->.
  by apply (coherent_ext s1).
Qed.

Lemma kc_record_side there h : keeps_coherent (record_side there h).
Proof. unfold record_side. destruct there; kc_steps. Qed.

Lemma kc_split_edge e p : keeps_coherent (split_edge e p).
Proof.
  unfold split_edge.
  do 6 (apply kc_bind; [solve [unfold he_origin, is_boundary, he1, he2; auto with keeps]
                       |solve [unfold he_origin, is_boundary, he1, he2; auto with keeps]
                       |intros ?]).
  apply kc_bind; [apply keeps_record_side|apply kc_record_side|intros [[h5 h6] n3]].
  apply kc_bind; [apply keeps_record_side|apply kc_record_side|intros [[h7 h8] n4]].
  do 4 (apply kc_bind; [solve [auto with keeps]|solve [auto with keeps]|intros ?]).
  apply kc_bind; [destruct (negb _); keeps_steps|destruct (negb _); kc_steps|intros ?].
  apply kc_bind; [destruct (negb _); keeps_steps|destruct (negb _); kc_steps|intros ?].
  apply kc_ret.
Qed.

Lemma kc_split_face f p : keeps_coherent (split_face f p).
Proof. unfold split_face. kc_steps. Qed.

Lemma kc_forget {A} (m : M A) : keeps m -> keeps_coherent m -> keeps_coherent (forget m).
Proof. intros Hm Hc. apply kc_bind; [done|done|intros; apply kc_ret]. Qed.

Lemma kc_perform c : keeps_coherent (perform c).
Proof.
  destruct c; simpl; try apply kc_forget;
    auto using kc_remove_node, kc_split_edge, kc_split_face, keeps_split_edge,
      keeps_split_face with keeps.
Qed.

Lemma coherent_empty : coherent empty_HDS.
Proof.
  assert (forall h, ~ live empty_HDS h) as Hd.
  { intros h [r Hr]. simpl in Hr. by rewrite lookup_empty in Hr. }
  split; try (intros h; intros; by destruct (Hd h)).
Qed.

Lemma reachable_coherent s : reachable s -> coherent s.
Proof.
  induction 1 as [|s c s' Hs IH H]; [apply coherent_empty|].
  apply (kc_perform c s tt s'); [by apply reachable_well_formed|done..].
Qed.

(** * Further properties of the mutators *)

(** ** [add_node] and [remove_node] *)

Lemma add_node_run p s :
  let n := fresh (dom (nodes s) : gset nat) in
  add_node p s = (Ok (Some n), with_nodes s (<[n := mkNode (Some p) None]> (nodes s))).
Proof.
  intros n. unfold add_node, get_new_node. unfold bind at 1. fold n.
  unfold set_position.
  erewrite bind_run.
  2:{ erewrite bind_run; [reflexivity|].
      unfold deref_node. simpl. by rewrite lookup_insert_eq. }
  unfold ret, upd_position, with_nodes. simpl. f_equal. f_equal.
  apply map_eq. intros j. rewrite lookup_alter. case_decide; subst.
  - by rewrite !lookup_insert_eq.
  - by rewrite !lookup_insert_ne.
Qed.

(** [X1] A node that was just added can be removed again, and the store is
    then exactly the store before the two calls: [add_node] allocates one
    isolated node and sets its position, the loop of [remove_node] makes no
    turn on an isolated node, and [delete_node] takes the node out. *)
Theorem remove_node_add_node p s :
  (let* n := add_node p in remove_node n) s = (Ok tt, s).
Proof.
  rewrite (bind_run _ _ _ _ _ (add_node_run p s)).
  set (n := fresh (dom (nodes s) : gset nat)).
  set (s1 := with_nodes s (<[n:=mkNode (Some p) None]> (nodes s))).
  assert (nodes s1 !! n = Some (mkNode (Some p) None)) as Hn.
  { unfold s1. simpl. by rewrite lookup_insert_eq. }
  assert (halfedge_of s1 n = None) as Hiso by (unfold halfedge_of; by rewrite Hn).
  unfold remove_node.
  rewrite (bind_run _ _ _ _ _ (node_halfedge_run n s1 ltac:(eauto))).
  erewrite bind_run.
  2:{ cbn [remove_node_loop].
      rewrite (bind_run _ _ _ _ _ (is_isolated_run n s1 ltac:(eauto))).
      rewrite bool_decide_eq_true_2 by done. reflexivity. }
  unfold delete_node. erewrite bind_run.
  2:{ unfold deref_node. by rewrite Hn. }
  unfold modify. f_equal. unfold s1, with_nodes. simpl.
  rewrite delete_insert_eq.
  rewrite delete_id; [by destruct s|]. apply not_elem_of_dom, is_fresh.
Qed.

(** ** The stores between two calls *)

(** In a well-formed store [next] has no fixed point, and the halfedges
    around a face are three different ones. *)
Lemma next_moves s h : well_formed s -> live s h -> next_of s h <> h.
Proof.
  intros W L E. pose proof (at_linked s (wf_attaching s W)) as Hl.
  destruct (wf_origin s W h L) as [n Hn].
  apply (at_no_loop s (wf_attaching s W) h n L Hn).
  rewrite <- (origin_next s Hl h L), E. done.
Qed.

Lemma triangle_sides s h :
  well_formed s -> coherent s -> live s h -> face_of s h <> None ->
  NoDup [h; next_of s h; next_of s (next_of s h)].
Proof.
  intros W Hc L Hf. pose proof (at_linked s (wf_attaching s W)) as Hl.
  pose proof (live_next s Hl h L) as L1.
  pose proof (co_tri s Hc h L Hf) as E3.
  pose proof (next_moves s h W L) as N0.
  pose proof (next_moves s _ W L1) as N1.
  assert (next_of s (next_of s h) <> h) as N2.
  { intros E. rewrite E in E3. done. }
  repeat constructor; rewrite ?elem_of_cons, ?elem_of_nil; intuition congruence.
Qed.

(** [X2] In every store reached by calls that return, the faces are
    triangles: a halfedge with a face has a face of the store, and every face
    of the store has a halfedge, alive, from which three steps of [next] lead
    back to it; the three halfedges on the way are different, and they are
    exactly the halfedges of the store whose face is that face. *)
Theorem reachable_faces_are_triangles s :
  reachable s ->
  (forall h f, live s h -> face_of s h = Some f -> is_Some (faces s !! f)) /\
  (forall f r, faces s !! f = Some r ->
     exists hf, f_halfedge r = Some hf /\ live s hf /\
       next_of s (next_of s (next_of s hf)) = hf /\
       NoDup [hf; next_of s hf; next_of s (next_of s hf)] /\
       forall x, live s x ->
         (face_of s x = Some f <-> x ∈ [hf; next_of s hf; next_of s (next_of s hf)])).
Proof.
  intros R. pose proof (reachable_well_formed s R) as W.
  pose proof (reachable_coherent s R) as Hc.
  pose proof (at_linked s (wf_attaching s W)) as Hl. split.
  - intros h f L Hf. destruct (co_face s Hc h f L Hf) as (hf & E & _). by rewrite E.
  - intros f r Hr. destruct (co_record s Hc f r Hr) as (hf & Hhf & L & Hf).
    assert (face_of s hf <> None) as Hn by congruence.
    exists hf. split_and!; [done|done|by apply co_tri|by apply triangle_sides|].
    intros x Lx. rewrite <- (co_cycle_face s hf f x Hl Hc L Hf Lx).
    rewrite (co_cycle s hf f Hl Hc L Hf x), (co_prev_next s hf Hl Hc L Hn).
    rewrite !elem_of_cons, elem_of_nil. tauto.
Qed.

(** [X3] In every store reached by calls that return, a halfedge runs
    between two different nodes of the store, none of them isolated; the
    halfedge of a node is alive and leaves that node; and every halfedge
    belongs to an edge of the store, as one of its two halfedges, which are
    different and the pair of each other. *)
Theorem reachable_incidence s :
  reachable s ->
  (forall h, live s h ->
     exists n m, origin_of s h = Some n /\ target_of s h = Some m /\ n <> m /\
       is_Some (halfedge_of s n) /\ is_Some (halfedge_of s m)) /\
  (forall n h, halfedge_of s n = Some h -> live s h /\ origin_of s h = Some n) /\
  (forall h, live s h ->
     exists r, edges s !! edge_of s h = Some r /\ (h = e_he1 r \/ h = e_he2 r)) /\
  (forall e r, edges s !! e = Some r ->
     live s (e_he1 r) /\ live s (e_he2 r) /\ e_he1 r <> e_he2 r /\
     pair_of s (e_he1 r) = e_he2 r /\ pair_of s (e_he2 r) = e_he1 r /\
     edge_of s (e_he1 r) = e /\ edge_of s (e_he2 r) = e).
Proof.
  intros R. pose proof (reachable_well_formed s R) as W.
  pose proof (wf_attaching s W) as A. pose proof (at_linked s A) as Hl.
  split_and!.
  - intros h L. pose proof (live_pair s Hl h L) as Lp.
    destruct (wf_origin s W h L) as [n Hn]. destruct (wf_origin s W _ Lp) as [m Hm].
    exists n, m. split_and!;
      [done|done| |apply (at_attached s A h n L Hn)|apply (at_attached s A _ m Lp Hm)].
    intros ->. by apply (at_no_loop s A h m L Hn).
  - apply (at_node s A).
  - apply (at_he_edge s A).
  - intros e r Hr. destruct (at_edge s A e r Hr) as (L & Ep & Hne & E1 & E2).
    pose proof (live_pair s Hl _ L) as Lp. rewrite Ep in Lp.
    split_and!; try done. rewrite <- Ep. by apply (lk_pair s Hl).
Qed.

(** [X4] In every store reached by calls that return, the halfedges that
    run into one node form a single cycle of the step [next] then [pair]:
    from any of them the walk reaches every other one and comes back, without
    meeting a halfedge twice on the way. *)
Theorem reachable_fan s x n :
  reachable s -> live s x -> target_of s x = Some n ->
  exists N, 0 < N /\ Nat.iter N (around s) x = x /\
    (forall t t', t < N -> t' < N ->
       Nat.iter t (around s) x = Nat.iter t' (around s) x -> t = t') /\
    (forall y, live s y -> target_of s y = Some n ->
       exists t, t < N /\ Nat.iter t (around s) x = y) /\
    (forall t, live s (Nat.iter t (around s) x) /\
       target_of s (Nat.iter t (around s) x) = Some n).
Proof.
  intros R L Ht. pose proof (reachable_well_formed s R) as W.
  pose proof (wf_attaching s W) as A. pose proof (at_linked s A) as Hl.
  destruct (fan_cycle s x n A L Ht) as (N & HN & Hc & Hinj & _ & Hall).
  exists N. split_and!; try done.
  intros t. split.
  - induction t as [|t IH]; [done|]. simpl. unfold around.
    by apply live_pair, live_next.
  - by rewrite target_iter.
Qed.

(** [X5] In every store reached by calls that return, [remove_face] of a
    face of the store returns: the face is taken out of the store, the
    halfedges that had it get the null face, every other halfedge keeps its
    face, and no link between halfedges, nodes and edges changes. *)
Theorem remove_face_reachable s f :
  reachable s -> is_Some (faces s !! f) ->
  exists s', remove_face (Some f) s = (Ok tt, s') /\
    faces s' = delete f (faces s) /\ nodes s' = nodes s /\
    same_links s s' /\
    forall x, live s x ->
      face_of s' x = if decide (face_of s x = Some f) then None else face_of s x.
Proof.
  intros R Hf. pose proof (reachable_well_formed s R) as W.
  pose proof (reachable_coherent s R) as Hc.
  pose proof (at_linked s (wf_attaching s W)) as Hl.
  destruct (remove_face_runs s f Hl Hc Hf) as [s' H]. exists s'.
  pose proof (remove_face_Ok _ _ _ _ H) as [E _].
  pose proof (remove_face_shape _ _ _ _ H) as (_ & Hfs & Hn & Hx).
  split_and!; try done.
  intros x Lx. rewrite Hx. destruct Hf as [r Hr].
  destruct (co_record s Hc f r Hr) as (hf & _ & L & Hff).
  pose proof (co_cycle_face s hf f x Hl Hc L Hff Lx). repeat case_decide; tauto.
Qed.

(** The store after a call of [remove_edge] that returns, in terms of the
    store before the call. *)
Lemma remove_edge_links s e r u s' :
  well_formed s -> edges s !! e = Some r -> remove_edge e s = (Ok u, s') ->
  let a := e_he1 r in
  let b := e_he2 r in
  (forall h, live s' h <-> live s h /\ h <> a /\ h <> b) /\
  (forall h, h <> a -> h <> b -> origin_of s' h = origin_of s h) /\
  (forall h, h <> a -> h <> b -> pair_of s' h = pair_of s h) /\
  (forall h, h <> a -> h <> b -> edge_of s' h = edge_of s h) /\
  (forall h, h <> a -> h <> b -> next_of s' h =
     if decide (h = prev_of s b) then next_of s a
     else if decide (h = prev_of s a) then next_of s b else next_of s h) /\
  (forall h, h <> a -> h <> b -> prev_of s' h =
     if decide (h = next_of s a) then prev_of s b
     else if decide (h = next_of s b) then prev_of s a else prev_of s h) /\
  edges s' = delete e (edges s).
Proof.
  intros W Hr H a b. apply remove_edge_Ok in H as (r' & s1 & s2 & Hr' & F1 & F2 & ->).
  assert (r' = r) as -> by congruence. fold a b.
  pose proof (face_removed_same_links _ _ _ F1) as E1.
  pose proof (face_removed_same_links _ _ _ F2) as E2.
  pose proof (same_links_trans _ _ _ E1 E2) as E.
  pose proof (well_formed_same_links _ _ E W) as W2.
  assert (edges s2 !! e = Some r) as Hr2 by by rewrite (sl_edges _ _ E).
  destruct (remove_edge_shape s2 e r W2 Hr2) as (El & Eo & Ep & Ee & En & Ev & Eh & Ees).
  fold a b in El, Eo, Ep, Ee, En, Ev, Eh.
  split_and!.
  - intros h. rewrite El, (sl_live _ _ E). done.
  - intros h ? ?. rewrite Eo by done. apply (sl_origin _ _ E).
  - intros h ? ?. rewrite Ep by done. apply (sl_pair _ _ E).
  - intros h ? ?. rewrite Ee by done. apply (sl_edge _ _ E).
  - intros h ? ?. rewrite En by done. by rewrite !(sl_next _ _ E), !(sl_prev _ _ E).
  - intros h ? ?. rewrite Ev by done. by rewrite !(sl_next _ _ E), !(sl_prev _ _ E).
  - etrans; [apply Ees|]. by rewrite (sl_edges _ _ E).
Qed.

(** [X6] In every store reached by calls that return, [remove_edge] of an
    edge of the store returns.  The edge and its two halfedges [a] and [b]
    are gone, and so are the faces on its two sides: a halfedge that shared a
    face with [a] or [b] gets the null face, and the number of faces drops
    by the number of sides that had one.  The halfedges that remain keep
    their origin, pair and edge, and their [next] skips the removed
    halfedges: it goes from [prev(b)] to [next(a)] and from [prev(a)] to
    [next(b)]. *)
Theorem remove_edge_reachable s e r :
  reachable s -> edges s !! e = Some r ->
  let a := e_he1 r in
  let b := e_he2 r in
  exists s', remove_edge e s = (Ok tt, s') /\
    edges s' = delete e (edges s) /\
    (forall h, live s' h <-> live s h /\ h <> a /\ h <> b) /\
    (forall h, live s' h ->
       origin_of s' h = origin_of s h /\ pair_of s' h = pair_of s h /\
       edge_of s' h = edge_of s h /\
       face_of s' h =
         (if decide (face_of s h = face_of s a \/ face_of s h = face_of s b)
          then None else face_of s h) /\
       next_of s' h =
         (if decide (h = prev_of s b) then next_of s a
          else if decide (h = prev_of s a) then next_of s b else next_of s h)) /\
    size (faces s') + sides_with_face s e = size (faces s).
Proof.
  intros R Hr a b. pose proof (reachable_well_formed s R) as W.
  pose proof (reachable_coherent s R) as Hc.
  destruct (remove_edge_runs s e r W Hc Hr) as [s' H]. exists s'.
  destruct (remove_edge_links s e r tt s' W Hr H) as (El & Eo & Ep & Ee & En & _ & Ees).
  destruct (remove_edge_coherent s e r tt s' W Hc Hr H) as [_ Ef].
  destruct (remove_edge_count e s tt s' (two_sided_coherent s e W Hc) H) as [Hn _].
  fold a b in El, Eo, Ep, Ee, En, Ef.
  split_and!; try done.
  intros h L. pose proof L as L'. apply El in L' as (_ & Ha & Hb).
  split_and!; auto.
Qed.

(** ** When [add_edge] returns and when it throws *)

(** [attach_halfedge_to_node] returns at a node that is isolated or has a
    free incident halfedge, and throws [bad_topology_error], with the origin
    of the halfedge already set, at any other node. *)
Lemma attach_halfedge_to_node_decides s h n :
  attaching s -> live s h -> origin_of s h = None -> is_Some (nodes s !! n) ->
  (halfedge_of s n = None \/ exists g, free_incident s n g) /\
  (exists s', attach_halfedge_to_node h (Some n) s = (Ok tt, s')) \/
  halfedge_of s n <> None /\ (~ exists g, free_incident s n g) /\
  attach_halfedge_to_node h (Some n) s = (Err bad_topology_error, upd_origin h (Some n) s).
Proof.
  intros Hat L Oh Ln. pose proof (at_linked s Hat) as Hl.
  pose proof (live_pair s Hl h L) as Lp.
  destruct (halfedge_of s n) as [h0|] eqn:Eh0.
  2:{ left. split; [by left|]. eexists. by apply attach_isolated_run. }
  destruct (at_node s Hat n h0 Eh0) as [L0 O0].
  pose proof (live_pair s Hl h0 L0) as Ls.
  assert (target_of s (pair_of s h0) = Some n) as Ts.
  { unfold target_of. by rewrite (lk_pair s Hl). }
  destruct (fan_cycle s (pair_of s h0) n Hat Ls Ts) as (N & HN & Hper & _ & _ & Hall).
  destruct (free_walk_outcome_attaching s h n (pair_of s h0) Hl Ls) as [Hfound Hturn].
  destruct (first_index (fun m => face_of s (Nat.iter m (around s) (pair_of s h0)) = None) N)
    as [(k & Hk & Hfree & Hfirst)|Hno].
  - set (g := Nat.iter k (around s) (pair_of s h0)).
    assert (live s g) as Lg by by apply live_iter.
    assert (target_of s g = Some n) as Tg by (unfold g; by rewrite (target_iter s Hl)).
    pose proof (live_next s Hl g Lg) as Lf.
    left. split; [right; by exists g|].
    exists (attached_after s h n g). apply (attach_after_run s h n h0 g); try done.
    by apply Hfound.
  - right. split_and!; [done| |].
    + intros (g & Lg & Fg & Tg). destruct (Hall g Lg Tg) as (t & Ht & Et).
      apply (Hno t); [lia|]. by rewrite Et.
    + apply (attach_full_run s h n h0); try done.
      apply (Hturn N HN Hper). intros j Hj. apply Hno. lia.
Qed.

(** A free incident halfedge of the store is one of the store with a new
    edge, and of the store in which a new halfedge is attached to another
    node; and the other way round. *)
Lemma free_incident_frame s s' n :
  linked s ->
  (forall x, live s x -> live s' x) ->
  (forall x, live s x -> face_of s' x = face_of s x) ->
  (forall x, live s x -> pair_of s' x = pair_of s x) ->
  (forall x, live s x -> origin_of s' x = origin_of s x) ->
  forall g, live s g -> (free_incident s' n g <-> free_incident s n g).
Proof.
  intros Hl El Ef Ep Eo g Lg. unfold free_incident, target_of.
  rewrite Ef, Ep, Eo by (done || by apply live_pair). intuition.
Qed.

Lemma add_edge_start s n1 n2 e s1 a b :
  n1 <> n2 -> get_new_edge s = (Ok e, s1) -> edges s1 !! e = Some (mkEdge a b) ->
  add_edge n1 n2 s =
    (let* _ := attach_halfedge_to_node a n1 in
     let* _ := attach_halfedge_to_node b n2 in ret a) s1.
Proof.
  intros Hne He Hr. unfold add_edge.
  rewrite bool_decide_eq_true_2 by done.
  change (boost_assert true) with (ret tt : M unit).
  unfold bind at 1. unfold ret at 1.
  rewrite (bind_run _ _ _ _ _ He).
  rewrite (bind_run _ _ _ _ _ (he1_run e s1 _ Hr)).
  rewrite (bind_run _ _ _ _ _ (he2_run e s1 _ Hr)). done.
Qed.

(** The three outcomes of [add_edge] between two different nodes of a
    well-formed store. *)
Lemma add_edge_outcome s n1 n2 :
  well_formed s -> n1 <> n2 -> is_Some (nodes s !! n1) -> is_Some (nodes s !! n2) ->
  exists e s1 a b,
    get_new_edge s = (Ok e, s1) /\ edges s1 !! e = Some (mkEdge a b) /\
    edges s1 = <[e := mkEdge a b]> (edges s) /\ edges s !! e = None /\
    ((halfedge_of s n1 = None \/ exists g, free_incident s n1 g) /\
     (halfedge_of s n2 = None \/ exists g, free_incident s n2 g) /\
     (exists s', add_edge (Some n1) (Some n2) s = (Ok a, s') /\
        edges s' = edges s1 /\ pair_of s' a = b) \/
     (exists n s', (n = n1 \/ n = n2) /\
        halfedge_of s n <> None /\ (~ exists g, free_incident s n g) /\
        add_edge (Some n1) (Some n2) s = (Err bad_topology_error, s') /\
        edges s' = edges s1 /\ live s' a /\ live s' b)).
Proof.
  intros W Hne Ln1 Ln2. pose proof (wf_attaching s W) as Hat.
  pose proof (at_linked s Hat) as Hl.
  assert (exists e s1, get_new_edge s = (Ok e, s1)) as (e & s1 & He).
  { eexists _, _. reflexivity. }
  destruct (get_new_edge_attaching s e s1 Hat He)
    as (Hat1 & a & b & Hab & Da & Db & Hr & El1 & Oa & Ob & Pa & Pb & Eo1 & En1 & Ef1).
  destruct (get_new_edge_faces s e s1 a b He Hr) as (Fa & Fb & Eold1).
  destruct (get_new_edge_Ok s e s1 He) as (a' & b' & _ & _ & _ & Hfresh & _ & Ees & _).
  assert (a' = a /\ b' = b) as [-> ->].
  { rewrite Ees, lookup_insert_eq in Hr. by injection Hr. }
  exists e, s1, a, b. split_and!; try done.
  assert (Some n1 <> Some n2) as Hne' by congruence.
  rewrite (add_edge_start s _ _ e s1 a b Hne' He Hr).
  assert (live s1 a) as La by (apply El1; auto).
  assert (live s1 b) as Lb by (apply El1; auto).
  assert (forall n g, live s g -> (free_incident s1 n g <-> free_incident s n g)) as Hfree1.
  { intros n g Lg. apply free_incident_frame; try done.
    - intros x Lx. apply El1. auto.
    - intros x Lx. by apply Eold1.
    - intros x Lx. by apply Eold1. }
  assert (forall n, (exists g, free_incident s1 n g) <-> (exists g, free_incident s n g)) as Hex1.
  { intros n. split; intros (g & Hg).
    - exists g. apply Hfree1; [|done]. destruct Hg as (Lg & Fg & Tg).
      apply El1 in Lg as [->| [->|Lg]]; [| |done].
      + unfold target_of in Tg. rewrite Pa, Ob in Tg. done.
      + unfold target_of in Tg. rewrite Pb, Oa in Tg. done.
    - exists g. apply Hfree1; [|done]. by destruct Hg. }
  assert (forall n, halfedge_of s1 n = halfedge_of s n) as Hh1.
  { intros n. unfold halfedge_of. by rewrite En1. }
  destruct (attach_halfedge_to_node_decides s1 a n1 Hat1 La Oa ltac:(by rewrite En1))
    as [[Hroom1 [s2 H1]]|(Hfull & Hnone & H1)].
  2:{ right. exists n1, (upd_origin a (Some n1) s1). split_and!.
      - by left.
      - by rewrite <- Hh1.
      - by rewrite <- Hex1.
      - by apply bind_fail.
      - done.
      - solve_live.
      - solve_live. }
  rewrite (bind_run _ _ _ _ _ H1).
  pose proof H1 as H1'.
  apply attach_halfedge_to_node_attaching in H1'
    as (m1 & [= <-] & _ & Hat2 & El2 & Eo2 & Ep2 & Ee2 & Ef2 & Ees2 & Efs2 & End2);
    [|done|done|unfold target_of; rewrite Pa, Ob; by intros [? ?]].
  assert (halfedge_of s2 n2 = halfedge_of s1 n2) as Hh2.
  { apply attach_halfedge_to_node_Ok in H1
      as (_ & Lp & m & [= <-] & _ & [[Hiso ->]|(h0 & g & k & _ & _ & _ & _ & _ & Lg & Lf & ->)]).
    - destruct (attached_isolated_getters s1 a n1 Hat1 La Oa ltac:(by rewrite En1))
        as (_ & _ & _ & _ & _ & _ & _ & Eh & _).
      rewrite Eh. by rewrite decide_False by done.
    - destruct (attached_after_getters s1 a n1 g La Lp Lg Lf)
        as (_ & _ & _ & _ & _ & _ & _ & Eh & _).
      apply Eh. }
  assert (live s2 a) as La2 by by apply El2.
  assert (live s2 b) as Lb2 by by apply El2.
  assert (origin_of s2 b = None) as Ob2.
  { rewrite Eo2. by rewrite decide_False by done. }
  assert ((exists g, free_incident s2 n2 g) <-> (exists g, free_incident s n2 g)) as Hex2.
  { rewrite <- Hex1. split; intros (g & Lg & Fg & Tg); exists g.
    - apply El2 in Lg. rewrite Ef2 in Fg. unfold target_of in Tg.
      rewrite Ep2, Eo2 in Tg. split_and!; [done|done|].
      case_decide as Ec; [congruence|done].
    - unfold free_incident, target_of. rewrite El2, Ef2, Ep2, Eo2.
      split_and!; [done|done|]. rewrite decide_False; [done|].
      intros Ec. unfold target_of in Tg. rewrite Ec, Oa in Tg. done. }
  destruct (attach_halfedge_to_node_decides s2 b n2 Hat2 Lb2 Ob2
              ltac:(by rewrite End2, En1))
    as [[Hroom2 [s3 H2]]|(Hfull & Hnone & H2)].
  - left. split_and!.
    + destruct Hroom1 as [?|?]; [left; by rewrite <- Hh1|right; by rewrite <- Hex1].
    + destruct Hroom2 as [?|?]; [left; by rewrite <- Hh1, <- Hh2|right; by rewrite <- Hex2].
    + exists s3. rewrite (bind_run _ _ _ _ _ H2). split; [done|].
      apply attach_halfedge_to_node_attaching in H2
        as (m2 & [= <-] & _ & _ & _ & _ & Ep3 & _ & _ & Ees3 & _);
        [|done|done|].
      * rewrite Ees3, Ees2, Ep3, Ep2. done.
      * unfold target_of. rewrite Ep2, Pb, Eo2, decide_True by done.
        intros _ [= ?]. done.
  - right. exists n2, (upd_origin b (Some n2) s2). split_and!.
    + by right.
    + by rewrite <- Hh1, <- Hh2.
    + by rewrite <- Hex2.
    + by apply bind_fail.
    + done.
    + solve_live.
    + solve_live.
Qed.

(** [X7] Between two different nodes of a well-formed store, each of them
    isolated or with a free incident halfedge, [add_edge] returns.  The
    halfedge [a] it returns is new, it runs from the first node to the
    second, it is the first halfedge of a new edge whose second halfedge is
    its pair, and both have the null face; the halfedges that were there keep
    their origin, pair and face, the faces are the same, and the store is
    well formed again. *)
Theorem add_edge_returns s n1 n2 :
  well_formed s -> n1 <> n2 -> is_Some (nodes s !! n1) -> is_Some (nodes s !! n2) ->
  (halfedge_of s n1 = None \/ exists g, free_incident s n1 g) ->
  (halfedge_of s n2 = None \/ exists g, free_incident s n2 g) ->
  exists a s',
    add_edge (Some n1) (Some n2) s = (Ok a, s') /\ well_formed s' /\
    ~ live s a /\ ~ live s (pair_of s' a) /\
    (forall h, live s' h <-> h = a \/ h = pair_of s' a \/ live s h) /\
    origin_of s' a = Some n1 /\ target_of s' a = Some n2 /\
    face_of s' a = None /\ face_of s' (pair_of s' a) = None /\
    edges s' = <[fresh (dom (edges s)) := mkEdge a (pair_of s' a)]> (edges s) /\
    faces s' = faces s /\
    (forall h, live s h ->
       origin_of s' h = origin_of s h /\ pair_of s' h = pair_of s h /\
       face_of s' h = face_of s h).
Proof.
  intros W Hne Ln1 Ln2 R1 R2.
  destruct (add_edge_outcome s n1 n2 W Hne Ln1 Ln2)
    as (e & s1 & a & b & He & Hr & Ees & Hfresh & [(_ & _ & s' & H & Ees' & Pab)|Hthrow]).
  2:{ destruct Hthrow as (n & s' & [->| ->] & Hfull & Hnone & _).
      - by destruct R1.
      - by destruct R2. }
  exists a, s'. split; [done|].
  destruct (add_edge_well_formed s _ _ a s' W H)
    as (W' & m1 & m2 & b' & [= <-] & [= <-] & _ & Da & Db & Hab & El & Pa & Pb & Oa & Ob &
        Fa & Fb & Eold & Efs & _).
  rewrite Pa. unfold target_of. rewrite Pa. split_and!; try done.
  assert (e = fresh (dom (edges s))) as <- by (by injection He).
  rewrite Ees', Ees. congruence.
Qed.

(** [X8] Between two different nodes of a well-formed store, one of which
    is not isolated and has no free incident halfedge, [add_edge] throws
    [bad_topology_error], and it does not take back what it has done: the
    edge that it allocated, with its two halfedges, stays in the store. *)
Theorem add_edge_throws s n1 n2 n :
  well_formed s -> n1 <> n2 -> is_Some (nodes s !! n1) -> is_Some (nodes s !! n2) ->
  n = n1 \/ n = n2 -> halfedge_of s n <> None -> (~ exists g, free_incident s n g) ->
  exists s' a b,
    add_edge (Some n1) (Some n2) s = (Err bad_topology_error, s') /\
    edges s' = <[fresh (dom (edges s)) := mkEdge a b]> (edges s) /\
    size (edges s') = S (size (edges s)) /\
    ~ live s a /\ ~ live s b /\ live s' a /\ live s' b.
Proof.
  intros W Hne Ln1 Ln2 Hn Hfull Hnone.
  destruct (add_edge_outcome s n1 n2 W Hne Ln1 Ln2)
    as (e & s1 & a & b & He & Hr & Ees & Hfresh &
        [(R1 & R2 & _)|(m & s' & _ & _ & _ & H & Ees' & La & Lb)]).
  { destruct Hn as [-> | ->]; [by destruct R1|by destruct R2]. }
  destruct (get_new_edge_attaching s e s1 (wf_attaching s W) He)
    as (_ & a' & b' & _ & Da & Db & Hr' & _).
  assert (a' = a /\ b' = b) as [-> ->] by (rewrite Hr in Hr'; by injection Hr').
  assert (e = fresh (dom (edges s))) as <- by (by injection He).
  exists s', a, b. split_and!; try done.
  - by rewrite Ees', Ees.
  - rewrite Ees', Ees. by rewrite map_size_insert_None.
Qed.

(** A check, on the list of the halfedges of a store, that no halfedge is
    a free incident halfedge of the node [n]. *)
Lemma no_free_incident s n :
  forallb (fun gr => negb (bool_decide (h_face gr.2 = None /\ target_of s gr.1 = Some n)))
    (map_to_list (halfedges s)) = true ->
  ~ exists g, free_incident s n g.
Proof.
  intros Hall (g & [r Hr] & Fg & Tg).
  rewrite forallb_forall in Hall.
  specialize (Hall (g, r)). simpl in Hall.
  rewrite bool_decide_eq_true_2 in Hall.
  - assert (negb true = true) as Hf; [|done].
    apply Hall. apply list_elem_of_In. by apply elem_of_map_to_list.
  - split; [|done]. unfold face_of in Fg. by rewrite Hr in Fg.
Qed.

(** ** What [add_face] leaves behind *)

(** A [make_adjacent] that fails has changed nothing: the walk comes
    before the six assignments, and those are on halfedges of the store. *)
Lemma make_adjacent_Err_unchanged i o s e s' :
  linked s -> make_adjacent i o s = (Err e, s') -> s' = s.
Proof.
  intros Hl H. unfold make_adjacent in H.
  apply bind_Err in H as [H|(nx & s0 & Hnx & H)]; [by merr|].
  apply he_next_Ok in Hnx as (-> & L & ->).
  case_decide; [by merr|].
  apply bind_Err in H as [H|(b & s0 & Hb & H)]; [by merr|].
  apply he_next_Ok in Hb as (-> & _ & ->).
  apply bind_Err in H as [H|(d & s0 & Hd & H)]; [by merr|].
  apply he_prev_Ok in Hd as (-> & Lo & ->).
  apply bind_Err in H as [H|(n & s0 & Hn & H)]; [by merr|].
  apply he_origin_Ok in Hn as (-> & _ & ->).
  apply bind_Err in H as [H|(op & s0 & Hop & H)]; [by merr|].
  apply he_pair_Ok in Hop as (-> & _ & ->).
  apply bind_Err in H as [H|(g & s0 & Hg & H)].
  { by apply find_free_incident_halfedge2_Err in H as [? _]. }
  apply find_free_incident_halfedge2_Ok in Hg as (-> & _ & _ & _ & k & _ & _ & Lg & _).
  pose proof (live_next s Hl i L) as Lb. pose proof (live_prev s Hl o Lo) as Ld.
  pose proof (live_next s Hl g Lg) as Lh.
  exfalso.
  rewrite (bind_run _ _ _ _ _ (he_next_run g s Lg)) in H.
  erewrite bind_run in H by (apply set_next_run; solve_live).
  erewrite bind_run in H by (apply set_prev_run; solve_live).
  erewrite bind_run in H by (apply set_next_run; solve_live).
  erewrite bind_run in H by (apply set_prev_run; solve_live).
  erewrite bind_run in H by (apply set_next_run; solve_live).
  erewrite bind_run in H by (apply set_prev_run; solve_live).
  done.
Qed.

Lemma reads_bind {A B} (m : M A) (k : A -> M B) :
  reads m -> (forall a, reads (k a)) -> reads (bind m k).
Proof.
  intros Hm Hk s r s' H. unfold bind in H.
  destruct (m s) as [[a|e] s1] eqn:E.
  - apply Hm in E as ->. by apply Hk in H.
  - apply Hm in E as ->. by injection H.
Qed.

Lemma reads_ret {A} (a : A) : reads (ret a).
Proof. intros s r s' H. by injection H. Qed.

Lemma reads_throw {A} e : reads (throw e : M A).
Proof. intros s r s' H. by injection H. Qed.

Lemma reads_deref_he {A} h (f : Halfedge -> A) : reads (deref_he h f).
Proof.
  intros s r s' H. unfold deref_he in H. destruct (halfedges s !! h); by injection H.
Qed.

Lemma reads_deref_node {A} n (f : Node -> A) : reads (deref_node n f).
Proof.
  intros s r s' H. unfold deref_node in H.
  destruct n as [n|]; [destruct (nodes s !! n)|]; by injection H.
Qed.

Lemma reads_deref_edge {A} e (f : Edge -> A) : reads (deref_edge e f).
Proof.
  intros s r s' H. unfold deref_edge in H. destruct (edges s !! e); by injection H.
Qed.

Lemma reads_deref_face {A} f (g : Face -> A) : reads (deref_face f g).
Proof.
  intros s r s' H. unfold deref_face in H.
  destruct f as [f|]; [destruct (faces s !! f)|]; by injection H.
Qed.

Lemma reads_boost_assert b : reads (boost_assert b).
Proof. destruct b; [apply reads_ret|apply reads_throw]. Qed.

Lemma reads_and_then (a b : M bool) : reads a -> reads b -> reads (and_then a b).
Proof.
  intros Ha Hb. apply reads_bind; [done|]. intros []; [done|apply reads_ret].
Qed.

Lemma reads_position n : reads (position n).
Proof.
  apply reads_bind; [apply reads_deref_node|].
  intros [p|]; [apply reads_ret|apply reads_throw].
Qed.

Lemma reads_face_halfedge f : reads (face_halfedge f).
Proof.
  apply reads_bind; [apply reads_deref_face|].
  intros [p|]; [apply reads_ret|apply reads_throw].
Qed.

Lemma reads_chained h h' : reads (chained h h').
Proof.
  repeat (apply reads_bind; [apply reads_deref_he|intros ?]). apply reads_ret.
Qed.

Lemma reads_free_walk fuel stop it : reads (free_walk fuel stop it).
Proof.
  revert it. induction fuel as [|fuel IH]; intros it; simpl; [apply reads_throw|].
  apply reads_bind; [apply reads_deref_he|]. intros []; [apply reads_ret|].
  repeat (apply reads_bind; [apply reads_deref_he|intros ?]).
  case_decide; [apply reads_throw|apply IH].
Qed.

Lemma reads_find_free_incident_halfedge n : reads (find_free_incident_halfedge n).
Proof.
  apply reads_bind; [apply reads_deref_node|intros ?].
  apply reads_bind; [apply reads_boost_assert|intros ?].
  apply reads_bind; [apply reads_deref_node|intros [h|]]; [|apply reads_throw].
  apply reads_bind; [apply reads_deref_he|intros ?].
  intros s r s' H. by apply reads_free_walk in H.
Qed.

Lemma reads_find_free_incident_halfedge2 h1 h2 : reads (find_free_incident_halfedge2 h1 h2).
Proof.
  repeat (apply reads_bind; [apply reads_deref_he|intros ?]).
  apply reads_bind; [apply reads_boost_assert|intros ?].
  intros s r s' H. by apply reads_free_walk in H.
Qed.

Lemma all_adjacent_Err_safe s h1 h2 h3 e s' :
  well_formed s -> live s h1 -> live s h2 -> live s h3 -> closed_chain s h1 h2 h3 ->
  all_adjacent h1 h2 h3 s = (Err e, s') ->
  well_formed s' /\ relinked s s'.
Proof.
  intros Hwf L1 L2 L3 Hchain H.
  destruct (chain_not_pairs s h1 h2 h3 Hwf L1 L2 L3 Hchain) as (P1 & P2 & P3).
  destruct Hchain as (C1 & C2 & C3). unfold all_adjacent in H.
  apply and_then_Err in H as [H|(s1 & H1 & H)].
  { apply make_adjacent_Err_unchanged in H as ->;
      [split; [done|apply relinked_refl]|by apply at_linked, wf_attaching]. }
  destruct (make_adjacent_well_formed _ _ _ _ _ Hwf C1 P1 H1) as [Hwf1 E1].
  apply and_then_Err in H as [H|(s2 & H2 & H)].
  { apply make_adjacent_Err_unchanged in H as ->;
      [done|by apply at_linked, wf_attaching]. }
  assert (target_of s1 h2 = origin_of s1 h3) as C2'
    by by rewrite (relinked_target _ _ _ E1), (rl_origin _ _ E1).
  assert (pair_of s1 h3 <> h2) as P2' by by rewrite (rl_pair _ _ E1).
  destruct (make_adjacent_well_formed _ _ _ _ _ Hwf1 C2' P2' H2) as [Hwf2 E2].
  pose proof (relinked_trans _ _ _ E1 E2) as E12.
  apply make_adjacent_Err_unchanged in H as ->;
    [done|by apply at_linked, wf_attaching].
Qed.

Lemma add_face_Err_safe s h1 h2 h3 e s' :
  well_formed s -> add_face h1 h2 h3 s = (Err e, s') ->
  well_formed s' /\ relinked s s'.
Proof.
  intros W H0. pose proof H0 as H. unfold add_face in H.
  pose proof (at_linked s (wf_attaching s W)) as Hl.
  assert (reads (and_then (is_boundary h1) (and_then (is_boundary h2) (is_boundary h3))))
    as R1 by (repeat apply reads_and_then; apply reads_deref_he).
  assert (reads (and_then (chained h1 h2) (and_then (chained h2 h3) (chained h3 h1))))
    as R2 by (repeat apply reads_and_then; apply reads_chained).
  assert (well_formed s /\ relinked s s) as Hsame by (split; [done|apply relinked_refl]).
  apply bind_Err in H as [H|(free & s0 & Ht & H)]; [by apply R1 in H as ->|].
  pose proof (R1 _ _ _ Ht) as ->.
  destruct free; simpl in H; [|by apply throw_Err in H as [_ ->]].
  apply and_then_Ok in Ht as [(s0 & B1 & Ht)|[_ ?]]; [|done].
  apply is_boundary_Ok in B1 as (-> & L1 & F1). symmetry in F1. apply bool_decide_eq_true in F1.
  apply and_then_Ok in Ht as [(s0 & B2 & B3)|[_ ?]]; [|done].
  apply is_boundary_Ok in B2 as (-> & L2 & F2). symmetry in F2. apply bool_decide_eq_true in F2.
  apply is_boundary_Ok in B3 as (_ & L3 & F3). symmetry in F3. apply bool_decide_eq_true in F3.
  apply bind_Err in H as [H|(chain & s0 & Hc & H)]; [by apply R2 in H as ->|].
  pose proof (R2 _ _ _ Hc) as ->.
  destruct chain; simpl in H; [|by apply throw_Err in H as [_ ->]].
  apply and_then_Ok in Hc as [(s0 & C1 & Hc)|[_ ?]]; [|done].
  apply chained_Ok in C1 as (-> & _ & C1). symmetry in C1. apply bool_decide_eq_true in C1.
  apply and_then_Ok in Hc as [(s0 & C2 & C3)|[_ ?]]; [|done].
  apply chained_Ok in C2 as (-> & _ & C2). symmetry in C2. apply bool_decide_eq_true in C2.
  apply chained_Ok in C3 as (_ & _ & C3). symmetry in C3. apply bool_decide_eq_true in C3.
  assert (closed_chain s h1 h2 h3) as Hchain by done.
  apply bind_Err in H as [H|(adj & s3 & Ha & H)].
  { by apply (all_adjacent_Err_safe s h1 h2 h3 e s'). }
  exfalso. pose proof (all_adjacent_true _ _ _ _ _ _ Ha) as ->.
  destruct (all_adjacent_well_formed s h1 h2 h3 true s3 W L1 L2 L3 Hchain Ha) as [_ E].
  rewrite (add_face_run s h1 h2 h3 s3) in H0; try done.
  - by apply live_pair.
  - by apply live_pair.
  - by apply live_pair.
  - apply (rl_live _ _ E).
Qed.

(** [X10] A call of [add_face] that fails, whatever the failure, leaves a
    well-formed store well formed, with the same nodes, edges and faces, and
    the same origin, pair, face and edge at every halfedge: the only trace
    that it can leave is in the [next] and [prev] links, spliced by the
    calls of [make_adjacent] that came before the one that failed. *)
Theorem add_face_failure_is_safe s h1 h2 h3 e s' :
  well_formed s -> add_face h1 h2 h3 s = (Err e, s') ->
  well_formed s' /\ relinked s s'.
Proof. apply add_face_Err_safe. Qed.

(** Two stores with the same nodes, edges and faces, and the same fields at
    every halfedge, are the same store. *)
Lemma HDS_ext s s' :
  nodes s = nodes s' -> edges s = edges s' -> faces s = faces s' ->
  (forall h, live s h <-> live s' h) ->
  (forall h, origin_of s h = origin_of s' h) ->
  (forall h, pair_of s h = pair_of s' h) ->
  (forall h, next_of s h = next_of s' h) ->
  (forall h, prev_of s h = prev_of s' h) ->
  (forall h, face_of s h = face_of s' h) ->
  (forall h, edge_of s h = edge_of s' h) ->
  s = s'.
Proof.
  intros En Ee Ef El Eo Ep Ex Ev Ec Ed.
  assert (halfedges s = halfedges s') as Eh.
  { apply map_eq. intros h. specialize (El h). specialize (Eo h). specialize (Ep h).
    specialize (Ex h). specialize (Ev h). specialize (Ec h). specialize (Ed h).
    unfold live, origin_of, pair_of, next_of, prev_of, face_of, edge_of in *.
    destruct (halfedges s !! h) as [[]|], (halfedges s' !! h) as [[]|];
      simpl in *; subst; try done.
    - destruct El as [El _]. by destruct El.
    - destruct El as [_ El]. by destruct El. }
  destruct s, s'; simpl in *. by subst.
Qed.

Lemma remove_face_runs_at s f r hf :
  linked s -> faces s !! f = Some r -> f_halfedge r = Some hf -> live s hf ->
  exists s', remove_face (Some f) s = (Ok tt, s').
Proof.
  intros Hl Hr Hhf L.
  assert (forall t, faces t = faces s -> face_halfedge (Some f) t = (Ok hf, t)) as Hrun.
  { intros t Et. apply face_halfedge_Ok. split; [done|]. exists f, r. by rewrite Et. }
  eexists. unfold remove_face.
  rewrite (bind_run _ _ _ _ _ (Hrun s eq_refl)).
  rewrite (bind_run _ _ _ _ _ (set_face_run hf None s L)).
  erewrite bind_run by (apply Hrun; reflexivity).
  pose proof (live_next s Hl hf L) as Ln. pose proof (live_prev s Hl hf L) as Lv.
  erewrite bind_run by (apply he_next_run; solve_live).
  autorewrite with hds.
  erewrite bind_run by (apply set_face_run; solve_live).
  erewrite bind_run by (apply Hrun; reflexivity).
  erewrite bind_run by (apply he_prev_run; solve_live).
  autorewrite with hds.
  erewrite bind_run by (apply set_face_run; solve_live).
  unfold delete_face.
  erewrite bind_run; [reflexivity|].
  unfold deref_face. simpl. by rewrite Hr.
Qed.

(** [X9] A call [add_face(h1, h2, h3)] that returns on a well-formed store
    returns a new face whose halfedge is [h1]; afterwards the three
    halfedges, and no other halfedge, have got that face, and they follow
    each other, [h1.next = h2], [h2.next = h3] and [h3.next = h1]; no
    halfedge has changed its origin, pair or edge, the nodes and edges are
    the same, and the store is well formed again. *)
Theorem add_face_returns s h1 h2 h3 fo s' :
  well_formed s -> add_face h1 h2 h3 s = (Ok fo, s') ->
  exists f, fo = Some f /\ faces s !! f = None /\
    faces s' = <[f := mkFace (Some h1)]> (faces s) /\
    next_of s' h1 = h2 /\ next_of s' h2 = h3 /\ next_of s' h3 = h1 /\
    (forall x, face_of s' x =
       if decide (x = h1 \/ x = h2 \/ x = h3) then Some f else face_of s x) /\
    (forall x, live s' x <-> live s x) /\
    (forall x, origin_of s' x = origin_of s x /\ pair_of s' x = pair_of s x /\
       edge_of s' x = edge_of s x) /\
    nodes s' = nodes s /\ edges s' = edges s /\ well_formed s'.
Proof.
  intros W H. pose proof (add_face_well_formed s h1 h2 h3 fo s' W H) as W'.
  destruct (add_face_shape h1 h2 h3 s fo s' W H)
    as (L1 & L2 & L3 & Hfree & Hchain & s3 & f & Ha & W3 & E & Hf & -> & ->).
  destruct (all_adjacent_cycle s h1 h2 h3 true s3 W L1 L2 L3 Hchain Ha) as (N1 & N2 & N3).
  destruct (with_face_getters s3 f h1 h2 h3) as (E' & Ef & Efs & En);
    [by apply (rl_live _ _ E)..|].
  exists f. rewrite !(sl_next _ _ E'), Efs, En, (sl_edges _ _ E').
  rewrite (rl_faces _ _ E), (rl_nodes _ _ E), (rl_edges _ _ E).
  rewrite (rl_faces _ _ E) in Hf.
  split_and!; try done.
  - intros x. rewrite Ef, (rl_face _ _ E). repeat case_decide; try done; exfalso; tauto.
  - intros x. by rewrite (sl_live _ _ E'), (rl_live _ _ E).
  - intros x. rewrite (sl_origin _ _ E'), (sl_pair _ _ E'), (sl_edge _ _ E').
    by rewrite (rl_origin _ _ E), (rl_pair _ _ E), (rl_edge _ _ E).
Qed.

(** [X11] [remove_face] undoes [add_face]: on a well-formed store, after a
    call [add_face(h1, h2, h3)] that returns, [remove_face] of the new face
    returns, and the store is then the one that the three calls of
    [make_adjacent] inside [add_face] had left, which is the store before
    [add_face] when the three halfedges followed each other already. *)
Theorem remove_face_add_face s h1 h2 h3 fo s' :
  well_formed s -> add_face h1 h2 h3 s = (Ok fo, s') ->
  exists s3,
    all_adjacent h1 h2 h3 s = (Ok true, s3) /\ relinked s s3 /\
    remove_face fo s' = (Ok tt, s3) /\
    (next_of s h1 = h2 -> next_of s h2 = h3 -> next_of s h3 = h1 -> s3 = s).
Proof.
  intros W H.
  destruct (add_face_shape h1 h2 h3 s fo s' W H)
    as (L1 & L2 & L3 & Hfree & Hchain & s3 & f & Ha & W3 & E & Hf & -> & ->).
  destruct (all_adjacent_cycle s h1 h2 h3 true s3 W L1 L2 L3 Hchain Ha) as (N1 & N2 & N3).
  pose proof (at_linked s3 (wf_attaching s3 W3)) as Hl3.
  pose proof (proj2 (rl_live _ _ E h1) L1) as L1'.
  pose proof (proj2 (rl_live _ _ E h2) L2) as L2'.
  pose proof (proj2 (rl_live _ _ E h3) L3) as L3'.
  destruct (with_face_getters s3 f h1 h2 h3 L1' L2' L3') as (E' & Ef & Efs & En).
  set (s' := with_face s3 f h1 h2 h3) in *.
  assert (linked s') as Hl'.
  { apply at_linked, wf_attaching. by apply (well_formed_same_links s3). }
  assert (prev_of s3 h1 = h3) as V1 by (rewrite <- N3; by apply (lk_next_prev s3 Hl3)).
  exists s3. split_and!; [done|done| |].
  - destruct (remove_face_runs_at s' f (mkFace (Some h1)) h1 Hl') as [s'' Hr];
      [by rewrite Efs, lookup_insert_eq|done|by apply (sl_live _ _ E')|].
    rewrite Hr. f_equal.
    pose proof (remove_face_Ok _ _ _ _ Hr) as [E'' _].
    pose proof (remove_face_shape _ _ _ _ Hr) as (_ & Efs'' & En'' & Ef'').
    pose proof (same_links_trans _ _ _ E' E'') as Es.
    apply HDS_ext.
    + by rewrite En'', En.
    + apply (sl_edges _ _ Es).
    + rewrite Efs'', Efs, delete_insert_eq. by apply delete_id.
    + apply (sl_live _ _ Es).
    + apply (sl_origin _ _ Es).
    + apply (sl_pair _ _ Es).
    + apply (sl_next _ _ Es).
    + apply (sl_prev _ _ Es).
    + intros x. rewrite Ef'', Ef. unfold face_cycle.
      rewrite Efs, lookup_insert_eq. simpl.
      rewrite (sl_next _ _ E'), (sl_prev _ _ E'), N1, V1.
      destruct Hfree as (F1 & F2 & F3).
      rewrite <- (rl_face _ _ E) in F1, F2, F3.
      destruct (decide (x ∈ [h1; h2; h3])) as [Hin|Hin].
      * rewrite !elem_of_cons, elem_of_nil in Hin.
        destruct Hin as [->|[->|[->|[]]]]; done.
      * rewrite !elem_of_cons, elem_of_nil in Hin.
        rewrite !decide_False by tauto. done.
    + apply (sl_edge _ _ Es).
  - intros A1 A2 A3. apply all_adjacent_Ok in Ha as (_ & s1 & s2 & H1 & H2 & H3).
    apply make_adjacent_Ok in H1 as (_ & [[_ ->]|[? _]]); [|done].
    apply make_adjacent_Ok in H2 as (_ & [[_ ->]|[? _]]); [|done].
    apply make_adjacent_Ok in H3 as (_ & [[_ ->]|[? _]]); done.
Qed.

(** ** The walk of the second [find_free_incident_halfedge] *)

(** [X12] [find_free_incident_halfedge(he1, he2)] on two halfedges into the
    same node walks from [he1] by [next.pair]: it returns the first halfedge
    of that sequence whose face is null, when the walk has not come to [he2]
    before, and throws [bad_topology_error] when the walk comes to [he2]
    without one; [he1] itself is looked at even when it is [he2].  The
    store is not changed.  On halfedges into different nodes the assertion
    fails. *)
Theorem find_free_incident_halfedge2_walk s h1 h2 :
  closed_links s -> live s h1 -> live s h2 ->
  (target_of s h1 = target_of s h2 ->
   forall k,
     face_of s (Nat.iter k (around s) h1) = None ->
     (forall j, j < k ->
        face_of s (Nat.iter j (around s) h1) <> None /\
        Nat.iter (S j) (around s) h1 <> h2) ->
     find_free_incident_halfedge2 h1 h2 s = (Ok (Nat.iter k (around s) h1), s)) /\
  (target_of s h1 = target_of s h2 ->
   forall k,
     Nat.iter (S k) (around s) h1 = h2 ->
     (forall j, j <= k -> face_of s (Nat.iter j (around s) h1) <> None) ->
     find_free_incident_halfedge2 h1 h2 s = (Err bad_topology_error, s)) /\
  (target_of s h1 <> target_of s h2 ->
   find_free_incident_halfedge2 h1 h2 s = (Err Fault, s)).
Proof.
  intros Hc L1 L2.
  pose proof (fun k => closed_links_iter s h1 k Hc L1) as Hl.
  assert (live s (pair_of s h1)) as Lp1 by apply Hc, L1.
  assert (live s (pair_of s h2)) as Lp2 by apply Hc, L2.
  assert (
    find_free_incident_halfedge2 h1 h2 s =
    (let* _ := boost_assert (bool_decide (target_of s h1 = target_of s h2)) in
     fun s => free_walk (walk_fuel s) h2 h1 s) s) as Hrun.
  { unfold find_free_incident_halfedge2.
    rewrite (bind_run _ _ _ _ _ (he_pair_run h1 s L1)).
    rewrite (bind_run _ _ _ _ _ (he_origin_run _ s Lp1)).
    rewrite (bind_run _ _ _ _ _ (he_pair_run h2 s L2)).
    rewrite (bind_run _ _ _ _ _ (he_origin_run _ s Lp2)). done. }
  rewrite Hrun. split_and!.
  - intros Et k Hf Hfirst. rewrite bool_decide_eq_true_2 by done.
    change (boost_assert true) with (ret tt : M unit). unfold bind, ret.
    apply free_walk_found; [|by auto| |done].
    + unfold walk_fuel. apply Nat.lt_lt_succ_r.
      apply (distinct_bounded s (around s) h1 k); [|by auto].
      intros i j ? ?.
      apply (iter_first_distinct (around s) (fun h => face_of s h = None) _ k); try done.
      intros l ?. by apply Hfirst.
    + intros j ?. split_and!; [apply Hc, Hl|by apply Hfirst|by apply Hfirst].
  - intros Et k Hret Hnone. rewrite bool_decide_eq_true_2 by done.
    change (boost_assert true) with (ret tt : M unit). unfold bind, ret.
    destruct (first_index (fun m => Nat.iter (S m) (around s) h1 = h2) k)
      as [(m & Hm & Hmret & Hmfirst)|Hno]; [|by destruct (Hno k)].
    apply (free_walk_turn m); [| | |done].
    + unfold walk_fuel.
      apply Nat.lt_lt_succ_r, (distinct_bounded s (around s) (around s h1) m).
      * intros i j ? ?.
        apply (iter_first_distinct (around s) (fun h => h = h2) _ m); [| |done..].
        -- by rewrite <- iter_S_r.
        -- intros l ?. rewrite <- iter_S_r. by apply Hmfirst.
      * intros j ?. rewrite <- iter_S_r. apply Hl.
    + intros j ?. split_and!; [apply Hl|apply Hc, Hl|apply Hnone; lia].
    + intros j ?. apply Hmfirst. lia.
  - intros Hne. by rewrite bool_decide_eq_false_2 by done.
Qed.

(** ** [locate] *)

Lemma reads_negative_side out0 h : reads (negative_side out0 h).
Proof.
  apply reads_bind; [apply reads_deref_he|intros ?].
  apply reads_bind; [apply reads_deref_he|intros []].
  - apply reads_bind; [apply reads_deref_he|intros ?]. apply reads_ret.
  - repeat (apply reads_bind; [apply reads_deref_he|intros ?]). apply reads_ret.
Qed.

Lemma reads_locate_step p out0 hs hi : reads (locate_step p out0 hs hi).
Proof.
  apply reads_bind; [apply reads_deref_he|intros ?].
  apply reads_bind; [apply reads_position|intros p1].
  apply reads_bind; [apply reads_deref_he|intros ?].
  apply reads_bind; [apply reads_deref_he|intros ?].
  apply reads_bind; [apply reads_position|intros p2].
  destruct (oriented_side p1 p2 p).
  - apply reads_negative_side.
  - destruct (strictly_between p1 p2 p).
    { apply reads_bind; [apply reads_deref_he|intros ?]. apply reads_ret. }
    destruct (pt_eq p p1).
    { apply reads_bind; [apply reads_deref_he|intros ?]. apply reads_ret. }
    destruct (pt_eq p p2); [|apply reads_negative_side].
    repeat (apply reads_bind; [apply reads_deref_he|intros ?]). apply reads_ret.
  - apply reads_bind; [apply reads_deref_he|intros ?].
    case_decide; [|apply reads_ret].
    apply reads_bind; [apply reads_deref_he|intros ?]. apply reads_ret.
Qed.

Lemma reads_locate_loop fuel p out0 hs hi : reads (locate_loop fuel p out0 hs hi).
Proof.
  revert hs hi. induction fuel as [|fuel IH]; intros hs hi; simpl; [apply reads_throw|].
  apply reads_bind; [apply reads_locate_step|].
  intros [r|hs' hi']; [apply reads_ret|apply IH].
Qed.

Lemma reads_faces_begin : reads faces_begin.
Proof.
  intros s r s' H. unfold faces_begin in H.
  destruct (map_to_list (faces s)) as [|[]]; by injection H.
Qed.

(** The turns of [locate] that go on, and the turn that returns [IN_FACE]. *)
Lemma locate_step_Continue p out0 hs hi s hs1 hi1 s' :
  locate_step p out0 hs hi s = (Ok (Continue hs1 hi1), s') ->
  live s hi /\
  (on_positive_side s p hi /\ hs1 = hs /\ hi1 = next_of s hi /\ hi1 <> hs \/
   live s (pair_of s hi) /\ face_of s (pair_of s hi) <> None /\
   hs1 = pair_of s hi /\ hi1 = next_of s (pair_of s hi)).
Proof.
  unfold locate_step. intros H.
  apply bind_Ok in H as (o1 & s0 & H1 & H). apply he_origin_Ok in H1 as (-> & L & ->).
  apply bind_Ok in H as (p1 & s0 & H1 & H). apply position_Ok in H1 as (-> & n1 & O1 & P1).
  apply bind_Ok in H as (pr & s0 & H1 & H). apply he_pair_Ok in H1 as (-> & _ & ->).
  apply bind_Ok in H as (o2 & s0 & H1 & H). apply he_origin_Ok in H1 as (-> & Lp & ->).
  apply bind_Ok in H as (p2 & s0 & H1 & H). apply position_Ok in H1 as (-> & n2 & O2 & P2).
  split; [done|].
  assert (forall s0, negative_side out0 hi s = (Ok (Continue hs1 hi1), s0) ->
    live s (pair_of s hi) /\ face_of s (pair_of s hi) <> None /\
    hs1 = pair_of s hi /\ hi1 = next_of s (pair_of s hi)) as Hneg.
  { intros s0 Hn. apply negative_side_Ok in Hn as (_ & _ & ? & [[_ [=]]|[? [= -> ->]]]).
    done. }
  destruct (oriented_side p1 p2 p) eqn:Hside.
  - right. by eapply Hneg.
  - right. repeat (case_match; minv); try done. by eapply Hneg.
  - left. apply bind_Ok in H as (nx & s0 & H1 & H). apply he_next_Ok in H1 as (-> & _ & ->).
    case_decide; [by minv|]. apply ret_Ok in H as [[= -> ->] _].
    split_and!; try done. by exists n1, n2, p1, p2.
Qed.

Lemma locate_step_IN_FACE p out0 hs hi s r s' :
  locate_step p out0 hs hi s = (Ok (Return r), s') -> l_loc r = IN_FACE ->
  live s hi /\ on_positive_side s p hi /\ next_of s hi = hs /\
  r = mkLocated (face_of s hs) IN_FACE (l_on_node out0) (l_on_edge out0).
Proof.
  unfold locate_step. intros H Hloc.
  apply bind_Ok in H as (o1 & s0 & H1 & H). apply he_origin_Ok in H1 as (-> & L & ->).
  apply bind_Ok in H as (p1 & s0 & H1 & H). apply position_Ok in H1 as (-> & n1 & O1 & P1).
  apply bind_Ok in H as (pr & s0 & H1 & H). apply he_pair_Ok in H1 as (-> & _ & ->).
  apply bind_Ok in H as (o2 & s0 & H1 & H). apply he_origin_Ok in H1 as (-> & Lp & ->).
  apply bind_Ok in H as (p2 & s0 & H1 & H). apply position_Ok in H1 as (-> & n2 & O2 & P2).
  assert (forall s0, negative_side out0 hi s = (Ok (Return r), s0) -> False) as Hneg.
  { intros s0 Hn. apply negative_side_Ok in Hn as (_ & _ & ? & [[? [= ->]]|[_ [=]]]).
    done. }
  destruct (oriented_side p1 p2 p) eqn:Hside.
  - exfalso. by eapply Hneg.
  - exfalso. repeat (case_match; minv); try done. by eapply Hneg.
  - apply bind_Ok in H as (nx & s0 & H1 & H). apply he_next_Ok in H1 as (-> & _ & ->).
    case_decide as Hn; [|by minv]. rewrite Hn in H.
    apply bind_Ok in H as (f & s0 & H1 & H). apply he_face_Ok in H1 as (-> & _ & ->).
    apply ret_Ok in H as [[= <-] _].
    split_and!; try done. by exists n1, n2, p1, p2.
Qed.

(** Along the walk of [locate] on a well-formed store whose faces are
    triangles, the start halfedge has a face, and the current halfedge is
    the start halfedge, its [next], or the [next] of that, by which time the
    point has been found on the positive side of the one before. *)
Lemma walks_in_face s p out0 hs hi hs' hi' :
  well_formed s -> coherent s ->
  walks s p out0 hs hi hs' hi' ->
  live s hs -> face_of s hs <> None ->
  (hi = hs \/ hi = next_of s hs \/
   hi = next_of s (next_of s hs) /\ on_positive_side s p (next_of s hs)) ->
  live s hs' /\ face_of s hs' <> None /\
  (hi' = hs' \/ hi' = next_of s hs' \/
   hi' = next_of s (next_of s hs') /\ on_positive_side s p (next_of s hs')).
Proof.
  intros W Hc Hw. induction Hw as [|hs hi hs1 hi1 hs2 hi2 Hstep Hw IH]; [done|].
  intros L Hf Hinv. apply locate_step_Continue in Hstep as [Li [(Hp & -> & -> & Hne)|Hsw]].
  - apply IH; [done|done|].
    destruct Hinv as [->|[->|[-> _]]]; [by right; left|by right; right|].
    exfalso. apply Hne. by apply co_tri.
  - destruct Hsw as (Lp & Hfp & -> & ->). apply IH; [done|done|]. by right; left.
Qed.

(** [X13] In every store reached by calls that return, when [locate]
    returns [IN_FACE], the face handle that it returns is a face of the
    store, never the null handle; the query point has been found on the
    positive side of two of the three halfedges of that face, the two that
    follow the halfedge at which the walk entered the face; the store is not
    changed, and [on_node] and [on_edge] keep the values of the caller. *)
Theorem locate_in_face fuel p out0 start_face s r s' :
  reachable s ->
  locate fuel p out0 start_face s = (Ok r, s') -> l_loc r = IN_FACE ->
  s' = s /\
  exists f hs,
    r = mkLocated (Some f) IN_FACE (l_on_node out0) (l_on_edge out0) /\
    is_Some (faces s !! f) /\ live s hs /\ face_of s hs = Some f /\
    on_positive_side s p (next_of s hs) /\
    on_positive_side s p (next_of s (next_of s hs)).
Proof.
  intros R H Hloc. pose proof (reachable_well_formed s R) as W.
  pose proof (reachable_coherent s R) as Hc.
  unfold locate in H. apply bind_Ok in H as (h0 & s1 & H0 & H).
  assert (s1 = s /\ exists f0 r0, faces s !! f0 = Some r0 /\ f_halfedge r0 = Some h0)
    as (-> & f0 & r0 & Hr0 & Hh0).
  { destruct start_face.
    - apply face_halfedge_Ok in H0 as (-> & f' & r' & _ & ? & ?). eauto.
    - apply bind_Ok in H0 as (f & s2 & Hf & H0).
      apply reads_faces_begin in Hf as ->.
      apply face_halfedge_Ok in H0 as (-> & f' & r' & _ & ? & ?). eauto. }
  destruct (co_record s Hc f0 r0 Hr0) as (h0' & Hh0' & L0 & F0).
  assert (h0' = h0) as -> by congruence.
  apply locate_loop_Ok in H as (-> & hs & hi & Hwalk & Hstep).
  split; [done|].
  destruct (walks_in_face s p out0 h0 h0 hs hi W Hc Hwalk L0 ltac:(congruence) ltac:(by left))
    as (L & Hf & Hinv).
  apply locate_step_IN_FACE in Hstep as (Li & Hp & Hn & ->); [|done].
  destruct (face_of s hs) as [f|] eqn:Ef; [|done].
  pose proof (triangle_sides s hs W Hc L ltac:(congruence)) as Hnd.
  apply NoDup_cons in Hnd as [Hnd1 Hnd]. apply NoDup_cons in Hnd as [Hnd2 _].
  rewrite !elem_of_cons in Hnd1.
  destruct Hinv as [->|[->|[-> Hp1]]].
  - exfalso. by apply (next_moves s hs W).
  - exfalso. apply Hnd1. right; left. done.
  - exists f, hs. split_and!; try done.
    destruct (co_face s Hc hs f L Ef) as (hf & E & _). by rewrite E.
Qed.

(** [X14] [locate] and the two [find_free_incident_halfedge] only read the
    store: whether they return, throw or fail, the store is the one of the
    call. *)
Theorem locate_reads_the_store :
  (forall fuel p out0 start_face, reads (locate fuel p out0 start_face)) /\
  (forall n, reads (find_free_incident_halfedge n)) /\
  (forall h1 h2, reads (find_free_incident_halfedge2 h1 h2)).
Proof.
  split_and!.
  - intros fuel p out0 start_face. apply reads_bind; [|intros ?; apply reads_locate_loop].
    destruct start_face; [apply reads_face_halfedge|].
    apply reads_bind; [apply reads_faces_begin|intros ?; apply reads_face_halfedge].
  - apply reads_find_free_incident_halfedge.
  - apply reads_find_free_incident_halfedge2.
Qed.

(** ** [remove_node] on the stores between two calls *)

(** The loop of [remove_node] at a node [n] whose halfedge, if there is one,
    is the [next] of the loop: it returns, with [n] isolated; the halfedges
    that are gone had [n] at one end, and the others are as they were. *)
Lemma remove_node_loop_runs fuel n next t :
  well_formed t -> coherent t -> is_Some (nodes t !! n) ->
  size (edges t) < fuel ->
  (halfedge_of t n <> None ->
   exists cur, next = Some cur /\ live t cur /\ origin_of t cur = Some n) ->
  exists t',
    remove_node_loop fuel (Some n) next t = (Ok tt, t') /\
    well_formed t' /\ halfedge_of t' n = None /\
    (forall m, is_Some (nodes t' !! m) <-> is_Some (nodes t !! m)) /\
    (forall h, live t' h ->
       live t h /\ origin_of t' h = origin_of t h /\ pair_of t' h = pair_of t h /\
       edge_of t' h = edge_of t h) /\
    (forall h, live t h -> ~ live t' h ->
       origin_of t h = Some n \/ target_of t h = Some n).
Proof.
  revert next t. induction fuel as [|fuel IH]; intros next t W Hc Ln Hfuel Hnext; [lia|].
  cbn [remove_node_loop].
  rewrite (bind_run _ _ _ _ _ (is_isolated_run n t Ln)).
  destruct (decide (halfedge_of t n = None)) as [Hiso|Hiso].
  { rewrite bool_decide_eq_true_2 by done. exists t. split_and!; try done. }
  rewrite bool_decide_eq_false_2 by done.
  destruct (Hnext Hiso) as (cur & -> & Lc & Oc).
  pose proof (wf_attaching t W) as A. pose proof (at_linked t A) as Hl.
  pose proof (live_pair t Hl cur Lc) as Lp.
  rewrite (bind_run _ _ _ _ _ (he_pair_run cur t Lc)).
  rewrite (bind_run _ _ _ _ _ (he_next_run _ t Lp)).
  rewrite (bind_run _ _ _ _ _ (he_edge_run cur t Lc)).
  destruct (at_he_edge t A cur Lc) as (r & Hr & Hcur).
  destruct (remove_edge_runs t _ r W Hc Hr) as [t1 H1].
  rewrite (bind_run _ _ _ _ _ H1).
  pose proof (remove_edge_well_formed _ _ _ _ W H1) as W1.
  destruct (remove_edge_coherent t _ r tt t1 W Hc Hr H1) as [Hc1 _].
  destruct (remove_edge_links t _ r tt t1 W Hr H1) as (El & Eo & Ep & Ee & _ & _ & Ees).
  destruct (remove_edge_count _ _ _ _ (two_sided_coherent t _ W Hc) H1) as [_ En].
  destruct (at_edge t A _ r Hr) as (La & Pab & Hab & _).
  assert (pair_of t (e_he2 r) = e_he1 r) as Pba by (rewrite <- Pab; by apply (lk_pair t Hl)).
  assert ((e_he1 r = cur /\ e_he2 r = pair_of t cur) \/
          (e_he2 r = cur /\ e_he1 r = pair_of t cur)) as Hends.
  { destruct Hcur as [->| ->]; [left|right]; done. }
  assert (forall h, live t1 h <-> live t h /\ h <> cur /\ h <> pair_of t cur) as El'.
  { intros h. rewrite El. destruct Hends as [[-> ->]|[-> ->]]; tauto. }
  assert (forall h, live t1 h ->
            origin_of t1 h = origin_of t h /\ pair_of t1 h = pair_of t h /\
            edge_of t1 h = edge_of t h) as Eold.
  { intros h L. apply El in L as (_ & ? & ?). split_and!; auto. }
  destruct (IH (Some (next_of t (pair_of t cur))) t1 W1 Hc1) as (t' & Hrun & W' & Hiso' & En' & Eold' & Egone').
  - by apply En.
  - rewrite Ees. rewrite <- (insert_delete_id (edges t) _ r Hr) in Hfuel.
    rewrite map_size_insert_None in Hfuel by apply lookup_delete_eq. lia.
  - intros Hn1. exists (next_of t (pair_of t cur)). split; [done|].
    destruct (halfedge_of t1 n) as [h0|] eqn:Eh0; [|done].
    destruct (at_node t1 (wf_attaching t1 W1) n h0 Eh0) as [L0 O0].
    pose proof L0 as L0'. apply El' in L0' as (L0t & N0 & N0').
    destruct (Eold h0 L0) as (O0t & _). rewrite O0 in O0t.
    assert (live t (next_of t (pair_of t cur))) as Lnx by by apply live_next.
    assert (origin_of t (next_of t (pair_of t cur)) = Some n) as Onx.
    { rewrite (lk_origin t Hl) by done. by rewrite (lk_pair t Hl). }
    assert (live t1 (next_of t (pair_of t cur))) as Lnx1.
    { apply El'. split_and!; [done| |by apply next_moves].
      intros Enx.
      assert (around t (pair_of t cur) = pair_of t cur) as Hfix.
      { unfold around. by rewrite Enx. }
      destruct (at_fan t A (pair_of t cur) (pair_of t h0) n) as [k Hk].
      - done.
      - by apply live_pair.
      - unfold target_of. by rewrite (lk_pair t Hl).
      - unfold target_of. by rewrite (lk_pair t Hl).
      - assert (Nat.iter k (around t) (pair_of t cur) = pair_of t cur) as Hfixk.
        { clear Hk. induction k as [|k IHk]; [done|]. simpl. by rewrite IHk. }
        rewrite Hfixk in Hk. apply N0.
        rewrite <- (lk_pair t Hl h0), <- Hk by done. by apply (lk_pair t Hl). }
    split; [done|]. destruct (Eold _ Lnx1) as (-> & _). done.
  - exists t'. split_and!; try done.
    + intros m. by rewrite En', En.
    + intros h L. destruct (Eold' h L) as (L1 & -> & -> & ->).
      destruct (Eold h L1) as (-> & -> & ->). apply El' in L1 as (? & _). done.
    + intros h L Hdead. destruct (decide (live t1 h)) as [L1|L1].
      * destruct (Egone' h L1 Hdead) as [Ho|Ht].
        -- left. destruct (Eold h L1) as (<- & _). done.
        -- right. unfold target_of in *. destruct (Eold h L1) as (_ & <- & _).
           pose proof (live_pair t1 (at_linked t1 (wf_attaching t1 W1)) h L1) as Lp1.
           destruct (Eold _ Lp1) as (<- & _). done.
      * rewrite El' in L1.
        destruct (decide (h = cur)) as [->|?]; [by left|].
        destruct (decide (h = pair_of t cur)) as [->|?]; [|tauto].
        right. unfold target_of. by rewrite (lk_pair t Hl).
Qed.

(** [X15] In every store reached by calls that return, [remove_node] of a
    node of the store returns.  The node is gone and the other nodes are
    still there; the halfedges that are left are exactly those that had the
    node at neither end, each with the origin, pair and edge that it had;
    and the store is well formed. *)
Theorem remove_node_reachable s n :
  reachable s -> is_Some (nodes s !! n) ->
  exists s',
    remove_node (Some n) s = (Ok tt, s') /\ well_formed s' /\
    (forall m, is_Some (nodes s' !! m) <-> m <> n /\ is_Some (nodes s !! m)) /\
    (forall h, live s' h <->
       live s h /\ origin_of s h <> Some n /\ target_of s h <> Some n) /\
    (forall h, live s' h ->
       origin_of s' h = origin_of s h /\ pair_of s' h = pair_of s h /\
       edge_of s' h = edge_of s h).
Proof.
  intros R Ln. pose proof (reachable_well_formed s R) as W.
  pose proof (reachable_coherent s R) as Hc.
  pose proof (wf_attaching s W) as A. pose proof (at_linked s A) as Hl.
  unfold remove_node.
  rewrite (bind_run _ _ _ _ _ (node_halfedge_run n s Ln)).
  destruct (remove_node_loop_runs (S (size (edges s))) n (halfedge_of s n) s W Hc Ln)
    as (t & Hrun & Wt & Hiso & En & Eold & Egone).
  { lia. }
  { intros Hn. destruct (halfedge_of s n) as [h0|] eqn:Eh0; [|done].
    exists h0. split; [done|]. by apply (at_node s A). }
  erewrite bind_run by exact Hrun.
  assert (is_Some (nodes t !! n)) as Lnt by by apply En.
  assert (delete_node (Some n) t = (Ok tt, with_nodes t (delete n (nodes t)))) as Hdel.
  { unfold delete_node. erewrite bind_run; [reflexivity|].
    unfold deref_node. destruct Lnt as [? ->]. done. }
  exists (with_nodes t (delete n (nodes t))). split; [done|].
  pose proof (delete_node_same_links _ _ _ _ Hdel Hiso) as E.
  pose proof (well_formed_same_links _ _ E Wt) as W'.
  split_and!; [done| | |].
  - intros m. simpl. destruct (decide (m = n)) as [->|Hm].
    + rewrite lookup_delete_eq. split; [by intros [? ?]|tauto].
    + rewrite lookup_delete_ne by done. rewrite En. tauto.
  - intros h. rewrite (sl_live _ _ E). split.
    + intros L. destruct (Eold h L) as (Ls & Eo & Ep & _). split; [done|].
      pose proof (live_pair t (at_linked t (wf_attaching t Wt)) h L) as Lp.
      destruct (Eold _ Lp) as (_ & Eo' & _).
      unfold target_of. rewrite <- Ep, <- Eo, <- Eo'. split; intros Hn.
      * destruct (at_attached t (wf_attaching t Wt) h n L Hn) as [? ?]. congruence.
      * destruct (at_attached t (wf_attaching t Wt) _ n Lp Hn) as [? ?]. congruence.
    + intros (L & Ho & Ht). destruct (decide (live t h)) as [|Hdead]; [done|].
      destruct (Egone h L Hdead); done.
  - intros h L. rewrite (sl_origin _ _ E), (sl_pair _ _ E), (sl_edge _ _ E).
    apply (sl_live _ _ E) in L. destruct (Eold h L) as (_ & ? & ? & ?). done.
Qed.

(** ** [boundary_halfedge] *)

Lemma boundary_scan_runs s es :
  (forall e, e ∈ es -> exists r, edges s !! e = Some r /\ live s (e_he1 r) /\ live s (e_he2 r)) ->
  exists res, boundary_scan es s = (Ok res, s) /\
    match res with
    | Some h =>
        exists e r, e ∈ es /\ edges s !! e = Some r /\ (h = e_he1 r \/ h = e_he2 r) /\
          live s h /\ face_of s h = None
    | None =>
        forall e r, e ∈ es -> edges s !! e = Some r ->
          face_of s (e_he1 r) <> None /\ face_of s (e_he2 r) <> None
    end.
Proof.
  induction es as [|e es IH]; intros Hes.
  { exists None. split; [done|]. intros e r He. by apply elem_of_nil in He. }
  destruct (Hes e ltac:(left)) as (r & Hr & La & Lb).
  cbn [boundary_scan].
  rewrite (bind_run _ _ _ _ _ (he1_run e s r Hr)).
  rewrite (bind_run _ _ _ _ _ (is_boundary_run _ s La)).
  destruct (decide (face_of s (e_he1 r) = None)) as [Fa|Fa].
  { rewrite bool_decide_eq_true_2 by done.
    rewrite (bind_run _ _ _ _ _ (he1_run e s r Hr)).
    exists (Some (e_he1 r)). split; [done|]. exists e, r. split_and!; auto. left. }
  rewrite bool_decide_eq_false_2 by done.
  rewrite (bind_run _ _ _ _ _ (he2_run e s r Hr)).
  rewrite (bind_run _ _ _ _ _ (is_boundary_run _ s Lb)).
  destruct (decide (face_of s (e_he2 r) = None)) as [Fb|Fb].
  { rewrite bool_decide_eq_true_2 by done.
    rewrite (bind_run _ _ _ _ _ (he2_run e s r Hr)).
    exists (Some (e_he2 r)). split; [done|]. exists e, r. split_and!; auto. left. }
  rewrite bool_decide_eq_false_2 by done.
  destruct IH as (res & Hrun & Hres).
  { intros e' He'. apply Hes. by right. }
  exists res. split; [done|]. destruct res as [h|].
  - destruct Hres as (e' & r' & He' & ?). exists e', r'. split; [by right|done].
  - intros e' r' He' Hr'. apply elem_of_cons in He' as [->|He'].
    + assert (r' = r) as -> by congruence. done.
    + by apply (Hres e' r').
Qed.

(** [X16] On a well-formed store [boundary_halfedge] returns, and leaves
    the store as it is: it returns a halfedge of the store whose face is
    null, one of the two halfedges of an edge, when the store has such a
    halfedge, and the null handle exactly when every halfedge of the store
    has a face. *)
Theorem boundary_halfedge_finds s :
  well_formed s ->
  exists res, boundary_halfedge s = (Ok res, s) /\
    match res with
    | Some h =>
        live s h /\ face_of s h = None /\
        exists r, edges s !! edge_of s h = Some r /\ (h = e_he1 r \/ h = e_he2 r)
    | None => forall h, live s h -> face_of s h <> None
    end.
Proof.
  intros W. pose proof (wf_attaching s W) as A. pose proof (at_linked s A) as Hl.
  assert (forall e, e ∈ edges_list s <-> is_Some (edges s !! e)) as Hin.
  { intros e. unfold edges_list. rewrite list_elem_of_fmap. split.
    - intros ([e' r] & -> & He). apply elem_of_map_to_list in He. simpl. eauto.
    - intros [r Hr]. exists (e, r). split; [done|]. by apply elem_of_map_to_list. }
  destruct (boundary_scan_runs s (edges_list s)) as (res & Hrun & Hres).
  { intros e He. apply Hin in He as [r Hr]. exists r. split; [done|].
    destruct (at_edge s A e r Hr) as (La & Ep & _). split; [done|].
    rewrite <- Ep. by apply live_pair. }
  exists res. split; [done|]. destruct res as [h|].
  - destruct Hres as (e & r & _ & Hr & Hh & L & F). split_and!; [done..|].
    by apply (at_he_edge s A).
  - intros h L. destruct (at_he_edge s A h L) as (r & Hr & Hh).
    destruct (Hres (edge_of s h) r) as [Fa Fb]; [apply Hin; eauto|done|].
    by destruct Hh as [-> | ->].
Qed.

(** ** [split_face] *)

Lemma add_edge_edges s n1 n2 a s' :
  add_edge n1 n2 s = (Ok a, s') -> size (edges s') = S (size (edges s)).
Proof.
  intros H. unfold add_edge in H.
  apply bind_Ok in H as ([] & s0 & Hne & H). apply boost_assert_Ok in Hne as [_ ->].
  apply bind_Ok in H as (e & s1 & He & H).
  apply get_new_edge_Ok in He as (a' & b' & _ & _ & _ & Hfresh & _ & Ees & _).
  apply bind_Ok in H as (a0 & s0 & Ha & H). apply he1_Ok in Ha as (-> & _).
  apply bind_Ok in H as (b0 & s0 & Hb & H). apply he2_Ok in Hb as (-> & _).
  apply bind_Ok in H as ([] & s2 & H1 & H).
  apply bind_Ok in H as ([] & s3 & H2 & H). apply ret_Ok in H as [_ <-].
  assert (forall h n t t', attach_halfedge_to_node h n t = (Ok tt, t') -> edges t' = edges t)
    as Hframe.
  { intros h n t t' Hat.
    apply attach_halfedge_to_node_Ok in Hat
      as (_ & _ & m & _ & _ & [[_ ->]|(? & ? & ? & _ & _ & _ & _ & _ & _ & _ & ->)]); done. }
  rewrite (Hframe _ _ _ _ H2), (Hframe _ _ _ _ H1), Ees.
  by rewrite map_size_insert_None.
Qed.

Lemma add_face_edges s h1 h2 h3 f s' :
  well_formed s -> add_face h1 h2 h3 s = (Ok f, s') -> edges s' = edges s.
Proof.
  intros W H. apply add_face_shape in H
    as (L1 & L2 & L3 & _ & _ & s3 & f' & _ & _ & E & _ & _ & ->); [|done].
  destruct (with_face_getters s3 f' h1 h2 h3) as (E' & _); [by apply (rl_live _ _ E)..|].
  by rewrite (sl_edges _ _ E'), (rl_edges _ _ E).
Qed.

(** [X17] A call [split_face(f, p)] that returns on a well-formed store
    returns a node that was not in the store and is in it now, the other
    nodes being those of before; the store has three more edges and two
    more faces, one face removed and three added, and it is well formed
    again. *)
Theorem split_face_returns s f p n s' :
  well_formed s -> split_face f p s = (Ok n, s') ->
  (exists n', n = Some n' /\ nodes s !! n' = None /\
     forall m, is_Some (nodes s' !! m) <-> m = n' \/ is_Some (nodes s !! m)) /\
  size (edges s') = size (edges s) + 3 /\
  size (faces s') = size (faces s) + 2 /\
  well_formed s'.
Proof.
  intros W H. unfold split_face in H.
  apply bind_Ok in H as (h1 & s0 & H1 & H).
  apply face_halfedge_Ok in H1 as (-> & f' & r & -> & Hr & Hh1).
  apply bind_Ok in H as (h2 & s0 & H2 & H). apply he_next_Ok in H2 as (-> & L1 & ->).
  apply bind_Ok in H as (h3 & s0 & H3 & H). apply he_prev_Ok in H3 as (-> & _ & ->).
  apply bind_Ok in H as ([] & s1 & Hrem & H).
  pose proof (keeps_remove_face _ _ _ _ W Hrem) as W1.
  pose proof (remove_face_Ok _ _ _ _ Hrem) as (E1 & _).
  pose proof (remove_face_shape _ _ _ _ Hrem) as (_ & Ef1 & En1 & _).
  apply bind_Ok in H as (n_new & s2 & Hnode & H).
  pose proof (add_node_well_formed _ _ _ _ W1 Hnode) as W2.
  pose proof (add_node_Ok _ _ _ _ Hnode) as (E2 & Ef2 & _).
  rewrite add_node_run in Hnode. injection Hnode as <- <-.
  set (n' := fresh (dom (nodes s1))) in *.
  assert (nodes s !! n' = None) as Hfresh.
  { rewrite <- En1. apply not_elem_of_dom, is_fresh. }
  assert (forall m, is_Some (nodes (with_nodes s1 (<[n':=mkNode (Some p) None]> (nodes s1))) !! m)
            <-> m = n' \/ is_Some (nodes s !! m)) as En2.
  { intros m. simpl. rewrite En1. destruct (decide (m = n')) as [->|Hm].
    - rewrite lookup_insert_eq. split; [by left|eauto].
    - rewrite lookup_insert_ne by done. split; [by right|by intros [?|?]]. }
  set (s2 := with_nodes s1 _) in *.
  assert (size (faces s) = S (size (faces s2))) as F2.
  { rewrite Ef2, Ef1. rewrite <- (insert_delete_id (faces s) f' r Hr) at 1.
    by rewrite map_size_insert_None by apply lookup_delete_eq. }
  assert (edges s2 = edges s) as D2 by by rewrite (sl_edges _ _ E2), (sl_edges _ _ E1).
  apply bind_Ok in H as (o1 & s0 & Ho & H). apply he_origin_Ok in Ho as (-> & _ & ->).
  apply bind_Ok in H as (h4 & s3 & He4 & H).
  pose proof (add_edge_edges _ _ _ _ _ He4) as D3.
  apply add_edge_well_formed in He4 as (W3 & ? & ? & ? & _ & _ & _ & _ & _ & _ & _ &
      _ & _ & _ & _ & _ & _ & _ & F3 & N3); [|done].
  apply bind_Ok in H as (o2 & s0 & Ho & H). apply he_origin_Ok in Ho as (-> & _ & ->).
  apply bind_Ok in H as (h5 & s4 & He5 & H).
  pose proof (add_edge_edges _ _ _ _ _ He5) as D4.
  apply add_edge_well_formed in He5 as (W4 & ? & ? & ? & _ & _ & _ & _ & _ & _ & _ &
      _ & _ & _ & _ & _ & _ & _ & F4 & N4); [|done].
  apply bind_Ok in H as (o3 & s0 & Ho & H). apply he_origin_Ok in Ho as (-> & _ & ->).
  apply bind_Ok in H as (h6 & s5 & He6 & H).
  pose proof (add_edge_edges _ _ _ _ _ He6) as D5.
  apply add_edge_well_formed in He6 as (W5 & ? & ? & ? & _ & _ & _ & _ & _ & _ & _ &
      _ & _ & _ & _ & _ & _ & _ & F5 & N5); [|done].
  apply bind_Ok in H as (h5p & s0 & Hp & H). apply he_pair_Ok in Hp as (-> & _ & ->).
  apply bind_Ok in H as (f1 & s6 & Hf1 & H).
  pose proof (add_face_edges _ _ _ _ _ _ W5 Hf1) as D6.
  apply add_face_count in Hf1 as (W6 & F6 & N6); [|done].
  apply bind_Ok in H as (h6p & s0 & Hp & H). apply he_pair_Ok in Hp as (-> & _ & ->).
  apply bind_Ok in H as (f2 & s7 & Hf2 & H).
  pose proof (add_face_edges _ _ _ _ _ _ W6 Hf2) as D7.
  apply add_face_count in Hf2 as (W7 & F7 & N7); [|done].
  apply bind_Ok in H as (h4p & s0 & Hp & H). apply he_pair_Ok in Hp as (-> & _ & ->).
  apply bind_Ok in H as (f3 & s8 & Hf3 & H).
  pose proof (add_face_edges _ _ _ _ _ _ W7 Hf3) as D8.
  apply add_face_count in Hf3 as (W8 & F8 & N8); [|done].
  apply ret_Ok in H as [Hn Hs]. subst n s'. split_and!; [|idtac..|done].
  - exists n'. split_and!; [done|done|].
    intros m. rewrite N8, N7, N6, N5, N4, N3. apply En2.
  - rewrite D8, D7, D6, D5, D4, D3, D2. lia.
  - rewrite F8, F7, F6, F5, F4, F3, F2. lia.
Qed.

(** ** [remove_edge] undoes [add_edge] *)

Lemma position_of_upd_halfedge n v s m :
  position_of (upd_halfedge n v s) m = position_of s m.
Proof.
  unfold position_of, upd_halfedge. simpl.
  destruct (decide (m = n)) as [->|Hne].
  - rewrite lookup_alter_eq. by destruct (nodes s !! n).
  - by rewrite lookup_alter_ne.
Qed.

Lemma position_of_detached s he m : position_of (detached s he) m = position_of s m.
Proof.
  unfold detached. destruct (origin_of s he) as [n|]; [|done].
  case_decide; [|done].
  change (position_of (upd_prev ?a ?b (upd_next ?c ?d ?t)) m) with (position_of t m).
  apply position_of_upd_halfedge.
Qed.

(** Two stores with the same nodes, node by node. *)
Lemma nodes_ext s s' :
  (forall m, is_Some (nodes s !! m) <-> is_Some (nodes s' !! m)) ->
  (forall m, position_of s m = position_of s' m) ->
  (forall m, halfedge_of s m = halfedge_of s' m) ->
  nodes s = nodes s'.
Proof.
  intros El Ep Eh. apply map_eq. intros m.
  specialize (El m). specialize (Ep m). specialize (Eh m).
  unfold position_of, halfedge_of in *.
  destruct (nodes s !! m) as [[]|], (nodes s' !! m) as [[]|]; simpl in *; subst; try done.
  - destruct El as [El _]. by destruct El.
  - destruct El as [_ El]. by destruct El.
Qed.

(** The links after [attach_halfedge_to_node]: the new halfedge [h] comes
    after [g] and its pair before [fo], which are the pair and [h] itself
    at an isolated node, and a free incident halfedge of the node and its
    old [next] at any other node. *)
Lemma attach_links s h n u s' :
  attaching s -> origin_of s h = None ->
  attach_halfedge_to_node h (Some n) s = (Ok u, s') ->
  exists g fo,
    (halfedge_of s n = None /\ g = pair_of s h /\ fo = h \/
     halfedge_of s n <> None /\ live s g /\ target_of s g = Some n /\
     face_of s g = None /\ fo = next_of s g) /\
    (forall x, next_of s' x =
       if decide (x = pair_of s h) then fo else if decide (x = g) then h else next_of s x) /\
    (forall x, prev_of s' x =
       if decide (x = fo) then pair_of s h else if decide (x = h) then g else prev_of s x) /\
    (forall m, halfedge_of s' m =
       if decide (m = n /\ halfedge_of s n = None) then Some h else halfedge_of s m) /\
    (forall m, position_of s' m = position_of s m).
Proof.
  intros Hat Oh H. pose proof (at_linked s Hat) as Hl.
  apply attach_halfedge_to_node_Ok in H as (L & Lp & n' & [= <-] & Ln & H).
  destruct (at_stub s Hat h L Oh) as [Hv Hnx].
  destruct H as [[Hiso ->]|(h0 & g & k & Hh0 & L0 & -> & Fg & _ & Lg & Lf & ->)].
  - destruct (attached_isolated_getters s h n Hat L Oh Ln)
      as (_ & _ & _ & En & Ev & _ & _ & Eh & _).
    exists (pair_of s h), h. split_and!.
    + by left.
    + intros x. rewrite En. repeat case_decide; subst; done.
    + intros x. rewrite Ev. repeat case_decide; subst; done.
    + intros m. rewrite Eh. repeat case_decide; try done; tauto.
    + intros m. unfold attached_isolated.
      change (position_of (upd_next ?a ?b (upd_prev ?c ?d ?t)) m) with (position_of t m).
      by rewrite position_of_upd_halfedge.
  - set (g := Nat.iter k (around s) (pair_of s h0)) in *.
    destruct (attached_after_getters s h n g L Lp Lg Lf)
      as (_ & _ & _ & En & Ev & _ & _ & Eh & _).
    destruct (at_node s Hat n h0 Hh0) as [_ O0].
    assert (target_of s g = Some n) as Tg.
    { unfold g. rewrite (target_iter s Hl) by by apply live_pair.
      unfold target_of. by rewrite (lk_pair s Hl). }
    exists g, (next_of s g). split_and!.
    + right. split_and!; try done. congruence.
    + done.
    + done.
    + intros m. rewrite Eh. rewrite decide_False; [done|]. intros [-> ?]. congruence.
    + done.
Qed.

(** The links after a call of [add_edge] that returns, in terms of the
    store before the call. *)
Lemma add_edge_links s n1 n2 a s' :
  well_formed s -> add_edge n1 n2 s = (Ok a, s') ->
  exists m1 m2 b e pa nb pb na,
    n1 = Some m1 /\ n2 = Some m2 /\ m1 <> m2 /\
    edges s !! e = None /\ edges s' = <[e := mkEdge a b]> (edges s) /\
    (halfedge_of s m1 = None /\ pa = b /\ nb = a \/
     halfedge_of s m1 <> None /\ live s pa /\ target_of s pa = Some m1 /\
     nb = next_of s pa) /\
    (halfedge_of s m2 = None /\ pb = a /\ na = b \/
     halfedge_of s m2 <> None /\ live s pb /\ target_of s pb = Some m2 /\
     na = next_of s pb) /\
    next_of s' a = na /\ next_of s' b = nb /\ prev_of s' a = pa /\ prev_of s' b = pb /\
    (forall x, live s x ->
       next_of s' x = (if decide (x = pa) then a else if decide (x = pb) then b
                       else next_of s x) /\
       prev_of s' x = (if decide (x = nb) then b else if decide (x = na) then a
                       else prev_of s x)) /\
    (forall m, halfedge_of s' m =
       if decide (m = m1 /\ halfedge_of s m1 = None) then Some a
       else if decide (m = m2 /\ halfedge_of s m2 = None) then Some b
       else halfedge_of s m) /\
    (forall m, position_of s' m = position_of s m) /\
    (forall x, live s x -> edge_of s' x = edge_of s x).
Proof.
  intros Hwf H. unfold add_edge in H.
  pose proof (at_linked s (wf_attaching s Hwf)) as Hl.
  apply bind_Ok in H as ([] & s0 & Hne & H). apply boost_assert_Ok in Hne as [Hne ->].
  apply bool_decide_eq_true in Hne.
  apply bind_Ok in H as (e & s1 & He & H).
  destruct (get_new_edge_attaching s e s1 (wf_attaching s Hwf) He)
    as (Hat1 & a' & b & Hab & Da & Db & Hr & El1 & Oa & Ob & Pa & Pb & Eo1 & En1 & Ef1).
  destruct (get_new_edge_getters s e s1 a' b He Hr)
    as (_ & _ & _ & _ & Na & Nb & Va & Vb & Fa & Fb & Eold1 & _ & _).
  destruct (get_new_edge_Ok s e s1 He) as (a0 & b0 & _ & _ & _ & Hfresh & Ehs1 & Ees1 & _).
  assert (a0 = a' /\ b0 = b) as [-> ->].
  { rewrite Ees1, lookup_insert_eq in Hr. by injection Hr. }
  apply bind_Ok in H as (a0 & s0 & Ha & H). apply he1_Ok in Ha as (-> & r & Hr' & ->).
  rewrite Hr in Hr'. injection Hr' as <-. simpl in H.
  apply bind_Ok in H as (b0 & s0 & Hb & H). apply he2_Ok in Hb as (-> & r & Hr' & ->).
  rewrite Hr in Hr'. injection Hr' as <-. simpl in H.
  apply bind_Ok in H as ([] & s2 & H1 & H).
  pose proof H1 as H1'.
  apply attach_halfedge_to_node_attaching in H1'
    as (m1 & -> & Ln1 & Hat2 & El2 & Eo2 & Ep2 & Ee2 & Ef2 & Ees2 & Efs2 & End2);
    [|done|done|unfold target_of; rewrite Pa, Ob; by intros [? ->]].
  destruct (attach_links s1 a' m1 _ s2 Hat1 Oa H1) as (pa & nb & Hcase1 & Ex1 & Ev1 & Eh1 & Epos1).
  rewrite Pa in Ex1, Ev1, Hcase1.
  apply bind_Ok in H as ([] & s3 & H2 & H).
  assert (origin_of s2 b = None) as Ob2 by (rewrite Eo2; by rewrite decide_False by done).
  pose proof H2 as H2'.
  apply attach_halfedge_to_node_attaching in H2'
    as (m2 & -> & Ln2 & Hat3 & El3 & Eo3 & Ep3 & Ee3 & Ef3 & Ees3 & Efs3 & End3);
    [|done|done|].
  2: { unfold target_of. rewrite Ep2, Pb, Eo2. rewrite decide_True by done. congruence. }
  destruct (attach_links s2 b m2 _ s3 Hat2 Ob2 H2) as (pb & na & Hcase2 & Ex2 & Ev2 & Eh2 & Epos2).
  rewrite Ep2, Pb in Ex2, Ev2, Hcase2.
  apply ret_Ok in H as [Ea Es]. subst a s'.
  assert (m1 <> m2) as Hm by congruence.
  assert (forall h, live s h -> h <> a' /\ h <> b) as Hold by (intros h L; split; congruence).
  assert (forall m, halfedge_of s1 m = halfedge_of s m) as Hh1.
  { intros m. unfold halfedge_of. by rewrite En1. }
  assert (forall m, position_of s1 m = position_of s m) as Hp1.
  { intros m. unfold position_of. by rewrite En1. }
  assert (forall x, live s x -> target_of s1 x = target_of s x) as Ht1.
  { intros x L. unfold target_of. destruct (Eold1 x L) as (_ & _ & _ & -> & _).
    destruct (Eold1 _ (live_pair s Hl x L)) as (_ & _ & _ & _ & ->). done. }
  (* the halfedge after which [a'] is attached is one of [s] *)
  assert (halfedge_of s m1 = None /\ pa = b /\ nb = a' \/
          halfedge_of s m1 <> None /\ live s pa /\ target_of s pa = Some m1 /\
          nb = next_of s pa) as Hc1.
  { destruct Hcase1 as [(? & ? & ?)|(? & Lg & Tg & Fg & ->)]; [left; by rewrite <- Hh1|].
    right. rewrite <- Hh1.
    assert (live s pa) as Lpa.
    { apply El1 in Lg as [->|[->|?]]; [| |done].
      - unfold target_of in Tg. rewrite Pa, Ob in Tg. done.
      - unfold target_of in Tg. rewrite Pb, Oa in Tg. done. }
    split_and!; [done|done|by rewrite <- Ht1|].
    by destruct (Eold1 pa Lpa) as (-> & _). }
  assert (forall x, live s x -> next_of s2 x = if decide (x = pa) then a' else next_of s x) as Ex1'.
  { intros x L. destruct (Hold x L). rewrite Ex1. rewrite decide_False by done.
    destruct (Eold1 x L) as (-> & _). done. }
  assert (halfedge_of s m2 = None /\ pb = a' /\ na = b \/
          halfedge_of s m2 <> None /\ live s pb /\ target_of s pb = Some m2 /\
          na = next_of s pb) as Hc2.
  { assert (halfedge_of s2 m2 = halfedge_of s m2) as Hh2.
    { rewrite Eh1, Hh1. rewrite decide_False; [done|]. intros [? _]. done. }
    destruct Hcase2 as [(? & ? & ?)|(? & Lg & Tg & Fg & ->)]; [left; by rewrite <- Hh2|].
    right. rewrite <- Hh2.
    assert (live s pb) as Lpb.
    { apply El2, El1 in Lg as [->|[->|?]]; [| |done].
      - unfold target_of in Tg. rewrite Ep2, Pa, Ob2 in Tg. done.
      - unfold target_of in Tg. rewrite Ep2, Pb, Eo2, decide_True in Tg by done. congruence. }
    destruct (Hold pb Lpb).
    split_and!; [done|done| |].
    - rewrite <- Ht1 by done. unfold target_of in *. rewrite Ep2, Eo2 in Tg.
      rewrite decide_False in Tg; [done|]. intros Ec.
      destruct (Eold1 pb Lpb) as (_ & _ & _ & Ep & _). rewrite Ep in Ec.
      by destruct (Hold _ (live_pair s Hl pb Lpb)).
    - rewrite Ex1' by done. rewrite decide_False; [done|].
      intros ->. destruct Hc1 as [(_ & -> & _)|(_ & _ & Tpa & _)]; [done|].
      rewrite <- Ht1 in Tpa by done. unfold target_of in Tg, Tpa.
      rewrite Ep2, Eo2 in Tg. case_decide; congruence. }
  assert (pa <> pb) as Hpp.
  { destruct Hc1 as [(_ & -> & _)|(_ & L1 & T1 & _)], Hc2 as [(_ & -> & _)|(_ & L2 & T2 & _)].
    - done.
    - intros E. destruct (Hold pb L2). congruence.
    - intros E. destruct (Hold pa L1). congruence.
    - intros ->. congruence. }
  assert (nb <> na) as Hnn.
  { destruct Hc1 as [(_ & _ & ->)|(_ & L1 & T1 & ->)], Hc2 as [(_ & _ & ->)|(_ & L2 & T2 & ->)].
    - done.
    - intros E. destruct (Hold _ (live_next s Hl _ L2)). congruence.
    - intros E. destruct (Hold _ (live_next s Hl _ L1)). congruence.
    - intros E. apply Hpp.
      rewrite <- (lk_next_prev s Hl pa L1), <- (lk_next_prev s Hl pb L2). by rewrite E. }
  assert (pa <> a') as Hpa.
  { destruct Hc1 as [(_ & -> & _)|(_ & L1 & _)]; [done|]. by destruct (Hold pa L1). }
  assert (pb <> b) as Hpb.
  { destruct Hc2 as [(_ & -> & _)|(_ & L2 & _)]; [done|]. by destruct (Hold pb L2). }
  assert (nb <> b) as Hnb.
  { destruct Hc1 as [(_ & _ & ->)|(_ & L1 & _ & ->)]; [done|].
    by destruct (Hold _ (live_next s Hl _ L1)). }
  assert (na <> a') as Hna.
  { destruct Hc2 as [(_ & _ & ->)|(_ & L2 & _ & ->)]; [done|].
    by destruct (Hold _ (live_next s Hl _ L2)). }
  exists m1, m2, b, e, pa, nb, pb, na.
  split_and!; try done.
  - by rewrite Ees3, Ees2.
  - rewrite Ex2. by rewrite decide_True.
  - rewrite Ex2, Ex1. rewrite (decide_False (P:=b = a')) by done.
    rewrite (decide_False (P:=b = pb)) by done. by rewrite decide_True.
  - rewrite Ev2, Ev1. rewrite (decide_False (P:=a' = na)) by done.
    rewrite (decide_False (P:=a' = b)) by done.
    destruct Hc1 as [(_ & -> & ->)|(_ & L1 & _ & ->)].
    + by rewrite decide_True.
    + rewrite decide_False; [by rewrite decide_True|].
      intros E. destruct (Hold _ (live_next s Hl _ L1)). congruence.
  - rewrite Ev2.
    destruct Hc2 as [(_ & -> & ->)|(_ & L2 & _ & ->)].
    + by rewrite decide_True.
    + rewrite decide_False; [by rewrite decide_True|].
      intros E. destruct (Hold _ (live_next s Hl _ L2)). congruence.
  - intros x L. destruct (Hold x L) as [Xa Xb]. split.
    + rewrite Ex2. rewrite (decide_False (P:=x = a')) by done.
      rewrite Ex1' by done. repeat case_decide; subst; done.
    + rewrite Ev2, Ev1. rewrite (decide_False (P:=x = b)) by done.
      rewrite (decide_False (P:=x = a')) by done.
      destruct (Eold1 x L) as (_ & -> & _). repeat case_decide; subst; done.
  - intros m.
    assert (halfedge_of s2 m2 = halfedge_of s m2) as Hh2.
    { rewrite Eh1, Hh1. rewrite decide_False; [done|]. intros [? _]. done. }
    rewrite Eh2, Hh2, Eh1, !Hh1.
    repeat case_decide; try done; exfalso; destruct_and?; tauto || congruence.
  - intros m. by rewrite Epos2, Epos1, Hp1.
  - intros x L. destruct (Hold x L). rewrite Ee3, Ee2. unfold edge_of.
    rewrite Ehs1. by rewrite !lookup_insert_ne by done.
Qed.

Lemma HDS_ext_live s s' :
  nodes s = nodes s' -> edges s = edges s' -> faces s = faces s' ->
  (forall h, live s h <-> live s' h) ->
  (forall h, live s h ->
     origin_of s h = origin_of s' h /\ pair_of s h = pair_of s' h /\
     next_of s h = next_of s' h /\ prev_of s h = prev_of s' h /\
     face_of s h = face_of s' h /\ edge_of s h = edge_of s' h) ->
  s = s'.
Proof.
  intros En Ee Ef El Eg.
  assert (halfedges s = halfedges s') as Eh.
  { apply map_eq. intros h. specialize (El h). specialize (Eg h).
    unfold live, origin_of, pair_of, next_of, prev_of, face_of, edge_of in *.
    destruct (halfedges s !! h) as [[]|], (halfedges s' !! h) as [[]|]; simpl in *.
    - destruct Eg as (? & ? & ? & ? & ? & ?); [eauto|]. by subst.
    - destruct El as [El _]. by destruct El.
    - destruct El as [_ El]. by destruct El.
    - done. }
  destruct s, s'; simpl in *. by subst.
Qed.

(** [X18] [remove_edge] undoes [add_edge]: in every store reached by calls
    that return, after a call of [add_edge] that returns, [remove_edge] of
    the edge of the halfedge that [add_edge] returned returns as well, and
    the store is again, node by node, halfedge by halfedge, edge by edge and
    face by face, the store before [add_edge]. *)
Theorem remove_edge_add_edge s n1 n2 a s' :
  reachable s -> add_edge n1 n2 s = (Ok a, s') ->
  remove_edge (edge_of s' a) s' = (Ok tt, s).
Proof.
  intros R H. pose proof (reachable_well_formed s R) as W.
  pose proof (reachable_coherent s R) as Hc.
  pose proof (wf_attaching s W) as A. pose proof (at_linked s A) as Hl.
  pose proof (add_edge_coherent s n1 n2 a s' W Hc H) as Hc'.
  destruct (add_edge_links s n1 n2 a s' W H)
    as (m1 & m2 & b & e & pa & nb & pb & na & -> & -> & Hm & Hfresh & Ees & Hc1 & Hc2 &
        Na & Nb & Va & Vb & Eold & Eh & Epos & Eedge).
  destruct (add_edge_well_formed s _ _ a s' W H)
    as (W' & m1' & m2' & b' & _ & _ & _ & Da & Db & Hab & El & Pa & Pb & Oa & Ob &
        Fa & Fb & Eold' & Efs & End).
  assert (edges s' !! e = Some (mkEdge a b)) as Hr by by rewrite Ees, lookup_insert_eq.
  destruct (at_edge s' (wf_attaching s' W') e _ Hr) as (_ & Pab & _ & Ea & _).
  simpl in Pab, Ea. assert (b' = b) as -> by congruence. rewrite Ea.
  destruct (remove_edge_runs s' e _ W' Hc' Hr) as [s'' Hrun]. rewrite Hrun. f_equal.
  pose proof (remove_edge_Ok _ _ _ _ Hrun) as (r & s1 & s2 & Hr' & F1 & F2 & Es'').
  assert (r = mkEdge a b) as -> by congruence. cbn [e_he1 e_he2] in F1, F2, Es''.
  assert (s1 = s') as ->.
  { destruct F1 as [[_ ->]|(f & Hf & _)]; [done|congruence]. }
  assert (s2 = s') as ->.
  { destruct F2 as [[_ ->]|(f & Hf & _)]; [done|congruence]. }
  destruct (remove_edge_shape s' e _ W' Hr) as (El2 & Eo2 & Ep2 & Ee2 & En2 & Ev2 & Eh2 & Ees2).
  cbn [e_he1 e_he2] in El2, Eo2, Ep2, Ee2, En2, Ev2, Eh2, Ees2. rewrite <- Es'' in *.
  assert (forall h, live s h -> h <> a /\ h <> b) as Hold by (intros h L; split; congruence).
  assert (forall x, x <> a -> x <> b -> face_of s'' x = face_of s' x) as Ef2.
  { intros x ? ?. rewrite Es''. rewrite face_of_without_edge by done.
    by rewrite !face_of_detached. }
  apply HDS_ext_live.
  - apply nodes_ext.
    + intros m. rewrite Es''.
      change (nodes (without_edge ?t _ _ _)) with (nodes t).
      by rewrite !nodes_detached, End.
    + intros m. rewrite Es''.
      change (position_of (without_edge ?t _ _ _) m) with (position_of t m).
      by rewrite !position_of_detached, Epos.
    + intros m. rewrite Eh2, Eh, Na, Nb.
      destruct (decide (m = m1 /\ halfedge_of s m1 = None)) as [[-> Hiso]|Hn1].
      { rewrite decide_True by done.
        destruct Hc1 as [(_ & _ & ->)|[? _]]; [|done]. by rewrite decide_False by tauto. }
      destruct (decide (m = m2 /\ halfedge_of s m2 = None)) as [[-> Hiso]|Hn2].
      { rewrite decide_False by congruence. rewrite decide_True by done.
        destruct Hc2 as [(_ & _ & ->)|[? _]]; [|done]. by rewrite decide_False by tauto. }
      rewrite !decide_False; [done|..].
      * intros Hb. destruct (at_node s A m b Hb) as [? _]. done.
      * intros Ha. destruct (at_node s A m a Ha) as [? _]. done.
  - rewrite Ees2, Ees, delete_insert_eq. by apply delete_id.
  - rewrite Es''. change (faces (without_edge ?t _ _ _)) with (faces t).
    by rewrite !faces_detached.
  - intros h. rewrite El2, El. split.
    + intros ([->|[->|?]] & ? & ?); done.
    + intros L. destruct (Hold h L). auto.
  - intros h Lh. apply El2 in Lh as (Lh & Xa & Xb).
    apply El in Lh as [->|[->|L]]; [done..|].
    destruct (Eold' h L) as (Eo & Ep & Ef). destruct (Eold h L) as (En & Ev).
    rewrite Eo2, Ep2, Ee2, Ef2, En2, Ev2 by done.
    rewrite Eo, Ep, Ef, Eedge, Na, Nb, Va, Vb, En, Ev by done.
    split_and!; try done.
    + destruct (decide (h = pb)) as [->|Hpb].
      { destruct Hc2 as [(_ & -> & _)|(_ & _ & _ & ->)]; done. }
      destruct (decide (h = pa)) as [->|Hpa]; [|done].
      destruct Hc1 as [(_ & -> & _)|(_ & _ & _ & ->)]; done.
    + destruct (decide (h = na)) as [->|Hna].
      { destruct Hc2 as [(_ & _ & ->)|(_ & L2 & _ & ->)]; [done|].
        symmetry. by apply (lk_next_prev s Hl). }
      destruct (decide (h = nb)) as [->|Hnb]; [|done].
      destruct Hc1 as [(_ & _ & ->)|(_ & L1 & _ & ->)]; [done|].
      symmetry. by apply (lk_next_prev s Hl).
Qed.

(** ** More on the stores between two calls *)

(** [X19] On a well-formed store, at a node that is not isolated,
    [find_free_incident_halfedge] finds a free incident halfedge whenever
    the node has one: it returns a halfedge of the store into the node whose
    face is null, or, when the node has no such halfedge, throws
    [bad_topology_error]; nothing else can happen, and the store is not
    changed.  At an isolated node the assertion fails. *)
Theorem find_free_incident_halfedge_complete s n :
  well_formed s -> is_Some (nodes s !! n) ->
  (halfedge_of s n <> None ->
     (exists g, find_free_incident_halfedge (Some n) s = (Ok g, s) /\ free_incident s n g) \/
     (find_free_incident_halfedge (Some n) s = (Err bad_topology_error, s) /\
      ~ exists g, free_incident s n g)) /\
  (halfedge_of s n = None -> find_free_incident_halfedge (Some n) s = (Err Fault, s)).
Proof.
  intros W Ln. pose proof (wf_attaching s W) as Hat. pose proof (at_linked s Hat) as Hl.
  split.
  - intros Hn. destruct (halfedge_of s n) as [h0|] eqn:Eh0; [|done].
    destruct (at_node s Hat n h0 Eh0) as [L0 O0].
    pose proof (live_pair s Hl h0 L0) as Ls.
    assert (target_of s (pair_of s h0) = Some n) as Ts.
    { unfold target_of. by rewrite (lk_pair s Hl). }
    rewrite (find_free_incident_halfedge_run s n h0 Eh0 L0).
    destruct (fan_cycle s (pair_of s h0) n Hat Ls Ts) as (N & HN & Hper & _ & _ & Hall).
    destruct (free_walk_outcome s (pair_of s h0) (closed_links_linked s Hl) Ls)
      as [Hfound Hturn].
    destruct (first_index (fun m => face_of s (Nat.iter m (around s) (pair_of s h0)) = None) N)
      as [(k & Hk & Hfree & Hfirst)|Hno].
    + left. exists (Nat.iter k (around s) (pair_of s h0)). split; [by apply Hfound|].
      split_and!; [by apply live_iter|done|by rewrite (target_iter s Hl)].
    + right. split.
      * apply (Hturn N HN Hper). intros j Hj. apply Hno. lia.
      * intros (g & Lg & Fg & Tg). destruct (Hall g Lg Tg) as (t & Ht & Et).
        apply (Hno t); [lia|]. by rewrite Et.
  - intros Hiso. unfold find_free_incident_halfedge.
    rewrite (bind_run _ _ _ _ _ (is_isolated_run n s Ln)).
    by rewrite bool_decide_eq_true_2 by done.
Qed.

(** [X20] In every store reached by calls that return, the two halfedges of
    an edge never run around the same face: when they both have a face, the
    two faces are different. *)
Theorem reachable_two_sided s e r f :
  reachable s -> edges s !! e = Some r ->
  face_of s (e_he1 r) = Some f -> face_of s (e_he2 r) <> Some f.
Proof.
  intros R Hr Hf Hf'. pose proof (reachable_well_formed s R) as W.
  pose proof (reachable_coherent s R) as Hc.
  pose proof (at_linked s (wf_attaching s W)) as Hl.
  destruct (edge_halfedges s e r W Hr) as (La & Lb & _).
  apply (two_sided_coherent s e W Hc r f Hr Hf).
  by apply (co_cycle_face s (e_he1 r) f (e_he2 r)).
Qed.

(** One side of [split_edge]: one more edge. *)
Lemma split_side_edges (there : bool) n_new n3 ha h5 hb h6 s u s' :
  well_formed s ->
  (if there then
     let* h3 := add_edge n_new n3 in
     let* h3p := he_pair h3 in
     let* _ := add_face ha h5 h3p in
     let* h1p := he_pair hb in
     let* _ := add_face h3 h6 h1p in
     ret tt
   else ret tt) s = (Ok u, s') ->
  size (edges s') = size (edges s) + (if there then 1 else 0).
Proof.
  intros Hwf H. destruct there.
  - apply bind_Ok in H as (h3 & s1 & H1 & H).
    pose proof (add_edge_edges _ _ _ _ _ H1) as D1.
    apply add_edge_well_formed in H1 as (Hwf1 & _); [|done].
    apply bind_Ok in H as (h3p & s0 & Hp & H). apply he_pair_Ok in Hp as (-> & _ & ->).
    apply bind_Ok in H as (f1 & s2 & H2 & H).
    pose proof (add_face_edges _ _ _ _ _ _ Hwf1 H2) as D2.
    apply add_face_count in H2 as (Hwf2 & _); [|done].
    apply bind_Ok in H as (h1p & s0 & Hp & H). apply he_pair_Ok in Hp as (-> & _ & ->).
    apply bind_Ok in H as (f2 & s3 & H3 & H).
    pose proof (add_face_edges _ _ _ _ _ _ Hwf2 H3) as D3.
    apply ret_Ok in H as [_ <-]. rewrite D3, D2, D1. lia.
  - apply ret_Ok in H as [_ <-]. lia.
Qed.

(** [X21] A call [split_edge(e, p)] that returns on a well-formed store has
    put one node into the store, the node that it returns, and has left the
    other nodes there; the store has one edge more for the split, and one
    more for every side of [e] that had a face; and it is well formed
    again. *)
Theorem split_edge_returns s e p n s' :
  well_formed s -> split_edge e p s = (Ok n, s') ->
  (exists n', n = Some n' /\ nodes s !! n' = None /\
     forall m, is_Some (nodes s' !! m) <-> m = n' \/ is_Some (nodes s !! m)) /\
  size (edges s') = size (edges s) + 1 + sides_with_face s e /\
  well_formed s'.
Proof.
  intros Hwf H. pose proof (keeps_split_edge e p s n s' Hwf H) as W'.
  unfold split_edge in H.
  apply bind_Ok in H as (h1 & s0 & Hh1 & H). apply he1_Ok in Hh1 as (-> & r & Hr & ->).
  apply bind_Ok in H as (h2 & s0 & Hh2 & H). apply he2_Ok in Hh2 as (-> & r' & Hr' & ->).
  rewrite Hr in Hr'. injection Hr' as <-.
  apply bind_Ok in H as (n1 & s0 & Ho & H). apply he_origin_Ok in Ho as (-> & L1 & ->).
  apply bind_Ok in H as (n2 & s0 & Ho & H). apply he_origin_Ok in Ho as (-> & L2 & ->).
  apply bind_Ok in H as (b1 & s0 & Hb & H). apply is_boundary_Ok in Hb as (-> & _ & ->).
  apply bind_Ok in H as (b2 & s0 & Hb & H). apply is_boundary_Ok in Hb as (-> & _ & ->).
  apply bind_Ok in H as ([[h5 h6] n3] & s0 & Hs1 & H).
  assert (s0 = s) as ->.
  { unfold record_side in Hs1. destruct (negb _); minv; done. }
  apply bind_Ok in H as ([[h7 h8] n4] & s0 & Hs2 & H).
  assert (s0 = s) as ->.
  { unfold record_side in Hs2. destruct (negb _); minv; done. }
  apply bind_Ok in H as ([] & s1 & Hrem & H).
  pose proof (remove_edge_well_formed _ _ _ _ Hwf Hrem) as Hwf1.
  destruct (remove_edge_links s e r tt s1 Hwf Hr Hrem) as (_ & _ & _ & _ & _ & _ & D1).
  pose proof (remove_edge_Ok _ _ _ _ Hrem) as (r' & t1 & t2 & Hr' & F1 & F2 & Es1).
  assert (forall m, is_Some (nodes s1 !! m) <-> is_Some (nodes s !! m)) as N1.
  { intros m. rewrite Es1. change (nodes (without_edge ?t _ _ _)) with (nodes t).
    rewrite !nodes_detached.
    destruct (face_removed_count _ _ _ F2) as (_ & -> & _).
    destruct (face_removed_count _ _ _ F1) as (_ & -> & _). done. }
  apply bind_Ok in H as (n_new & s2 & Hnode & H).
  pose proof (add_node_well_formed _ _ _ _ Hwf1 Hnode) as Hwf2.
  pose proof (add_node_Ok _ _ _ _ Hnode) as (E2 & _).
  rewrite add_node_run in Hnode. injection Hnode as <- <-.
  set (n' := fresh (dom (nodes s1))) in *.
  assert (nodes s !! n' = None) as Hfresh.
  { destruct (nodes s !! n') eqn:E; [|done].
    assert (is_Some (nodes s1 !! n')) as [? Hin] by (apply N1; eauto).
    assert (nodes s1 !! n' = None) by apply not_elem_of_dom, is_fresh. congruence. }
  set (s2 := with_nodes s1 _) in *.
  assert (forall m, is_Some (nodes s2 !! m) <-> m = n' \/ is_Some (nodes s !! m)) as N2.
  { intros m. rewrite <- N1. unfold s2. simpl. destruct (decide (m = n')) as [->|Hm].
    - rewrite lookup_insert_eq. split; [by left|eauto].
    - rewrite lookup_insert_ne by done. split; [by right|by intros [?|?]]. }
  assert (size (edges s) = S (size (edges s2))) as D2.
  { rewrite (sl_edges _ _ E2), D1. rewrite <- (insert_delete_id (edges s) e r Hr) at 1.
    by rewrite map_size_insert_None by apply lookup_delete_eq. }
  apply bind_Ok in H as (h1' & s3 & He1 & H).
  pose proof (add_edge_edges _ _ _ _ _ He1) as D3.
  apply add_edge_well_formed in He1 as (Hwf3 & ? & ? & ? & _ & _ & _ & _ & _ & _ & _ &
      _ & _ & _ & _ & _ & _ & _ & F3 & N3); [|done].
  apply bind_Ok in H as (h2' & s4 & He2 & H).
  pose proof (add_edge_edges _ _ _ _ _ He2) as D4.
  apply add_edge_well_formed in He2 as (Hwf4 & ? & ? & ? & _ & _ & _ & _ & _ & _ & _ &
      _ & _ & _ & _ & _ & _ & _ & F4 & N4); [|done].
  apply bind_Ok in H as ([] & s5 & Hside1 & H).
  pose proof (split_side_edges _ _ _ _ _ _ _ _ _ _ Hwf4 Hside1) as D5.
  apply split_side_count in Hside1 as (Hwf5 & _ & N5); [|done].
  apply bind_Ok in H as ([] & s6 & Hside2 & H).
  pose proof (split_side_edges _ _ _ _ _ _ _ _ _ _ Hwf5 Hside2) as D6.
  apply split_side_count in Hside2 as (_ & _ & N6); [|done].
  apply ret_Ok in H as [En Es]. subst n s'. split_and!; [|idtac|done].
  - exists n'. split_and!; [done|done|].
    intros m. rewrite N6, N5, N4, N3. apply N2.
  - rewrite D6, D5, D4, D3, D2. unfold sides_with_face. rewrite Hr.
    destruct (face_of s (e_he1 r)), (face_of s (e_he2 r));
      rewrite ?bool_decide_eq_true_2, ?bool_decide_eq_false_2 by done; simpl; lia.
Qed.

(** * The stores reached when the caller goes on after exceptions *)

(** ** Computations that throw no exception *)





















(** ** The invariant of the stores *)




(** ** A call of [add_edge] that throws *)







End Proofs.

(** * The theorems on the sample meshes *)

Section Examples.
#[local] Existing Instance Z_kernel.

Lemma triangle_reachable : reachable triangle.
Proof. apply all_return_reachable; [apply reachable_empty|vm_compute; reflexivity]. Qed.

Lemma triangle_well_formed : well_formed triangle.
Proof. apply reachable_well_formed, triangle_reachable. Qed.

Lemma pinned_well_formed : well_formed pinned.
Proof.
  apply reachable_well_formed, all_return_reachable; [apply triangle_reachable|].
  vm_compute; reflexivity.
Qed.

Lemma star_well_formed : well_formed star.
Proof.
  apply reachable_well_formed, all_return_reachable; [apply reachable_empty|].
  vm_compute; reflexivity.
Qed.

Lemma unattached_attaching : attaching unattached.
Proof.
  unfold unattached.
  destruct (get_new_edge _) as [[e|?] s'] eqn:E; [|done].
  simpl. eapply get_new_edge_attaching; [|exact E].
  apply wf_attaching, reachable_well_formed, all_return_reachable; [apply triangle_reachable|].
  vm_compute; reflexivity.
Qed.




(** In the triangle with the hanging node, the boundary halfedges [3], [1]
    and [5] are free and form a closed chain; [add_face] throws
    [bad_topology_error], not [add_face_error]. *)
Lemma add_face_pinned_bad_topology :
  all_free pinned 3 1 5 /\ closed_chain pinned 3 1 5 /\
  add_face 3 1 5 pinned = (Err bad_topology_error, pinned).
Proof. vm_compute. auto. Qed.

(** [add_face] on the halfedges of the face of the triangle, and on
    boundary halfedges that do not chain. *)
Lemma add_face_rejects_triangle :
  add_face 0 2 4 triangle = (Err (add_face_error NOT_FREE), triangle) /\
  add_face 1 3 3 triangle = (Err (add_face_error NOT_A_CHAIN), triangle).
Proof.
  split.
  - assert (~ all_free triangle 0 2 4) as Hn.
    { intros (H & _). vm_compute in H. discriminate. }
    refine (proj1 (add_face_rejects triangle 0 2 4 _ _ _ _ _ _) Hn); vm_compute; eauto.
  - assert (all_free triangle 1 3 3) as Hf by (vm_compute; auto).
    assert (~ closed_chain triangle 1 3 3) as Hn.
    { intros (_ & H & _). vm_compute in H. discriminate. }
    refine (proj2 (add_face_rejects triangle 1 3 3 _ _ _ _ _ _) Hf Hn); vm_compute; eauto.
Defined.

(** Attaching the new halfedge [6] at the isolated node [3], and at the
    node [1] of the triangle; and attaching the halfedge [2] of the star,
    which leaves the node [0], at the node [1]. *)
Lemma attach_halfedge_to_node_splices_unattached :
  attach_halfedge_to_node 6 (Some 3) unattached = (Ok tt, attached_isolated unattached 6 3) /\
  (exists g, free_incident unattached 1 g /\
     attach_halfedge_to_node 6 (Some 1) unattached = (Ok tt, attached_after unattached 6 1 g)) /\
  (exists g, free_incident star 1 g /\
     attach_halfedge_to_node 2 (Some 1) star = (Ok tt, attached_after star 2 1 g)).
Proof.
  assert (live unattached 6) as L by (vm_compute; eauto).
  assert (forall n, origin_of unattached 6 <> Some n) as O.
  { intros n E. vm_compute in E. discriminate. }
  split_and!.
  - assert (is_Some (nodes unattached !! 3)) as Ln by (vm_compute; eauto).
    destruct (attach_halfedge_to_node_splices unattached 6 3 unattached_attaching L (O 3) Ln)
      as (H & _ & _).
    apply H. vm_compute. reflexivity.
  - assert (is_Some (nodes unattached !! 1)) as Ln by (vm_compute; eauto).
    destruct (attach_halfedge_to_node_splices unattached 6 1 unattached_attaching L (O 1) Ln)
      as (_ & H & _).
    assert (halfedge_of unattached 1 <> None) as Hn.
    { intros E. vm_compute in E. discriminate. }
    assert (exists g, free_incident unattached 1 g) as Hex.
    { exists 3. vm_compute. eauto. }
    destruct (H Hn Hex) as (g & Hg & Hrun & _). eauto.
  - assert (live star 2) as L0 by (vm_compute; eauto).
    assert (origin_of star 2 <> Some 1) as O0.
    { intros E. vm_compute in E. discriminate. }
    assert (is_Some (nodes star !! 1)) as Ln by (vm_compute; eauto).
    destruct (attach_halfedge_to_node_splices star 2 1 (wf_attaching _ star_well_formed)
                L0 O0 Ln) as (_ & H & _).
    assert (halfedge_of star 1 <> None) as Hn.
    { intros E. vm_compute in E. discriminate. }
    assert (exists g, free_incident star 1 g) as Hex.
    { exists 0. vm_compute. eauto. }
    destruct (H Hn Hex) as (g & Hg & Hrun & _). eauto.
Defined.

(** The halfedge [0] of the star leaves the node [0] already.  Attaching it
    there again returns: the free incident halfedge found is its pair [1],
    and the call leaves [0.prev = 1] and [1.next = 4], so that no halfedge
    [g] has [g.next = 0] and [0.prev = g].  In the second call of
    [add_edge] that throws in [thrown_calls], the halfedge [11], whose
    origin is null, is attached at the node [2], where the halfedge [8] is a
    free incident halfedge, left by the first call that threw: the call
    throws [bad_topology_error]. *)
Lemma attach_halfedge_to_node_attached_before :
  (reachable star /\ live star 0 /\ origin_of star 0 = Some 0 /\
   halfedge_of star 0 <> None /\
   find_free_incident_halfedge (Some 0) star = (Ok 1, star) /\
   exists s', attach_halfedge_to_node 0 (Some 0) star = (Ok tt, s') /\
     prev_of s' 0 = 1 /\ next_of s' 1 = 4 /\
     ~ exists g, next_of s' g = 0 /\ prev_of s' 0 = g) /\
  (live half_attached 11 /\ origin_of half_attached 11 = None /\
   halfedge_of half_attached 2 <> None /\ free_incident half_attached 2 8 /\
   exists s', attach_halfedge_to_node 11 (Some 2) half_attached =
     (Err bad_topology_error, s')).
Proof.
  split.
  - assert (exists s', attach_halfedge_to_node 0 (Some 0) star = (Ok tt, s') /\
              prev_of s' 0 = 1 /\ next_of s' 1 = 4) as (s' & Hrun & Hp & Hn)
      by (eexists; vm_compute; split_and!; reflexivity).
    split_and!.
    + apply all_return_reachable; [apply reachable_empty|vm_compute; reflexivity].
    + vm_compute. eauto.
    + vm_compute. reflexivity.
    + intros E. vm_compute in E. discriminate.
    + vm_compute. reflexivity.
    + exists s'. split_and!; [done..|]. intros (g & Hg & Hg').
      rewrite Hp in Hg'. subst g. rewrite Hn in Hg. discriminate.
  - split_and!.
    + vm_compute. eauto.
    + vm_compute. reflexivity.
    + intros E. vm_compute in E. discriminate.
    + vm_compute. eauto.
    + eexists. vm_compute. reflexivity.
Qed.

(** At the node [1] of the triangle the walk starts at the halfedge [0],
    which has a face, and returns the next one, [3]. *)
Lemma find_free_incident_halfedge_walk_triangle :
  find_free_incident_halfedge (Some 1) triangle = (Ok 3, triangle).
Proof.
  assert (closed_links triangle) as Hc.
  { apply closed_links_linked, at_linked, wf_attaching, triangle_well_formed. }
  assert (halfedge_of triangle 1 = Some 1) as Hn by (vm_compute; reflexivity).
  assert (live triangle 1) as L by (vm_compute; eauto).
  destruct (find_free_incident_halfedge_walk triangle 1 1 Hc Hn L) as [Hfound _].
  apply (Hfound 1).
  - vm_compute. reflexivity.
  - intros j Hj. replace j with 0 by lia. vm_compute. discriminate.
Defined.

(** In the star, [make_adjacent] moves the halfedge [0] behind the
    halfedge [5]. *)
Lemma make_adjacent_splices_star :
  exists s', make_adjacent 5 0 star = (Ok true, s') /\
    next_of s' 5 = 0 /\ prev_of s' 0 = 5.
Proof.
  assert (live star 5) as Li by (vm_compute; eauto).
  assert (live star 0) as Lo by (vm_compute; eauto).
  assert (target_of star 5 = origin_of star 0) as Ht by (vm_compute; reflexivity).
  assert (pair_of star 0 <> 5) as Hp by (vm_compute; discriminate).
  assert (next_of star 5 <> 0) as Hn by (vm_compute; discriminate).
  assert (find_free_incident_halfedge2 (pair_of star 0) 5 star = (Ok 1, star)) as Hg
    by (vm_compute; reflexivity).
  destruct (make_adjacent_splices star 5 0 star_well_formed Li Lo Ht Hp) as [_ H].
  eexists. exact (H Hn 1 Hg).
Defined.

(** On the path, [make_adjacent(0, 1)] is called with [out = in.pair]: the
    free halfedge found is [in] itself, the third assignment overwrites the
    first, and [in.next] is not [out] afterwards. *)
Lemma make_adjacent_own_pair :
  target_of path 0 = origin_of path 1 /\
  exists s', make_adjacent 0 1 path = (Ok true, s') /\ next_of s' 0 <> 1.
Proof.
  split; [vm_compute; reflexivity|].
  exists (make_adjacent 0 1 path).2. split; [vm_compute; reflexivity|].
  vm_compute. discriminate.
Qed.


(** A point below the triangle. *)
Lemma locate_outside_mesh_triangle :
  exists h0 hs hi,
    walks triangle ((2, -1)%Z : Point2) nowhere h0 h0 hs hi /\
    face_of triangle (pair_of triangle hi) = None.
Proof.
  destruct (locate_outside_mesh (K:=Z_kernel) 10 (2, -1)%Z nowhere (Some 0) triangle
              (mkLocated None OUTSIDE_MESH None (Some 0)) triangle)
    as (_ & h0 & hs & hi & Hw & _ & _ & Hf & _).
  - vm_compute. reflexivity.
  - reflexivity.
  - eauto.
Defined.


(** The failure of the third test of [add_face] in the triangle with the
    hanging node. *)
Lemma make_adjacent_never_false_pinned :
  add_face 3 1 5 pinned = (Err bad_topology_error, pinned).
Proof.
  destruct make_adjacent_never_false as (_ & _ & H).
  refine (proj1 (H 3 1 5 pinned bad_topology_error pinned _ _ _ _ _ _ _ _ _));
    vm_compute; eauto 10.
Defined.

(** ** The further properties on the sample meshes *)

Lemma wire_reachable : reachable wire.
Proof. apply all_return_reachable; [apply reachable_empty|vm_compute; reflexivity]. Qed.

Lemma star_reachable : reachable star.
Proof. apply all_return_reachable; [apply reachable_empty|vm_compute; reflexivity]. Qed.

Lemma full_reachable : reachable full.
Proof. apply all_return_reachable; [apply reachable_empty|vm_compute; reflexivity]. Qed.

(** The face [0] of the triangle: its halfedges are [0], [2] and [4]. *)
Lemma reachable_faces_are_triangles_triangle :
  exists hf, live triangle hf /\
    next_of triangle (next_of triangle (next_of triangle hf)) = hf /\
    forall x, live triangle x ->
      (face_of triangle x = Some 0 <->
       x ∈ [hf; next_of triangle hf; next_of triangle (next_of triangle hf)]).
Proof.
  destruct (reachable_faces_are_triangles triangle triangle_reachable) as [_ H].
  destruct (H 0 (mkFace (Some 0))) as (hf & _ & L & E & _ & Hx).
  - vm_compute. reflexivity.
  - exists hf. auto.
Defined.

(** The halfedge [2] of the triangle runs from the node [1] to the
    node [2]. *)
Lemma reachable_incidence_triangle :
  exists n m, origin_of triangle 2 = Some n /\ target_of triangle 2 = Some m /\ n <> m /\
    is_Some (halfedge_of triangle n) /\ is_Some (halfedge_of triangle m).
Proof.
  destruct (reachable_incidence triangle triangle_reachable) as [H _].
  apply H. vm_compute. eauto.
Defined.

(** The halfedges into the node [0] of the star. *)
Lemma reachable_fan_star :
  exists N, 0 < N /\ Nat.iter N (around star) 1 = 1 /\
    forall y, live star y -> target_of star y = Some 0 ->
      exists t, t < N /\ Nat.iter t (around star) 1 = y.
Proof.
  destruct (reachable_fan star 1 0 star_reachable) as (N & HN & Hc & _ & Hall & _).
  - vm_compute. eauto.
  - vm_compute. reflexivity.
  - exists N. auto.
Defined.

(** Removing the face of the triangle. *)
Lemma remove_face_reachable_triangle :
  exists s', remove_face (Some 0) triangle = (Ok tt, s') /\
    faces s' = delete 0 (faces triangle) /\ same_links triangle s'.
Proof.
  destruct (remove_face_reachable triangle 0 triangle_reachable)
    as (s' & H & Hf & _ & E & _).
  - vm_compute. eauto.
  - exists s'. auto.
Defined.

(** Removing the edge [0] of the triangle, which has the face on one
    side. *)
Lemma remove_edge_reachable_triangle :
  exists s', remove_edge 0 triangle = (Ok tt, s') /\
    edges s' = delete 0 (edges triangle) /\
    size (faces s') + sides_with_face triangle 0 = size (faces triangle).
Proof.
  destruct (remove_edge_reachable triangle 0 (mkEdge 0 1) triangle_reachable)
    as (s' & H & He & _ & _ & Hn).
  - vm_compute. reflexivity.
  - exists s'. auto.
Defined.

(** An edge between the nodes [1] and [2] of the star, at each of which
    the halfedge from the node [0] is free. *)
Lemma add_edge_returns_star :
  exists a s', add_edge (Some 1) (Some 2) star = (Ok a, s') /\ well_formed s' /\
    origin_of s' a = Some 1 /\ target_of s' a = Some 2.
Proof.
  destruct (add_edge_returns star 1 2 star_well_formed)
    as (a & s' & H & W & _ & _ & _ & O & T & _).
  - discriminate.
  - vm_compute. eauto.
  - vm_compute. eauto.
  - right. exists 0. vm_compute. eauto.
  - right. exists 2. vm_compute. eauto.
  - exists a, s'. auto.
Defined.

(** An edge to the node [2] of the two faces, whose incident halfedges
    all have a face. *)
Lemma add_edge_throws_full :
  exists s' a b,
    add_edge (Some 1) (Some 2) full = (Err bad_topology_error, s') /\
    size (edges s') = S (size (edges full)) /\ live s' a /\ live s' b.
Proof.
  destruct (add_edge_throws full 1 2 2 (reachable_well_formed full full_reachable))
    as (s' & a & b & H & _ & Hn & _ & _ & La & Lb).
  - discriminate.
  - vm_compute. eauto.
  - vm_compute. eauto.
  - by right.
  - vm_compute. discriminate.
  - apply no_free_incident. vm_compute. reflexivity.
  - exists s', a, b. auto.
Defined.

(** The face of the triangle, added to its three edges. *)
Lemma add_face_returns_wire :
  exists f s', add_face 0 2 4 wire = (Ok (Some f), s') /\
    faces s' = <[f := mkFace (Some 0)]> (faces wire) /\
    next_of s' 0 = 2 /\ next_of s' 2 = 4 /\ next_of s' 4 = 0 /\ well_formed s'.
Proof.
  assert (exists s', add_face 0 2 4 wire = (Ok (Some 0), s')) as [s' H]
    by (eexists; vm_compute; reflexivity).
  destruct (add_face_returns wire 0 2 4 (Some 0) s'
              (reachable_well_formed wire wire_reachable) H)
    as (f & Hf & _ & Hfs & N1 & N2 & N3 & _ & _ & _ & _ & _ & W).
  injection Hf as <-. exists 0, s'. auto 10.
Defined.

(** The call of [add_face] that fails in the triangle with the hanging
    node. *)
Lemma add_face_failure_is_safe_pinned :
  exists s', add_face 3 1 5 pinned = (Err bad_topology_error, s') /\
    well_formed s' /\ relinked pinned s'.
Proof.
  assert (exists s', add_face 3 1 5 pinned = (Err bad_topology_error, s')) as [s' H]
    by (eexists; vm_compute; reflexivity).
  exists s'. split; [exact H|].
  exact (add_face_failure_is_safe pinned 3 1 5 bad_topology_error s' pinned_well_formed H).
Defined.

(** Adding the face of the triangle and removing it again. *)
Lemma remove_face_add_face_wire :
  exists s', add_face 0 2 4 wire = (Ok (Some 0), s') /\
    remove_face (Some 0) s' = (Ok tt, wire).
Proof.
  assert (exists s', add_face 0 2 4 wire = (Ok (Some 0), s')) as [s' H]
    by (eexists; vm_compute; reflexivity).
  destruct (remove_face_add_face wire 0 2 4 (Some 0) s'
              (reachable_well_formed wire wire_reachable) H)
    as (s3 & _ & _ & Hr & E).
  exists s'. split; [exact H|].
  rewrite <- E; [exact Hr|vm_compute; reflexivity..].
Defined.

(** The two halfedges [3] and [0] into the node [1] of the triangle: [3]
    is free, and the walk from [0] comes to [3] at once. *)
Lemma find_free_incident_halfedge2_walk_triangle :
  find_free_incident_halfedge2 3 0 triangle = (Ok 3, triangle) /\
  find_free_incident_halfedge2 0 3 triangle = (Err bad_topology_error, triangle).
Proof.
  assert (closed_links triangle) as Hc.
  { apply closed_links_linked, at_linked, wf_attaching, triangle_well_formed. }
  assert (live triangle 0) as L0 by (vm_compute; eauto).
  assert (live triangle 3) as L3 by (vm_compute; eauto).
  split.
  - destruct (find_free_incident_halfedge2_walk triangle 3 0 Hc L3 L0) as (H & _ & _).
    apply (H eq_refl 0); [vm_compute; reflexivity|]. intros j Hj. lia.
  - destruct (find_free_incident_halfedge2_walk triangle 0 3 Hc L0 L3) as (_ & H & _).
    apply (H eq_refl 0); [vm_compute; reflexivity|].
    intros j Hj. replace j with 0 by lia. vm_compute. discriminate.
Defined.

(** A point inside the triangle. *)
Lemma locate_in_face_triangle :
  exists hs,
    locate 10 ((1, 1)%Z : Point2) nowhere None triangle =
      (Ok (mkLocated (Some 0) IN_FACE None None), triangle) /\
    face_of triangle hs = Some 0 /\
    on_positive_side triangle ((1, 1)%Z : Point2) (next_of triangle hs) /\
    on_positive_side triangle ((1, 1)%Z : Point2) (next_of triangle (next_of triangle hs)).
Proof.
  destruct (locate_in_face (K:=Z_kernel) 10 (1, 1)%Z nowhere None triangle
              (mkLocated (Some 0) IN_FACE None None) triangle triangle_reachable)
    as (_ & f & hs & Hr & _ & _ & Hf & Hp1 & Hp2).
  - vm_compute. reflexivity.
  - reflexivity.
  - injection Hr as <-. exists hs. split_and!; [vm_compute; reflexivity|done..].
Defined.

(** Removing the node [0] of the triangle, with its two edges and the
    face. *)
Lemma remove_node_reachable_triangle :
  exists s', remove_node (Some 0) triangle = (Ok tt, s') /\ well_formed s' /\
    (forall h, live s' h <->
       live triangle h /\ origin_of triangle h <> Some 0 /\ target_of triangle h <> Some 0).
Proof.
  destruct (remove_node_reachable triangle 0 triangle_reachable)
    as (s' & H & W & _ & El & _).
  - vm_compute. eauto.
  - exists s'. auto.
Defined.

(** A boundary halfedge of the triangle. *)
Lemma boundary_halfedge_finds_triangle :
  exists h, boundary_halfedge triangle = (Ok (Some h), triangle) /\
    live triangle h /\ face_of triangle h = None.
Proof.
  destruct (boundary_halfedge_finds triangle triangle_well_formed) as (res & H & Hres).
  destruct res as [h|].
  - exists h. destruct Hres as (L & F & _). auto.
  - exfalso. apply (Hres 1); [vm_compute; eauto|vm_compute; reflexivity].
Defined.

(** Splitting the face of the triangle. *)
Lemma split_face_returns_triangle :
  exists s', split_face (Some 0) (1, 1)%Z triangle = (Ok (Some 3), s') /\
    size (edges s') = size (edges triangle) + 3 /\
    size (faces s') = size (faces triangle) + 2.
Proof.
  assert (exists s', split_face (Some 0) (1, 1)%Z triangle = (Ok (Some 3), s')) as [s' H]
    by (eexists; vm_compute; reflexivity).
  destruct (split_face_returns triangle (Some 0) (1, 1)%Z (Some 3) s'
              triangle_well_formed H) as (_ & He & Hf & _).
  exists s'. auto.
Defined.

(** Adding an edge between the nodes [1] and [2] of the star and removing
    it again. *)
Lemma remove_edge_add_edge_star :
  exists s', add_edge (Some 1) (Some 2) star = (Ok 6, s') /\
    remove_edge (edge_of s' 6) s' = (Ok tt, star).
Proof.
  assert (exists s', add_edge (Some 1) (Some 2) star = (Ok 6, s')) as [s' H]
    by (eexists; vm_compute; reflexivity).
  exists s'. split; [exact H|].
  exact (remove_edge_add_edge star (Some 1) (Some 2) 6 s' star_reachable H).
Defined.

(** At the node [1] of the triangle. *)
Lemma find_free_incident_halfedge_complete_triangle :
  exists g, find_free_incident_halfedge (Some 1) triangle = (Ok g, triangle) /\
    free_incident triangle 1 g.
Proof.
  destruct (find_free_incident_halfedge_complete triangle 1 triangle_well_formed)
    as [H _].
  - vm_compute. eauto.
  - destruct H as [Hg|[He _]].
    + vm_compute. discriminate.
    + exact Hg.
    + exfalso. vm_compute in He. discriminate.
Defined.

(** The edge [0] of the triangle has the face on one side only. *)
Lemma reachable_two_sided_triangle : face_of triangle 1 <> Some 0.
Proof.
  apply (reachable_two_sided triangle 0 (mkEdge 0 1) 0 triangle_reachable).
  - vm_compute. reflexivity.
  - vm_compute. reflexivity.
Defined.

(** Splitting the edge [0] of the triangle. *)
Lemma split_edge_returns_triangle :
  exists s', split_edge 0 (2, 0)%Z triangle = (Ok (Some 3), s') /\
    size (edges s') = size (edges triangle) + 1 + sides_with_face triangle 0 /\
    well_formed s'.
Proof.
  assert (exists s', split_edge 0 (2, 0)%Z triangle = (Ok (Some 3), s')) as [s' H]
    by (eexists; vm_compute; reflexivity).
  destruct (split_edge_returns triangle 0 (2, 0)%Z (Some 3) s' triangle_well_formed H)
    as (_ & He & W).
  exists s'. auto.
Defined.

End Examples.
